(** * OgmaNeo2: sparse coder and actor kernels

    A shallow embedding of the kernels of [SparseCoder.cpp] and [Actor.cpp]
    (the PAL / experience-replay actor) together with the properties that
    the design document states about them.

    Conventions of the embedding.
    - A C++ [int] is a [Z].  The kernels index with the numbers they are
      given.  [SparseCoder::createRandom], whose weight count multiplies
      the cell counts of two grids, takes its products as 32-bit [int]s
      with their wrap-around ([wrap32]); the cell counts of a single grid
      in [initRandom] are taken as they are.
    - A C++ [float] is an IEEE-754 binary32 value: [spec_float] with a
      24-bit mantissa and [emax = 128], rounded to nearest-even.
    - [IntBuffer] and [FloatBuffer] are [std::vector]s, modelled as lists.
      [operator[]] is unchecked in C++ (reading or writing out of range is
      undefined).  In the kernels the model reads a default value there
      and leaves the buffer unchanged on a write; theorems that need a
      cell to exist carry the shape of the buffer as a hypothesis.  The
      append of [Actor::step] to the history is modelled with its bounds:
      a slot that does not exist and a store outside a slot buffer end the
      call without a result.  A buffer constructed with a negative size
      throws: there is no result either.
    - The kernels are run in their sequential form (the [KERNEL_DEBUG] /
      [KERNEL_NOTHREAD] branch): x outer, y inner. *)

From Stdlib Require Import ZArith Lia Bool List.
From Stdlib Require Import Floats.SpecFloat.
From stdpp Require Import base tactics option list list_numbers.

Local Open Scope Z_scope.

(** ** Single-precision floats *)

Module F32.
Definition prec : Z := 24.
Definition emax : Z := 128.

Definition float : Type := spec_float.

Definition add : float -> float -> float := SFadd prec emax.
Definition sub : float -> float -> float := SFsub prec emax.
Definition mul : float -> float -> float := SFmul prec emax.
Definition div : float -> float -> float := SFdiv prec emax.
Definition ltb : float -> float -> bool := SFltb.
Definition leb : float -> float -> bool := SFleb.

(** [a > b] of C++ *)
Definition gtb (a b : float) : bool := ltb b a.

(** [static_cast<float>(n)], also the implicit conversion of an [int]
    operand in a mixed expression. *)
Definition of_int (n : Z) : float := binary_normalize prec emax n 0 false.

Definition zero : float := S754_zero false.              (* 0.0f *)
Definition one : float := S754_finite false 8388608 (-23). (* 1.0f *)
Definition half : float := S754_finite false 8388608 (-24). (* 0.5f *)
Definition neg_999999 : float := S754_finite true 15999984 (-4). (* -999999.0f *)

(** [std::max(a, b)] is [(a < b) ? b : a]. *)
Definition max (a b : float) : float := if ltb a b then b else a.

Definition is_zero (a : float) : bool :=
  match a with S754_zero _ => true | _ => false end.

(** Conversion to [int] of the floor of a float (used by [project]);
    NaN and the infinities have no defined conversion and give 0. *)
Definition floor (a : float) : Z :=
  match a with
  | S754_finite s m e =>
      let n := if s then Z.neg m else Z.pos m in
      if 0 <=? e then n * 2 ^ e else n / 2 ^ (- e)
  | _ => 0
  end.

(** [a == b] of C++ *)
Definition eqb : float -> float -> bool := SFeqb.

(** [a >= b] of C++ *)
Definition geb (a b : float) : bool := leb b a.

Definition lit_0_99 : float := S754_finite false 16609444 (-24).   (* 0.99f *)
Definition lit_0_0001 : float := S754_finite false 13743895 (-37). (* 0.0001f *)
Definition lit_neg_0_0001 : float := S754_finite true 13743895 (-37). (* -0.0001f *)

(** [std::ceil(a)]: the least integral value not below [a], with the sign
    of [a] when it is zero. *)
Definition ceil (a : float) : float :=
  match a with
  | S754_finite s m e =>
      if 0 <=? e then a
      else
        let n := if s then - (Z.pos m / 2 ^ (- e))
                 else (Z.pos m + 2 ^ (- e) - 1) / 2 ^ (- e) in
        if n =? 0 then S754_zero s else of_int n
  | _ => a
  end.

(** [static_cast<int>(a)]: [a] with its fraction dropped.  NaN and the
    infinities have no defined conversion and give 0, as in [floor]. *)
Definition to_int (a : float) : Z :=
  match a with
  | S754_finite s m e =>
      let n := if 0 <=? e then Z.pos m * 2 ^ e else Z.pos m / 2 ^ (- e) in
      if s then - n else n
  | _ => 0
  end.
End F32.

#[global] Instance float_inhabited : Inhabited F32.float := populate F32.zero.

(** ** Buffers *)

Section Buffers.
Context {A : Type}.

Definition at_index (b : list A) (i : Z) : option A :=
  if i <? 0 then None else b !! Z.to_nat i.

(** [b[i]] as an rvalue *)
Definition read (d : A) (b : list A) (i : Z) : A := default d (at_index b i).

(** [b[i] = v] *)
Definition write (b : list A) (i : Z) (v : A) : list A :=
  if i <? 0 then b else <[Z.to_nat i := v]> b.

(** [b[i] = v] with the bounds looked at: a store outside [b] has no
    defined effect, and gives no buffer. *)
Definition store (b : list A) (i : Z) (v : A) : option (list A) :=
  if (0 <=? i) && (i <? Z.of_nat (length b)) then Some (write b i v) else None.
End Buffers.

Definition IntBuffer : Type := list Z.
Definition FloatBuffer : Type := list F32.float.

(** The value of a 32-bit [int] computation whose mathematical result is
    [n]: two's complement wrap-around. *)
Definition wrap32 (n : Z) : Z := (n + 2 ^ 31) mod 2 ^ 32 - 2 ^ 31.

(** [IntBuffer(n)] and [IntBuffer(n, 0)]: [n] cells of zeros.  A negative
    [n] makes the constructor throw. *)
Definition alloc (n : Z) : option IntBuffer :=
  if n <? 0 then None else Some (replicate (Z.to_nat n) 0).

(** [FloatBuffer(n, 0.0f)] *)
Definition allocFloats (n : Z) : option FloatBuffer :=
  if n <? 0 then None else Some (replicate (Z.to_nat n) F32.zero).

(** A CSDR over [columns] columns of depth [depth], as the buffers hold it:
    one cell per column, and the cell is a code of [[0, depth)]. *)
Definition isCSDR (columns depth : Z) (cs : IntBuffer) : Prop :=
  Z.of_nat (length cs) = columns /\ Forall (fun c => 0 <= c < depth) cs.

(** A sequence of writes [(i, v)] applied in order. *)
Definition writes {A} (ws : list (Z * A)) (b : list A) : list A :=
  foldl (fun b w => write b w.1 w.2) b ws.

(** A loop of read-modify-writes [b[idx k] = f k b[idx k]] over the keys [l]. *)
Definition rmw {A K} (d : A) (f : K -> A -> A) (idx : K -> Z) (l : list K)
    (b : list A) : list A :=
  foldl (fun b k => write b (idx k) (f k (read d b (idx k)))) b l.

(** The value that the last write to cell [k] stores, if there is one. *)
Fixpoint lastWrite {A} (ws : list (Z * A)) (k : nat) : option A :=
  match ws with
  | [] => None
  | (i, v) :: ws =>
      match lastWrite ws k with
      | Some v' => Some v'
      | None => if decide (0 <= i /\ Z.to_nat i = k) then Some v else None
      end
  end.

(** ** Helpers *)

Record Int2 := mkInt2 { x2 : Z; y2 : Z }.
Record Int3 := mkInt3 { x3 : Z; y3 : Z; z3 : Z }.
Record Int4 := mkInt4 { x4 : Z; y4 : Z; z4 : Z; w4 : Z }.
Record Float2 := mkFloat2 { fx : F32.float; fy : F32.float }.

#[global] Instance Int2_inhabited : Inhabited Int2 := populate (mkInt2 0 0).
#[global] Instance Int3_inhabited : Inhabited Int3 := populate (mkInt3 0 0 0).
#[global] Instance Float2_inhabited : Inhabited Float2 :=
  populate (mkFloat2 F32.zero F32.zero).

Module Helpers.
(** Modelled from the spec: [Helpers.h] is not part of the sources at
    hand.  [address2] and [address3] are the [index2] and [index3] of the
    addressing section; [address4] continues the same row-major scheme, as
    the kernels' cached form [dPartial + az * dxyz] spells out. *)
Definition address2 (pos : Int2) (dim : Z) : Z := x2 pos + y2 pos * dim.

Definition address3 (pos : Int3) (dims : Int2) : Z :=
  x3 pos + y3 pos * x2 dims + z3 pos * x2 dims * y2 dims.

Definition address4 (pos : Int4) (dims : Int3) : Z :=
  let dxy := x3 dims * y3 dims in
  let dxyz := dxy * z3 dims in
  x4 pos + y4 pos * x3 dims + z4 pos * dxy + w4 pos * dxyz.

(** Modelled from the spec: the column-major variants used by the actor.
    A hidden unit is addressed code-first inside its column, which is the
    layout [initRandom] relies on when it reads the support count of
    column [i] at row [i * hiddenSize.z]. *)
Definition address2C (pos : Int2) (dims : Int2) : Z :=
  y2 pos + x2 pos * y2 dims.

Definition address3C (pos : Int3) (dims : Int3) : Z :=
  z3 pos + y3 pos * z3 dims + x3 pos * z3 dims * y3 dims.

(** Modelled from the spec: [project(pos, ratio)] is the componentwise
    [floor(pos * ratio + ratio * 0.5)]. *)
Definition project1 (p : Z) (r : F32.float) : Z :=
  F32.floor (F32.add (F32.mul (F32.of_int p) r) (F32.mul r F32.half)).

Definition project (pos : Int2) (toScalars : Float2) : Int2 :=
  mkInt2 (project1 (x2 pos) (fx toScalars)) (project1 (y2 pos) (fy toScalars)).

(** Modelled from the spec: containment in a box whose upper corner is
    exclusive (the callers pass [center + radius + 1]). *)
Definition inBounds (pos lower upper : Int2) : bool :=
  (x2 lower <=? x2 pos) && (x2 pos <? x2 upper) &&
  (y2 lower <=? y2 pos) && (y2 pos <? y2 upper).

(** All positions of a [sx] by [sy] grid in kernel order:
    [for x in [0,sx) for y in [0,sy)]. *)
Definition grid (sx sy : Z) : list Int2 :=
  x ← seqZ 0 sx; (mkInt2 x) <$> seqZ 0 sy.

(** The doubly nested inclusive loop
    [for x in [lo.x, hi.x] for y in [lo.y, hi.y]]. *)
Definition box (lo hi : Int2) : list Int2 :=
  x ← seqZ (x2 lo) (x2 hi - x2 lo + 1);
  (mkInt2 x) <$> seqZ (y2 lo) (y2 hi - y2 lo + 1).

(** The loop [for (i = 0; i < n; i++) l[i] = f(i, l[i])]. *)
Definition for_each {A} (n : nat) (f : nat -> A -> A) (l : list A) : list A :=
  foldl (fun acc i => alter (f i) i acc) l (seq 0 n).

(** [copyInt] run over [[0, n)]: [dst[x] = src[x]]. *)
Definition copy (n : Z) (src dst : IntBuffer) : IntBuffer :=
  foldl (fun d x => write d x (read 0 src x)) dst (seqZ 0 n).

(** [copyInt(pos, rng, src, dst)] with the bounds looked at:
    [dst[pos] = src[pos]], where a cell outside [src] has no value and a
    cell outside [dst] cannot be stored into. *)
Definition copyInt (pos : Z) (src dst : IntBuffer) : option IntBuffer :=
  v ← at_index src pos; store dst pos v.

(** [copyInt] run over [[0, n)]; the first cell that is outside a buffer
    ends the loop without a result. *)
Definition copyInts (n : Z) (src dst : IntBuffer) : option IntBuffer :=
  foldl (fun d x => d ← d; copyInt x src d) (Some dst) (seqZ 0 n).

(** Modelled from the spec: [createRandom] zeroes the hidden codes with
    [fillInt] run over [[0, n)]: [dst[x] = v]. *)
Definition fill (n : Z) (v : Z) (dst : IntBuffer) : IntBuffer :=
  foldl (fun d x => write d x v) dst (seqZ 0 n).
End Helpers.

(** ** The compressed weight store *)

Module SparseMatrix.
(** Modelled from the spec: [SparseMatrix.h] is not part of the sources at
    hand.  The compressed structure is keyed by hidden unit (one row per
    unit); the nonzeros of a row come in blocks of [oneHotSize] entries,
    one block per visible column of the receptive field, so that the
    product with a one-hot input and the additive update against it touch
    one entry per block. *)
Record t := mk {
  _rowRanges : list Z;
  _columnIndices : list Z;
  _nonZeroValues : FloatBuffer
}.

(** Start offsets of the blocks of a row:
    [for (jj = rowRanges[row]; jj < rowRanges[row + 1]; jj += oneHotSize)].
    A code space that is not positive gives no block. *)
Definition blocks (m : t) (row oneHotSize : Z) : list Z :=
  let lo := read 0 (_rowRanges m) row in
  let hi := read 0 (_rowRanges m) (row + 1) in
  if 0 <? oneHotSize
  then (fun k => lo + k * oneHotSize) <$> seqZ 0 ((hi - lo + oneHotSize - 1) / oneHotSize)
  else [].

(** The entry of block [jj] selected by the one-hot input. *)
Definition slot (m : t) (codes : IntBuffer) (oneHotSize jj : Z) : Z :=
  jj + read 0 codes (Z.quot (read 0 (_columnIndices m) jj) oneHotSize).

Definition multiplyOHVs (m : t) (codes : IntBuffer) (row oneHotSize : Z) : F32.float :=
  foldl (fun sum jj => F32.add sum (read F32.zero (_nonZeroValues m) (slot m codes oneHotSize jj)))
        F32.zero (blocks m row oneHotSize).

Definition deltaOHVs (m : t) (codes : IntBuffer) (delta : F32.float)
    (row oneHotSize : Z) : t :=
  mk (_rowRanges m) (_columnIndices m)
     (foldl (fun vals jj =>
               let j := slot m codes oneHotSize jj in
               write vals j (F32.add (read F32.zero vals j) delta))
            (_nonZeroValues m) (blocks m row oneHotSize)).

Definition counts (m : t) (row : Z) : Z :=
  read 0 (_rowRanges m) (row + 1) - read 0 (_rowRanges m) row.

(** The cells that [multiplyOHVs] and [deltaOHVs] touch on a row below
    [rows], for input codes of [columns] columns with [oneHotSize] codes
    each, exist: [_rowRanges] holds the row and its successor, every block
    start of the row is a position of [_columnIndices] that names a cell
    of a column below [columns], and the block lies inside
    [_nonZeroValues]. *)
Definition fits (m : t) (rows columns oneHotSize : Z) : Prop :=
  rows < Z.of_nat (length (_rowRanges m)) /\
  forall row, 0 <= row < rows ->
    Forall (fun jj =>
              0 <= jj < Z.of_nat (length (_columnIndices m)) /\
              0 <= Z.quot (read 0 (_columnIndices m) jj) oneHotSize < columns /\
              jj + oneHotSize <= Z.of_nat (length (_nonZeroValues m)))
           (blocks m row oneHotSize).
End SparseMatrix.

#[global] Instance SparseMatrix_inhabited : Inhabited SparseMatrix.t :=
  populate (SparseMatrix.mk [] [] []).

(** ** Random numbers *)

(** Modelled from the spec: the generator of the compute system is only
    used through [std::uniform_int_distribution<int>(a, b)], which returns a
    value of [[a, b]] and advances the generator. *)
Class UniformInt (G : Type) := {
  uniform_int : Z -> Z -> G -> Z * G;
  uniform_int_range : forall a b g, a <= b -> a <= (uniform_int a b g).1 <= b
}.

(** [std::uniform_real_distribution<float>(a, b)] drawn from a generator:
    for [a < b] the value lies between [a] and [b]. *)
Class UniformReal (G : Type) := {
  uniform_real : F32.float -> F32.float -> G -> F32.float * G;
  uniform_real_range : forall a b g,
    F32.ltb a b = true ->
    F32.leb a (uniform_real a b g).1 = true /\ F32.leb (uniform_real a b g).1 b = true
}.

Record ComputeSystem (G : Type) := mkCS { _rng : G }.
Arguments mkCS {G} _.
Arguments _rng {G} _.

(** ** Streams *)

(** A stream is the sequence of the values written to it.  The raw writes
    of the code ([os.write] of the bytes of an [int], of a [float] or of a
    struct of them) are modelled by the values, member by member, not by
    their bytes.  A read that does not find its value fails; the code does
    not look at the state of the stream, and what it would go on with is
    not modelled. *)
Inductive Datum := DInt (n : Z) | DFloat (x : F32.float).

Definition Stream : Type := list Datum.

Module Raw.
Definition readInt (str : Stream) : option (Z * Stream) :=
  match str with DInt n :: str => Some (n, str) | _ => None end.

Definition readFloat (str : Stream) : option (F32.float * Stream) :=
  match str with DFloat x :: str => Some (x, str) | _ => None end.

Definition writeInt2 (v : Int2) : Stream := [DInt (x2 v); DInt (y2 v)].
Definition writeInt3 (v : Int3) : Stream := [DInt (x3 v); DInt (y3 v); DInt (z3 v)].
Definition writeFloat2 (v : Float2) : Stream := [DFloat (fx v); DFloat (fy v)].

Definition readInt2 (str : Stream) : option (Int2 * Stream) :=
  '(x, str) ← readInt str; '(y, str) ← readInt str; Some (mkInt2 x y, str).

Definition readInt3 (str : Stream) : option (Int3 * Stream) :=
  '(x, str) ← readInt str; '(y, str) ← readInt str; '(z, str) ← readInt str;
  Some (mkInt3 x y z, str).

Definition readFloat2 (str : Stream) : option (Float2 * Stream) :=
  '(x, str) ← readFloat str; '(y, str) ← readFloat str; Some (mkFloat2 x y, str).
End Raw.

(** Modelled from the spec: the helpers [writeBufferToStream] and
    [readBufferFromStream], [writeSMToStream] and [readSMFromStream] are
    not part of the sources at hand; the spec has them as the interface of
    the persisted layout, a buffer being "written verbatim".  What is used
    of a pair of them is that the reader gives back what the writer wrote
    and leaves the rest of the stream. *)
Class Codec (A : Type) := {
  put : A -> Stream;
  get : Stream -> option (A * Stream);
  get_put : forall a rest, get (put a ++ rest) = Some (a, rest)
}.

(** ** The actor (PAL update with experience replay) *)

Module Actor.
Import Helpers.

Record VisibleLayerDesc := mkDesc { _size : Int3; _radius : Z }.
Record VisibleLayer := mkLayer { _weights : SparseMatrix.t }.

Module HistorySample.
Record t := mk {
  _inputCs : list IntBuffer;
  _hiddenCs : IntBuffer;
  _feedBackCs : IntBuffer
}.
End HistorySample.

#[global] Instance Desc_inhabited : Inhabited VisibleLayerDesc :=
  populate (mkDesc inhabitant 0).
#[global] Instance Layer_inhabited : Inhabited VisibleLayer :=
  populate (mkLayer inhabitant).
#[global] Instance Sample_inhabited : Inhabited HistorySample.t :=
  populate (HistorySample.mk [] [] []).

(** [_historySamples] is a vector of shared pointers.  A pointer is an
    index into [_store], the model of the heap cells that [initRandom],
    [operator=] and [readFromStream] allocate with [make_shared]. *)
Record State := mk {
  _hiddenSize : Int3;
  _historySize : Z;
  _hiddenCs : IntBuffer;
  _hiddenCounts : IntBuffer;
  _historySamples : list nat;
  _store : list HistorySample.t;
  _visibleLayers : list VisibleLayer;
  _visibleLayerDescs : list VisibleLayerDesc;
  _alpha : F32.float;
  _gamma : F32.float;
  _gap : F32.float;
  _historyIters : Z
}.

Definition set_hiddenCs (a : State) (cs : IntBuffer) : State :=
  mk (_hiddenSize a) (_historySize a) cs (_hiddenCounts a) (_historySamples a)
     (_store a) (_visibleLayers a) (_visibleLayerDescs a)
     (_alpha a) (_gamma a) (_gap a) (_historyIters a).

Definition set_visibleLayers (a : State) (ls : list VisibleLayer) : State :=
  mk (_hiddenSize a) (_historySize a) (_hiddenCs a) (_hiddenCounts a)
     (_historySamples a) (_store a) ls (_visibleLayerDescs a)
     (_alpha a) (_gamma a) (_gap a) (_historyIters a).

Definition set_history (a : State) (n : Z) (ptrs : list nat)
    (st : list HistorySample.t) : State :=
  mk (_hiddenSize a) n (_hiddenCs a) (_hiddenCounts a) ptrs st
     (_visibleLayers a) (_visibleLayerDescs a)
     (_alpha a) (_gamma a) (_gap a) (_historyIters a).

Definition hiddenDims (a : State) : Int2 :=
  mkInt2 (x3 (_hiddenSize a)) (y3 (_hiddenSize a)).

(** [vl._weights.multiplyOHVs( *inputCs[vli], hiddenIndex, vld._size.z)] *)
Definition layerSupport (a : State) (inputCs : list IntBuffer)
    (hiddenIndex : Z) (vli : nat) : F32.float :=
  SparseMatrix.multiplyOHVs (_weights (_visibleLayers a !!! vli)) (inputCs !!! vli)
    hiddenIndex (z3 (_size (_visibleLayerDescs a !!! vli))).

(** The [for vli] loop of [forward]: [sum += ...] from [0.0f]. *)
Definition activation (a : State) (inputCs : list IntBuffer) (hiddenIndex : Z)
    : F32.float :=
  foldl (fun sum vli => F32.add sum (layerSupport a inputCs hiddenIndex vli))
        F32.zero (seq 0 (length (_visibleLayers a))).

(** The [for hc] loop of [forward], on [(maxIndex, maxActivation)]. *)
Definition argmax (a : State) (pos : Int2) (inputCs : list IntBuffer) : Z * F32.float :=
  foldl (fun '(maxIndex, maxActivation) hc =>
           let hiddenIndex := address3C (mkInt3 (x2 pos) (y2 pos) hc) (_hiddenSize a) in
           let sum := activation a inputCs hiddenIndex in
           if F32.gtb sum maxActivation then (hc, sum) else (maxIndex, maxActivation))
        (0, F32.neg_999999) (seqZ 0 (z3 (_hiddenSize a))).

Definition forward {G} (pos : Int2) (rng : G) (inputCs : list IntBuffer)
    (a : State) : State :=
  let hiddenColumnIndex := address2C pos (hiddenDims a) in
  set_hiddenCs a (write (_hiddenCs a) hiddenColumnIndex (argmax a pos inputCs).1).

(** *** The learn kernel *)

(** The locals of [learn] that the [for hc] loop carries.  The two floats
    that are declared without an initialiser hold [None] until they are
    assigned; [assignments] is a ghost counter of how often the
    [hc == targetC] branch stored into them. *)
Record LearnAcc := mkAcc {
  maxActivation : F32.float;
  maxActivationPrev : F32.float;
  nextQActionPrev : option F32.float;
  qActionPrev : option F32.float;
  assignments : nat
}.

Definition targetOf (a : State) (pos : Int2) (hiddenCsPrev : IntBuffer) : Z :=
  read 0 hiddenCsPrev (address2C pos (hiddenDims a)).

(** The divisor [std::max(1, _hiddenCounts[hiddenColumnIndex])], an [int]. *)
Definition divisor (a : State) (pos : Int2) : Z :=
  Z.max 1 (read 0 (_hiddenCounts a) (address2C pos (hiddenDims a))).

(** The [for vli] loop of [learn], on [(sum, sumPrev)]. *)
Definition supports (a : State) (inputCs inputCsPrev : list IntBuffer)
    (hiddenIndex : Z) : F32.float * F32.float :=
  foldl (fun '(sum, sumPrev) vli =>
           (F32.add sum (layerSupport a inputCs hiddenIndex vli),
            F32.add sumPrev (layerSupport a inputCsPrev hiddenIndex vli)))
        (F32.zero, F32.zero) (seq 0 (length (_visibleLayers a))).

(** [sum] and [sumPrev] of one action code after the two divisions. *)
Definition qValues (a : State) (pos : Int2) (inputCs inputCsPrev : list IntBuffer)
    (hc : Z) : F32.float * F32.float :=
  let hiddenIndex := address3C (mkInt3 (x2 pos) (y2 pos) hc) (_hiddenSize a) in
  let '(sum, sumPrev) := supports a inputCs inputCsPrev hiddenIndex in
  (F32.div sum (F32.of_int (divisor a pos)),
   F32.div sumPrev (F32.of_int (divisor a pos))).

Definition scanStep (a : State) (pos : Int2) (inputCs inputCsPrev : list IntBuffer)
    (targetC : Z) (acc : LearnAcc) (hc : Z) : LearnAcc :=
  let '(sum, sumPrev) := qValues a pos inputCs inputCsPrev hc in
  let m := F32.max (maxActivation acc) sum in
  let mPrev := F32.max (maxActivationPrev acc) sumPrev in
  if hc =? targetC
  then mkAcc m mPrev (Some sum) (Some sumPrev) (S (assignments acc))
  else mkAcc m mPrev (nextQActionPrev acc) (qActionPrev acc) (assignments acc).

Definition scan (a : State) (pos : Int2) (inputCs inputCsPrev : list IntBuffer)
    (targetC : Z) : LearnAcc :=
  foldl (scanStep a pos inputCs inputCsPrev targetC)
        (mkAcc F32.neg_999999 F32.neg_999999 None None 0)
        (seqZ 0 (z3 (_hiddenSize a))).

Definition rewardOf (a : State) (pos : Int2) (targetC : Z)
    (feedBackCsPrev : IntBuffer) : F32.float :=
  if targetC =? read 0 feedBackCsPrev (address2C pos (hiddenDims a))
  then F32.one else F32.zero.

(** [delta] from the scanned values. *)
Definition palDelta (a : State) (reward maxAct maxActPrev nextQ q : F32.float)
    : F32.float :=
  let dQ := F32.sub (F32.add reward (F32.mul (_gamma a) maxAct)) q in
  let dAdv := F32.sub dQ (F32.mul (_gap a) (F32.sub maxActPrev q)) in
  let dPAL := F32.max dAdv (F32.sub dQ (F32.mul (_gap a) (F32.sub maxAct nextQ))) in
  F32.mul (_alpha a) dPAL.

(** The final [for vli] loop: [deltaOHVs] on every visible layer. *)
Definition applyDelta (a : State) (inputCsPrev : list IntBuffer)
    (delta : F32.float) (hiddenIndex : Z) : list VisibleLayer :=
  for_each (length (_visibleLayers a))
    (fun vli vl =>
       mkLayer (SparseMatrix.deltaOHVs (_weights vl) (inputCsPrev !!! vli) delta
                  hiddenIndex (z3 (_size (_visibleLayerDescs a !!! vli)))))
    (_visibleLayers a).

(** [learn] gives [None] when it reads [qActionPrev] or [nextQActionPrev]
    while they are still uninitialised. *)
Definition learn {G} (pos : Int2) (rng : G)
    (inputCs : list IntBuffer) (hiddenCsPrev feedBackCsPrev : IntBuffer)
    (inputCsPrev : list IntBuffer) (a : State) : option State :=
  let targetC := targetOf a pos hiddenCsPrev in
  let acc := scan a pos inputCs inputCsPrev targetC in
  let hiddenIndex := address3C (mkInt3 (x2 pos) (y2 pos) targetC) (_hiddenSize a) in
  let reward := rewardOf a pos targetC feedBackCsPrev in
  q ← qActionPrev acc;
  nextQ ← nextQActionPrev acc;
  let delta := palDelta a reward (maxActivation acc) (maxActivationPrev acc) nextQ q in
  Some (set_visibleLayers a (applyDelta a inputCsPrev delta hiddenIndex)).

(** *** The environment step *)

(** The forward kernel over the hidden grid. *)
Definition forwardPass {G} (rng : G) (inputCs : list IntBuffer) (a : State) : State :=
  foldl (fun a pos => forward pos rng inputCs a) a
        (grid (x3 (_hiddenSize a)) (y3 (_hiddenSize a))).

(** The learn kernel over the hidden grid; a faulting column faults the
    pass. *)
Definition learnPass {G} (rng : G)
    (inputCs : list IntBuffer) (hiddenCsPrev feedBackCsPrev : IntBuffer)
    (inputCsPrev : list IntBuffer) (a : State) : option State :=
  foldl (fun oa pos =>
           a ← oa; learn pos rng inputCs hiddenCsPrev feedBackCsPrev inputCsPrev a)
        (Some a) (grid (x3 (_hiddenSize a)) (y3 (_hiddenSize a))).

(** "Circular buffer swap": the pointers move one slot towards the front
    and the old front pointer is put at the back.  On a vector without
    slots [front()] has no value (and the bound [size() - 1] of the loop,
    an unsigned number, wraps): there is no result. *)
Definition rotate (samples : list nat) : option (list nat) :=
  temp ← samples !! 0%nat;
  let shifted :=
    foldl (fun s i => <[i := s !!! S i]> s) samples (seq 0 (length samples - 1)) in
  Some (<[(length samples - 1)%nat := temp]> shifted).

(** [*p] for a history pointer *)
Definition deref (a : State) (p : nat) : HistorySample.t := _store a !!! p.

Definition numColumns (vld : VisibleLayerDesc) : Z :=
  x3 (_size vld) * y3 (_size vld).

(** The three [copyInt] loops that fill the sample [s].  The buffers are
    indexed as the code indexes them: a layer without input or without
    buffer in the slot, and a cell outside the source or the destination,
    end the step without a result.  The descriptor is read as the kernels
    read it. *)
Definition fillSample (a : State) (inputCs : list IntBuffer)
    (hiddenCs feedBackCs : IntBuffer) (s : HistorySample.t) : option HistorySample.t :=
  let numHiddenColumns := x3 (_hiddenSize a) * y3 (_hiddenSize a) in
  ins ← foldl (fun ins vli =>
                 ins ← ins;
                 src ← inputCs !! vli;
                 dst ← ins !! vli;
                 d ← copyInts (numColumns (_visibleLayerDescs a !!! vli)) src dst;
                 Some (<[vli := d]> ins))
              (Some (HistorySample._inputCs s)) (seq 0 (length (_visibleLayers a)));
  h ← copyInts numHiddenColumns hiddenCs (HistorySample._hiddenCs s);
  f ← copyInts numHiddenColumns feedBackCs (HistorySample._feedBackCs s);
  Some (HistorySample.mk ins h f).

(** "Add sample" and "Add new sample".  The slot [_historySize - 1] is
    looked up in the pointer vector and its pointer in the store: a
    position outside the vector, and a pointer to no sample, end the step
    without a result. *)
Definition addSample (inputCs : list IntBuffer) (hiddenCs feedBackCs : IntBuffer)
    (a : State) : option State :=
  let full := _historySize a =? Z.of_nat (length (_historySamples a)) in
  samples ← (if full then rotate (_historySamples a) else Some (_historySamples a));
  let historySize := if full then _historySize a else _historySize a + 1 in
  p ← at_index samples (historySize - 1);
  s ← _store a !! p;
  s ← fillSample a inputCs hiddenCs feedBackCs s;
  Some (set_history a historySize samples (<[p := s]> (_store a))).

(** What "Add sample" leaves when every store of it is inside its
    buffer: the closed forms of [rotate], [fillSample] and [addSample]. *)
Definition rotated (samples : list nat) : list nat :=
  let temp := samples !!! 0%nat in
  let shifted :=
    foldl (fun s i => <[i := s !!! S i]> s) samples (seq 0 (length samples - 1)) in
  <[(length samples - 1)%nat := temp]> shifted.

Definition filled (a : State) (inputCs : list IntBuffer)
    (hiddenCs feedBackCs : IntBuffer) (s : HistorySample.t) : HistorySample.t :=
  let numHiddenColumns := x3 (_hiddenSize a) * y3 (_hiddenSize a) in
  HistorySample.mk
    (for_each (length (_visibleLayers a))
       (fun vli dst => copy (numColumns (_visibleLayerDescs a !!! vli)) (inputCs !!! vli) dst)
       (HistorySample._inputCs s))
    (copy numHiddenColumns hiddenCs (HistorySample._hiddenCs s))
    (copy numHiddenColumns feedBackCs (HistorySample._feedBackCs s)).

Definition added (inputCs : list IntBuffer) (hiddenCs feedBackCs : IntBuffer)
    (a : State) : State :=
  let full := _historySize a =? Z.of_nat (length (_historySamples a)) in
  let samples := if full then rotated (_historySamples a) else _historySamples a in
  let historySize := if full then _historySize a else _historySize a + 1 in
  let p := read 0%nat samples (historySize - 1) in
  set_history a historySize samples
    (alter (filled a inputCs hiddenCs feedBackCs) p (_store a)).

(** The two samples of a replay iteration:
    [s = *_historySamples[t + 1]] and [sPrev = *_historySamples[t]]. *)
Definition sampleNext (t : Z) (a : State) : HistorySample.t :=
  deref a (read 0%nat (_historySamples a) (t + 1)).
Definition samplePrev (t : Z) (a : State) : HistorySample.t :=
  deref a (read 0%nat (_historySamples a) t).

(** What the kernel receives as [hiddenCsPrev] in the replay call
    [learn(pos, rng, s._inputCs, &s._hiddenCs, &s._feedBackCs, sPrev._inputCs)]. *)
Definition replayHiddenCsPrev (t : Z) (a : State) : IntBuffer :=
  HistorySample._hiddenCs (sampleNext t a).

(** The [targetC] of the kernel in that call. *)
Definition replayTarget (t : Z) (pos : Int2) (a : State) : Z :=
  targetOf a pos (replayHiddenCsPrev t a).

(** One replay iteration for the drawn [t]. *)
Definition replayLearn {G} (rng : G) (t : Z) (a : State) : option State :=
  let s := sampleNext t a in
  let sPrev := samplePrev t a in
  learnPass rng (HistorySample._inputCs s) (replayHiddenCsPrev t a)
    (HistorySample._feedBackCs s) (HistorySample._inputCs sPrev) a.

(** The loop [for (it = 0; it < _historyIters; it++)]. *)
Fixpoint replay {G} `{UniformInt G} (iters : nat) (cs : ComputeSystem G) (a : State)
    : option (ComputeSystem G * State) :=
  match iters with
  | O => Some (cs, a)
  | S iters =>
      let '(t, rng) := uniform_int 0 (_historySize a - 2) (_rng cs) in
      a ← replayLearn rng t a;
      replay iters (mkCS rng) a
  end.

Definition step {G} `{UniformInt G} (cs : ComputeSystem G)
    (inputCs : list IntBuffer) (hiddenCs feedBackCs : IntBuffer)
    (learnEnabled : bool) (a : State) : option (ComputeSystem G * State) :=
  let a := forwardPass (_rng cs) inputCs a in
  a ← addSample inputCs hiddenCs feedBackCs a;
  if learnEnabled && (2 <? _historySize a)
  then replay (Z.to_nat (_historyIters a)) cs a
  else Some (cs, a).

(** The valid samples, oldest first. *)
Definition history (a : State) : list HistorySample.t :=
  deref a <$> take (Z.to_nat (_historySize a)) (_historySamples a).

(** The cells of [_hiddenCs] that the forward kernel stores into when it
    is run on the columns [l], with the codes it stores. *)
Definition forwardWrites (a : State) (inputCs : list IntBuffer) (l : list Int2)
    : list (Z * Z) :=
  (fun pos => (address2C pos (hiddenDims a), (argmax a pos inputCs).1)) <$> l.

(** [a'] is [a] with other visible layers. *)
Definition onlyWeights (a a' : State) : Prop :=
  a' = set_visibleLayers a (_visibleLayers a').

(** A sample whose buffers have the sizes of the grids: one input buffer
    per visible layer, one cell per column. *)
Definition shaped (a : State) (s : HistorySample.t) : Prop :=
  length (HistorySample._inputCs s) = length (_visibleLayers a) /\
  (forall vli b, HistorySample._inputCs s !! vli = Some b ->
     Z.of_nat (length b) = numColumns (_visibleLayerDescs a !!! vli)) /\
  Z.of_nat (length (HistorySample._hiddenCs s)) = x3 (_hiddenSize a) * y3 (_hiddenSize a) /\
  Z.of_nat (length (HistorySample._feedBackCs s)) = x3 (_hiddenSize a) * y3 (_hiddenSize a).

(** The history of a well-formed actor: at least one slot, the slots
    point to distinct allocated samples of the right shape, and the count
    of valid samples is within the capacity.  [readFromStream] gives each
    buffer of a slot the size it was written with; [initRandom] sizes
    [_inputCs] and [_hiddenCs] and leaves [_feedBackCs] empty, so an actor
    that comes from [initRandom] alone is well formed only on an empty
    hidden grid. *)
Definition wellFormed (a : State) : Prop :=
  (0 < length (_historySamples a))%nat /\
  NoDup (_historySamples a) /\
  (forall p, p ∈ _historySamples a -> exists s, _store a !! p = Some s /\ shaped a s) /\
  0 <= _historySize a <= Z.of_nat (length (_historySamples a)).

(** A sample whose recorded action codes are codes of the hidden grid. *)
Definition actionsInRange (a : State) (s : HistorySample.t) : Prop :=
  forall pos, pos ∈ grid (x3 (_hiddenSize a)) (y3 (_hiddenSize a)) ->
    0 <= targetOf a pos (HistorySample._hiddenCs s) < z3 (_hiddenSize a).

(** The grids of [a'] are those of [a]. *)
Definition sameGrid (a a' : State) : Prop :=
  _hiddenSize a' = _hiddenSize a /\
  length (_visibleLayers a') = length (_visibleLayers a) /\
  _visibleLayerDescs a' = _visibleLayerDescs a.

(** [b] holds what [a] holds: every member but the history pointers and
    the samples they point to is that of [a], [b] has as many slots, and
    the valid samples are the same, oldest first. *)
Definition alike (a b : State) : Prop :=
  b = set_history a (_historySize a) (_historySamples b) (_store b) /\
  length (_historySamples b) = length (_historySamples a) /\
  history b = history a.

(** The hidden grid has at least one action code per column, and
    [_hiddenCs] has one cell per column. *)
Definition sized (a : State) : Prop :=
  0 <= x3 (_hiddenSize a) /\ 0 <= y3 (_hiddenSize a) /\ 1 <= z3 (_hiddenSize a) /\
  Z.of_nat (length (_hiddenCs a)) = x3 (_hiddenSize a) * y3 (_hiddenSize a).

(** The buffers of the model are as large as the kernels index them:
    [_hiddenCs] and [_hiddenCounts] have one cell per hidden column,
    every visible layer has its descriptor, and the weights of a layer
    have a row per hidden cell that fits the grid of the layer. *)
Definition bounded (a : State) : Prop :=
  let hs := _hiddenSize a in
  sized a /\
  Z.of_nat (length (_hiddenCounts a)) = x3 hs * y3 hs /\
  (length (_visibleLayers a) <= length (_visibleLayerDescs a))%nat /\
  forall vli vl, _visibleLayers a !! vli = Some vl ->
    let vld := _visibleLayerDescs a !!! vli in
    SparseMatrix.fits (_weights vl) (x3 hs * y3 hs * z3 hs) (numColumns vld) (z3 (_size vld)).

(** A sample whose input codes are codes of the visible grids. *)
Definition inputsInRange (a : State) (s : HistorySample.t) : Prop :=
  forall vli b, HistorySample._inputCs s !! vli = Some b ->
    Forall (fun c => 0 <= c < z3 (_size (_visibleLayerDescs a !!! vli))) b.

(** What [SparseMatrix.fits] looks at in the weights of a layer. *)
Definition shapeOf (vl : VisibleLayer) : list Z * list Z * nat :=
  (SparseMatrix._rowRanges (_weights vl), SparseMatrix._columnIndices (_weights vl),
   length (SparseMatrix._nonZeroValues (_weights vl))).

(** *** Creation *)

Section Create.
Context {G : Type} `{UniformReal G}.

(** Modelled from the spec: [initSMLocalRF] is not part of the sources at
    hand; it "builds one compressed weight collection per visible layer
    using the local-receptive-field sparsity pattern" from the size of the
    layer, the hidden size and the radius.  It is a parameter here, and
    nothing is used of it but that the matrix it stores is made from
    these. *)
Variable initSMLocalRF : Int3 -> Int3 -> Z -> SparseMatrix.t.

(** [for (i = 0; i < _nonZeroValues.size(); i++)
       _nonZeroValues[i] = weightDist(cs._rng)] *)
Definition drawWeights (lo hi : F32.float) (m : SparseMatrix.t) (rng : G)
    : SparseMatrix.t * G :=
  let r :=
    foldl (fun st i => let '(v, rng) := uniform_real lo hi st.2 in (write st.1 i v, rng))
          (SparseMatrix._nonZeroValues m, rng)
          (seqZ 0 (Z.of_nat (length (SparseMatrix._nonZeroValues m)))) in
  (SparseMatrix.mk (SparseMatrix._rowRanges m) (SparseMatrix._columnIndices m) r.1, r.2).

(** [for (i = 0; i < numHiddenColumns; i++)
       _hiddenCounts[i] += vl._weights.counts(i * _hiddenSize.z) / vld._size.z].
    The division is one of [int]s; it has no result when [vld._size.z]
    is 0. *)
Definition addCounts (hiddenSize : Int3) (vld : VisibleLayerDesc) (m : SparseMatrix.t)
    (hiddenCounts : IntBuffer) : option IntBuffer :=
  let numHiddenColumns := x3 hiddenSize * y3 hiddenSize in
  if (0 <? numHiddenColumns) && (z3 (_size vld) =? 0) then None
  else Some (foldl (fun c i =>
                      write c i (read 0 c i +
                                 Z.quot (SparseMatrix.counts m (i * z3 hiddenSize))
                                        (z3 (_size vld))))
                   hiddenCounts (seqZ 0 numHiddenColumns)).

(** A round of the "Create layers" loop. *)
Definition createLayer (hiddenSize : Int3) (visibleLayerDescs : list VisibleLayerDesc)
    (st : option (list VisibleLayer * IntBuffer * G)) (vli : nat)
    : option (list VisibleLayer * IntBuffer * G) :=
  '(layers, hiddenCounts, rng) ← st;
  let vld := visibleLayerDescs !!! vli in
  let '(w, rng) :=
    drawWeights F32.lit_neg_0_0001 F32.zero
      (initSMLocalRF (_size vld) hiddenSize (_radius vld)) rng in
  hiddenCounts ← addCounts hiddenSize vld w hiddenCounts;
  Some (<[vli := mkLayer w]> layers, hiddenCounts, rng).

(** The buffers of a new sample: [_inputCs] is resized and its buffers
    are allocated, [_hiddenCs] is allocated; nothing is assigned to
    [_feedBackCs], which is the empty vector of the constructor. *)
Fixpoint allocAll (ns : list Z) : option (list IntBuffer) :=
  match ns with
  | [] => Some []
  | n :: ns => b ← alloc n; bs ← allocAll ns; Some (b :: bs)
  end.

Definition newSample (hiddenSize : Int3) (visibleLayerDescs : list VisibleLayerDesc)
    : option HistorySample.t :=
  inputCs ← allocAll ((fun vld => x3 (_size vld) * y3 (_size vld)) <$> visibleLayerDescs);
  hiddenCs ← alloc (x3 hiddenSize * y3 hiddenSize);
  Some (HistorySample.mk inputCs hiddenCs []).

Fixpoint newSamples (n : nat) (hiddenSize : Int3)
    (visibleLayerDescs : list VisibleLayerDesc) : option (list HistorySample.t) :=
  match n with
  | O => Some []
  | S n =>
      s ← newSample hiddenSize visibleLayerDescs;
      ss ← newSamples n hiddenSize visibleLayerDescs;
      Some (s :: ss)
  end.

(** [initRandom] assigns every member but [_alpha], [_gamma], [_gap] and
    [_historyIters].  A negative [historyCapacity] makes [resize] throw. *)
Definition initRandom (cs : ComputeSystem G) (hiddenSize : Int3) (historyCapacity : Z)
    (visibleLayerDescs : list VisibleLayerDesc) (a : State)
    : option (ComputeSystem G * State) :=
  let numHiddenColumns := x3 hiddenSize * y3 hiddenSize in
  let layers := resize (length visibleLayerDescs) inhabitant (_visibleLayers a) in
  hiddenCounts ← alloc numHiddenColumns;
  '(layers, hiddenCounts, rng) ←
    foldl (createLayer hiddenSize visibleLayerDescs)
          (Some (layers, hiddenCounts, _rng cs)) (seq 0 (length layers));
  hiddenCs ← alloc numHiddenColumns;
  if historyCapacity <? 0 then None else
  samples ← newSamples (Z.to_nat historyCapacity) hiddenSize visibleLayerDescs;
  Some (mkCS rng,
        mk hiddenSize 0 hiddenCs hiddenCounts (seq 0 (length samples)) samples
           layers visibleLayerDescs (_alpha a) (_gamma a) (_gap a) (_historyIters a)).
End Create.

(** The sample that [initRandom] leaves in every slot on grids without
    negative sizes. *)
Definition emptySample (hiddenSize : Int3) (visibleLayerDescs : list VisibleLayerDesc)
    : HistorySample.t :=
  HistorySample.mk
    ((fun vld => replicate (Z.to_nat (x3 (_size vld) * y3 (_size vld))) 0)
       <$> visibleLayerDescs)
    (replicate (Z.to_nat (x3 hiddenSize * y3 hiddenSize)) 0) [].

(** *** Copy and persistence *)

(** [operator=]: every member is assigned from [other]; the history gets
    newly allocated samples, one per slot of [other], each assigned the
    sample its slot points to. *)
Definition assign (other : State) : State :=
  mk (_hiddenSize other) (_historySize other) (_hiddenCs other) (_hiddenCounts other)
     (seq 0 (length (_historySamples other)))
     (deref other <$> _historySamples other)
     (_visibleLayers other) (_visibleLayerDescs other)
     (_alpha other) (_gamma other) (_gap other) (_historyIters other).

Section Persist.
Context `{Codec IntBuffer} `{Codec SparseMatrix.t}.

Definition writeLayer (a : State) (vli : nat) : Stream :=
  let vl := _visibleLayers a !!! vli in
  let vld := _visibleLayerDescs a !!! vli in
  Raw.writeInt3 (_size vld) ++ [DInt (_radius vld)] ++ put (_weights vl).

Definition writeSample (a : State) (t : nat) : Stream :=
  let s := deref a (_historySamples a !!! t) in
  (vli ← seq 0 (length (_visibleLayers a)); put (HistorySample._inputCs s !!! vli)) ++
  put (HistorySample._hiddenCs s) ++ put (HistorySample._feedBackCs s).

Definition writeToStream (a : State) : Stream :=
  Raw.writeInt3 (_hiddenSize a) ++
  [DFloat (_alpha a); DFloat (_gamma a); DFloat (_gap a); DInt (_historyIters a);
   DInt (_historySize a)] ++
  put (_hiddenCs a) ++ put (_hiddenCounts a) ++
  [DInt (Z.of_nat (length (_visibleLayers a)))] ++
  (vli ← seq 0 (length (_visibleLayers a)); writeLayer a vli) ++
  [DInt (Z.of_nat (length (_historySamples a)))] ++
  (t ← seq 0 (length (_historySamples a)); writeSample a t).

Definition readLayer (str : Stream) : option ((VisibleLayerDesc * VisibleLayer) * Stream) :=
  '(size, str) ← Raw.readInt3 str;
  '(radius, str) ← Raw.readInt str;
  '(w, str) ← get (A := SparseMatrix.t) str;
  Some ((mkDesc size radius, mkLayer w), str).

Fixpoint readLayers (n : nat) (str : Stream)
    : option (list (VisibleLayerDesc * VisibleLayer) * Stream) :=
  match n with
  | O => Some ([], str)
  | S n =>
      '(l, str) ← readLayer str;
      '(ls, str) ← readLayers n str;
      Some (l :: ls, str)
  end.

Fixpoint readBuffers (n : nat) (str : Stream) : option (list IntBuffer * Stream) :=
  match n with
  | O => Some ([], str)
  | S n =>
      '(b, str) ← get (A := IntBuffer) str;
      '(bs, str) ← readBuffers n str;
      Some (b :: bs, str)
  end.

Definition readSample (numVisibleLayers : nat) (str : Stream)
    : option (HistorySample.t * Stream) :=
  '(inputCs, str) ← readBuffers numVisibleLayers str;
  '(hiddenCs, str) ← get (A := IntBuffer) str;
  '(feedBackCs, str) ← get (A := IntBuffer) str;
  Some (HistorySample.mk inputCs hiddenCs feedBackCs, str).

Fixpoint readSamples (n numVisibleLayers : nat) (str : Stream)
    : option (list HistorySample.t * Stream) :=
  match n with
  | O => Some ([], str)
  | S n =>
      '(s, str) ← readSample numVisibleLayers str;
      '(ss, str) ← readSamples n numVisibleLayers str;
      Some (s :: ss, str)
  end.

(** [readFromStream] assigns every member.  A negative count makes
    [resize] throw. *)
Definition readFromStream (str : Stream) : option (State * Stream) :=
  '(hiddenSize, str) ← Raw.readInt3 str;
  '(alpha, str) ← Raw.readFloat str;
  '(gamma, str) ← Raw.readFloat str;
  '(gap, str) ← Raw.readFloat str;
  '(historyIters, str) ← Raw.readInt str;
  '(historySize, str) ← Raw.readInt str;
  '(hiddenCs, str) ← get (A := IntBuffer) str;
  '(hiddenCounts, str) ← get (A := IntBuffer) str;
  '(numVisibleLayers, str) ← Raw.readInt str;
  if numVisibleLayers <? 0 then None else
  '(ls, str) ← readLayers (Z.to_nat numVisibleLayers) str;
  '(numHistorySamples, str) ← Raw.readInt str;
  if numHistorySamples <? 0 then None else
  '(ss, str) ← readSamples (Z.to_nat numHistorySamples) (Z.to_nat numVisibleLayers) str;
  Some (mk hiddenSize historySize hiddenCs hiddenCounts (seq 0 (length ss)) ss
           ls.*2 ls.*1 alpha gamma gap historyIters, str).
End Persist.
End Actor.

(** The last [cap] elements of a list. *)
Definition keep {A} (cap : nat) (l : list A) : list A := drop (length l - cap) l.

(** ** The PAL rule as the design states it *)

Module PAL.
Section Rule.
Variables (a : Actor.State) (pos : Int2).
(** the inputs of the next sample [s], the inputs of the previous sample
    [sPrev], the feedback of [s], the target code *)
Variables (inputCs inputCsPrev : list IntBuffer) (feedBackCs : IntBuffer) (targetC : Z).

Definition column : Z := Helpers.address2C pos (Actor.hiddenDims a).
Definition unit (hc : Z) : Z :=
  Helpers.address3C (mkInt3 (x2 pos) (y2 pos) hc) (Actor._hiddenSize a).

(** the column's clamped support count *)
Definition count : Z := Z.max 1 (read 0 (Actor._hiddenCounts a) column).

(** support of an action code under [s]'s and [sPrev]'s inputs *)
Definition sum (hc : Z) : F32.float :=
  F32.div (Actor.activation a inputCs (unit hc)) (F32.of_int count).
Definition sumPrev (hc : Z) : F32.float :=
  F32.div (Actor.activation a inputCsPrev (unit hc)) (F32.of_int count).

(** the column maxima, from the floor of the running max *)
Definition columnMax (f : Z -> F32.float) : F32.float :=
  foldl F32.max F32.neg_999999 (f <$> seqZ 0 (z3 (Actor._hiddenSize a))).

Definition maxActivation : F32.float := columnMax sum.
Definition maxActivationPrev : F32.float := columnMax sumPrev.
Definition nextQActionPrev : F32.float := sum targetC.
Definition qActionPrev : F32.float := sumPrev targetC.

Definition reward : F32.float :=
  if targetC =? read 0 feedBackCs column then F32.one else F32.zero.

Definition dQ : F32.float :=
  F32.sub (F32.add reward (F32.mul (Actor._gamma a) maxActivation)) qActionPrev.
Definition dAdv : F32.float :=
  F32.sub dQ (F32.mul (Actor._gap a) (F32.sub maxActivationPrev qActionPrev)).
Definition dPAL : F32.float :=
  F32.max dAdv (F32.sub dQ (F32.mul (Actor._gap a) (F32.sub maxActivation nextQActionPrev))).
Definition delta : F32.float := F32.mul (Actor._alpha a) dPAL.
End Rule.
End PAL.

(** Replay as the design states it, over the valid samples [h]: each of the
    [iters] rounds draws [t] in [[0, historySize - 2]] and runs the learn
    update with [sPrev = h[t]] and [s = h[t + 1]]. *)
Fixpoint replaySpec {G} `{UniformInt G} (iters : nat) (rng : G)
    (h : list Actor.HistorySample.t) (a : Actor.State) : option (G * Actor.State) :=
  match iters with
  | O => Some (rng, a)
  | S iters =>
      let '(t, rng) := uniform_int 0 (Z.of_nat (length h) - 2) rng in
      let sPrev := h !!! Z.to_nat t in
      let s := h !!! Z.to_nat (t + 1) in
      a ← Actor.learnPass rng
            (Actor.HistorySample._inputCs s) (Actor.HistorySample._hiddenCs s)
            (Actor.HistorySample._feedBackCs s) (Actor.HistorySample._inputCs sPrev) a;
      replaySpec iters rng h a
  end.

(** One call of [step], and a run of calls. *)
Record StepInput := mkStep {
  stepInputCs : list IntBuffer;
  stepHiddenCs : IntBuffer;
  stepFeedBackCs : IntBuffer;
  stepLearn : bool
}.

Definition sampleOf (i : StepInput) : Actor.HistorySample.t :=
  Actor.HistorySample.mk (stepInputCs i) (stepHiddenCs i) (stepFeedBackCs i).

Fixpoint feed {G} `{UniformInt G} (cs : ComputeSystem G) (a : Actor.State)
    (steps : list StepInput) : option (ComputeSystem G * Actor.State) :=
  match steps with
  | [] => Some (cs, a)
  | i :: steps =>
      r ← Actor.step cs (stepInputCs i) (stepHiddenCs i) (stepFeedBackCs i) (stepLearn i) a;
      feed r.1 r.2 steps
  end.

(** ** Concrete instances *)

Module Example.
(** A small generator: a linear congruential stream, reduced into
    [[a, b]]. *)
Definition lcg (a b g : Z) : Z * Z :=
  (a + g mod (b - a + 1), (g * 1103515245 + 12345) mod 2147483648).

Lemma lcg_range a b g : a <= b -> a <= (lcg a b g).1 <= b.
Proof. intros Hab. simpl. pose proof (Z.mod_pos_bound g (b - a + 1)). lia. Qed.

#[global] Instance lcg_uniform : UniformInt Z :=
  {| uniform_int := lcg; uniform_int_range := lcg_range |}.

Definition quarter : F32.float := S754_finite false 8388608 (-25).

(** One hidden column with two action codes over one visible column with
    two codes: two rows of one block each. *)
Definition weights : SparseMatrix.t :=
  SparseMatrix.mk [0; 2; 4] [0; 1; 0; 1]
    [F32.zero; F32.half; quarter; F32.zero].

Definition blank : Actor.HistorySample.t := Actor.HistorySample.mk [[0]] [0] [0].

(** An actor with room for three samples and none recorded yet; the three
    buffers of every slot are allocated. *)
Definition fresh : Actor.State :=
  Actor.mk (mkInt3 1 1 2) 0 [0] [1] [0%nat; 1%nat; 2%nat] [blank; blank; blank]
    [Actor.mkLayer weights] [Actor.mkDesc (mkInt3 1 1 2) 0]
    F32.half F32.half F32.one 2.

(** The same actor after two steps: the older sample took action 0, the
    newer one records action 1 and feedback 1. *)
Definition seasoned : Actor.State :=
  Actor.mk (mkInt3 1 1 2) 2 [0] [1] [0%nat; 1%nat; 2%nat]
    [Actor.HistorySample.mk [[1]] [0] [0];
     Actor.HistorySample.mk [[0]] [1] [1]; blank]
    [Actor.mkLayer weights] [Actor.mkDesc (mkInt3 1 1 2) 0]
    F32.half F32.half F32.one 2.

Definition origin : Int2 := mkInt2 0 0.

Definition run : list StepInput :=
  [mkStep [[1]] [0] [0] true; mkStep [[0]] [1] [1] true;
   mkStep [[1]] [1] [0] true; mkStep [[0]] [0] [0] true;
   mkStep [[1]] [0] [1] true].
End Example.

(** ** The sparse coder (iterative explaining-away) *)

Module SparseCoder.
Import Helpers.

Record VisibleLayerDesc := mkDesc { _size : Int3; _radius : Z }.

Record VisibleLayer := mkLayer {
  _weights : FloatBuffer;
  _reconCs : IntBuffer;
  _visibleToHidden : Float2;
  _hiddenToVisible : Float2;
  _reverseRadii : Int2
}.

#[global] Instance Desc_inhabited : Inhabited VisibleLayerDesc :=
  populate (mkDesc inhabitant 0).
#[global] Instance Layer_inhabited : Inhabited VisibleLayer :=
  populate (mkLayer [] [] inhabitant inhabitant inhabitant).

Record State := mk {
  _hiddenSize : Int3;
  _hiddenCs : IntBuffer;
  _hiddenActivations : FloatBuffer;
  _visibleLayers : list VisibleLayer;
  _visibleLayerDescs : list VisibleLayerDesc;
  _alpha : F32.float;
  _explainIters : Z
}.

Definition set_hidden (sc : State) (cs : IntBuffer) (acts : FloatBuffer) : State :=
  mk (_hiddenSize sc) cs acts (_visibleLayers sc) (_visibleLayerDescs sc)
     (_alpha sc) (_explainIters sc).

Definition set_visibleLayers (sc : State) (ls : list VisibleLayer) : State :=
  mk (_hiddenSize sc) (_hiddenCs sc) (_hiddenActivations sc) ls
     (_visibleLayerDescs sc) (_alpha sc) (_explainIters sc).

Definition set_weights (vl : VisibleLayer) (w : FloatBuffer) : VisibleLayer :=
  mkLayer w (_reconCs vl) (_visibleToHidden vl) (_hiddenToVisible vl) (_reverseRadii vl).

Definition set_reconCs (vl : VisibleLayer) (cs : IntBuffer) : VisibleLayer :=
  mkLayer (_weights vl) cs (_visibleToHidden vl) (_hiddenToVisible vl) (_reverseRadii vl).

Definition layer (sc : State) (vli : nat) : VisibleLayer := _visibleLayers sc !!! vli.
Definition desc (sc : State) (vli : nat) : VisibleLayerDesc := _visibleLayerDescs sc !!! vli.

Definition diam (vld : VisibleLayerDesc) : Z := _radius vld * 2 + 1.

(** Lower corner of the receptive field of a hidden column. *)
Definition fieldLowerBound (vl : VisibleLayer) (vld : VisibleLayerDesc)
    (hiddenPosition : Int2) : Int2 :=
  let c := project hiddenPosition (_hiddenToVisible vl) in
  mkInt2 (x2 c - _radius vld) (y2 c - _radius vld).

(** [visiblePosition - fieldLowerBound], flattened with the code [c]. *)
Definition fieldOffset (vld : VisibleLayerDesc) (lower visiblePosition : Int2) (c : Z) : Z :=
  x2 visiblePosition - x2 lower + (y2 visiblePosition - y2 lower) * diam vld
    + c * (diam vld * diam vld).

(** *** forward *)

(** The visible positions a hidden column reads: its receptive field
    clamped to the input size. *)
Definition forwardField (vl : VisibleLayer) (vld : VisibleLayerDesc) (pos : Int2)
    : list Int2 :=
  let c := project pos (_hiddenToVisible vl) in
  let lower := fieldLowerBound vl vld pos in
  box (mkInt2 (Z.max 0 (x2 lower)) (Z.max 0 (y2 lower)))
      (mkInt2 (Z.min (x3 (_size vld) - 1) (x2 c + _radius vld))
              (Z.min (y3 (_size vld) - 1) (y2 c + _radius vld))).

(** The accumulators [(inputActivation, reconActivation)] of one hidden
    cell after the [for vli] loop. *)
Definition cellSupport (sc : State) (inputCs : list IntBuffer) (pos : Int2)
    (firstIter : bool) (hc : Z) : F32.float * F32.float :=
  let dxy := x3 (_hiddenSize sc) * y3 (_hiddenSize sc) in
  let dxyz := dxy * z3 (_hiddenSize sc) in
  let dPartial := x2 pos + y2 pos * x3 (_hiddenSize sc) + hc * dxy in
  foldl (fun acc vli =>
           let vl := layer sc vli in
           let vld := desc sc vli in
           let lower := fieldLowerBound vl vld pos in
           foldl (fun '(inputActivation, reconActivation) visiblePosition =>
                    let visibleIndex := address2 visiblePosition (x3 (_size vld)) in
                    let visibleC := read 0 (inputCs !!! vli) visibleIndex in
                    let ia := F32.add inputActivation
                                (read F32.zero (_weights vl)
                                   (dPartial + fieldOffset vld lower visiblePosition visibleC * dxyz)) in
                    if firstIter then (ia, reconActivation)
                    else
                      let reconC := read 0 (_reconCs vl) visibleIndex in
                      (ia, F32.add reconActivation
                             (read F32.zero (_weights vl)
                                (dPartial + fieldOffset vld lower visiblePosition reconC * dxyz))))
                 acc (forwardField vl vld pos))
        (F32.zero, F32.zero) (seq 0 (length (_visibleLayers sc))).

Definition hiddenIndexOf (sc : State) (pos : Int2) (hc : Z) : Z :=
  address3 (mkInt3 (x2 pos) (y2 pos) hc)
    (mkInt2 (x3 (_hiddenSize sc)) (y3 (_hiddenSize sc))).

(** What [forward] makes of the activation [old] of the cell [hc]:
    the input support on the first iteration, [old] plus (input support
    minus reconstruction support) on the later ones. *)
Definition cellUpdate (sc : State) (inputCs : list IntBuffer) (pos : Int2)
    (firstIter : bool) (hc : Z) (old : F32.float) : F32.float :=
  let '(inputActivation, reconActivation) := cellSupport sc inputCs pos firstIter hc in
  if firstIter then inputActivation
  else F32.add old (F32.sub inputActivation reconActivation).

(** One round of the [for hc] loop of [forward], on
    [(_hiddenActivations, maxIndex, maxValue)]. *)
Definition forwardStep (sc : State) (inputCs : list IntBuffer) (pos : Int2)
    (firstIter : bool) (st : FloatBuffer * Z * F32.float) (hc : Z)
    : FloatBuffer * Z * F32.float :=
  let '(acts, maxIndex, maxValue) := st in
  let '(inputActivation, reconActivation) := cellSupport sc inputCs pos firstIter hc in
  let hiddenIndex := hiddenIndexOf sc pos hc in
  let acts :=
    if firstIter then write acts hiddenIndex inputActivation
    else write acts hiddenIndex
           (F32.add (read F32.zero acts hiddenIndex)
                    (F32.sub inputActivation reconActivation)) in
  if F32.gtb (read F32.zero acts hiddenIndex) maxValue
  then (acts, hc, read F32.zero acts hiddenIndex)
  else (acts, maxIndex, maxValue).

Definition forward {G} (pos : Int2) (rng : G) (inputCs : list IntBuffer)
    (firstIter : bool) (sc : State) : State :=
  let '(acts, maxIndex, _) :=
    foldl (forwardStep sc inputCs pos firstIter)
          (_hiddenActivations sc, 0, F32.neg_999999)
          (seqZ 0 (z3 (_hiddenSize sc))) in
  set_hidden sc (write (_hiddenCs sc) (address2 pos (x3 (_hiddenSize sc))) maxIndex) acts.

(** *** backward *)

(** The hidden columns searched from a visible position: the window of
    the reverse radii around the projected centre, clamped to the grid. *)
Definition hiddenWindow (sc : State) (vl : VisibleLayer) (pos : Int2) : list Int2 :=
  let c := project pos (_visibleToHidden vl) in
  box (mkInt2 (Z.max 0 (x2 c - x2 (_reverseRadii vl)))
              (Z.max 0 (y2 c - y2 (_reverseRadii vl))))
      (mkInt2 (Z.min (x3 (_hiddenSize sc) - 1) (x2 c + x2 (_reverseRadii vl)))
              (Z.min (y3 (_hiddenSize sc) - 1) (y2 c + y2 (_reverseRadii vl)))).

(** "Check for containment": is [pos] in the field of [hiddenPosition]? *)
Definition covers (vl : VisibleLayer) (vld : VisibleLayerDesc)
    (hiddenPosition pos : Int2) : bool :=
  let visibleFieldCenter := project hiddenPosition (_hiddenToVisible vl) in
  inBounds pos (fieldLowerBound vl vld hiddenPosition)
    (mkInt2 (x2 visibleFieldCenter + _radius vld + 1)
            (y2 visibleFieldCenter + _radius vld + 1)).

(** The hidden columns of the window whose field contains [pos]. *)
Definition coveringColumns (sc : State) (vl : VisibleLayer) (vld : VisibleLayerDesc)
    (pos : Int2) : list Int2 :=
  filter (fun hiddenPosition => Is_true (covers vl vld hiddenPosition pos))
         (hiddenWindow sc vl pos).

(** [address4(wPos, _hiddenSize)] for the active code of [hiddenPosition]. *)
Definition weightIndex (sc : State) (vl : VisibleLayer) (vld : VisibleLayerDesc)
    (pos : Int2) (vc : Z) (hiddenPosition : Int2) : Z :=
  let hiddenC := read 0 (_hiddenCs sc) (address2 hiddenPosition (x3 (_hiddenSize sc))) in
  address4 (mkInt4 (x2 hiddenPosition) (y2 hiddenPosition) hiddenC
              (fieldOffset vld (fieldLowerBound vl vld hiddenPosition) pos vc))
           (_hiddenSize sc).

(** The accumulators [(sum, count)] over the window, read from [w]. *)
Definition support (sc : State) (vl : VisibleLayer) (vld : VisibleLayerDesc)
    (w : FloatBuffer) (pos : Int2) (vc : Z) : F32.float * F32.float :=
  foldl (fun '(sum, count) hiddenPosition =>
           if covers vl vld hiddenPosition pos
           then (F32.add sum (read F32.zero w (weightIndex sc vl vld pos vc hiddenPosition)),
                 F32.add count F32.one)
           else (sum, count))
        (F32.zero, F32.zero) (hiddenWindow sc vl pos).

(** [sum / std::max(1.0f, count)] *)
Definition average (sc : State) (vl : VisibleLayer) (vld : VisibleLayerDesc)
    (w : FloatBuffer) (pos : Int2) (vc : Z) : F32.float :=
  let '(sum, count) := support sc vl vld w pos vc in
  F32.div sum (F32.max F32.one count).

(** The [for vc] loop of [backward], on [(maxIndex, maxValue)]. *)
Definition reconstruct (sc : State) (vli : nat) (pos : Int2) : Z * F32.float :=
  let vl := layer sc vli in
  let vld := desc sc vli in
  foldl (fun '(maxIndex, maxValue) vc =>
           let sum := average sc vl vld (_weights vl) pos vc in
           if F32.gtb sum maxValue then (vc, sum) else (maxIndex, maxValue))
        (0, F32.neg_999999) (seqZ 0 (z3 (_size vld))).

Definition backward {G} (pos : Int2) (rng : G) (inputCs : list IntBuffer)
    (vli : nat) (sc : State) : State :=
  let vld := desc sc vli in
  set_visibleLayers sc
    (alter (fun vl => set_reconCs vl
              (write (_reconCs vl) (address2 pos (x3 (_size vld)))
                 (reconstruct sc vli pos).1))
           vli (_visibleLayers sc)).

(** *** learn *)

Definition target (vc inputC : Z) : F32.float :=
  if vc =? inputC then F32.one else F32.zero.

(** [delta] of one candidate code, from the weights [w]. *)
Definition deltaOf (sc : State) (vl : VisibleLayer) (vld : VisibleLayerDesc)
    (w : FloatBuffer) (pos : Int2) (inputC vc : Z) : F32.float :=
  F32.mul (_alpha sc) (F32.sub (target vc inputC) (average sc vl vld w pos vc)).

(** One round of the [for vc] loop of [learn], on the weights. *)
Definition learnStep (sc : State) (vl : VisibleLayer) (vld : VisibleLayerDesc)
    (pos : Int2) (inputC : Z) (w : FloatBuffer) (vc : Z) : FloatBuffer :=
  let delta := deltaOf sc vl vld w pos inputC vc in
  foldl (fun w hiddenPosition =>
           if covers vl vld hiddenPosition pos
           then let i := weightIndex sc vl vld pos vc hiddenPosition in
                write w i (F32.add (read F32.zero w i) delta)
           else w)
        w (hiddenWindow sc vl pos).

Definition learnWeights (sc : State) (vli : nat) (pos : Int2)
    (inputCs : list IntBuffer) (w : FloatBuffer) : FloatBuffer :=
  let vl := layer sc vli in
  let vld := desc sc vli in
  let inputC := read 0 (inputCs !!! vli) (address2 pos (x3 (_size vld))) in
  foldl (learnStep sc vl vld pos inputC) w (seqZ 0 (z3 (_size vld))).

Definition learn {G} (pos : Int2) (rng : G) (inputCs : list IntBuffer)
    (vli : nat) (sc : State) : State :=
  set_visibleLayers sc
    (alter (fun vl => set_weights vl (learnWeights sc vli pos inputCs (_weights vl)))
           vli (_visibleLayers sc)).

(** *** The passes *)

Definition forwardPass {G} (rng : G) (inputCs : list IntBuffer) (firstIter : bool)
    (sc : State) : State :=
  foldl (fun sc pos => forward pos rng inputCs firstIter sc) sc
        (grid (x3 (_hiddenSize sc)) (y3 (_hiddenSize sc))).

Definition backwardPass {G} (rng : G) (inputCs : list IntBuffer) (sc : State) : State :=
  foldl (fun sc vli =>
           let vld := desc sc vli in
           foldl (fun sc pos => backward pos rng inputCs vli sc) sc
                 (grid (x3 (_size vld)) (y3 (_size vld))))
        sc (seq 0 (length (_visibleLayers sc))).

(** The loop [for (it = 0; it < _explainIters; it++)] from [it]. *)
Fixpoint explain {G} (rounds : nat) (it : Z) (rng : G) (visibleCs : list IntBuffer)
    (sc : State) : State :=
  match rounds with
  | O => sc
  | S rounds =>
      let firstIter := it =? 0 in
      explain rounds (it + 1) rng visibleCs
        (backwardPass rng visibleCs (forwardPass rng visibleCs firstIter sc))
  end.

Definition activate {G} (cs : ComputeSystem G) (visibleCs : list IntBuffer)
    (sc : State) : State :=
  explain (Z.to_nat (_explainIters sc)) 0 (_rng cs) visibleCs sc.

Definition learnAll {G} (cs : ComputeSystem G) (visibleCs : list IntBuffer)
    (sc : State) : State :=
  foldl (fun sc vli =>
           let vld := desc sc vli in
           foldl (fun sc pos => learn pos (_rng cs) visibleCs vli sc) sc
                 (grid (x3 (_size vld)) (y3 (_size vld))))
        sc (seq 0 (length (_visibleLayers sc))).

(** Every grid has at least one code per column, [_hiddenCs] has one cell
    per hidden column and the [_reconCs] of a layer one cell per visible
    column. *)
Definition sized (sc : State) : Prop :=
  0 <= x3 (_hiddenSize sc) /\ 0 <= y3 (_hiddenSize sc) /\ 1 <= z3 (_hiddenSize sc) /\
  Z.of_nat (length (_hiddenCs sc)) = x3 (_hiddenSize sc) * y3 (_hiddenSize sc) /\
  forall vli vl, _visibleLayers sc !! vli = Some vl ->
    let size := _size (desc sc vli) in
    0 <= x3 size /\ 0 <= y3 size /\ 1 <= z3 size /\
    Z.of_nat (length (_reconCs vl)) = x3 size * y3 size.

(** The hidden codes and the reconstruction codes are CSDRs of their
    grids. *)
Definition codesInRange (sc : State) : Prop :=
  isCSDR (x3 (_hiddenSize sc) * y3 (_hiddenSize sc)) (z3 (_hiddenSize sc)) (_hiddenCs sc) /\
  forall vli vl, _visibleLayers sc !! vli = Some vl ->
    let size := _size (desc sc vli) in
    isCSDR (x3 size * y3 size) (z3 size) (_reconCs vl).

(** What backward kernels run over the layers [ran] make of [sc]: only the
    visible layers change, and of these only [_reconCs], which keeps its
    size; codes in range stay in range, and the layers of [ran] get codes
    in range. *)
Definition reconstructs (ran : list nat) (sc sc' : State) : Prop :=
  sc' = set_visibleLayers sc (_visibleLayers sc') /\
  length (_visibleLayers sc') = length (_visibleLayers sc) /\
  forall vli vl, _visibleLayers sc !! vli = Some vl ->
    exists vl', _visibleLayers sc' !! vli = Some vl' /\
      length (_reconCs vl') = length (_reconCs vl) /\
      (vli ∈ ran \/ Forall (fun c => 0 <= c < z3 (_size (desc sc vli))) (_reconCs vl) ->
       Forall (fun c => 0 <= c < z3 (_size (desc sc vli))) (_reconCs vl')).

(** [sc'] has the model of [sc]: the grids, the parameters and, in every
    layer, the weights and the projection constants.  The code and
    activation buffers have the sizes they have in [sc] but may hold other
    values. *)
Definition sameModel (sc sc' : State) : Prop :=
  _hiddenSize sc' = _hiddenSize sc /\
  _visibleLayerDescs sc' = _visibleLayerDescs sc /\
  _alpha sc' = _alpha sc /\
  _explainIters sc' = _explainIters sc /\
  length (_hiddenCs sc') = length (_hiddenCs sc) /\
  length (_hiddenActivations sc') = length (_hiddenActivations sc) /\
  Forall2 (fun vl vl' => vl' = set_reconCs vl (_reconCs vl') /\
                         length (_reconCs vl') = length (_reconCs vl))
          (_visibleLayers sc) (_visibleLayers sc').

(** [sc'] is [sc] with other weights: nothing but the [_weights] of the
    layers differs, and these keep their sizes. *)
Definition sameCodes (sc sc' : State) : Prop :=
  sc' = set_visibleLayers sc (_visibleLayers sc') /\
  Forall2 (fun vl vl' => vl' = set_weights vl (_weights vl') /\
                         length (_weights vl') = length (_weights vl))
          (_visibleLayers sc) (_visibleLayers sc').

(** The code that the forward kernel stores for the column [pos] when it
    finds the activations [acts]. *)
Definition winner (sc : State) (inputCs : list IntBuffer) (pos : Int2)
    (firstIter : bool) (acts : FloatBuffer) : Z :=
  (foldl (forwardStep sc inputCs pos firstIter) (acts, 0, F32.neg_999999)
         (seqZ 0 (z3 (_hiddenSize sc)))).1.2.

(** The forward pass with every kernel evaluated on the state before the
    pass: the codes the kernels choose from the activations of [sc], and
    every cell updated from its value in [sc]. *)
Definition forwardEach (sc : State) (inputCs : list IntBuffer) (firstIter : bool) : State :=
  set_hidden sc
    (writes ((fun pos => (address2 pos (x3 (_hiddenSize sc)),
                          winner sc inputCs pos firstIter (_hiddenActivations sc)))
               <$> grid (x3 (_hiddenSize sc)) (y3 (_hiddenSize sc)))
            (_hiddenCs sc))
    (rmw F32.zero (fun p => cellUpdate sc inputCs p.1 firstIter p.2)
       (fun p => hiddenIndexOf sc p.1 p.2)
       (pos ← grid (x3 (_hiddenSize sc)) (y3 (_hiddenSize sc));
        (pair pos) <$> seqZ 0 (z3 (_hiddenSize sc)))
       (_hiddenActivations sc)).

(** The stores of the backward kernels of layer [vli], every kernel
    evaluated on [sc]. *)
Definition backwardWrites (sc : State) (vli : nat) : list (Z * Z) :=
  (fun pos => (address2 pos (x3 (_size (desc sc vli))), (reconstruct sc vli pos).1))
    <$> grid (x3 (_size (desc sc vli))) (y3 (_size (desc sc vli))).

(** The backward pass with every kernel evaluated on the state before the
    pass. *)
Definition backwardEach (sc : State) : State :=
  set_visibleLayers sc
    (for_each (length (_visibleLayers sc))
       (fun vli vl => set_reconCs vl (writes (backwardWrites sc vli) (_reconCs vl)))
       (_visibleLayers sc)).

(** *** createRandom *)

(** The kernel [init]: a draw of [weightDist(0.99f, 1.0f)] stored into the
    cell [pos] of the weights of layer [vli]. *)
Definition init {G} `{UniformReal G} (pos : Z) (rng : G) (vli : nat) (sc : State)
    : State * G :=
  let '(v, rng) := uniform_real F32.lit_0_99 F32.one rng in
  (set_visibleLayers sc
     (alter (fun vl => set_weights vl (write (_weights vl) pos v)) vli (_visibleLayers sc)),
   rng).

(** One round of the "Create layers" loop.  The sizes are [int]s; a
    buffer constructed with a negative size throws. *)
Definition createLayer {G} `{UniformReal G} (numHidden : Z) (st : option (State * G))
    (vli : nat) : option (State * G) :=
  '(sc, rng) ← st;
  let vld := desc sc vli in
  let hs := _hiddenSize sc in
  let numVisibleColumns := wrap32 (x3 (_size vld) * y3 (_size vld)) in
  let visibleToHidden :=
    mkFloat2 (F32.div (F32.of_int (x3 hs)) (F32.of_int (x3 (_size vld))))
             (F32.div (F32.of_int (y3 hs)) (F32.of_int (y3 (_size vld)))) in
  let hiddenToVisible :=
    mkFloat2 (F32.div (F32.of_int (x3 (_size vld))) (F32.of_int (x3 hs)))
             (F32.div (F32.of_int (y3 (_size vld))) (F32.of_int (y3 hs))) in
  let reverseRadii :=
    mkInt2 (F32.to_int (F32.add (F32.ceil (F32.mul (fx visibleToHidden)
                                             (F32.of_int (_radius vld)))) F32.one))
           (F32.to_int (F32.add (F32.ceil (F32.mul (fy visibleToHidden)
                                             (F32.of_int (_radius vld)))) F32.one)) in
  let diam := wrap32 (wrap32 (_radius vld * 2) + 1) in
  let numWeightsPerHidden := wrap32 (wrap32 (diam * diam) * z3 (_size vld)) in
  let weightsSize := wrap32 (numHidden * numWeightsPerHidden) in
  weights ← allocFloats weightsSize;
  let sc :=
    set_visibleLayers sc
      (alter (fun vl => mkLayer weights (_reconCs vl)
                          visibleToHidden hiddenToVisible reverseRadii)
             vli (_visibleLayers sc)) in
  let '(sc, rng) :=
    foldl (fun st x => init x st.2 vli st.1) (sc, rng) (seqZ 0 weightsSize) in
  reconCs ← alloc numVisibleColumns;
  Some (set_visibleLayers sc
          (alter (fun vl => set_reconCs vl reconCs) vli (_visibleLayers sc)),
        rng).

(** [createRandom] assigns every member but [_alpha] and [_explainIters].
    A buffer constructed with a size holds zeros. *)
Definition createRandom {G} `{UniformReal G} (cs : ComputeSystem G) (hiddenSize : Int3)
    (visibleLayerDescs : list VisibleLayerDesc) (sc : State)
    : option (ComputeSystem G * State) :=
  let sc :=
    mk hiddenSize (_hiddenCs sc) (_hiddenActivations sc)
       (resize (length visibleLayerDescs) inhabitant (_visibleLayers sc))
       visibleLayerDescs (_alpha sc) (_explainIters sc) in
  let numHiddenColumns := wrap32 (x3 hiddenSize * y3 hiddenSize) in
  let numHidden := wrap32 (numHiddenColumns * z3 hiddenSize) in
  '(sc, rng) ← foldl (createLayer numHidden) (Some (sc, _rng cs))
                 (seq 0 (length (_visibleLayers sc)));
  hiddenCs ← alloc numHiddenColumns;
  hiddenActivations ← allocFloats numHidden;
  Some (mkCS rng, set_hidden sc (fill numHiddenColumns 0 hiddenCs) hiddenActivations).

(** *** Persistence *)

Section Persist.
Context `{Codec IntBuffer} `{Codec FloatBuffer}.

Definition writeLayer (sc : State) (vli : nat) : Stream :=
  let vl := layer sc vli in
  let vld := desc sc vli in
  Raw.writeInt3 (_size vld) ++ [DInt (_radius vld)] ++
  Raw.writeFloat2 (_visibleToHidden vl) ++ Raw.writeFloat2 (_hiddenToVisible vl) ++
  Raw.writeInt2 (_reverseRadii vl) ++ put (_weights vl).

Definition writeToStream (sc : State) : Stream :=
  Raw.writeInt3 (_hiddenSize sc) ++ [DFloat (_alpha sc); DInt (_explainIters sc)] ++
  put (_hiddenCs sc) ++
  [DInt (Z.of_nat (length (_visibleLayers sc)))] ++
  (vli ← seq 0 (length (_visibleLayers sc)); writeLayer sc vli).

Definition readLayer (str : Stream) : option ((VisibleLayerDesc * VisibleLayer) * Stream) :=
  '(size, str) ← Raw.readInt3 str;
  '(radius, str) ← Raw.readInt str;
  '(visibleToHidden, str) ← Raw.readFloat2 str;
  '(hiddenToVisible, str) ← Raw.readFloat2 str;
  '(reverseRadii, str) ← Raw.readInt2 str;
  '(w, str) ← get (A := FloatBuffer) str;
  if x3 size * y3 size <? 0 then None else
  Some ((mkDesc size radius,
         mkLayer w (replicate (Z.to_nat (x3 size * y3 size)) 0)
           visibleToHidden hiddenToVisible reverseRadii), str).

Fixpoint readLayers (n : nat) (str : Stream)
    : option (list (VisibleLayerDesc * VisibleLayer) * Stream) :=
  match n with
  | O => Some ([], str)
  | S n =>
      '(l, str) ← readLayer str;
      '(ls, str) ← readLayers n str;
      Some (l :: ls, str)
  end.

(** [readFromStream] assigns every member: the activations and the
    reconstruction codes, which are not in the stream, are made anew.  A
    negative size makes the constructor of the buffer or [resize] throw. *)
Definition readFromStream (str : Stream) : option (State * Stream) :=
  '(hiddenSize, str) ← Raw.readInt3 str;
  '(alpha, str) ← Raw.readFloat str;
  '(explainIters, str) ← Raw.readInt str;
  '(hiddenCs, str) ← get (A := IntBuffer) str;
  if x3 hiddenSize * y3 hiddenSize * z3 hiddenSize <? 0 then None else
  '(numVisibleLayers, str) ← Raw.readInt str;
  if numVisibleLayers <? 0 then None else
  '(ls, str) ← readLayers (Z.to_nat numVisibleLayers) str;
  Some (mk hiddenSize hiddenCs
           (replicate (Z.to_nat (x3 hiddenSize * y3 hiddenSize * z3 hiddenSize)) F32.zero)
           ls.*2 ls.*1 alpha explainIters, str).
End Persist.

(** What the stream keeps of a coder: everything but the activations and
    the reconstruction codes, which come back as zeros. *)
Definition persisted (sc : State) : State :=
  mk (_hiddenSize sc) (_hiddenCs sc)
     (replicate (Z.to_nat (x3 (_hiddenSize sc) * y3 (_hiddenSize sc) * z3 (_hiddenSize sc)))
                F32.zero)
     (zip_with (fun vl vld =>
                  set_reconCs vl (replicate (Z.to_nat (x3 (_size vld) * y3 (_size vld))) 0))
               (_visibleLayers sc) (_visibleLayerDescs sc))
     (_visibleLayerDescs sc) (_alpha sc) (_explainIters sc).

(** The band of the initial weights. *)
Definition nearOne (w : F32.float) : Prop :=
  F32.leb F32.lit_0_99 w = true /\ F32.leb w F32.one = true.

(** What a round of the "Create layers" loop of [createRandom] leaves in
    the layer of descriptor [vld]. *)
Definition created (hs : Int3) (vld : VisibleLayerDesc) (vl : VisibleLayer) : Prop :=
  Z.of_nat (length (_weights vl)) =
    x3 hs * y3 hs * z3 hs * (diam vld * diam vld * z3 (_size vld)) /\
  Forall nearOne (_weights vl) /\
  _reconCs vl = replicate (Z.to_nat (x3 (_size vld) * y3 (_size vld))) 0 /\
  _visibleToHidden vl =
    mkFloat2 (F32.div (F32.of_int (x3 hs)) (F32.of_int (x3 (_size vld))))
             (F32.div (F32.of_int (y3 hs)) (F32.of_int (y3 (_size vld)))) /\
  _hiddenToVisible vl =
    mkFloat2 (F32.div (F32.of_int (x3 (_size vld))) (F32.of_int (x3 hs)))
             (F32.div (F32.of_int (y3 (_size vld))) (F32.of_int (y3 hs))).
End SparseCoder.

(** ** The predictor (softmax draw over the hidden codes) *)

Module Predictor.
Import Helpers.

Record VisibleLayerDesc := mkDesc { _size : Int3; _radius : Z }.
Record VisibleLayer := mkLayer { _weights : SparseMatrix.t }.

#[global] Instance Desc_inhabited : Inhabited VisibleLayerDesc :=
  populate (mkDesc inhabitant 0).
#[global] Instance Layer_inhabited : Inhabited VisibleLayer :=
  populate (mkLayer inhabitant).

Record State := mk {
  _hiddenSize : Int3;
  _hiddenCounts : IntBuffer;
  _hiddenCs : IntBuffer;
  _hiddenCsTemp : IntBuffer;
  _hiddenActivations : FloatBuffer;
  _visibleLayers : list VisibleLayer;
  _visibleLayerDescs : list VisibleLayerDesc;
  _alpha : F32.float
}.

Definition set_hiddenCs (p : State) (cs : IntBuffer) : State :=
  mk (_hiddenSize p) (_hiddenCounts p) cs (_hiddenCsTemp p) (_hiddenActivations p)
     (_visibleLayers p) (_visibleLayerDescs p) (_alpha p).

Definition set_scratch (p : State) (temp : IntBuffer) (acts : FloatBuffer) : State :=
  mk (_hiddenSize p) (_hiddenCounts p) (_hiddenCs p) temp acts
     (_visibleLayers p) (_visibleLayerDescs p) (_alpha p).

Definition set_visibleLayers (p : State) (ls : list VisibleLayer) : State :=
  mk (_hiddenSize p) (_hiddenCounts p) (_hiddenCs p) (_hiddenCsTemp p)
     (_hiddenActivations p) ls (_visibleLayerDescs p) (_alpha p).

Definition hiddenDims (p : State) : Int2 :=
  mkInt2 (x3 (_hiddenSize p)) (y3 (_hiddenSize p)).

Definition hiddenIndexOf (p : State) (pos : Int2) (hc : Z) : Z :=
  address3C (mkInt3 (x2 pos) (y2 pos) hc) (_hiddenSize p).

(** [vl._weights.multiplyOHVs( *inputCs[vli], hiddenIndex, vld._size.z)] *)
Definition layerSupport (p : State) (inputCs : list IntBuffer)
    (hiddenIndex : Z) (vli : nat) : F32.float :=
  SparseMatrix.multiplyOHVs (_weights (_visibleLayers p !!! vli)) (inputCs !!! vli)
    hiddenIndex (z3 (_size (_visibleLayerDescs p !!! vli))).

(** The divisor [std::max(1, _hiddenCounts[hiddenColumnIndex])], an [int]. *)
Definition divisor (p : State) (pos : Int2) : Z :=
  Z.max 1 (read 0 (_hiddenCounts p) (address2C pos (hiddenDims p))).

(** The body of the first [for hc] loop of [forward], on the activation
    buffer and [maxActivation]: the cell is zeroed, gets the supports of
    the layers added, is divided, and is compared. *)
Definition activateCell (p : State) (pos : Int2) (inputCs : list IntBuffer)
    (st : FloatBuffer * F32.float) (hc : Z) : FloatBuffer * F32.float :=
  let hiddenIndex := hiddenIndexOf p pos hc in
  let acts := write st.1 hiddenIndex F32.zero in
  let acts :=
    foldl (fun acts vli =>
             write acts hiddenIndex
               (F32.add (read F32.zero acts hiddenIndex)
                        (layerSupport p inputCs hiddenIndex vli)))
          acts (seq 0 (length (_visibleLayers p))) in
  let acts :=
    write acts hiddenIndex
      (F32.div (read F32.zero acts hiddenIndex) (F32.of_int (divisor p pos))) in
  (acts, F32.max st.2 (read F32.zero acts hiddenIndex)).

Definition columnScan (p : State) (pos : Int2) (inputCs : list IntBuffer)
    : FloatBuffer * F32.float :=
  foldl (activateCell p pos inputCs) (_hiddenActivations p, F32.neg_999999)
        (seqZ 0 (z3 (_hiddenSize p))).

(** The third [for hc] loop of [forward]: the first code at which the
    running sum reaches [cusp], and 0 when the loop ends without. *)
Fixpoint select (cusp sumSoFar : F32.float) (hc : Z) (activations : list F32.float) : Z :=
  match activations with
  | [] => 0
  | a :: activations =>
      let sumSoFar := F32.add sumSoFar a in
      if F32.geb sumSoFar cusp then hc else select cusp sumSoFar (hc + 1) activations
  end.

(** [total += activations[hc]] from [0.0f]. *)
Definition totalOf (activations : list F32.float) : F32.float :=
  foldl F32.add F32.zero activations.

Section Kernels.
Context {G : Type} `{UniformReal G}.

(** [std::exp] on [float].  Modelled from the spec: [sigmoid] is a helper
    that is not part of the sources at hand.  Both are parameters here;
    nothing is used of them but that they are functions of their
    argument. *)
Variable exp : F32.float -> F32.float.
Variable sigmoid : F32.float -> F32.float.

(** The local vector [activations] of [forward]. *)
Definition boltzmann (p : State) (pos : Int2) (acts : FloatBuffer)
    (maxActivation : F32.float) : list F32.float :=
  (fun hc => exp (F32.sub (read F32.zero acts (hiddenIndexOf p pos hc)) maxActivation))
    <$> seqZ 0 (z3 (_hiddenSize p)).

(** The code that [forward] draws for the column, given the number
    [dist01(rng)] gave. *)
Definition drawn (p : State) (pos : Int2) (inputCs : list IntBuffer) (u : F32.float) : Z :=
  let scan := columnScan p pos inputCs in
  let activations := boltzmann p pos scan.1 scan.2 in
  select (F32.mul u (totalOf activations)) F32.zero 0 activations.

(** The forward kernel.  A negative depth makes the constructor of
    [activations] throw. *)
Definition forward (pos : Int2) (rng : G) (inputCs : list IntBuffer) (p : State)
    : option (State * G) :=
  let scan := columnScan p pos inputCs in
  if z3 (_hiddenSize p) <? 0 then None else
  let '(u, rng) := uniform_real F32.zero F32.one rng in
  Some (set_scratch p
          (write (_hiddenCsTemp p) (address2C pos (hiddenDims p)) (drawn p pos inputCs u))
          scan.1,
        rng).

(** The body of the [for hc] loop of the learn kernel, on the layers. *)
Definition learnCell (p : State) (pos : Int2) (targetC : Z) (inputCs : list IntBuffer)
    (layers : list VisibleLayer) (hc : Z) : list VisibleLayer :=
  let hiddenIndex := hiddenIndexOf p pos hc in
  let target := if hc =? targetC then F32.one else F32.zero in
  let delta :=
    F32.mul (_alpha p)
      (F32.sub target (sigmoid (read F32.zero (_hiddenActivations p) hiddenIndex))) in
  for_each (length layers)
    (fun vli vl =>
       mkLayer (SparseMatrix.deltaOHVs (_weights vl) (inputCs !!! vli) delta
                  hiddenIndex (z3 (_size (_visibleLayerDescs p !!! vli)))))
    layers.

Definition learn (pos : Int2) (rng : G) (hiddenTargetCs : IntBuffer)
    (inputCs : list IntBuffer) (p : State) : State :=
  let targetC := read 0 hiddenTargetCs (address2C pos (hiddenDims p)) in
  set_visibleLayers p
    (foldl (learnCell p pos targetC inputCs) (_visibleLayers p)
           (seqZ 0 (z3 (_hiddenSize p)))).

(** The forward kernel over the hidden grid; the generator goes from one
    column to the next. *)
Definition forwardPass (rng : G) (inputCs : list IntBuffer) (p : State)
    : option (State * G) :=
  foldl (fun st pos => st ← st; forward pos st.2 inputCs st.1)
        (Some (p, rng)) (grid (x3 (_hiddenSize p)) (y3 (_hiddenSize p))).

Definition activate (cs : ComputeSystem G) (inputCs : list IntBuffer) (p : State)
    : option (ComputeSystem G * State) :=
  st ← forwardPass (_rng cs) inputCs p;
  let p := st.1 in
  let numHiddenColumns := x3 (_hiddenSize p) * y3 (_hiddenSize p) in
  Some (mkCS st.2, set_hiddenCs p (copy numHiddenColumns (_hiddenCsTemp p) (_hiddenCs p))).

Definition learnPass (cs : ComputeSystem G) (hiddenTargetCs : IntBuffer)
    (inputCs : list IntBuffer) (p : State) : option (ComputeSystem G * State) :=
  if F32.eqb (_alpha p) F32.zero then Some (cs, p) else
  st ← forwardPass (_rng cs) inputCs p;
  Some (mkCS st.2,
        foldl (fun p pos => learn pos st.2 hiddenTargetCs inputCs p) st.1
              (grid (x3 (_hiddenSize st.1)) (y3 (_hiddenSize st.1)))).
End Kernels.

(** *** Creation *)

Section Create.
Context {G : Type} `{UniformReal G}.

(** Modelled from the spec: [initSMLocalRF], as for the actor, is a
    parameter: nothing is used of it but that the matrix it stores is made
    from the size of the layer, the hidden size and the radius. *)
Variable initSMLocalRF : Int3 -> Int3 -> Z -> SparseMatrix.t.

(** [for (i = 0; i < numHiddenColumns; i++)
       _hiddenCounts[i] += vl._weights.counts(i * _hiddenSize.z) / vld._size.z].
    The division is one of [int]s; it has no result when [vld._size.z]
    is 0. *)
Definition addCounts (hiddenSize : Int3) (vld : VisibleLayerDesc) (m : SparseMatrix.t)
    (hiddenCounts : IntBuffer) : option IntBuffer :=
  let numHiddenColumns := x3 hiddenSize * y3 hiddenSize in
  if (0 <? numHiddenColumns) && (z3 (_size vld) =? 0) then None
  else Some (foldl (fun c i =>
                      write c i (read 0 c i +
                                 Z.quot (SparseMatrix.counts m (i * z3 hiddenSize))
                                        (z3 (_size vld))))
                   hiddenCounts (seqZ 0 numHiddenColumns)).

(** A round of the "Create layers" loop; the weights are drawn as in the
    actor, between [-0.0001f] and [0.0001f]. *)
Definition createLayer (hiddenSize : Int3) (visibleLayerDescs : list VisibleLayerDesc)
    (st : option (list VisibleLayer * IntBuffer * G)) (vli : nat)
    : option (list VisibleLayer * IntBuffer * G) :=
  '(layers, hiddenCounts, rng) ← st;
  let vld := visibleLayerDescs !!! vli in
  let '(w, rng) :=
    Actor.drawWeights F32.lit_neg_0_0001 F32.lit_0_0001
      (initSMLocalRF (_size vld) hiddenSize (_radius vld)) rng in
  hiddenCounts ← addCounts hiddenSize vld w hiddenCounts;
  Some (<[vli := mkLayer w]> layers, hiddenCounts, rng).

(** [initRandom] assigns every member but [_alpha]. *)
Definition initRandom (cs : ComputeSystem G) (hiddenSize : Int3)
    (visibleLayerDescs : list VisibleLayerDesc) (p : State)
    : option (ComputeSystem G * State) :=
  let numHiddenColumns := x3 hiddenSize * y3 hiddenSize in
  let numHidden := numHiddenColumns * z3 hiddenSize in
  let layers := resize (length visibleLayerDescs) inhabitant (_visibleLayers p) in
  hiddenCounts ← alloc numHiddenColumns;
  '(layers, hiddenCounts, rng) ←
    foldl (createLayer hiddenSize visibleLayerDescs)
          (Some (layers, hiddenCounts, _rng cs)) (seq 0 (length layers));
  hiddenCs ← alloc numHiddenColumns;
  hiddenCsTemp ← alloc numHiddenColumns;
  hiddenActivations ← allocFloats numHidden;
  Some (mkCS rng,
        mk hiddenSize hiddenCounts hiddenCs hiddenCsTemp hiddenActivations
           layers visibleLayerDescs (_alpha p)).
End Create.

(** *** Persistence *)

Section Persist.
Context `{Codec IntBuffer} `{Codec FloatBuffer} `{Codec SparseMatrix.t}.

Definition writeLayer (p : State) (vli : nat) : Stream :=
  let vl := _visibleLayers p !!! vli in
  let vld := _visibleLayerDescs p !!! vli in
  Raw.writeInt3 (_size vld) ++ [DInt (_radius vld)] ++ put (_weights vl).

Definition writeToStream (p : State) : Stream :=
  Raw.writeInt3 (_hiddenSize p) ++ [DFloat (_alpha p)] ++
  put (_hiddenCs p) ++ put (_hiddenActivations p) ++ put (_hiddenCounts p) ++
  [DInt (Z.of_nat (length (_visibleLayers p)))] ++
  (vli ← seq 0 (length (_visibleLayers p)); writeLayer p vli).

Definition readLayer (str : Stream) : option ((VisibleLayerDesc * VisibleLayer) * Stream) :=
  '(size, str) ← Raw.readInt3 str;
  '(radius, str) ← Raw.readInt str;
  '(w, str) ← get (A := SparseMatrix.t) str;
  Some ((mkDesc size radius, mkLayer w), str).

Fixpoint readLayers (n : nat) (str : Stream)
    : option (list (VisibleLayerDesc * VisibleLayer) * Stream) :=
  match n with
  | O => Some ([], str)
  | S n =>
      '(l, str) ← readLayer str;
      '(ls, str) ← readLayers n str;
      Some (l :: ls, str)
  end.

(** [readFromStream] assigns every member: [_hiddenCsTemp], which is not
    in the stream, is made anew.  A negative count makes [resize] throw. *)
Definition readFromStream (str : Stream) : option (State * Stream) :=
  '(hiddenSize, str) ← Raw.readInt3 str;
  '(alpha, str) ← Raw.readFloat str;
  '(hiddenCs, str) ← get (A := IntBuffer) str;
  hiddenCsTemp ← alloc (x3 hiddenSize * y3 hiddenSize);
  '(hiddenActivations, str) ← get (A := FloatBuffer) str;
  '(hiddenCounts, str) ← get (A := IntBuffer) str;
  '(numVisibleLayers, str) ← Raw.readInt str;
  if numVisibleLayers <? 0 then None else
  '(ls, str) ← readLayers (Z.to_nat numVisibleLayers) str;
  Some (mk hiddenSize hiddenCounts hiddenCs hiddenCsTemp hiddenActivations
           ls.*2 ls.*1 alpha, str).
End Persist.

(** What the stream keeps of a predictor: everything but
    [_hiddenCsTemp], which comes back as zeros. *)
Definition persisted (p : State) : State :=
  set_scratch p (replicate (Z.to_nat (x3 (_hiddenSize p) * y3 (_hiddenSize p))) 0)
    (_hiddenActivations p).

(** The hidden grid has at least one code per column, and the code
    buffers have one cell per column. *)
Definition sized (p : State) : Prop :=
  0 <= x3 (_hiddenSize p) /\ 0 <= y3 (_hiddenSize p) /\ 1 <= z3 (_hiddenSize p) /\
  Z.of_nat (length (_hiddenCs p)) = x3 (_hiddenSize p) * y3 (_hiddenSize p) /\
  Z.of_nat (length (_hiddenCsTemp p)) = x3 (_hiddenSize p) * y3 (_hiddenSize p).

(** The layers [layers'] have the sparsity pattern of [layers]: the same
    row ranges and column indices, and as many values. *)
Definition sameShape (layers layers' : list VisibleLayer) : Prop :=
  Forall2 (fun vl vl' =>
             SparseMatrix._rowRanges (_weights vl') = SparseMatrix._rowRanges (_weights vl) /\
             SparseMatrix._columnIndices (_weights vl') =
               SparseMatrix._columnIndices (_weights vl) /\
             length (SparseMatrix._nonZeroValues (_weights vl')) =
               length (SparseMatrix._nonZeroValues (_weights vl)))
          layers layers'.

(** The running sum of the third loop of [forward] after code [k]. *)
Definition sumUpTo (activations : list F32.float) (k : Z) : F32.float :=
  foldl F32.add F32.zero (take (Z.to_nat (k + 1)) activations).
End Predictor.

Module CoderExample.
(** A sparse coder with a 2 x 1 x 2 hidden grid over one 2 x 1 x 2 visible
    layer of radius 1: 4 hidden cells times 9 field offsets times 2 codes. *)
Definition unitRatio : Float2 := mkFloat2 F32.one F32.one.

Definition vld : SparseCoder.VisibleLayerDesc := SparseCoder.mkDesc (mkInt3 2 1 2) 1.

Definition vl : SparseCoder.VisibleLayer :=
  SparseCoder.mkLayer
    ((fun i => F32.mul Example.quarter (F32.of_int (i mod 7))) <$> seqZ 0 72)
    [0; 0] unitRatio unitRatio (mkInt2 2 2).

Definition coder : SparseCoder.State :=
  SparseCoder.mk (mkInt3 2 1 2) [0; 0] [F32.zero; F32.zero; F32.zero; F32.zero]
    [vl] [vld] F32.half 2.

Definition input : list IntBuffer := [[1; 0]].
End CoderExample.

(** Instances for the examples: a generator that draws the lower bound,
    and streams that hold a buffer as its length and its cells. *)
Module MoreExamples.
Lemma low_range (a b : F32.float) (g : Z) :
  F32.ltb a b = true -> F32.leb a a = true /\ F32.leb a b = true.
Proof.
  unfold F32.ltb, F32.leb, SFltb, SFleb. intros Hlt.
  split; [| by destruct (SFcompare a b) as [[] |]].
  destruct a as [[] | [] | | [] m e]; try done; simpl;
    rewrite Z.compare_refl;
    change (Pos.compare_cont Eq m m) with (Pos.compare m m);
    by rewrite Pos.compare_refl.
Qed.

#[global] Instance low_uniform : UniformReal Z :=
  {| uniform_real := fun a b g => (a, g + 1); uniform_real_range := low_range |}.

Fixpoint getInts (n : nat) (str : Stream) : option (list Z * Stream) :=
  match n with
  | O => Some ([], str)
  | S n => '(x, str) ← Raw.readInt str; '(xs, str) ← getInts n str; Some (x :: xs, str)
  end.

Fixpoint getFloats (n : nat) (str : Stream) : option (list F32.float * Stream) :=
  match n with
  | O => Some ([], str)
  | S n => '(x, str) ← Raw.readFloat str; '(xs, str) ← getFloats n str; Some (x :: xs, str)
  end.

Definition putInts (b : IntBuffer) : Stream := DInt (Z.of_nat (length b)) :: (DInt <$> b).
Definition putFloats (b : FloatBuffer) : Stream :=
  DInt (Z.of_nat (length b)) :: (DFloat <$> b).

Definition getIntBuffer (str : Stream) : option (IntBuffer * Stream) :=
  '(n, str) ← Raw.readInt str; getInts (Z.to_nat n) str.
Definition getFloatBuffer (str : Stream) : option (FloatBuffer * Stream) :=
  '(n, str) ← Raw.readInt str; getFloats (Z.to_nat n) str.

Lemma getInts_put (b : list Z) rest : getInts (length b) ((DInt <$> b) ++ rest) = Some (b, rest).
Proof.
  induction b as [| x b IH]; [done |].
  rewrite fmap_cons. cbn [length app getInts getFloats Raw.readInt Raw.readFloat].
  cbn [mbind option_bind]. by rewrite IH.
Qed.

Lemma getFloats_put (b : list F32.float) rest :
  getFloats (length b) ((DFloat <$> b) ++ rest) = Some (b, rest).
Proof.
  induction b as [| x b IH]; [done |].
  rewrite fmap_cons. cbn [length app getInts getFloats Raw.readInt Raw.readFloat].
  cbn [mbind option_bind]. by rewrite IH.
Qed.

Lemma getIntBuffer_put b rest : getIntBuffer (putInts b ++ rest) = Some (b, rest).
Proof. unfold getIntBuffer, putInts. simpl. rewrite Nat2Z.id. apply getInts_put. Qed.

Lemma getFloatBuffer_put b rest : getFloatBuffer (putFloats b ++ rest) = Some (b, rest).
Proof. unfold getFloatBuffer, putFloats. simpl. rewrite Nat2Z.id. apply getFloats_put. Qed.

#[global] Instance int_codec : Codec IntBuffer :=
  {| put := putInts; get := getIntBuffer; get_put := getIntBuffer_put |}.
#[global] Instance float_codec : Codec FloatBuffer :=
  {| put := putFloats; get := getFloatBuffer; get_put := getFloatBuffer_put |}.

Definition putMatrix (m : SparseMatrix.t) : Stream :=
  putInts (SparseMatrix._rowRanges m) ++ putInts (SparseMatrix._columnIndices m) ++
  putFloats (SparseMatrix._nonZeroValues m).

Definition getMatrix (str : Stream) : option (SparseMatrix.t * Stream) :=
  '(r, str) ← getIntBuffer str; '(c, str) ← getIntBuffer str; '(v, str) ← getFloatBuffer str;
  Some (SparseMatrix.mk r c v, str).

Lemma getMatrix_put m rest : getMatrix (putMatrix m ++ rest) = Some (m, rest).
Proof.
  unfold getMatrix, putMatrix. rewrite <- !app_assoc.
  rewrite getIntBuffer_put. cbn [mbind option_bind].
  rewrite getIntBuffer_put. cbn [mbind option_bind].
  rewrite getFloatBuffer_put. cbn [mbind option_bind]. by destruct m.
Qed.

#[global] Instance matrix_codec : Codec SparseMatrix.t :=
  {| put := putMatrix; get := getMatrix; get_put := getMatrix_put |}.

(** A predictor with one hidden column of two codes over one visible
    column of two codes, on the weights of the actor of the examples. *)
Definition predictor : Predictor.State :=
  Predictor.mk (mkInt3 1 1 2) [1] [0] [0] [F32.zero; F32.zero]
    [Predictor.mkLayer Example.weights] [Predictor.mkDesc (mkInt3 1 1 2) 0] F32.half.

(** An actor with two hidden columns of two action codes over two visible
    columns of two codes, each hidden column seeing the visible column
    below it. *)
Definition wideWeights : SparseMatrix.t :=
  SparseMatrix.mk [0; 2; 4; 6; 8] [0; 1; 0; 1; 2; 3; 2; 3]
    [F32.zero; F32.half; Example.quarter; F32.zero;
     F32.half; F32.zero; F32.zero; Example.quarter].

Definition wide : Actor.State :=
  Actor.mk (mkInt3 2 1 2) 0 [0; 0] [1; 1] [0%nat]
    [Actor.HistorySample.mk [[0; 0]] [0; 0] [0; 0]]
    [Actor.mkLayer wideWeights] [Actor.mkDesc (mkInt3 2 1 2) 0]
    F32.half F32.half F32.one 2.

(** A stand-in for [std::exp] and for [sigmoid] in the examples. *)
Definition flat (x : F32.float) : F32.float := F32.one.




End MoreExamples.

(** * Properties *)

(** ** Buffers and loops *)

Section BufferFacts.
Context {A : Type}.
Implicit Types (b : list A) (i j : Z) (v d : A).

Lemma length_write b i v : length (write b i v) = length b.
Proof. unfold write. destruct (i <? 0); [done | apply length_insert]. Qed.

Lemma read_write_eq d b i v :
  0 <= i < Z.of_nat (length b) -> read d (write b i v) i = v.
Proof.
  intros Hi. unfold read, at_index, write.
  destruct (Z.ltb_spec i 0); [lia |].
  rewrite list_lookup_insert_eq by lia. done.
Qed.

Lemma read_write_ne d b i j v : i <> j -> read d (write b i v) j = read d b j.
Proof.
  intros Hne. unfold read, at_index, write.
  destruct (Z.ltb_spec j 0); [done |].
  destruct (Z.ltb_spec i 0); [done |].
  rewrite list_lookup_insert_ne by lia. done.
Qed.

Lemma read_lookup d b i v :
  0 <= i -> b !! Z.to_nat i = Some v -> read d b i = v.
Proof.
  intros Hi Hl. unfold read, at_index.
  destruct (Z.ltb_spec i 0); [lia |]. by rewrite Hl.
Qed.

Lemma lookup_write b i v (k : nat) :
  write b i v !! k =
    if decide (0 <= i /\ Z.to_nat i = k /\ (k < length b)%nat) then Some v else b !! k.
Proof.
  unfold write. destruct (Z.ltb_spec i 0).
  - rewrite decide_False by lia. done.
  - destruct (decide (Z.to_nat i = k)) as [<- | Hne].
    + destruct (decide (Z.to_nat i < length b)%nat).
      * rewrite list_lookup_insert_eq by done. rewrite decide_True by lia. done.
      * rewrite list_insert_ge by lia. rewrite decide_False by lia. done.
    + rewrite list_lookup_insert_ne by done. rewrite decide_False by lia. done.
Qed.
End BufferFacts.

Section WritesFacts.
Context {A : Type}.
Implicit Types (b : list A) (ws : list (Z * A)).

Lemma length_writes ws b : length (writes ws b) = length b.
Proof.
  revert b. induction ws as [| [i v] ws IH]; intros b; [done |].
  unfold writes in *. simpl. rewrite IH. apply length_write.
Qed.

Lemma lookup_writes ws b (k : nat) :
  writes ws b !! k =
    match lastWrite ws k with
    | Some v => if decide (k < length b)%nat then Some v else None
    | None => b !! k
    end.
Proof.
  revert b. induction ws as [| [i v] ws IH]; intros b; [done |].
  change (writes ((i, v) :: ws) b) with (writes ws (write b i v)).
  rewrite IH. simpl. rewrite length_write.
  destruct (lastWrite ws k); [done |].
  rewrite lookup_write.
  destruct (decide (0 <= i /\ Z.to_nat i = k)) as [[? ?] | ?].
  - destruct (decide (k < length b)%nat).
    + rewrite decide_True by lia. done.
    + rewrite decide_False by lia. apply lookup_ge_None. lia.
  - rewrite decide_False by lia. done.
Qed.

(** Replaying the same writes changes nothing. *)
Lemma writes_idemp ws b : writes ws (writes ws b) = writes ws b.
Proof.
  apply list_eq. intros k.
  rewrite (lookup_writes ws (writes ws b)), length_writes.
  rewrite (lookup_writes ws b).
  destruct (lastWrite ws k); done.
Qed.

Lemma lastWrite_Some ws k v :
  lastWrite ws k = Some v -> exists i, (i, v) ∈ ws /\ 0 <= i /\ Z.to_nat i = k.
Proof.
  induction ws as [| [i w] ws IH]; simpl; [done |].
  destruct (lastWrite ws k) as [v' |] eqn:E.
  - intros [= ->]. destruct (IH eq_refl) as (j & ? & ?).
    exists j. split; [apply elem_of_cons; by right | done].
  - destruct (decide (0 <= i /\ Z.to_nat i = k)) as [[? ?] |]; [| done].
    intros [= ->]. exists i. split; [apply elem_of_cons; by left | done].
Qed.

Lemma lastWrite_None ws k :
  lastWrite ws k = None -> forall i v, (i, v) ∈ ws -> 0 <= i -> Z.to_nat i <> k.
Proof.
  induction ws as [| [i w] ws IH]; simpl; intros Hn j v Hin Hj.
  - by apply elem_of_nil in Hin.
  - destruct (lastWrite ws k) eqn:E; [done |].
    destruct (decide (0 <= i /\ Z.to_nat i = k)); [done |].
    apply elem_of_cons in Hin as [[= -> ->] | Hin]; [lia | by eapply IH].
Qed.
End WritesFacts.

Section RmwFacts.
Context {A K : Type} (d : A) (f : K -> A -> A) (idx : K -> Z).
Implicit Types (b : list A) (l : list K).

Lemma length_rmw l b : length (rmw d f idx l b) = length b.
Proof.
  revert b. induction l as [| k l IH]; intros b; [done |].
  unfold rmw in *. simpl. rewrite IH. apply length_write.
Qed.

Lemma rmw_app l1 l2 b : rmw d f idx (l1 ++ l2) b = rmw d f idx l2 (rmw d f idx l1 b).
Proof. apply foldl_app. Qed.

(** Cells that no key addresses keep their value. *)
Lemma rmw_read_out l b j : j ∉ idx <$> l -> read d (rmw d f idx l b) j = read d b j.
Proof.
  revert b. induction l as [| k l IH]; intros b Hj; [done |].
  rewrite fmap_cons in Hj. apply not_elem_of_cons in Hj as [Hne Hj].
  change (rmw d f idx (k :: l) b)
    with (rmw d f idx l (write b (idx k) (f k (read d b (idx k))))).
  rewrite IH by done. by apply read_write_ne.
Qed.

(** A cell that one key addresses is updated once, from its old value. *)
Lemma rmw_read_in l b k :
  NoDup (idx <$> l) -> k ∈ l -> 0 <= idx k < Z.of_nat (length b) ->
  read d (rmw d f idx l b) (idx k) = f k (read d b (idx k)).
Proof.
  revert b. induction l as [| k' l IH]; intros b Hnd Hk Hr.
  - by apply elem_of_nil in Hk.
  - rewrite fmap_cons in Hnd. apply NoDup_cons in Hnd as [Hk' Hnd].
    change (rmw d f idx (k' :: l) b)
      with (rmw d f idx l (write b (idx k') (f k' (read d b (idx k'))))).
    apply elem_of_cons in Hk as [-> | Hk].
    + rewrite rmw_read_out by done. by apply read_write_eq.
    + assert (Hne : idx k' <> idx k).
      { intros Heq. apply Hk'. rewrite Heq. by apply list_elem_of_fmap_2. }
      rewrite IH by (done || by rewrite length_write).
      by rewrite read_write_ne.
Qed.
End RmwFacts.

(** Nested loops are one loop over the pairs of keys. *)
Lemma rmw_nested {A X Y} (d : A) (f : X -> Y -> A -> A) (idx : X -> Y -> Z)
    (g : X -> list Y) (l : list X) (b : list A) :
  foldl (fun b x => rmw d (f x) (idx x) (g x) b) b l =
    rmw d (fun p => f p.1 p.2) (fun p => idx p.1 p.2) (x ← l; (pair x) <$> g x) b.
Proof.
  revert b. induction l as [| x l IH]; intros b; [done |].
  rewrite bind_cons, rmw_app. cbn [foldl]. rewrite IH. f_equal.
  unfold rmw. by rewrite foldl_fmap.
Qed.

(** ** Grids *)

Section GridFacts.
Import Helpers.

Lemma radix_inj n a a' b b' :
  0 <= a < n -> 0 <= a' < n -> a + b * n = a' + b' * n -> a = a' /\ b = b'.
Proof. intros Ha Ha' He. assert (b = b') by nia. subst. lia. Qed.

Lemma grid3_range x y c sx sy sz :
  0 <= x < sx /\ 0 <= y < sy -> 0 <= c < sz ->
  0 <= x + y * sx + c * sx * sy < sx * sy * sz.
Proof.
  intros [Hx Hy] Hc.
  assert (0 <= y * sx <= (sy - 1) * sx) by nia.
  assert (0 <= sx * sy) by nia.
  assert (0 <= c * (sx * sy) <= (sz - 1) * (sx * sy)) by nia.
  replace (c * sx * sy) with (c * (sx * sy)) by ring.
  replace (sx * sy * sz) with ((sz - 1) * (sx * sy) + (sy - 1) * sx + sx) by ring.
  lia.
Qed.

Lemma elem_of_grid sx sy pos :
  pos ∈ grid sx sy <-> 0 <= x2 pos < sx /\ 0 <= y2 pos < sy.
Proof.
  unfold grid. rewrite list_elem_of_bind. split.
  - intros (x & Hp & Hx). apply list_elem_of_fmap in Hp as (y & -> & Hy).
    apply elem_of_seqZ in Hx, Hy. simpl. lia.
  - intros [Hx Hy]. exists (x2 pos). split; [| apply elem_of_seqZ; lia].
    apply list_elem_of_fmap. exists (y2 pos).
    split; [by destruct pos | apply elem_of_seqZ; lia].
Qed.


Lemma NoDup_rows (m n : Z) (lo len : Z) :
  NoDup (x ← seqZ m n; (mkInt2 x) <$> seqZ lo len).
Proof.
  apply NoDup_bind; [| | apply NoDup_seqZ].
  - intros x1 x2 p _ _ H1 H2.
    apply list_elem_of_fmap in H1 as (y1 & -> & _).
    apply list_elem_of_fmap in H2 as (y2 & [= ? ?] & _). done.
  - intros x _. apply NoDup_fmap_2_strong; [| apply NoDup_seqZ].
    intros y1 y2 _ _ [= ?]. done.
Qed.

Lemma NoDup_grid sx sy : NoDup (grid sx sy).
Proof. apply NoDup_rows. Qed.

End GridFacts.

Section LoopFacts.
Context {A B C : Type}.

(** A loop that carries two independent accumulators. *)
Lemma foldl_pair (f : A -> C -> A) (g : B -> C -> B) (l : list C) (a : A) (b : B) :
  foldl (fun '(x, y) c => (f x c, g y c)) (a, b) l = (foldl f a l, foldl g b l).
Proof. revert a b. induction l as [| c l IH]; intros a b; [done | apply IH]. Qed.

Lemma for_each_lookup (f : nat -> A -> A) (l : list A) (n i : nat) :
  Helpers.for_each n f l !! i = if decide (i < n)%nat then f i <$> l !! i else l !! i.
Proof.
  unfold Helpers.for_each. induction n as [| n IH].
  - done.
  - rewrite seq_S, foldl_app. simpl.
    destruct (decide (i = n)) as [-> | Hne].
    + rewrite list_lookup_alter_eq, IH.
      repeat case_decide; try lia; done.
    + rewrite list_lookup_alter_ne by done. rewrite IH.
      repeat case_decide; try lia; done.
Qed.

Lemma length_for_each (f : nat -> A -> A) (l : list A) (n : nat) :
  length (Helpers.for_each n f l) = length l.
Proof.
  unfold Helpers.for_each. induction n as [| n IH]; [done |].
  rewrite seq_S, foldl_app. simpl. by rewrite length_alter.
Qed.
End LoopFacts.

(** ** The learn kernel of the actor *)

Section ActorLearn.
Import Actor.
Variables (a : State) (pos : Int2) (inputCs inputCsPrev : list IntBuffer).
Variable targetC : Z.

Let step := scanStep a pos inputCs inputCsPrev targetC.
Let q hc := qValues a pos inputCs inputCsPrev hc.

(** The running maxima do not depend on the target. *)
Lemma scan_maxActivation l acc :
  maxActivation (foldl step acc l) =
    foldl F32.max (maxActivation acc) ((fun hc => (q hc).1) <$> l).
Proof.
  revert acc. induction l as [| hc l IH]; intros acc; [done |].
  simpl. rewrite IH. f_equal. unfold step, scanStep, q.
  destruct (qValues a pos inputCs inputCsPrev hc). by destruct (hc =? targetC).
Qed.

Lemma scan_maxActivationPrev l acc :
  maxActivationPrev (foldl step acc l) =
    foldl F32.max (maxActivationPrev acc) ((fun hc => (q hc).2) <$> l).
Proof.
  revert acc. induction l as [| hc l IH]; intros acc; [done |].
  simpl. rewrite IH. f_equal. unfold step, scanStep, q.
  destruct (qValues a pos inputCs inputCsPrev hc). by destruct (hc =? targetC).
Qed.

(** The branch [hc == targetC] is taken once per occurrence of the target
    among the codes the loop visits. *)
Lemma scan_assignments l acc :
  assignments (foldl step acc l) =
    (assignments acc + length (filter (fun hc => hc = targetC) l))%nat.
Proof.
  revert acc. induction l as [| hc l IH]; intros acc; [simpl; lia |].
  simpl. rewrite IH. unfold step, scanStep.
  destruct (qValues a pos inputCs inputCsPrev hc).
  rewrite filter_cons. destruct (Z.eqb_spec hc targetC).
  - rewrite decide_True by done. simpl. lia.
  - rewrite decide_False by done. simpl. lia.
Qed.

Lemma scan_untouched l acc :
  targetC ∉ l ->
  qActionPrev (foldl step acc l) = qActionPrev acc /\
  nextQActionPrev (foldl step acc l) = nextQActionPrev acc.
Proof.
  revert acc. induction l as [| hc l IH]; intros acc Hnot; [done |].
  apply not_elem_of_cons in Hnot as [Hne Hnot].
  simpl. destruct (IH (step acc hc) Hnot) as [-> ->].
  unfold step, scanStep. destruct (qValues a pos inputCs inputCsPrev hc).
  destruct (Z.eqb_spec hc targetC); [congruence | done].
Qed.

Lemma scan_assigned l acc :
  targetC ∈ l ->
  qActionPrev (foldl step acc l) = Some (q targetC).2 /\
  nextQActionPrev (foldl step acc l) = Some (q targetC).1.
Proof.
  revert acc. induction l as [| hc l IH]; intros acc Hin.
  - by apply elem_of_nil in Hin.
  - simpl. destruct (decide (targetC ∈ l)) as [Hl | Hl]; [by apply IH |].
    apply elem_of_cons in Hin as [Heq | Hin]; [| done].
    destruct (scan_untouched l (step acc hc) Hl) as [-> ->].
    rewrite <- Heq.
    unfold step, scanStep, q. destruct (qValues a pos inputCs inputCsPrev targetC).
    by rewrite Z.eqb_refl.
Qed.

Lemma filter_seqZ_this n :
  length (filter (fun hc => hc = targetC) (seqZ 0 n)) =
    if decide (0 <= targetC < n) then 1%nat else 0%nat.
Proof.
  assert (filter_nil_iff : forall l : list Z,
            Forall (fun hc => hc <> targetC) l ->
            filter (fun hc => hc = targetC) l = []).
  { intros l Hl. apply elem_of_nil_inv. intros x Hx.
    apply list_elem_of_filter in Hx as [Heq Hx].
    rewrite Forall_forall in Hl. by apply (Hl x). }
  destruct (decide (0 <= targetC < n)) as [Hin | Hout].
  - replace n with (targetC + (1 + (n - targetC - 1))) by lia.
    rewrite seqZ_app by lia. rewrite seqZ_app by lia.
    rewrite Z.add_0_l.
    rewrite !filter_app, !length_app.
    rewrite (seqZ_cons targetC 1) by lia. rewrite (seqZ_nil _ (Z.pred 1)) by lia.
    rewrite filter_cons, decide_True by done. simpl.
    assert (Hnil : forall m k, ~ (m <= targetC < m + k) ->
              filter (fun hc => hc = targetC) (seqZ m k) = []).
    { intros m k Hmk. apply filter_nil_iff, Forall_seqZ. intros. lia. }
    rewrite !Hnil by lia. done.
  - replace (filter _ _) with (@nil Z); [done |].
    symmetry. apply filter_nil_iff, Forall_seqZ. intros. lia.
Qed.
End ActorLearn.

(** C10.  In the learn kernel of the actor, when there is at least one
    action code and the recorded target code lies in [[0, hiddenSize.z)],
    [qActionPrev] and [nextQActionPrev] are stored exactly once (by the round
    [hc == targetC]) before the update reads them, so the kernel does not
    fault; otherwise they are never stored and the kernel reads them
    uninitialised. *)
Theorem learn_target_assigned_once {G} (a : Actor.State) (pos : Int2) (rng : G)
    (inputCs : list IntBuffer) (hiddenCsPrev feedBackCsPrev : IntBuffer)
    (inputCsPrev : list IntBuffer) :
  let hz := z3 (Actor._hiddenSize a) in
  let targetC := Actor.targetOf a pos hiddenCsPrev in
  let acc := Actor.scan a pos inputCs inputCsPrev targetC in
  (1 <= hz /\ 0 <= targetC < hz ->
     Actor.assignments acc = 1%nat /\
     Actor.qActionPrev acc = Some (Actor.qValues a pos inputCs inputCsPrev targetC).2 /\
     Actor.nextQActionPrev acc = Some (Actor.qValues a pos inputCs inputCsPrev targetC).1 /\
     is_Some (Actor.learn pos rng inputCs hiddenCsPrev feedBackCsPrev inputCsPrev a)) /\
  (~ (1 <= hz /\ 0 <= targetC < hz) ->
     Actor.assignments acc = 0%nat /\
     Actor.qActionPrev acc = None /\
     Actor.nextQActionPrev acc = None /\
     Actor.learn pos rng inputCs hiddenCsPrev feedBackCsPrev inputCsPrev a = None).
Proof.
  intros hz targetC acc. split.
  - intros [_ Hin].
    assert (Hmem : targetC ∈ seqZ 0 hz) by (apply elem_of_seqZ; lia).
    destruct (scan_assigned a pos inputCs inputCsPrev targetC _
                (Actor.mkAcc F32.neg_999999 F32.neg_999999 None None 0) Hmem)
      as [Hq Hn].
    change (Actor.qActionPrev acc =
              Some (Actor.qValues a pos inputCs inputCsPrev targetC).2) in Hq.
    change (Actor.nextQActionPrev acc =
              Some (Actor.qValues a pos inputCs inputCsPrev targetC).1) in Hn.
    split; [| split; [done | split; [done |]]].
    + unfold acc, Actor.scan. rewrite scan_assignments, filter_seqZ_this.
      fold hz. by rewrite decide_True by lia.
    + unfold Actor.learn.
      change (Actor.scan a pos inputCs inputCsPrev (Actor.targetOf a pos hiddenCsPrev))
        with acc.
      rewrite Hq, Hn. simpl. eauto.
  - intros Hout.
    assert (Hmem : targetC ∉ seqZ 0 hz) by (rewrite elem_of_seqZ; lia).
    destruct (scan_untouched a pos inputCs inputCsPrev targetC _
                (Actor.mkAcc F32.neg_999999 F32.neg_999999 None None 0) Hmem)
      as [Hq Hn].
    change (Actor.qActionPrev acc = None) in Hq.
    change (Actor.nextQActionPrev acc = None) in Hn.
    split; [| split; [done | split; [done |]]].
    + unfold acc, Actor.scan. rewrite scan_assignments, filter_seqZ_this.
      fold hz. by rewrite decide_False by lia.
    + unfold Actor.learn.
      change (Actor.scan a pos inputCs inputCsPrev (Actor.targetOf a pos hiddenCsPrev))
        with acc.
      by rewrite Hq.
Qed.

Lemma supports_activation a inputCs inputCsPrev hiddenIndex :
  Actor.supports a inputCs inputCsPrev hiddenIndex =
    (Actor.activation a inputCs hiddenIndex, Actor.activation a inputCsPrev hiddenIndex).
Proof. unfold Actor.supports, Actor.activation. apply foldl_pair. Qed.

Lemma qValues_spec a pos inputCs inputCsPrev hc :
  Actor.qValues a pos inputCs inputCsPrev hc =
    (PAL.sum a pos inputCs hc, PAL.sumPrev a pos inputCsPrev hc).
Proof. unfold Actor.qValues. by rewrite supports_activation. Qed.

(** C2.  For a hidden column whose target code is in range, the learn kernel
    of the actor adds [alpha * dPAL] to the weights of (target code, column)
    against the one-hot input codes of [sPrev], on every visible layer, where
    [dPAL], [dQ] and the reward are those of the PAL rule and the reward is
    1.0 exactly when the target code equals the feedback code of the column. *)
Theorem learn_applies_pal_delta {G} (a : Actor.State) (pos : Int2) (rng : G)
    (inputCs : list IntBuffer) (hiddenCsPrev feedBackCsPrev : IntBuffer)
    (inputCsPrev : list IntBuffer) :
  let targetC := Actor.targetOf a pos hiddenCsPrev in
  let delta := PAL.delta a pos inputCs inputCsPrev feedBackCsPrev targetC in
  1 <= z3 (Actor._hiddenSize a) ->
  0 <= targetC < z3 (Actor._hiddenSize a) ->
  exists layers,
    Actor.learn pos rng inputCs hiddenCsPrev feedBackCsPrev inputCsPrev a =
      Some (Actor.set_visibleLayers a layers) /\
    length layers = length (Actor._visibleLayers a) /\
    (forall vli vl,
       Actor._visibleLayers a !! vli = Some vl ->
       layers !! vli =
         Some (Actor.mkLayer
                 (SparseMatrix.deltaOHVs (Actor._weights vl) (inputCsPrev !!! vli) delta
                    (PAL.unit a pos targetC)
                    (z3 (Actor._size (Actor._visibleLayerDescs a !!! vli)))))) /\
    delta = F32.mul (Actor._alpha a) (PAL.dPAL a pos inputCs inputCsPrev feedBackCsPrev targetC) /\
    PAL.reward a pos feedBackCsPrev targetC =
      (if decide (targetC = read 0 feedBackCsPrev (PAL.column a pos)) then F32.one else F32.zero).
Proof.
  intros targetC delta Hz Hin.
  assert (Hmem : targetC ∈ seqZ 0 (z3 (Actor._hiddenSize a))) by (apply elem_of_seqZ; lia).
  destruct (scan_assigned a pos inputCs inputCsPrev targetC _
              (Actor.mkAcc F32.neg_999999 F32.neg_999999 None None 0) Hmem)
    as [Hq Hn].
  change (Actor.qActionPrev (Actor.scan a pos inputCs inputCsPrev targetC) =
            Some (Actor.qValues a pos inputCs inputCsPrev targetC).2) in Hq.
  change (Actor.nextQActionPrev (Actor.scan a pos inputCs inputCsPrev targetC) =
            Some (Actor.qValues a pos inputCs inputCsPrev targetC).1) in Hn.
  exists (Actor.applyDelta a inputCsPrev delta (PAL.unit a pos targetC)).
  split; [| split; [| split; [| split]]].
  - unfold Actor.learn. fold targetC. rewrite Hq, Hn. simpl.
    do 2 f_equal. unfold Actor.scan.
    rewrite scan_maxActivation, scan_maxActivationPrev. simpl.
    unfold delta, PAL.delta, PAL.dPAL, PAL.dAdv, PAL.dQ, Actor.palDelta.
    rewrite !qValues_spec. simpl.
    assert (Hm : forall f g, (forall hc, f hc = g hc) ->
              foldl F32.max F32.neg_999999 (f <$> seqZ 0 (z3 (Actor._hiddenSize a))) =
              PAL.columnMax a g).
    { intros f g Hfg. unfold PAL.columnMax. f_equal. apply list_fmap_ext.
      intros ? hc _. apply Hfg. }
    rewrite (Hm _ (PAL.sum a pos inputCs)) by (intros; by rewrite qValues_spec).
    rewrite (Hm _ (PAL.sumPrev a pos inputCsPrev)) by (intros; by rewrite qValues_spec).
    done.
  - apply length_for_each.
  - intros vli vl Hvl. unfold Actor.applyDelta.
    rewrite for_each_lookup, Hvl.
    rewrite decide_True by (by apply lookup_lt_Some in Hvl). done.
  - done.
  - unfold PAL.reward. destruct (Z.eqb_spec targetC (read 0 feedBackCsPrev (PAL.column a pos))).
    + by rewrite decide_True.
    + by rewrite decide_False.
Qed.

Lemma learn_applies_pal_delta_witness :
  exists layers,
    Actor.learn Example.origin 0 [[0]] [1] [1] [[1]] Example.seasoned =
      Some (Actor.set_visibleLayers Example.seasoned layers) /\
    layers !! 0%nat =
      Some (Actor.mkLayer
              (SparseMatrix.mk [0; 2; 4] [0; 1; 0; 1]
                 [F32.zero; F32.half; Example.quarter; S754_finite false 9437184 (-24)])).
Proof.
  destruct (learn_applies_pal_delta Example.seasoned Example.origin 0
              [[0]] [1] [1] [[1]]) as (layers & Hl & _ & Hw & _).
  - vm_compute. discriminate.
  - vm_compute. split; [discriminate | reflexivity].
  - exists layers. split; [exact Hl |].
    rewrite (Hw 0%nat (Actor.mkLayer Example.weights) eq_refl).
    vm_compute. reflexivity.
Defined.

Lemma learn_target_assigned_once_witness :
  Actor.assignments
    (Actor.scan Example.seasoned Example.origin [[0]] [[1]]
       (Actor.targetOf Example.seasoned Example.origin [1])) = 1%nat /\
  Actor.learn Example.origin 0 [[0]] [7] [1] [[1]] Example.seasoned = None.
Proof.
  split.
  - apply (learn_target_assigned_once Example.seasoned Example.origin 0 [[0]] [1] [1] [[1]]).
    vm_compute. repeat split; discriminate.
  - apply (learn_target_assigned_once Example.seasoned Example.origin 0 [[0]] [7] [1] [[1]]).
    vm_compute. intros [_ [_ H]]. discriminate H.
Defined.

(** ** The forward pass of the actor *)

Section ActorForward.
Context {G : Type}.
Implicit Types (rng : G) (a : Actor.State).

Lemma set_hiddenCs_id a : Actor.set_hiddenCs a (Actor._hiddenCs a) = a.
Proof. by destruct a. Qed.

Lemma forward_on_set_hiddenCs pos rng inputCs a cs :
  Actor.forward pos rng inputCs (Actor.set_hiddenCs a cs) =
    Actor.set_hiddenCs a
      (write cs (Helpers.address2C pos (Actor.hiddenDims a))
         (Actor.argmax a pos inputCs).1).
Proof. reflexivity. Qed.

Lemma forward_fold_writes rng inputCs a (l : list Int2) cs :
  foldl (fun a pos => Actor.forward pos rng inputCs a) (Actor.set_hiddenCs a cs) l =
    Actor.set_hiddenCs a (writes (Actor.forwardWrites a inputCs l) cs).
Proof.
  revert cs. induction l as [| pos l IH]; intros cs; [done |].
  simpl. rewrite forward_on_set_hiddenCs. apply IH.
Qed.

(** The pass is a sequence of stores into [_hiddenCs], whose addresses
    and values depend on the weights and the inputs only. *)
Lemma forwardPass_writes rng inputCs a :
  Actor.forwardPass rng inputCs a =
    Actor.set_hiddenCs a
      (writes (Actor.forwardWrites a inputCs
                 (Helpers.grid (x3 (Actor._hiddenSize a)) (y3 (Actor._hiddenSize a))))
              (Actor._hiddenCs a)).
Proof.
  unfold Actor.forwardPass.
  rewrite <- (set_hiddenCs_id a) at 1.
  apply (forward_fold_writes rng inputCs a).
Qed.

Lemma forward_pass_frame rng inputCs a :
  Actor.forwardPass rng inputCs a =
    Actor.set_hiddenCs a (Actor._hiddenCs (Actor.forwardPass rng inputCs a)).
Proof. by rewrite forwardPass_writes. Qed.
End ActorForward.

(** C9.  The forward (policy) pass of the actor changes no weight buffer: a
    kernel call stores one code into [_hiddenCs] and the pass differs from
    the state it started from in [_hiddenCs] only.  Run again on the same
    inputs and weights it gives the same action codes, whatever generator it
    is handed. *)
Theorem forward_pass_is_a_read {G} (rng rng' : G) (inputCs : list IntBuffer)
    (a : Actor.State) :
  (forall pos,
     Actor.forward pos rng inputCs a =
       Actor.set_hiddenCs a
         (write (Actor._hiddenCs a) (Helpers.address2C pos (Actor.hiddenDims a))
            (Actor.argmax a pos inputCs).1)) /\
  Actor.forwardPass rng inputCs a =
    Actor.set_hiddenCs a (Actor._hiddenCs (Actor.forwardPass rng inputCs a)) /\
  Actor._visibleLayers (Actor.forwardPass rng inputCs a) = Actor._visibleLayers a /\
  Actor.forwardPass rng' inputCs a = Actor.forwardPass rng inputCs a /\
  Actor.forwardPass rng' inputCs (Actor.forwardPass rng inputCs a) =
    Actor.forwardPass rng inputCs a.
Proof.
  split; [done |].
  rewrite !(forwardPass_writes rng), !(forwardPass_writes rng').
  split; [done |]. split; [done |]. split; [done |].
  set (ws := Actor.forwardWrites a inputCs _).
  change (Actor.set_hiddenCs a (writes ws (writes ws (Actor._hiddenCs a))) =
          Actor.set_hiddenCs a (writes ws (Actor._hiddenCs a))).
  by rewrite writes_idemp.
Qed.

(** ** Replay *)

Section ActorReplay.
Import Actor.
Implicit Types (a : State).

(** The learn kernel and the learn pass leave everything but the visible
    layers as it was. *)
Lemma onlyWeights_refl a : onlyWeights a a.
Proof. by destruct a. Qed.

Lemma onlyWeights_trans a a' a'' :
  onlyWeights a a' -> onlyWeights a' a'' -> onlyWeights a a''.
Proof. unfold onlyWeights. intros -> ->. done. Qed.

Lemma learn_onlyWeights {G} pos (rng : G) i h f ip a a' :
  learn pos rng i h f ip a = Some a' -> onlyWeights a a'.
Proof.
  unfold learn. intros Hl.
  destruct (qActionPrev _); [| done]. destruct (nextQActionPrev _); [| done].
  simpl in Hl. injection Hl as <-. done.
Qed.

Lemma learn_fold_onlyWeights {G} (rng : G) i h f ip (l : list Int2) a0 a a' :
  onlyWeights a0 a ->
  foldl (fun oa pos => a ← oa; learn pos rng i h f ip a) (Some a) l = Some a' ->
  onlyWeights a0 a'.
Proof.
  revert a. induction l as [| pos l IH]; intros a Ha Hf.
  - simpl in Hf. by injection Hf as <-.
  - simpl in Hf. destruct (learn pos rng i h f ip a) as [a1 |] eqn:E.
    + apply (IH a1); [| done].
      eapply onlyWeights_trans; [done | by eapply learn_onlyWeights].
    + exfalso. clear -Hf. induction l as [| p l IHl]; [done | by apply IHl].
Qed.

Lemma learnPass_onlyWeights {G} (rng : G) i h f ip a a' :
  learnPass rng i h f ip a = Some a' -> onlyWeights a a'.
Proof. apply learn_fold_onlyWeights, onlyWeights_refl. Qed.

Lemma onlyWeights_history a a' : onlyWeights a a' -> history a' = history a.
Proof. by intros ->. Qed.

Lemma length_history a :
  0 <= _historySize a <= Z.of_nat (length (_historySamples a)) ->
  Z.of_nat (length (history a)) = _historySize a.
Proof. intros Hs. unfold history. rewrite length_fmap, length_take. lia. Qed.

(** A valid position of the pointer vector is a position of the history. *)
Lemma history_lookup a (t : Z) :
  0 <= t < _historySize a ->
  _historySize a <= Z.of_nat (length (_historySamples a)) ->
  history a !! Z.to_nat t = Some (deref a (read 0%nat (_historySamples a) t)).
Proof.
  intros Ht Hs. unfold history.
  destruct (lookup_lt_is_Some_2 (_historySamples a) (Z.to_nat t)) as [p Hp]; [lia |].
  rewrite list_lookup_fmap, lookup_take_lt by lia.
  rewrite Hp. simpl. by rewrite (read_lookup _ _ _ p) by (done || lia).
Qed.

Lemma replay_replaySpec {G} `{UniformInt G} iters (cs : ComputeSystem G) a h :
  h = history a ->
  2 <= _historySize a <= Z.of_nat (length (_historySamples a)) ->
  replay iters cs a = (fun r => (mkCS r.1, r.2)) <$> replaySpec iters (_rng cs) h a.
Proof.
  revert cs a. induction iters as [| iters IH]; intros cs a Hh Hs.
  - simpl. by destruct cs.
  - simpl. rewrite Hh, length_history by lia.
    pose proof (uniform_int_range 0 (_historySize a - 2) (_rng cs)) as Hr.
    destruct (uniform_int 0 (_historySize a - 2) (_rng cs)) as [t rng].
    simpl in Hr. specialize (Hr ltac:(lia)).
    rewrite (list_lookup_total_correct _ _ _ (history_lookup a t ltac:(lia) ltac:(lia))).
    rewrite (list_lookup_total_correct _ _ _ (history_lookup a (t + 1) ltac:(lia) ltac:(lia))).
    unfold replayLearn, replayHiddenCsPrev, sampleNext, samplePrev.
    destruct (learnPass rng _ _ _ _ a) as [a1 |] eqn:E; [| done].
    simpl. apply learnPass_onlyWeights in E.
    rewrite <- Hh. apply (IH (mkCS rng) a1).
    + by rewrite (onlyWeights_history a a1).
    + rewrite E. simpl. lia.
Qed.

(** [rotated] moves the front pointer to the back. *)
Lemma shift_prefix (l : list nat) (k : nat) :
  (k < length l)%nat ->
  foldl (fun s i => <[i := s !!! S i]> s) l (seq 0 k) = take k (drop 1 l) ++ drop k l.
Proof.
  induction k as [| k IH]; intros Hk; [by rewrite drop_0 |].
  rewrite seq_S, foldl_app, IH by lia. simpl.
  destruct (lookup_lt_is_Some_2 l (S k) Hk) as [p Hp].
  assert (Hlen : length (take k (drop 1 l)) = k) by (rewrite length_take, length_drop; lia).
  rewrite (list_lookup_total_correct _ (S k) p).
  2:{ rewrite lookup_app_r by lia. rewrite Hlen, lookup_drop.
      by replace (k + (S k - k))%nat with (S k) by lia. }
  rewrite insert_app_r_alt by lia. rewrite Hlen, Nat.sub_diag.
  rewrite (take_S_r _ _ p) by (by rewrite lookup_drop).
  rewrite <- app_assoc. f_equal.
  destruct (lookup_lt_is_Some_2 l k ltac:(lia)) as [p0 Hp0].
  rewrite (drop_S _ p0 k Hp0). simpl. f_equal.
Qed.

Lemma rotated_cons (p : nat) (l : list nat) : rotated (p :: l) = l ++ [p].
Proof.
  unfold rotated. simpl length.
  replace (S (length l) - 1)%nat with (length l) by lia.
  rewrite shift_prefix by (simpl; lia). simpl.
  rewrite drop_0, take_ge by lia.
  rewrite insert_app_r_alt by lia. rewrite Nat.sub_diag.
  destruct (drop (length l) (p :: l)) as [| q r] eqn:E.
  - apply (f_equal length) in E. rewrite length_drop in E. simpl in E. lia.
  - apply (f_equal length) in E. rewrite length_drop in E. simpl in E.
    destruct r; [done | simpl in E; lia].
Qed.
End ActorReplay.

(** C1 (as the code has it).  In a replay round with the drawn index [t],
    the kernel is handed the hidden codes of [s = history[t + 1]] as
    [hiddenCsPrev]: for every hidden column the target code of the update is
    the action code recorded in the hidden CSDR of [s], the newer of the two
    samples, while the inputs of [sPrev = history[t]] are the previous
    inputs. *)
Theorem replay_target_is_recorded_in_next_sample (a : Actor.State) (t : Z) (pos : Int2) :
  0 <= t ->
  t + 1 < Actor._historySize a ->
  Actor._historySize a <= Z.of_nat (length (Actor._historySamples a)) ->
  exists sPrev s,
    Actor.history a !! Z.to_nat t = Some sPrev /\
    Actor.history a !! Z.to_nat (t + 1) = Some s /\
    (forall G (rng : G),
       Actor.replayLearn rng t a =
         Actor.learnPass rng (Actor.HistorySample._inputCs s)
           (Actor.HistorySample._hiddenCs s) (Actor.HistorySample._feedBackCs s)
           (Actor.HistorySample._inputCs sPrev) a) /\
    Actor.replayTarget t pos a =
      read 0 (Actor.HistorySample._hiddenCs s)
        (Helpers.address2C pos (Actor.hiddenDims a)).
Proof.
  intros Ht Ht1 Hs.
  exists (Actor.samplePrev t a), (Actor.sampleNext t a).
  split; [apply history_lookup; lia |].
  split; [apply history_lookup; lia |].
  split; done.
Qed.

Lemma replay_target_is_recorded_in_next_sample_witness :
  Actor.replayTarget 0 Example.origin Example.seasoned = 1.
Proof.
  destruct (replay_target_is_recorded_in_next_sample Example.seasoned 0 Example.origin)
    as (sPrev & s & _ & Hs & _ & ->); [lia | simpl; lia | simpl; lia |].
  injection Hs as <-. reflexivity.
Defined.

(** C1 as stated fails: with an older sample that recorded action 0 and a
    newer one that recorded action 1, the replay round at [t = 0] takes 1 as
    its target, not the code recorded in [sPrev]; the update goes to the row
    of action 1 and leaves the row of action 0 alone. *)
Lemma replay_target_is_not_recorded_in_previous_sample :
  Actor.history Example.seasoned !! 0%nat = Some (Actor.samplePrev 0 Example.seasoned) /\
  read 0 (Actor.HistorySample._hiddenCs (Actor.samplePrev 0 Example.seasoned))
    (Helpers.address2C Example.origin (Actor.hiddenDims Example.seasoned)) = 0 /\
  Actor.replayTarget 0 Example.origin Example.seasoned = 1 /\
  ((fun a => (fun vl => SparseMatrix._nonZeroValues (Actor._weights vl))
               <$> Actor._visibleLayers a)
     <$> Actor.replayLearn 0 0 Example.seasoned) =
    Some [[F32.zero; F32.half; Example.quarter; S754_finite false 9437184 (-24)]].
Proof. vm_compute. repeat split. Qed.

(** ** The history ring *)

Section ActorHistory.
Import Actor.
Implicit Types (a : State) (s : HistorySample.t).

Lemma copy_prefix (src dst : IntBuffer) (k : nat) :
  (k <= length src)%nat -> (k <= length dst)%nat ->
  Helpers.copy (Z.of_nat k) src dst = take k src ++ drop k dst.
Proof.
  unfold Helpers.copy. induction k as [| k IH]; intros Hs Hd; [by rewrite drop_0 |].
  rewrite seqZ_S, foldl_app, IH by lia. simpl. rewrite Z.add_0_l.
  destruct (lookup_lt_is_Some_2 src k ltac:(lia)) as [v Hv].
  destruct (lookup_lt_is_Some_2 dst k ltac:(lia)) as [w Hw].
  rewrite (read_lookup 0 src (Z.of_nat k) v) by (lia || by rewrite Nat2Z.id).
  unfold write. destruct (Z.ltb_spec (Z.of_nat k) 0); [lia |]. rewrite Nat2Z.id.
  assert (Hlen : length (take k src) = k) by (rewrite length_take; lia).
  rewrite insert_app_r_alt by lia. rewrite Hlen, Nat.sub_diag.
  rewrite (take_S_r _ _ v Hv), (drop_S _ w k Hw), <- app_assoc. done.
Qed.

Lemma copy_all (n : Z) (src dst : IntBuffer) :
  Z.of_nat (length src) = n -> Z.of_nat (length dst) = n ->
  Helpers.copy n src dst = src.
Proof.
  intros Hs Hd. rewrite <- Hs, copy_prefix by lia.
  rewrite take_ge, drop_ge by lia. apply app_nil_r.
Qed.

Lemma shaped_sameGrid a a' s : sameGrid a a' -> shaped a s -> shaped a' s.
Proof. unfold sameGrid, shaped. intros (-> & -> & ->). done. Qed.

(** Filling a slot of the right shape with a step of the right shape
    stores the step. *)
Lemma filled_shaped a (i : StepInput) s :
  shaped a s -> shaped a (sampleOf i) ->
  filled a (stepInputCs i) (stepHiddenCs i) (stepFeedBackCs i) s = sampleOf i.
Proof.
  intros (Hl & Hb & Hh & Hf) (Hl' & Hb' & Hh' & Hf'). simpl in *.
  unfold filled, sampleOf. f_equal.
  - apply list_eq. intros vli. rewrite for_each_lookup.
    destruct (decide (vli < length (_visibleLayers a))%nat) as [Hlt | Hge].
    + destruct (lookup_lt_is_Some_2 (HistorySample._inputCs s) vli ltac:(lia)) as [dst Hd].
      destruct (lookup_lt_is_Some_2 (stepInputCs i) vli ltac:(lia)) as [src Hs].
      rewrite Hd, Hs. simpl. f_equal.
      rewrite (list_lookup_total_correct _ _ _ Hs).
      apply copy_all; [by apply Hb' | by apply Hb].
    + rewrite !lookup_ge_None_2 by lia. done.
  - by apply copy_all.
  - by apply copy_all.
Qed.

Lemma keep_short {A} cap (l : list A) : (length l <= cap)%nat -> keep cap l = l.
Proof. intros Hl. unfold keep. by replace (length l - cap)%nat with 0%nat by lia. Qed.

Lemma length_keep {A} cap (l : list A) : length (keep cap l) = Nat.min (length l) cap.
Proof. unfold keep. rewrite length_drop. lia. Qed.

Lemma keep_app {A} cap (l r : list A) : keep cap (keep cap l ++ r) = keep cap (l ++ r).
Proof.
  destruct (decide (length l <= cap)%nat) as [Hle | Hgt].
  - by rewrite (keep_short cap l).
  - unfold keep. rewrite !length_app, length_drop.
    remember (length l - cap)%nat as n eqn:Hn.
    replace (length l - n + length r - cap)%nat with (length r) by lia.
    replace (length l + length r - cap)%nat with (n + length r)%nat by lia.
    transitivity (drop (n + length r) ((take n l ++ drop n l) ++ r)).
    + rewrite <- app_assoc. rewrite drop_app_add' by (rewrite length_take; lia). done.
    + by rewrite take_drop.
Qed.

Lemma alter_total_eq (f : HistorySample.t -> HistorySample.t)
    (st : list HistorySample.t) p s :
  st !! p = Some s -> alter f p st !!! p = f s.
Proof.
  intros Hp. apply list_lookup_total_correct.
  by rewrite list_lookup_alter_eq, Hp.
Qed.

Lemma alter_total_ne (f : HistorySample.t -> HistorySample.t)
    (st : list HistorySample.t) p q :
  p <> q -> alter f p st !!! q = st !!! q.
Proof.
  intros Hne. rewrite !list_lookup_total_alt. by rewrite list_lookup_alter_ne.
Qed.

Lemma fmap_alter_total_notin (f : HistorySample.t -> HistorySample.t)
    (st : list HistorySample.t) p (l : list nat) :
  p ∉ l -> (fun q => alter f p st !!! q) <$> l = (fun q => st !!! q) <$> l.
Proof.
  intros Hp. apply list_fmap_ext. intros k q Hq.
  apply alter_total_ne. intros ->. apply Hp. by eapply list_elem_of_lookup_2.
Qed.

(** Storing a step: the history gains the step and, once full, loses its
    oldest sample. *)
Lemma added_history a (i : StepInput) :
  wellFormed a -> shaped a (sampleOf i) ->
  let a' := added (stepInputCs i) (stepHiddenCs i) (stepFeedBackCs i) a in
  let cap := length (_historySamples a) in
  wellFormed a' /\ sameGrid a a' /\
  length (_historySamples a') = cap /\
  _historySize a' = Z.min (_historySize a + 1) (Z.of_nat cap) /\
  history a' = keep cap (history a ++ [sampleOf i]).
Proof.
  intros (Hpos & Hnd & Hst & Hsz) Hi a' cap.
  assert (Hgrid : sameGrid a a') by done.
  unfold a', added, history, deref in *. clear a'. simpl.
  destruct (Z.eqb_spec (_historySize a) (Z.of_nat (length (_historySamples a))))
    as [Hfull | Hroom]; simpl.
  - (* full: rotated *)
    destruct (_historySamples a) as [| q l] eqn:Hptrs; [simpl in Hpos; lia |].
    rewrite rotated_cons. fold cap. simpl in cap.
    apply NoDup_cons in Hnd as [Hq Hl].
    destruct (Hst q) as (sq & Hsq & Hshq); [apply elem_of_cons; by left |].
    assert (Hp : read 0%nat (l ++ [q]) (_historySize a - 1) = q).
    { apply read_lookup; [simpl in Hfull; lia |].
      rewrite lookup_app_r by (simpl in Hfull; lia).
      replace (Z.to_nat (_historySize a - 1) - length l)%nat with 0%nat
        by (simpl in Hfull; lia). done. }
    rewrite Hp.
    split; [| split; [done | split; [rewrite length_app; simpl; lia | split]]].
    + unfold wellFormed. simpl.
      split; [rewrite length_app; simpl; lia |].
      split; [apply NoDup_app; split; [done | split; [| apply NoDup_singleton]];
              intros x Hx Hx'; apply list_elem_of_singleton in Hx' as ->; done |].
      split; [| rewrite length_app; simpl in *; lia].
      intros p Hp'. apply elem_of_app in Hp' as [Hp' | Hp'].
      * destruct (Hst p) as (s & Hs & Hsh); [apply elem_of_cons; by right |].
        exists s. split; [| by eapply shaped_sameGrid].
        rewrite list_lookup_alter_ne; [done | by intros ->].
      * apply list_elem_of_singleton in Hp' as ->.
        exists (sampleOf i). split; [| by eapply shaped_sameGrid].
        rewrite list_lookup_alter_eq, Hsq. simpl. f_equal.
        by apply filled_shaped.
    + simpl in Hfull. lia.
    + rewrite take_ge by (rewrite length_app; simpl in *; lia).
      rewrite take_ge by (simpl in *; lia).
      rewrite fmap_app, fmap_cons. simpl.
      rewrite fmap_alter_total_notin by done.
      rewrite (alter_total_eq _ _ q sq Hsq), (filled_shaped a i sq) by done.
      unfold keep. rewrite length_cons, length_app, length_fmap. simpl length.
      replace (S (length l + 1) - cap)%nat with 1%nat by (unfold cap; lia).
      done.
  - (* room: append *)
    fold cap.
    destruct (lookup_lt_is_Some_2 (_historySamples a) (Z.to_nat (_historySize a))
                ltac:(lia)) as [p Hp].
    replace (_historySize a + 1 - 1) with (_historySize a) by lia.
    rewrite (read_lookup 0%nat _ _ p) by (lia || done).
    assert (Hin : p ∈ _historySamples a) by (by eapply list_elem_of_lookup_2).
    destruct (Hst p Hin) as (sp & Hsp & Hshp).
    assert (Hnot : p ∉ take (Z.to_nat (_historySize a)) (_historySamples a)).
    { intros Hin'. apply list_elem_of_lookup in Hin' as [k Hk].
      apply lookup_take_Some in Hk as [Hk Hlt].
      pose proof (NoDup_lookup _ _ _ _ Hnd Hk Hp). lia. }
    split; [| split; [done | split; [done | split; [unfold cap; lia |]]]].
    + unfold wellFormed. simpl.
      split; [done |]. split; [done |]. split; [| unfold cap in *; lia].
      intros p' Hp'. destruct (decide (p' = p)) as [-> | Hne].
      * exists (sampleOf i). split; [| by eapply shaped_sameGrid].
        rewrite list_lookup_alter_eq, Hsp. simpl. f_equal.
        by apply filled_shaped.
      * destruct (Hst p' Hp') as (s & Hs & Hsh).
        exists s. split; [| by eapply shaped_sameGrid].
        by rewrite list_lookup_alter_ne.
    + replace (Z.to_nat (_historySize a + 1)) with (S (Z.to_nat (_historySize a))) by lia.
      rewrite (take_S_r _ _ p Hp), fmap_app. simpl.
      rewrite fmap_alter_total_notin by done.
      rewrite (alter_total_eq _ _ p sp Hsp), (filled_shaped a i sp) by done.
      rewrite keep_short; [done |].
      rewrite length_app, length_fmap, length_take. simpl. unfold cap. lia.
Qed.

(** *** The append with its bounds *)

Lemma foldl_None {A B} (f : option A -> B -> option A) (l : list B) :
  (forall x, f None x = None) -> foldl f None l = None.
Proof. intros Hf. induction l as [| x l IH]; [done |]. simpl. by rewrite Hf. Qed.

Lemma copyInts_fold (src : IntBuffer) (l : list Z) (dst d : IntBuffer) :
  foldl (fun d x => d ← d; Helpers.copyInt x src d) (Some dst) l = Some d ->
  d = foldl (fun d x => write d x (read 0 src x)) dst l.
Proof.
  revert dst. induction l as [| x l IH]; intros dst Hd; [by injection Hd as <- |].
  cbn [foldl] in *. cbn [mbind option_bind] in Hd.
  destruct (Helpers.copyInt x src dst) as [d1 |] eqn:E.
  - rewrite (IH d1 Hd). f_equal. unfold Helpers.copyInt in E.
    unfold read. destruct (at_index src x) as [v |]; [| done]. simpl in *.
    unfold store in E. by destruct (_ && _); [injection E as <- |].
  - by rewrite foldl_None in Hd.
Qed.

(** A copy that returns is the copy. *)
Lemma copyInts_Some n src dst d :
  Helpers.copyInts n src dst = Some d -> d = Helpers.copy n src dst.
Proof. apply copyInts_fold. Qed.

Lemma copyInts_is_Some (src : IntBuffer) (l : list Z) (dst : IntBuffer) :
  (forall x, x ∈ l -> 0 <= x < Z.of_nat (length src) /\ x < Z.of_nat (length dst)) ->
  is_Some (foldl (fun d x => d ← d; Helpers.copyInt x src d) (Some dst) l).
Proof.
  revert dst. induction l as [| x l IH]; intros dst Hl; [by eexists |].
  cbn [foldl]. cbn [mbind option_bind].
  destruct (Hl x ltac:(apply elem_of_cons; by left)) as [Hs Hd].
  unfold Helpers.copyInt, at_index.
  destruct (Z.ltb_spec x 0); [lia |].
  destruct (lookup_lt_is_Some_2 src (Z.to_nat x) ltac:(lia)) as [v ->].
  cbn [mbind option_bind]. unfold store.
  destruct (Z.leb_spec 0 x); [| lia]. destruct (Z.ltb_spec x (Z.of_nat (length dst))); [| lia].
  cbn [andb]. apply IH. intros y Hy. rewrite length_write.
  apply Hl, elem_of_cons. by right.
Qed.

(** A copy of whole buffers returns the source. *)
Lemma copyInts_all n src dst :
  Z.of_nat (length src) = n -> Z.of_nat (length dst) = n ->
  Helpers.copyInts n src dst = Some src.
Proof.
  intros Hs Hd.
  destruct (copyInts_is_Some src (seqZ 0 n) dst) as [d E].
  { intros x Hx. apply elem_of_seqZ in Hx. lia. }
  unfold Helpers.copyInts. rewrite E. f_equal.
  rewrite (copyInts_fold src _ dst d E). by apply copy_all.
Qed.

(** A copy of a cell into a buffer without cells has no result. *)
Lemma copyInts_nil n src : 0 < n -> Helpers.copyInts n src [] = None.
Proof.
  intros Hn. unfold Helpers.copyInts.
  rewrite (seqZ_cons 0 n) by lia. cbn [foldl]. cbn [mbind option_bind].
  assert (E : Helpers.copyInt 0 src [] = None).
  { unfold Helpers.copyInt. by destruct (at_index src 0). }
  rewrite E. by apply foldl_None.
Qed.

Lemma fillInputs_fold a (inputCs : list IntBuffer) (l : list nat) (ins ins' : list IntBuffer) :
  foldl (fun ins vli =>
           ins ← ins;
           src ← inputCs !! vli;
           dst ← ins !! vli;
           d ← Helpers.copyInts (numColumns (_visibleLayerDescs a !!! vli)) src dst;
           Some (<[vli := d]> ins))
        (Some ins) l = Some ins' ->
  ins' = foldl (fun acc vli =>
                  alter (fun dst => Helpers.copy (numColumns (_visibleLayerDescs a !!! vli))
                                      (inputCs !!! vli) dst) vli acc) ins l.
Proof.
  revert ins. induction l as [| vli l IH]; intros ins Hi; [by injection Hi as <- |].
  cbn [foldl] in *. cbn [mbind option_bind] in Hi.
  destruct (inputCs !! vli) as [src |] eqn:Es; [| cbn [mbind option_bind] in Hi; by rewrite foldl_None in Hi].
  cbn [mbind option_bind] in Hi.
  destruct (ins !! vli) as [dst |] eqn:Ed; [| cbn [mbind option_bind] in Hi; by rewrite foldl_None in Hi].
  cbn [mbind option_bind] in Hi.
  destruct (Helpers.copyInts _ src dst) as [d |] eqn:Ec; [| cbn [mbind option_bind] in Hi; by rewrite foldl_None in Hi].
  cbn [mbind option_bind] in Hi. rewrite (IH _ Hi). f_equal.
  rewrite (copyInts_Some _ _ _ _ Ec), (list_lookup_total_correct _ _ _ Es).
  apply list_eq. intros k. rewrite list_lookup_alter.
  destruct (decide (vli = k)) as [<- | Hne].
  - rewrite list_lookup_insert_eq by (by eapply lookup_lt_Some). by rewrite Ed.
  - by rewrite list_lookup_insert_ne.
Qed.

(** A fill that returns is the fill. *)
Lemma fillSample_Some a inputCs hiddenCs feedBackCs s s' :
  fillSample a inputCs hiddenCs feedBackCs s = Some s' ->
  s' = filled a inputCs hiddenCs feedBackCs s.
Proof.
  unfold fillSample, filled. intros Hf.
  destruct (foldl _ (Some (HistorySample._inputCs s)) _) as [ins |] eqn:Ei; [| done].
  cbn [mbind option_bind] in Hf.
  destruct (Helpers.copyInts _ hiddenCs _) as [h |] eqn:Eh; [| done].
  cbn [mbind option_bind] in Hf.
  destruct (Helpers.copyInts _ feedBackCs _) as [f |] eqn:Ef; [| done].
  cbn [mbind option_bind] in Hf. injection Hf as <-.
  rewrite (copyInts_Some _ _ _ _ Eh), (copyInts_Some _ _ _ _ Ef).
  by rewrite (fillInputs_fold a inputCs _ _ _ Ei).
Qed.

(** Into a sample without feedback cells nothing is filled on a grid
    with columns. *)
Lemma fillSample_no_feedback a inputCs hiddenCs feedBackCs s :
  0 < x3 (_hiddenSize a) * y3 (_hiddenSize a) ->
  HistorySample._feedBackCs s = [] ->
  fillSample a inputCs hiddenCs feedBackCs s = None.
Proof.
  intros Hn Hf. unfold fillSample. rewrite Hf.
  destruct (foldl _ (Some (HistorySample._inputCs s)) _) as [ins |]; [| done].
  cbn [mbind option_bind].
  destruct (Helpers.copyInts _ hiddenCs _) as [h |]; [| done].
  cbn [mbind option_bind]. by rewrite copyInts_nil.
Qed.

Lemma fillInputs_is_Some a (inputCs : list IntBuffer) (n : nat) (ins : list IntBuffer) :
  length inputCs = n -> length ins = n ->
  (forall vli b, inputCs !! vli = Some b ->
     Z.of_nat (length b) = numColumns (_visibleLayerDescs a !!! vli)) ->
  (forall vli b, ins !! vli = Some b ->
     Z.of_nat (length b) = numColumns (_visibleLayerDescs a !!! vli)) ->
  forall l : list nat, (forall vli, vli ∈ l -> (vli < n)%nat) ->
  is_Some (foldl (fun ins vli =>
                    ins ← ins;
                    src ← inputCs !! vli;
                    dst ← ins !! vli;
                    d ← Helpers.copyInts (numColumns (_visibleLayerDescs a !!! vli)) src dst;
                    Some (<[vli := d]> ins))
                 (Some ins) l).
Proof.
  intros Hli Hlen Hin Hins l. revert ins Hlen Hins.
  induction l as [| vli l IH]; intros ins Hlen Hins Hl; [by eexists |].
  cbn [foldl]. cbn [mbind option_bind].
  assert (Hv : (vli < n)%nat) by (apply Hl, elem_of_cons; by left).
  destruct (lookup_lt_is_Some_2 inputCs vli ltac:(lia)) as [src Es].
  destruct (lookup_lt_is_Some_2 ins vli ltac:(lia)) as [dst Ed].
  rewrite Es, Ed. cbn [mbind option_bind].
  rewrite (copyInts_all _ src dst (Hin vli src Es) (Hins vli dst Ed)).
  cbn [mbind option_bind]. apply IH.
  - by rewrite length_insert.
  - intros k b Hb. destruct (decide (k = vli)) as [-> | Hne].
    + rewrite list_lookup_insert_eq in Hb by (by eapply lookup_lt_Some).
      injection Hb as <-. by apply Hin.
    + rewrite list_lookup_insert_ne in Hb by done. by apply Hins.
  - intros k Hk. apply Hl, elem_of_cons. by right.
Qed.

(** A sample of the right shape is filled from inputs of the right
    shape, and becomes the inputs. *)
Lemma fillSample_shaped a (i : StepInput) s :
  shaped a s -> shaped a (sampleOf i) ->
  fillSample a (stepInputCs i) (stepHiddenCs i) (stepFeedBackCs i) s = Some (sampleOf i).
Proof.
  intros Hs Hi. rewrite <- (filled_shaped a i s Hs Hi).
  pose proof Hs as (Hsl & Hsb & Hsh & Hsf). pose proof Hi as (Hil & Hib & Hih & Hif).
  simpl in Hil, Hib, Hih, Hif.
  assert (E : is_Some (fillSample a (stepInputCs i) (stepHiddenCs i) (stepFeedBackCs i) s)).
  { unfold fillSample.
    destruct (fillInputs_is_Some a (stepInputCs i) (length (_visibleLayers a))
                (HistorySample._inputCs s) Hil Hsl Hib Hsb
                (seq 0 (length (_visibleLayers a)))) as [ins ->].
    { intros vli Hv. apply elem_of_seq in Hv. lia. }
    cbn [mbind option_bind].
    rewrite (copyInts_all _ (stepHiddenCs i) (HistorySample._hiddenCs s)) by done.
    cbn [mbind option_bind].
    rewrite (copyInts_all _ (stepFeedBackCs i) (HistorySample._feedBackCs s)) by done.
    by eexists. }
  destruct E as [s' E]. rewrite E. f_equal. by apply fillSample_Some in E.
Qed.

Lemma rotate_Some (samples l : list nat) :
  rotate samples = Some l -> l = rotated samples /\ (0 < length samples)%nat.
Proof.
  unfold rotate, rotated. destruct samples as [| p samples]; [done |].
  simpl. intros [= <-]. split; [done | lia].
Qed.

(** An append that returns is the append, and the new sample has a slot. *)
Lemma addSample_Some inputCs hiddenCs feedBackCs a a' :
  addSample inputCs hiddenCs feedBackCs a = Some a' ->
  a' = added inputCs hiddenCs feedBackCs a /\
  1 <= _historySize a' <= Z.of_nat (length (_historySamples a')) /\
  length (_historySamples a') = length (_historySamples a).
Proof.
  unfold addSample, added. intros Ha.
  set (full := _historySize a =? Z.of_nat (length (_historySamples a))) in *.
  set (n := if full then _historySize a else _historySize a + 1) in *.
  assert (Hsam : exists samples,
             (if full then rotate (_historySamples a) else Some (_historySamples a))
               = Some samples /\
             samples = (if full then rotated (_historySamples a) else _historySamples a) /\
             length samples = length (_historySamples a)).
  { destruct full.
    - destruct (rotate (_historySamples a)) as [l |] eqn:E; [| done].
      exists l. split; [done |]. apply rotate_Some in E as [-> Hpos]. split; [done |].
      destruct (_historySamples a) as [| p l]; [simpl in Hpos; lia |].
      rewrite rotated_cons, length_app. simpl. lia.
    - by eexists. }
  destruct Hsam as (samples & Es & Hrot & Hlen). rewrite Es in Ha.
  cbn [mbind option_bind] in Ha. rewrite <- Hrot.
  destruct (at_index samples (n - 1)) as [p |] eqn:Ep; [| done].
  cbn [mbind option_bind] in Ha.
  destruct (_store a !! p) as [s |] eqn:Esp; [| done].
  cbn [mbind option_bind] in Ha.
  destruct (fillSample a inputCs hiddenCs feedBackCs s) as [s' |] eqn:Ef; [| done].
  cbn [mbind option_bind] in Ha. injection Ha as <-.
  assert (Hr : read 0%nat samples (n - 1) = p) by (unfold read; by rewrite Ep).
  assert (Hb : 0 <= n - 1 < Z.of_nat (length samples)).
  { unfold at_index in Ep. destruct (Z.ltb_spec (n - 1) 0); [done |].
    apply lookup_lt_Some in Ep. lia. }
  rewrite Hr. split; [| simpl; lia].
  f_equal. rewrite (fillSample_Some _ _ _ _ _ _ Ef).
  apply list_eq. intros k. rewrite list_lookup_alter.
  destruct (decide (p = k)) as [<- | Hne].
  - rewrite list_lookup_insert_eq by (by eapply lookup_lt_Some). by rewrite Esp.
  - by rewrite list_lookup_insert_ne.
Qed.

(** On a well-formed actor and inputs of the right shape the append
    returns. *)
Lemma addSample_wellFormed a (i : StepInput) :
  wellFormed a -> shaped a (sampleOf i) ->
  addSample (stepInputCs i) (stepHiddenCs i) (stepFeedBackCs i) a =
    Some (added (stepInputCs i) (stepHiddenCs i) (stepFeedBackCs i) a).
Proof.
  intros (Hpos & Hnd & Hst & Hsz) Hi.
  assert (E : is_Some (addSample (stepInputCs i) (stepHiddenCs i) (stepFeedBackCs i) a)).
  { unfold addSample.
    set (full := _historySize a =? Z.of_nat (length (_historySamples a))).
    set (n := if full then _historySize a else _historySize a + 1).
    assert (Hsam : exists samples,
               (if full then rotate (_historySamples a) else Some (_historySamples a))
                 = Some samples /\
               length samples = length (_historySamples a) /\
               forall p, p ∈ samples -> p ∈ _historySamples a).
    { unfold full. destruct (Z.eqb_spec (_historySize a)
                               (Z.of_nat (length (_historySamples a)))).
      - destruct (_historySamples a) as [| p l] eqn:El; [simpl in Hpos; lia |].
        exists (l ++ [p]). split; [| split].
        + unfold rotate. simpl lookup. cbn [mbind option_bind]. f_equal.
          exact (rotated_cons p l).
        + rewrite length_app. simpl. lia.
        + intros q Hq. apply elem_of_app in Hq as [Hq | Hq].
          * apply elem_of_cons. by right.
          * apply list_elem_of_singleton in Hq as ->. apply elem_of_cons. by left.
      - by eexists. }
    destruct Hsam as (samples & -> & Hlen & Hin). cbn [mbind option_bind].
    assert (Hn : 0 <= n - 1 < Z.of_nat (length samples)).
    { unfold n, full. destruct (Z.eqb_spec (_historySize a)
                                  (Z.of_nat (length (_historySamples a)))); lia. }
    unfold at_index. destruct (Z.ltb_spec (n - 1) 0); [lia |].
    destruct (lookup_lt_is_Some_2 samples (Z.to_nat (n - 1)) ltac:(lia)) as [p Ep].
    rewrite Ep. cbn [mbind option_bind].
    destruct (Hst p (Hin p (list_elem_of_lookup_2 _ _ _ Ep))) as (s & Es & Hs).
    rewrite Es. cbn [mbind option_bind].
    rewrite (fillSample_shaped a i s Hs Hi). by eexists. }
  destruct E as [a' E]. rewrite E. f_equal. by apply addSample_Some in E as [-> _].
Qed.

Lemma learn_length {G} pos (rng : G) i h f ip a a' :
  learn pos rng i h f ip a = Some a' ->
  length (_visibleLayers a') = length (_visibleLayers a).
Proof.
  unfold learn. intros Hl.
  destruct (qActionPrev _); [| done]. destruct (nextQActionPrev _); [| done].
  simpl in Hl. injection Hl as <-. simpl. apply length_for_each.
Qed.

Lemma learn_fold_length {G} (rng : G) i h f ip (l : list Int2) a a' :
  foldl (fun oa pos => a ← oa; learn pos rng i h f ip a) (Some a) l = Some a' ->
  length (_visibleLayers a') = length (_visibleLayers a).
Proof.
  revert a. induction l as [| pos l IH]; intros a Hf.
  - simpl in Hf. by injection Hf as <-.
  - simpl in Hf. destruct (learn pos rng i h f ip a) as [a1 |] eqn:E.
    + rewrite (IH a1 Hf). by eapply learn_length.
    + exfalso. clear -Hf. induction l as [| p l IHl]; [done | by apply IHl].
Qed.

(** Replay changes the weights only, and no layer is added or lost. *)
Lemma replay_frame {G} `{UniformInt G} iters (cs cs' : ComputeSystem G) a a' :
  replay iters cs a = Some (cs', a') ->
  onlyWeights a a' /\ length (_visibleLayers a') = length (_visibleLayers a).
Proof.
  revert cs a. induction iters as [| iters IH]; intros cs a Hr.
  - simpl in Hr. injection Hr as <- <-. split; [apply onlyWeights_refl | done].
  - simpl in Hr. destruct (uniform_int _ _ _) as [t rng].
    destruct (replayLearn rng t a) as [a1 |] eqn:E; [| done]. simpl in Hr.
    destruct (IH _ _ Hr) as [Ho Hlen].
    unfold replayLearn in E.
    split.
    + eapply onlyWeights_trans; [by eapply learnPass_onlyWeights | done].
    + rewrite Hlen. by eapply learn_fold_length.
Qed.

Lemma wellFormed_weights a layers :
  length layers = length (_visibleLayers a) ->
  wellFormed a -> wellFormed (set_visibleLayers a layers).
Proof.
  intros Hlen (Hpos & Hnd & Hst & Hsz). unfold wellFormed. simpl.
  split; [done |]. split; [done |]. split; [| done].
  intros p Hp. destruct (Hst p Hp) as (s & Hs & Hsh). exists s. split; [done |].
  unfold shaped in *. simpl. by rewrite Hlen.
Qed.

(** On a well-formed actor and inputs of the right shape [step] gets
    past the append. *)
Lemma step_appended {G} `{UniformInt G} (cs : ComputeSystem G) a (i : StepInput) :
  wellFormed a -> shaped a (sampleOf i) ->
  step cs (stepInputCs i) (stepHiddenCs i) (stepFeedBackCs i) (stepLearn i) a =
    let a1 := added (stepInputCs i) (stepHiddenCs i) (stepFeedBackCs i)
                (forwardPass (_rng cs) (stepInputCs i) a) in
    if stepLearn i && (2 <? _historySize a1)
    then replay (Z.to_nat (_historyIters a1)) cs a1
    else Some (cs, a1).
Proof.
  intros Hwf Hi. unfold step.
  rewrite (addSample_wellFormed (forwardPass (_rng cs) (stepInputCs i) a) i);
    [done | |]; by rewrite forward_pass_frame.
Qed.

(** A call of [step] that returns got past the append. *)
Lemma step_Some {G} `{UniformInt G} (cs cs' : ComputeSystem G)
    inputCs hiddenCs feedBackCs learnEnabled a a' :
  step cs inputCs hiddenCs feedBackCs learnEnabled a = Some (cs', a') ->
  let a1 := added inputCs hiddenCs feedBackCs (forwardPass (_rng cs) inputCs a) in
  addSample inputCs hiddenCs feedBackCs (forwardPass (_rng cs) inputCs a) = Some a1 /\
  (if learnEnabled && (2 <? _historySize a1)
   then replay (Z.to_nat (_historyIters a1)) cs a1
   else Some (cs, a1)) = Some (cs', a').
Proof.
  unfold step. intros Hstep.
  destruct (addSample _ _ _ _) as [a2 |] eqn:E; [| done].
  destruct (addSample_Some _ _ _ _ _ E) as [-> _]. done.
Qed.

(** One call of [step] on the history. *)
Lemma step_history {G} `{UniformInt G} (cs cs' : ComputeSystem G) a a' (i : StepInput) :
  wellFormed a -> shaped a (sampleOf i) ->
  step cs (stepInputCs i) (stepHiddenCs i) (stepFeedBackCs i) (stepLearn i) a
    = Some (cs', a') ->
  let cap := length (_historySamples a) in
  wellFormed a' /\ sameGrid a a' /\
  length (_historySamples a') = cap /\
  _historySize a' = Z.min (_historySize a + 1) (Z.of_nat cap) /\
  history a' = keep cap (history a ++ [sampleOf i]).
Proof.
  intros Hwf Hi Hstep cap. rewrite (step_appended cs a i Hwf Hi) in Hstep.
  cbv zeta in Hstep. rewrite (forward_pass_frame (_rng cs)) in Hstep.
  set (a0 := set_hiddenCs a _) in Hstep.
  assert (Hwf0 : wellFormed a0) by exact Hwf.
  assert (Hi0 : shaped a0 (sampleOf i)) by exact Hi.
  destruct (added_history a0 i Hwf0 Hi0) as (Hwf1 & Hg1 & Hc1 & Hs1 & Hh1).
  set (a1 := added _ _ _ a0) in *.
  assert (Hend : onlyWeights a1 a' /\
                 length (_visibleLayers a') = length (_visibleLayers a1)).
  { destruct (stepLearn i && (2 <? _historySize a1)).
    - by eapply replay_frame.
    - injection Hstep as <- <-. split; [apply onlyWeights_refl | done]. }
  destruct Hend as [Ho Hlen]. rewrite Ho.
  split; [by apply wellFormed_weights |].
  split; [| done].
  destruct Hg1 as (Hg & Hgl & Hgd). split; [done |]. split; [| done].
  simpl. by rewrite Hlen.
Qed.

(** A run of calls on the history. *)
Lemma feed_history {G} `{UniformInt G} (steps : list StepInput) :
  forall (cs cs' : ComputeSystem G) a a',
  wellFormed a -> Forall (fun i => shaped a (sampleOf i)) steps ->
  feed cs a steps = Some (cs', a') ->
  let cap := length (_historySamples a) in
  wellFormed a' /\ sameGrid a a' /\
  length (_historySamples a') = cap /\
  _historySize a' = Z.min (_historySize a + Z.of_nat (length steps)) (Z.of_nat cap) /\
  history a' = keep cap (history a ++ (sampleOf <$> steps)).
Proof.
  induction steps as [| i steps IH]; intros cs cs' a a' Hwf Hsh Hfeed cap.
  - simpl in Hfeed. injection Hfeed as <- <-.
    destruct Hwf as (Hpos & Hnd & Hst & Hsz).
    split; [done |]. split; [done |]. split; [done |].
    split; [simpl; unfold cap; lia |].
    simpl. rewrite app_nil_r, keep_short; [done |].
    unfold history. rewrite length_fmap, length_take. unfold cap. lia.
  - apply Forall_cons in Hsh as [Hi Hsh]. simpl in Hfeed.
    destruct (step cs _ _ _ _ a) as [[cs1 a1] |] eqn:E; [| done]. simpl in Hfeed.
    destruct (step_history cs cs1 a a1 i Hwf Hi E) as (Hwf1 & Hg1 & Hc1 & Hs1 & Hh1).
    assert (Hsh1 : Forall (fun i => shaped a1 (sampleOf i)) steps).
    { eapply Forall_impl; [exact Hsh |]. intros j Hj. by eapply shaped_sameGrid. }
    destruct (IH cs1 cs' a1 a' Hwf1 Hsh1 Hfeed) as (Hwf' & Hg' & Hc' & Hs' & Hh').
    rewrite Hc1 in *. fold cap in Hc', Hs', Hh', Hs1, Hh1.
    split; [done |].
    split. { destruct Hg1 as (? & ? & ?), Hg' as (? & ? & ?). unfold sameGrid. split; [| split]; congruence. }
    split; [done |].
    split. { rewrite Hs', Hs1. simpl length. lia. }
    rewrite Hh', Hh1, keep_app, <- app_assoc. done.
Qed.

(** *** Runs that do not fault *)

Lemma learn_is_Some {G} pos (rng : G) i h f ip a :
  0 <= targetOf a pos h < z3 (_hiddenSize a) ->
  exists layers, learn pos rng i h f ip a = Some (set_visibleLayers a layers).
Proof.
  intros Hin.
  assert (Hmem : targetOf a pos h ∈ seqZ 0 (z3 (_hiddenSize a)))
    by (apply elem_of_seqZ; lia).
  destruct (scan_assigned a pos i ip (targetOf a pos h) _
              (mkAcc F32.neg_999999 F32.neg_999999 None None 0) Hmem) as [Hq Hn].
  unfold learn, scan. rewrite Hq, Hn. simpl. eauto.
Qed.

Lemma learn_fold_is_Some {G} (rng : G) i h f ip (l : list Int2) a layers :
  (forall pos, pos ∈ l -> 0 <= targetOf a pos h < z3 (_hiddenSize a)) ->
  is_Some (foldl (fun oa pos => a ← oa; learn pos rng i h f ip a)
             (Some (set_visibleLayers a layers)) l).
Proof.
  revert layers. induction l as [| pos l IH]; intros layers Hl; [by eexists |].
  simpl.
  destruct (learn_is_Some pos rng i h f ip (set_visibleLayers a layers))
    as [layers' ->]; [apply Hl, elem_of_cons; by left |].
  apply IH. intros p Hp. apply Hl, elem_of_cons. by right.
Qed.

Lemma learnPass_is_Some {G} (rng : G) s sPrev a :
  actionsInRange a s ->
  is_Some (learnPass rng (HistorySample._inputCs s) (HistorySample._hiddenCs s)
             (HistorySample._feedBackCs s) (HistorySample._inputCs sPrev) a).
Proof.
  intros Hs. unfold learnPass.
  replace (Some a) with (Some (set_visibleLayers a (_visibleLayers a)))
    by (by destruct a).
  apply learn_fold_is_Some. exact Hs.
Qed.

Lemma actionsInRange_weights a layers s :
  actionsInRange a s -> actionsInRange (set_visibleLayers a layers) s.
Proof. done. Qed.

Lemma replay_is_Some {G} `{UniformInt G} iters (cs : ComputeSystem G) a :
  2 <= _historySize a <= Z.of_nat (length (_historySamples a)) ->
  Forall (actionsInRange a) (history a) ->
  is_Some (replay iters cs a).
Proof.
  revert cs a. induction iters as [| iters IH]; intros cs a Hs Hv; [by eexists |].
  simpl.
  pose proof (uniform_int_range 0 (_historySize a - 2) (_rng cs) ltac:(lia)) as Hr.
  destruct (uniform_int 0 (_historySize a - 2) (_rng cs)) as [t rng]. simpl in Hr.
  assert (Hnext : actionsInRange a (sampleNext t a)).
  { rewrite Forall_lookup in Hv.
    apply (Hv (Z.to_nat (t + 1))). apply history_lookup; lia. }
  unfold replayLearn, replayHiddenCsPrev.
  destruct (learnPass_is_Some rng (sampleNext t a) (samplePrev t a) a Hnext)
    as [a1 E].
  rewrite E. simpl.
  pose proof (learnPass_onlyWeights _ _ _ _ _ _ _ E) as Ho.
  apply IH.
  - rewrite Ho. simpl. lia.
  - rewrite (onlyWeights_history a a1 Ho), Ho.
    eapply Forall_impl; [exact Hv |]. intros s. apply actionsInRange_weights.
Qed.

Lemma Forall_keep {A} (P : A -> Prop) cap (l : list A) :
  Forall P l -> Forall P (keep cap l).
Proof. apply Forall_drop. Qed.

Lemma actionsInRange_sameGrid a a' s :
  sameGrid a a' -> actionsInRange a s -> actionsInRange a' s.
Proof.
  intros (Hg & _ & _) Hs pos Hpos. unfold targetOf, hiddenDims in *.
  rewrite Hg in *. by apply Hs.
Qed.

Lemma step_is_Some {G} `{UniformInt G} (cs : ComputeSystem G) a (i : StepInput) :
  wellFormed a -> shaped a (sampleOf i) ->
  Forall (actionsInRange a) (history a) -> actionsInRange a (sampleOf i) ->
  exists cs' a',
    step cs (stepInputCs i) (stepHiddenCs i) (stepFeedBackCs i) (stepLearn i) a
      = Some (cs', a') /\
    Forall (actionsInRange a') (history a').
Proof.
  intros Hwf Hi Hv Hvi.
  assert (Hret : is_Some (step cs (stepInputCs i) (stepHiddenCs i)
                            (stepFeedBackCs i) (stepLearn i) a)).
  { rewrite (step_appended cs a i Hwf Hi). cbv zeta.
    rewrite (forward_pass_frame (_rng cs)).
    set (a0 := set_hiddenCs a _).
    destruct (added_history a0 i Hwf Hi) as (Hwf1 & Hg1 & Hc1 & Hs1 & Hh1).
    set (a1 := added _ _ _ a0) in *.
    destruct (stepLearn i); [| by eexists]. cbn [andb].
    destruct (Z.ltb_spec 2 (_historySize a1)); [| by eexists].
    apply replay_is_Some.
    - destruct Hwf1 as (_ & _ & _ & ?). lia.
    - rewrite Hh1. apply Forall_keep, Forall_app. split.
      + eapply Forall_impl; [exact Hv |]. intros s. by apply actionsInRange_sameGrid.
      + apply Forall_singleton. by apply (actionsInRange_sameGrid a). }
  destruct Hret as [[cs' a'] E]. exists cs', a'. split; [done |].
  destruct (step_history cs cs' a a' i Hwf Hi E) as (_ & Hg & _ & _ & Hh).
  rewrite Hh. apply Forall_keep, Forall_app. split.
  - eapply Forall_impl; [exact Hv |]. intros s. by apply actionsInRange_sameGrid.
  - apply Forall_singleton. by apply (actionsInRange_sameGrid a).
Qed.

Lemma feed_is_Some {G} `{UniformInt G} (steps : list StepInput) :
  forall (cs : ComputeSystem G) a,
  wellFormed a -> Forall (actionsInRange a) (history a) ->
  Forall (fun i => shaped a (sampleOf i) /\ actionsInRange a (sampleOf i)) steps ->
  is_Some (feed cs a steps).
Proof.
  induction steps as [| i steps IH]; intros cs a Hwf Hv Hsh; [by eexists |].
  apply Forall_cons in Hsh as [[Hi Hvi] Hsh]. simpl.
  destruct (step_is_Some cs a i Hwf Hi Hv Hvi) as (cs1 & a1 & E & Hv1).
  rewrite E. simpl.
  destruct (step_history cs cs1 a a1 i Hwf Hi E) as (Hwf1 & Hg1 & _).
  apply IH; [done | done |].
  eapply Forall_impl; [exact Hsh |]. intros j [Hj Hvj].
  split; [by eapply shaped_sameGrid | by eapply actionsInRange_sameGrid].
Qed.
End ActorHistory.



(** X23.  On a well-formed actor, one whose slots have their three
    buffers at the sizes of the grids, the history is a FIFO ring.  A run
    of [historyCapacity + k] steps ([k > 0]) on inputs of the right shape
    that starts without samples and returns leaves exactly
    [historyCapacity] samples: the steps without the oldest [k], in the
    order they were fed, so that ring position 0 holds step [k].  Along
    the way the count of valid samples is [min j capacity] after [j]
    steps: it grows by one per step up to the capacity and stays there. *)
Theorem well_formed_history_is_a_fifo_ring {G} `{UniformInt G} (cs : ComputeSystem G)
    (a : Actor.State) (steps : list StepInput) (k : nat) :
  let cap := length (Actor._historySamples a) in
  Actor.wellFormed a ->
  Actor._historySize a = 0 ->
  Forall (fun i => Actor.shaped a (sampleOf i)) steps ->
  length steps = (cap + k)%nat ->
  (0 < k)%nat ->
  (forall cs' a',
     feed cs a steps = Some (cs', a') ->
     Actor._historySize a' = Z.of_nat cap /\
     length (Actor.history a') = cap /\
     Actor.history a' = drop k (sampleOf <$> steps) /\
     Actor.history a' !! 0%nat = sampleOf <$> steps !! k) /\
  (forall j csj aj,
     feed cs a (take j steps) = Some (csj, aj) ->
     Actor._historySize aj = Z.of_nat (Nat.min j cap)).
Proof.
  intros cap Hwf Hzero Hsh Hlen Hk.
  assert (Hnil : Actor.history a = []).
  { unfold Actor.history. by rewrite Hzero. }
  split.
  - intros cs' a' Hfeed.
    destruct (feed_history steps cs cs' a a' Hwf Hsh Hfeed) as (_ & _ & _ & Hs & Hh).
    fold cap in Hs, Hh. rewrite Hnil in Hh. simpl in Hh.
    assert (Hdrop : Actor.history a' = drop k (sampleOf <$> steps)).
    { rewrite Hh. unfold keep. rewrite length_fmap. f_equal. lia. }
    split; [lia |]. split; [rewrite Hdrop, length_drop, length_fmap; lia |].
    split; [done |].
    rewrite Hdrop, lookup_drop, list_lookup_fmap. f_equal. f_equal. lia.
  - intros j csj aj Hj.
    assert (Hshj : Forall (fun i => Actor.shaped a (sampleOf i)) (take j steps))
      by (by apply Forall_take).
    destruct (feed_history (take j steps) cs csj a aj Hwf Hshj Hj) as (_ & _ & _ & Hsj & _).
    fold cap in Hsj. rewrite Hsj, Hzero, length_take. lia.
Qed.

Lemma well_formed_history_is_a_fifo_ring_witness :
  exists cs' a',
    feed (mkCS 7) Example.fresh Example.run = Some (cs', a') /\
    Actor._historySize a' = 3 /\
    Actor.history a' = drop 2 (sampleOf <$> Example.run).
Proof.
  assert (Hblank : Actor.shaped Example.fresh Example.blank).
  { repeat split. intros [| [| ?]] b; simpl; intros [= <-]. reflexivity. }
  assert (Hwf : Actor.wellFormed Example.fresh).
  { unfold Actor.wellFormed. simpl.
    split; [lia |]. split; [| split; [| lia]].
    - apply NoDup_ListNoDup. repeat constructor; simpl; lia.
    - intros p Hp. exists Example.blank. split; [| exact Hblank].
      apply list_elem_of_In in Hp. simpl in Hp.
      destruct Hp as [<- | [<- | [<- | []]]]; reflexivity. }
  assert (Hsh : Forall (fun i => Actor.shaped Example.fresh (sampleOf i)) Example.run).
  { repeat constructor; intros [| [| ?]] b; simpl; intros [= <-]; reflexivity. }
  destruct (feed (mkCS 7) Example.fresh Example.run) as [[cs' a'] |] eqn:E;
    [| vm_compute in E; discriminate E].
  destruct (well_formed_history_is_a_fifo_ring (mkCS 7) Example.fresh Example.run 2
              Hwf eq_refl Hsh eq_refl ltac:(lia)) as (Hring & _).
  exists cs', a'. split; [reflexivity |].
  destruct (Hring cs' a' E) as (Hs & _ & Hh & _).
  split; [exact Hs | exact Hh].
Defined.

(** ** The forward pass of the sparse coder *)

Section CoderForward.
Import SparseCoder.
Context {G : Type}.
Implicit Types (sc : State) (rng : G) (st : FloatBuffer * Z * F32.float).

Lemma forwardStep_acts sc inputCs pos fi st hc :
  (forwardStep sc inputCs pos fi st hc).1.1 =
    write st.1.1 (hiddenIndexOf sc pos hc)
      (cellUpdate sc inputCs pos fi hc (read F32.zero st.1.1 (hiddenIndexOf sc pos hc))).
Proof.
  destruct st as [[acts mi] mv]. unfold forwardStep, cellUpdate.
  destruct (cellSupport sc inputCs pos fi hc) as [i r].
  destruct fi; simpl; by destruct (F32.gtb _ _).
Qed.

Lemma forwardStep_maxIndex sc inputCs pos fi st hc :
  (forwardStep sc inputCs pos fi st hc).1.2 = st.1.2 \/
  (forwardStep sc inputCs pos fi st hc).1.2 = hc.
Proof.
  destruct st as [[acts mi] mv]. unfold forwardStep.
  destruct (cellSupport sc inputCs pos fi hc) as [i r].
  destruct (F32.gtb _ _); simpl; auto.
Qed.

(** The activations go through the loop on their own. *)
Lemma forward_scan_acts sc inputCs pos fi (l : list Z) st :
  (foldl (forwardStep sc inputCs pos fi) st l).1.1 =
    rmw F32.zero (cellUpdate sc inputCs pos fi) (hiddenIndexOf sc pos) l st.1.1.
Proof.
  revert st. induction l as [| hc l IH]; intros st; [done |].
  simpl. rewrite IH, forwardStep_acts. done.
Qed.

(** The winner is the initial index or one of the codes visited. *)
Lemma forward_scan_maxIndex sc inputCs pos fi (l : list Z) st :
  (foldl (forwardStep sc inputCs pos fi) st l).1.2 = st.1.2 \/
  (foldl (forwardStep sc inputCs pos fi) st l).1.2 ∈ l.
Proof.
  revert st. induction l as [| hc l IH]; intros st; [by left |].
  simpl. destruct (IH (forwardStep sc inputCs pos fi st hc)) as [-> | Hin].
  - destruct (forwardStep_maxIndex sc inputCs pos fi st hc) as [-> | ->].
    + by left.
    + right. apply elem_of_cons. by left.
  - right. apply elem_of_cons. by right.
Qed.

Lemma forward_on_set_hidden pos rng inputCs fi sc cs acts :
  forward pos rng inputCs fi (set_hidden sc cs acts) =
    let st := foldl (forwardStep sc inputCs pos fi) (acts, 0, F32.neg_999999)
                (seqZ 0 (z3 (_hiddenSize sc))) in
    set_hidden sc (write cs (Helpers.address2 pos (x3 (_hiddenSize sc))) st.1.2) st.1.1.
Proof.
  unfold forward.
  change (foldl (forwardStep (set_hidden sc cs acts) inputCs pos fi)
            (_hiddenActivations (set_hidden sc cs acts), 0, F32.neg_999999)
            (seqZ 0 (z3 (_hiddenSize (set_hidden sc cs acts)))))
    with (foldl (forwardStep sc inputCs pos fi) (acts, 0, F32.neg_999999)
            (seqZ 0 (z3 (_hiddenSize sc)))).
  by destruct (foldl _ _ _) as [[acts' mi] mv].
Qed.

Lemma set_hidden_id sc : set_hidden sc (_hiddenCs sc) (_hiddenActivations sc) = sc.
Proof. by destruct sc. Qed.

(** A run of the kernel over the columns [l]: the activations are a loop
    of updates of the cells, and the hidden codes take stores of codes of
    [[0, hiddenSize.z)], one per column. *)
Lemma forward_fold sc inputCs fi rng (l : list Int2) cs acts :
  1 <= z3 (_hiddenSize sc) ->
  exists ws : list (Z * Z),
    foldl (fun sc pos => forward pos rng inputCs fi sc) (set_hidden sc cs acts) l =
      set_hidden sc (writes ws cs)
        (foldl (fun acts pos =>
                  rmw F32.zero (cellUpdate sc inputCs pos fi) (hiddenIndexOf sc pos)
                    (seqZ 0 (z3 (_hiddenSize sc))) acts)
               acts l) /\
    ws.*1 = (fun pos => Helpers.address2 pos (x3 (_hiddenSize sc))) <$> l /\
    Forall (fun v => 0 <= v < z3 (_hiddenSize sc)) ws.*2.
Proof.
  intros Hz. revert cs acts. induction l as [| pos l IH]; intros cs acts.
  - exists []. done.
  - cbn [foldl]. rewrite forward_on_set_hidden. cbn zeta.
    set (st := foldl (forwardStep sc inputCs pos fi) _ _).
    destruct (IH (write cs (Helpers.address2 pos (x3 (_hiddenSize sc))) st.1.2) st.1.1)
      as (ws & -> & Hk & Hv).
    exists ((Helpers.address2 pos (x3 (_hiddenSize sc)), st.1.2) :: ws).
    split; [| split].
    + unfold st at 2. by rewrite forward_scan_acts.
    + by rewrite fmap_cons, Hk.
    + rewrite fmap_cons. apply Forall_cons. split; [| done].
      pose proof (forward_scan_maxIndex sc inputCs pos fi
                    (seqZ 0 (z3 (_hiddenSize sc))) (acts, 0, F32.neg_999999)) as Hm.
      fold st in Hm. cbn [fst snd] in Hm |- *.
      destruct Hm as [Hm | Hm]; [rewrite Hm; lia |].
      apply elem_of_seqZ in Hm. lia.
Qed.

(** The cells of the hidden grid, in the order the pass visits them. *)
Lemma elem_of_cells sx sy sz (p : Int2 * Z) :
  p ∈ (pos ← Helpers.grid sx sy; (pair pos) <$> seqZ 0 sz) <->
    p.1 ∈ Helpers.grid sx sy /\ 0 <= p.2 < sz.
Proof.
  rewrite list_elem_of_bind. split.
  - intros (pos & Hp & Hpos). apply list_elem_of_fmap in Hp as (hc & -> & Hhc).
    apply elem_of_seqZ in Hhc. simpl. split; [done | lia].
  - intros [Hpos Hhc]. exists p.1. split; [| done].
    apply list_elem_of_fmap. exists p.2.
    split; [by destruct p | apply elem_of_seqZ; lia].
Qed.


Lemma hiddenIndexOf_inj sc pos pos' hc hc' :
  pos ∈ Helpers.grid (x3 (_hiddenSize sc)) (y3 (_hiddenSize sc)) ->
  pos' ∈ Helpers.grid (x3 (_hiddenSize sc)) (y3 (_hiddenSize sc)) ->
  hiddenIndexOf sc pos hc = hiddenIndexOf sc pos' hc' -> pos = pos' /\ hc = hc'.
Proof.
  rewrite !elem_of_grid. unfold hiddenIndexOf, Helpers.address3. simpl.
  intros Hp Hp' He.
  destruct (radix_inj (x3 (_hiddenSize sc)) (x2 pos) (x2 pos')
              (y2 pos + hc * y3 (_hiddenSize sc)) (y2 pos' + hc' * y3 (_hiddenSize sc)))
    as [Hx Hy]; [lia | lia | lia |].
  destruct (radix_inj (y3 (_hiddenSize sc)) (y2 pos) (y2 pos') hc hc')
    as [Hy' Hc]; [lia | lia | lia |].
  split; [| done]. destruct pos, pos'. simpl in *. congruence.
Qed.

Lemma hiddenIndexOf_range sc pos hc :
  pos ∈ Helpers.grid (x3 (_hiddenSize sc)) (y3 (_hiddenSize sc)) ->
  0 <= hc < z3 (_hiddenSize sc) ->
  0 <= hiddenIndexOf sc pos hc <
    x3 (_hiddenSize sc) * y3 (_hiddenSize sc) * z3 (_hiddenSize sc).
Proof.
  rewrite elem_of_grid. unfold hiddenIndexOf, Helpers.address3. simpl.
  intros Hp Hc. by apply grid3_range.
Qed.

(** The forward pass leaves the layers alone and updates every cell of
    the hidden grid once. *)
Lemma forwardPass_effect sc inputCs fi rng :
  1 <= z3 (_hiddenSize sc) ->
  exists ws : list (Z * Z),
    forwardPass rng inputCs fi sc =
      set_hidden sc (writes ws (_hiddenCs sc))
        (rmw F32.zero (fun p => cellUpdate sc inputCs p.1 fi p.2)
           (fun p => hiddenIndexOf sc p.1 p.2)
           (pos ← Helpers.grid (x3 (_hiddenSize sc)) (y3 (_hiddenSize sc));
            (pair pos) <$> seqZ 0 (z3 (_hiddenSize sc)))
           (_hiddenActivations sc)) /\
    ws.*1 = (fun pos => Helpers.address2 pos (x3 (_hiddenSize sc)))
              <$> Helpers.grid (x3 (_hiddenSize sc)) (y3 (_hiddenSize sc)) /\
    Forall (fun v => 0 <= v < z3 (_hiddenSize sc)) ws.*2.
Proof.
  intros Hz. unfold forwardPass.
  destruct (forward_fold sc inputCs fi rng
              (Helpers.grid (x3 (_hiddenSize sc)) (y3 (_hiddenSize sc)))
              (_hiddenCs sc) (_hiddenActivations sc) Hz) as (ws & Hf & Hk & Hv).
  exists ws. split; [| done].
  rewrite set_hidden_id in Hf. rewrite Hf. f_equal.
  apply (rmw_nested F32.zero (fun pos => cellUpdate sc inputCs pos fi)
           (hiddenIndexOf sc)).
Qed.




End CoderForward.



(** ** The learn kernel of the sparse coder *)


Section CoderLearn.
Import SparseCoder.
Variables (sc : State) (vl : VisibleLayer) (vld : VisibleLayerDesc) (pos : Int2).

Let hs := _hiddenSize sc.
Let cells := x3 hs * y3 hs * z3 hs.
Let columns := coveringColumns sc vl vld pos.
Let idx := weightIndex sc vl vld pos.

Hypothesis codes_valid :
  forall h, h ∈ hiddenWindow sc vl pos ->
    0 <= read 0 (_hiddenCs sc) (Helpers.address2 h (x3 hs)) < z3 hs.









End CoderLearn.




(** ** Divisors *)

(** Conversion of integers to binary32: the facts about [SpecFloat]'s
    rounding that [static_cast<float>] of a positive [int] needs. *)
Section IntToFloat.

Lemma digits2_size p : digits2_pos p = Pos.size p.
Proof. induction p; simpl; congruence. Qed.

Lemma digits2_bounds p :
2 ^ (Z.pos (digits2_pos p) - 1) <= Z.pos p < 2 ^ Z.pos (digits2_pos p).
Proof.
rewrite digits2_size. split.
- pose proof (Pos.size_le p) as H.
  assert (H0 : 2 ^ Z.pos (Pos.size p) <= 2 * Z.pos p).
  { rewrite <- Pos2Z.inj_pow. change (2 * Z.pos p) with (Z.pos (p~0)).
    by apply Pos2Z.pos_le_pos. }
  replace (Z.pos (Pos.size p)) with (Z.succ (Z.pos (Pos.size p) - 1)) in H0 by lia.
  rewrite Z.pow_succ_r in H0 by lia. lia.
- rewrite <- Pos2Z.inj_pow. apply Pos2Z.pos_lt_pos. apply Pos.size_gt.
Qed.

Lemma digits2_unique p d :
0 < d -> 2 ^ (d - 1) <= Z.pos p < 2 ^ d -> Z.pos (digits2_pos p) = d.
Proof.
intros Hd [Hlo Hhi]. destruct (digits2_bounds p) as [Hlo' Hhi'].
destruct (Z.lt_trichotomy (Z.pos (digits2_pos p)) d) as [Hlt | [Heq | Hgt]]; [| done |].
- exfalso.
  assert (2 ^ Z.pos (digits2_pos p) <= 2 ^ (d - 1)) by (apply Z.pow_le_mono_r; lia).
  lia.
- exfalso.
  assert (2 ^ d <= 2 ^ (Z.pos (digits2_pos p) - 1)) by (apply Z.pow_le_mono_r; lia).
  lia.
Qed.

Lemma iter_xO p k : Z.pos (Pos.iter xO p k) = Z.pos p * 2 ^ Z.pos k.
Proof.
revert p. induction k using Pos.peano_ind; intros p.
- simpl. lia.
- rewrite Pos.iter_succ. rewrite Pos2Z.inj_succ, Z.pow_succ_r by lia.
  change (Z.pos (Pos.iter xO p k)~0) with (2 * Z.pos (Pos.iter xO p k)).
  rewrite IHk. ring.
Qed.

Lemma shr_1_m mrs : 0 <= shr_m mrs -> shr_m (shr_1 mrs) = shr_m mrs / 2.
Proof.
destruct mrs as [m r s]. simpl. intros Hm.
destruct m as [| p | p]; [done | | lia].
destruct p; simpl.
- rewrite Pos2Z.inj_xI. apply (Z.div_unique _ 2 _ 1); lia.
- rewrite Pos2Z.inj_xO. apply (Z.div_unique _ 2 _ 0); lia.
- done.
Qed.

Lemma pow2_xI k : 2 ^ Z.pos k~1 = 2 * 2 ^ Z.pos k * 2 ^ Z.pos k.
Proof.
assert (E : Z.pos k~1 = 1 + Z.pos k + Z.pos k) by lia.
rewrite E, !Z.pow_add_r by lia. done.
Qed.

Lemma pow2_xO k : 2 ^ Z.pos k~0 = 2 ^ Z.pos k * 2 ^ Z.pos k.
Proof.
assert (E : Z.pos k~0 = Z.pos k + Z.pos k) by lia.
rewrite E, !Z.pow_add_r by lia. done.
Qed.

Lemma iter_shr_m (k : positive) mrs :
0 <= shr_m mrs -> shr_m (SpecFloat.iter_pos shr_1 k mrs) = shr_m mrs / 2 ^ Z.pos k.
Proof.
revert mrs. induction k as [k IH | k IH |]; intros mrs Hm; simpl SpecFloat.iter_pos.
- assert (H1 : 0 <= shr_m (shr_1 mrs)) by (rewrite shr_1_m; [apply Z.div_pos; lia | done]).
  assert (H2 : 0 <= shr_m (SpecFloat.iter_pos shr_1 k (shr_1 mrs)))
    by (rewrite IH; [apply Z.div_pos; lia | done]).
  rewrite IH, IH, shr_1_m by done.
  rewrite !Z.div_div by lia. f_equal. rewrite pow2_xI. ring.
- assert (H2 : 0 <= shr_m (SpecFloat.iter_pos shr_1 k mrs))
    by (rewrite IH; [apply Z.div_pos; lia | done]).
  rewrite IH, IH by done. rewrite !Z.div_div by lia. f_equal. rewrite pow2_xO. ring.
- by rewrite shr_1_m.
Qed.

Lemma leb_one_finite m e : -23 < e -> F32.leb F32.one (S754_finite false m e) = true.
Proof.
intros He. unfold F32.leb, SFleb, SFcompare, F32.one.
destruct (Z.compare_spec (-23) e); (done || lia).
Qed.

Lemma leb_one_result (m : positive) e :
-23 < e ->
F32.leb F32.one
  (if e <=? 128 - 24 then S754_finite false m e else S754_infinity false) = true.
Proof.
intros He. destruct (e <=? 128 - 24); [by apply leb_one_finite | done].
Qed.

Lemma fexp_normal d : -125 <= d -> fexp 24 128 d = d - 24.
Proof. intros Hd. unfold fexp, emin. lia. Qed.

(** A mantissa of exactly 24 digits is not shifted. *)
Lemma shr_fexp_canonical (m : positive) e :
Z.pos (digits2_pos m) = 24 -> -149 <= e ->
shr_fexp 24 128 (Z.pos m) e loc_Exact = (Build_shr_record (Z.pos m) false false, e).
Proof.
intros Hd He. unfold shr_fexp. simpl Zdigits2. rewrite Hd, fexp_normal by lia.
replace (24 + e - 24 - e) with 0 by lia. done.
Qed.

Lemma round_aux_canonical (m : positive) e :
Z.pos (digits2_pos m) = 24 -> -149 <= e ->
binary_round_aux 24 128 false (Z.pos m) e loc_Exact =
  if e <=? 128 - 24 then S754_finite false m e else S754_infinity false.
Proof.
intros Hd He. unfold binary_round_aux.
rewrite shr_fexp_canonical by done. simpl loc_of_shr_record. simpl round_nearest_even.
simpl shr_m. rewrite shr_fexp_canonical by done. done.
Qed.

(** The second shift of the rounding, on a mantissa of 24 or 25 digits. *)
Lemma shr_fexp_rounded (q : positive) e :
2 ^ 23 <= Z.pos q <= 2 ^ 24 -> 1 <= e ->
exists m e',
  shr_m (shr_fexp 24 128 (Z.pos q) e loc_Exact).1 = Z.pos m /\
  (shr_fexp 24 128 (Z.pos q) e loc_Exact).2 = e' /\ 1 <= e'.
Proof.
intros Hq He. destruct (decide (Z.pos q = 2 ^ 24)) as [Heq | Hne].
- assert (q = 16777216%positive) as -> by lia.
  exists 8388608%positive, (e + 1). unfold shr_fexp.
  change (Zdigits2 16777216) with 25.
  rewrite fexp_normal by lia. replace (25 + e - 24 - e) with 1 by lia.
  simpl. split; [done | split; [done | lia]].
- assert (Hd : Z.pos (digits2_pos q) = 24) by (apply digits2_unique; lia).
  exists q, e. rewrite shr_fexp_canonical by (done || lia). simpl. done.
Qed.

Lemma round_nearest_even_bounds m l :
m <= round_nearest_even m l <= m + 1.
Proof. destruct l as [| []]; simpl; try lia. destruct (Z.even m); lia. Qed.

(** [static_cast<float>(n)] of an [n >= 1] is at least [1.0f]. *)
Lemma of_int_ge_one n : 1 <= n -> F32.leb F32.one (F32.of_int n) = true.
Proof.
intros Hn. destruct n as [| p | p]; [lia | | lia].
unfold F32.of_int, F32.prec, F32.emax, binary_normalize, binary_round.
pose proof (digits2_bounds p) as Hp.
set (d := Z.pos (digits2_pos p)) in *.
assert (Hd : 1 <= d) by (unfold d; lia).
rewrite fexp_normal by lia. unfold shl_align.
destruct (d + 0 - 24 - 0) as [| k | k] eqn:Hs.
- (* exactly 24 digits *)
  rewrite round_aux_canonical by (fold d; lia). by apply leb_one_result.
- (* more than 24 digits: the mantissa is rounded *)
  unfold binary_round_aux.
  assert (Hshift : shr_fexp 24 128 (Z.pos p) 0 loc_Exact =
            (SpecFloat.iter_pos shr_1 k (Build_shr_record (Z.pos p) false false), Z.pos k)).
  { unfold shr_fexp. simpl Zdigits2. fold d. rewrite fexp_normal by lia.
    replace (d + 0 - 24 - 0) with (Z.pos k) by lia. done. }
  rewrite Hshift.
  set (mrs := SpecFloat.iter_pos shr_1 k _).
  assert (Hm : 2 ^ 23 <= shr_m mrs < 2 ^ 24).
  { unfold mrs. rewrite iter_shr_m by (simpl; lia). simpl shr_m.
    assert (Hk : Z.pos k = d - 24) by lia.
    assert (Hpow : 2 ^ d = 2 ^ 24 * 2 ^ Z.pos k)
      by (rewrite <- Z.pow_add_r by lia; f_equal; lia).
    assert (Hpow' : 2 ^ (d - 1) = 2 ^ 23 * 2 ^ Z.pos k)
      by (rewrite <- Z.pow_add_r by lia; f_equal; lia).
    assert (0 < 2 ^ Z.pos k) by (apply Z.pow_pos_nonneg; lia).
    split.
    - apply Z.div_le_lower_bound; lia.
    - apply Z.div_lt_upper_bound; lia. }
  pose proof (round_nearest_even_bounds (shr_m mrs) (loc_of_shr_record mrs)) as Hr.
  set (m2 := round_nearest_even _ _) in *.
  destruct m2 as [| q | q] eqn:Hm2; [lia | | lia].
  destruct (shr_fexp_rounded q (Z.pos k) ltac:(lia) ltac:(lia))
    as (m & e' & Hsm & He' & Hge).
  destruct (shr_fexp 24 128 (Z.pos q) (Z.pos k) loc_Exact) as [mrs'' e''].
  simpl in Hsm, He'. subst e''. rewrite Hsm. apply leb_one_result. lia.
- (* fewer than 24 digits: the mantissa is aligned to the left *)
  assert (Hk : Z.pos k = 24 - d) by lia.
  assert (Hmz : Z.pos (digits2_pos (Pos.iter xO p k)) = 24).
  { apply digits2_unique; [lia |]. rewrite iter_xO, Hk.
    assert (Hpow : 2 ^ 24 = 2 ^ d * 2 ^ (24 - d))
      by (rewrite <- Z.pow_add_r by lia; f_equal; lia).
    assert (Hpow' : 2 ^ (24 - 1) = 2 ^ (d - 1) * 2 ^ (24 - d))
      by (rewrite <- Z.pow_add_r by lia; f_equal; lia).
    assert (0 < 2 ^ (24 - d)) by (apply Z.pow_pos_nonneg; lia).
    rewrite Hpow, Hpow'. nia. }
  rewrite round_aux_canonical by (done || lia).
  destruct (decide (d = 1)) as [Hd1 | Hd1].
  + assert (p = 1%positive) as -> by (rewrite Hd1 in Hp; simpl in Hp; lia).
    assert (k = 23%positive) as -> by (unfold d in Hk; simpl in Hk; lia).
    done.
  + apply leb_one_result. lia.
Qed.

(** [std::max(1.0f, c)] is at least [1.0f], whatever [c] is. *)
Lemma max_one_ge_one c : F32.leb F32.one (F32.max F32.one c) = true.
Proof.
unfold F32.max. destruct (F32.ltb F32.one c) eqn:Hlt; [| done].
unfold F32.ltb, SFltb in Hlt. unfold F32.leb, SFleb.
by destruct (SFcompare F32.one c) as [[] |].
Qed.

Lemma ge_one_nonzero x : F32.leb F32.one x = true -> F32.is_zero x = false.
Proof. by destruct x. Qed.

End IntToFloat.

(** C8.  The divisors of the averages are clamped to at least 1 before the
    division.  In the backward and learn kernels of the sparse coder the
    average is [sum / max(1.0f, count)], and that divisor is at least 1.0
    and not zero for every [count]; it is 1.0 when the search window is
    empty.  In the learn kernel of the actor both sums are divided by the
    conversion of [max(1, hiddenCounts[column])], an integer that is at least
    1 and whose conversion is at least 1.0 and not zero; it is 1 when the
    count of the column is 0 or less. *)
Theorem divisors_are_clamped :
  (forall sc vl vld w pos vc,
     let sum := (SparseCoder.support sc vl vld w pos vc).1 in
     let count := (SparseCoder.support sc vl vld w pos vc).2 in
     let divisor := F32.max F32.one count in
     SparseCoder.average sc vl vld w pos vc = F32.div sum divisor /\
     (forall inputC,
        SparseCoder.deltaOf sc vl vld w pos inputC vc =
          F32.mul (SparseCoder._alpha sc)
            (F32.sub (SparseCoder.target vc inputC) (F32.div sum divisor))) /\
     F32.leb F32.one divisor = true /\
     F32.is_zero divisor = false /\
     (SparseCoder.hiddenWindow sc vl pos = [] -> divisor = F32.one)) /\
  (forall a pos inputCs inputCsPrev hc,
     let hiddenIndex :=
       Helpers.address3C (mkInt3 (x2 pos) (y2 pos) hc) (Actor._hiddenSize a) in
     let sums := Actor.supports a inputCs inputCsPrev hiddenIndex in
     let hiddenCount :=
       read 0 (Actor._hiddenCounts a) (Helpers.address2C pos (Actor.hiddenDims a)) in
     let divisor := Actor.divisor a pos in
     Actor.qValues a pos inputCs inputCsPrev hc =
       (F32.div sums.1 (F32.of_int divisor), F32.div sums.2 (F32.of_int divisor)) /\
     divisor = Z.max 1 hiddenCount /\
     1 <= divisor /\
     F32.leb F32.one (F32.of_int divisor) = true /\
     F32.is_zero (F32.of_int divisor) = false /\
     (hiddenCount <= 0 -> F32.of_int divisor = F32.one)).
Proof.
  split.
  - intros sc vl vld w pos vc sum count divisor.
    assert (Havg : SparseCoder.average sc vl vld w pos vc = F32.div sum divisor).
    { unfold SparseCoder.average, divisor, sum, count.
      by destruct (SparseCoder.support sc vl vld w pos vc). }
    split; [done |]. split.
    { intros inputC. unfold SparseCoder.deltaOf. by rewrite Havg. }
    split; [apply max_one_ge_one |]. split.
    { apply ge_one_nonzero, max_one_ge_one. }
    intros Hempty. unfold divisor, count, SparseCoder.support. by rewrite Hempty.
  - intros a pos inputCs inputCsPrev hc hiddenIndex sums hiddenCount divisor.
    assert (Hge : 1 <= divisor) by (unfold divisor, Actor.divisor; lia).
    split.
    { unfold Actor.qValues. fold hiddenIndex sums divisor. by destruct sums. }
    split; [done |]. split; [done |]. split; [by apply of_int_ge_one |]. split.
    { by apply ge_one_nonzero, of_int_ge_one. }
    intros Hzero. unfold divisor, Actor.divisor. fold hiddenCount.
    by rewrite Z.max_l by lia.
Qed.

(** ** Codes stay in range *)

Section CoverFacts.
Context {A : Type}.
Implicit Types (P : A -> Prop) (b : list A) (ws : list (Z * A)).

(** Stores of values that satisfy [P] keep [P] on a buffer. *)
Lemma writes_preserve P ws b : Forall P ws.*2 -> Forall P b -> Forall P (writes ws b).
Proof.
  intros Hv Hb. apply Forall_lookup. intros k v Hk.
  rewrite lookup_writes in Hk.
  destruct (lastWrite ws k) as [v' |] eqn:E.
  - destruct (decide (k < length b)%nat); [| done]. injection Hk as <-.
    apply lastWrite_Some in E as (i & Hin & _).
    eapply Forall_forall; [exact Hv |].
    apply list_elem_of_fmap. by exists (i, v').
  - by eapply Forall_lookup_1.
Qed.

(** Stores that reach every cell establish [P] on the buffer. *)
Lemma writes_cover P ws b :
  Forall P ws.*2 ->
  (forall k, (k < length b)%nat -> Z.of_nat k ∈ ws.*1) ->
  Forall P (writes ws b).
Proof.
  intros Hv Hc. apply Forall_lookup. intros k v Hk.
  rewrite lookup_writes in Hk.
  destruct (lastWrite ws k) as [v' |] eqn:E.
  - destruct (decide (k < length b)%nat); [| done]. injection Hk as <-.
    apply lastWrite_Some in E as (i & Hin & _).
    eapply Forall_forall; [exact Hv |].
    apply list_elem_of_fmap. by exists (i, v').
  - exfalso. assert (Hlt : (k < length b)%nat) by (by eapply lookup_lt_Some).
    apply Hc in Hlt. apply list_elem_of_fmap in Hlt as ([i v'] & Hi & Hin).
    simpl in Hi. subst i.
    apply (lastWrite_None ws k E (Z.of_nat k) v' Hin); lia.
Qed.
End CoverFacts.

Section GridCover.
Import Helpers.

(** The row-major addresses of a grid reach every cell of the buffer. *)
Lemma grid_covers_address2 sx sy k :
  0 <= sx -> 0 <= k < sx * sy ->
  k ∈ (fun pos => address2 pos sx) <$> grid sx sy.
Proof.
  intros Hsx Hk. assert (0 < sx) by (destruct (decide (sx = 0)) as [-> | ?]; lia).
  apply list_elem_of_fmap. exists (mkInt2 (k mod sx) (k / sx)). split.
  - unfold address2. simpl. rewrite (Z.div_mod k sx) at 1 by lia. lia.
  - apply elem_of_grid. simpl.
    pose proof (Z.mod_pos_bound k sx). 
    assert (0 <= k / sx) by (apply Z.div_pos; lia).
    assert (k / sx < sy) by (apply Z.div_lt_upper_bound; lia). lia.
Qed.

(** So do the column-major addresses. *)
Lemma grid_covers_address2C sx sy k :
  0 <= sy -> 0 <= k < sx * sy ->
  k ∈ (fun pos => address2C pos (mkInt2 sx sy)) <$> grid sx sy.
Proof.
  intros Hsy Hk. assert (0 < sy) by (destruct (decide (sy = 0)) as [-> | ?]; lia).
  apply list_elem_of_fmap. exists (mkInt2 (k / sy) (k mod sy)). split.
  - unfold address2C. simpl. rewrite (Z.div_mod k sy) at 1 by lia. lia.
  - apply elem_of_grid. simpl.
    pose proof (Z.mod_pos_bound k sy).
    assert (0 <= k / sy) by (apply Z.div_pos; lia).
    assert (k / sy < sx) by (apply Z.div_lt_upper_bound; lia). lia.
Qed.
End GridCover.

(** The index that an arg-max scan carries is its initial value or one of
    the candidates visited. *)
Lemma scan_index {B} (f : Z * B -> Z -> Z * B) (l : list Z) (st : Z * B) :
  (forall st c, (f st c).1 = st.1 \/ (f st c).1 = c) ->
  (foldl f st l).1 = st.1 \/ (foldl f st l).1 ∈ l.
Proof.
  intros Hf. revert st. induction l as [| c l IH]; intros st; [by left |].
  simpl. destruct (IH (f st c)) as [-> | Hin].
  - destruct (Hf st c) as [-> | ->]; [by left |].
    right. apply elem_of_cons. by left.
  - right. apply elem_of_cons. by right.
Qed.

Lemma scan_index_range {B} (f : Z * B -> Z -> Z * B) (depth : Z) (b : B) :
  (forall st c, (f st c).1 = st.1 \/ (f st c).1 = c) ->
  1 <= depth ->
  0 <= (foldl f (0, b) (seqZ 0 depth)).1 < depth.
Proof.
  intros Hf Hd. destruct (scan_index f (seqZ 0 depth) (0, b) Hf) as [-> | Hin].
  - simpl. lia.
  - apply elem_of_seqZ in Hin. lia.
Qed.

Section ActorCodes.
Import Actor.
Context {G : Type}.

Lemma argmax_range a pos inputCs :
  1 <= z3 (_hiddenSize a) -> 0 <= (argmax a pos inputCs).1 < z3 (_hiddenSize a).
Proof.
  intros Hz. unfold argmax. apply scan_index_range; [| done].
  intros [mi mv] c. simpl. destruct (F32.gtb _ _); auto.
Qed.

Lemma forwardPass_codes (rng : G) inputCs a :
  sized a ->
  isCSDR (x3 (_hiddenSize a) * y3 (_hiddenSize a)) (z3 (_hiddenSize a))
    (_hiddenCs (forwardPass rng inputCs a)).
Proof.
  intros (Hx & Hy & Hz & Hlen). rewrite forwardPass_writes. simpl. split.
  - by rewrite length_writes.
  - apply writes_cover.
    + unfold forwardWrites. rewrite <- list_fmap_compose.
      apply Forall_fmap, Forall_forall. intros pos _. simpl. by apply argmax_range.
    + intros k Hk. unfold forwardWrites. rewrite <- list_fmap_compose.
      apply (grid_covers_address2C (x3 (_hiddenSize a)) (y3 (_hiddenSize a))); lia.
Qed.

Lemma step_hiddenCs `{UniformInt G} (cs cs' : ComputeSystem G) inputCs hiddenCs feedBackCs
    learnEnabled a a' :
  step cs inputCs hiddenCs feedBackCs learnEnabled a = Some (cs', a') ->
  _hiddenSize a' = _hiddenSize a /\
  _hiddenCs a' = _hiddenCs (forwardPass (_rng cs) inputCs a).
Proof.
  intros Hstep. apply step_Some in Hstep as [_ Hstep]. revert Hstep.
  rewrite (forward_pass_frame (_rng cs)).
  set (codes := _hiddenCs (forwardPass (_rng cs) inputCs a)).
  set (a1 := added _ _ _ _).
  assert (H1 : _hiddenSize a1 = _hiddenSize a /\ _hiddenCs a1 = codes) by done.
  clearbody a1. intros Hstep.
  assert (Ho : onlyWeights a1 a').
  { destruct (learnEnabled && (2 <? _historySize a1)).
    - by apply replay_frame in Hstep as [? _].
    - injection Hstep as _ <-. apply onlyWeights_refl. }
  rewrite Ho. simpl. done.
Qed.
End ActorCodes.

Section CoderCodes.
Import SparseCoder.
Context {G : Type}.
Implicit Types (sc : State) (rng : G).

Lemma reconstruct_range sc vli pos :
  1 <= z3 (_size (desc sc vli)) ->
  0 <= (reconstruct sc vli pos).1 < z3 (_size (desc sc vli)).
Proof.
  intros Hz. unfold reconstruct. apply scan_index_range; [| done].
  intros [mi mv] c. simpl. destruct (F32.gtb _ _); auto.
Qed.

(** The backward kernel run over the columns [l] of one layer stores a code
    of the layer's depth into [_reconCs] for each of them. *)
Lemma backward_fold_effect rng inputCs vli (l : list Int2) sc :
  1 <= z3 (_size (desc sc vli)) ->
  exists ws : list (Z * Z),
    foldl (fun sc pos => backward pos rng inputCs vli sc) sc l =
      set_visibleLayers sc
        (alter (fun vl => set_reconCs vl (writes ws (_reconCs vl))) vli (_visibleLayers sc)) /\
    ws.*1 = (fun pos => Helpers.address2 pos (x3 (_size (desc sc vli)))) <$> l /\
    Forall (fun v => 0 <= v < z3 (_size (desc sc vli))) ws.*2.
Proof.
  intros Hz. revert sc Hz. induction l as [| pos l IH]; intros sc Hz.
  - exists []. split; [| done]. simpl.
    rewrite list_alter_id by (by intros []). by destruct sc.
  - cbn [foldl].
    destruct (IH (backward pos rng inputCs vli sc) Hz) as (ws & -> & Hk & Hv).
    exists ((Helpers.address2 pos (x3 (_size (desc sc vli))), (reconstruct sc vli pos).1) :: ws).
    split; [| split].
    + unfold backward at 1 2. simpl. unfold set_visibleLayers. simpl. f_equal.
      rewrite list_alter_alter_eq. apply list_alter_ext; [| done].
      by intros [].
    + by rewrite fmap_cons, Hk.
    + rewrite fmap_cons. apply Forall_cons. split; [| done].
      by apply reconstruct_range.
Qed.

Lemma reconstructs_refl sc : reconstructs [] sc sc.
Proof.
  split; [by destruct sc |]. split; [done |].
  intros vli vl Hvl. exists vl. split; [done |]. split; [done |].
  intros [Hin | Hv]; [by apply elem_of_nil in Hin | done].
Qed.

Lemma reconstructs_trans ran ran' sc sc1 sc2 :
  reconstructs ran sc sc1 -> reconstructs ran' sc1 sc2 ->
  reconstructs (ran ++ ran') sc sc2.
Proof.
  intros (E1 & Hl1 & H1) (E2 & Hl2 & H2).
  split; [by rewrite E2, E1 |]. split; [congruence |].
  intros vli vl Hvl.
  destruct (H1 vli vl Hvl) as (vl1 & Hvl1 & Hlen1 & Hv1).
  destruct (H2 vli vl1 Hvl1) as (vl2 & Hvl2 & Hlen2 & Hv2).
  exists vl2. split; [done |]. split; [congruence |].
  assert (Hd : desc sc1 vli = desc sc vli) by (by rewrite E1).
  rewrite Hd in Hv2. rewrite elem_of_app. tauto.
Qed.

Lemma sized_reconstructs ran sc sc' : sized sc -> reconstructs ran sc sc' -> sized sc'.
Proof.
  intros (Hx & Hy & Hz & Hlen & Hl) (E & Hll & Hr).
  assert (Hd : forall vli, desc sc' vli = desc sc vli) by (by rewrite E).
  rewrite E. simpl.
  split; [done |]. split; [done |]. split; [done |]. split; [done |].
  intros vli vl' Hvl'.
  change (desc (set_visibleLayers sc (_visibleLayers sc')) vli) with (desc sc vli).
  destruct (lookup_lt_is_Some_2 (_visibleLayers sc) vli) as [vl Hvl].
  { rewrite <- Hll. by eapply lookup_lt_Some. }
  destruct (Hr vli vl Hvl) as (vl1 & Hvl1 & Hlen1 & _).
  assert (vl1 = vl') as -> by congruence.
  destruct (Hl vli vl Hvl) as (? & ? & ? & ?).
  split; [done |]. split; [done |]. split; [done |]. congruence.
Qed.

(** The backward kernel over all columns of one layer. *)
Lemma backward_layer rng inputCs vli sc :
  sized sc -> (vli < length (_visibleLayers sc))%nat ->
  reconstructs [vli] sc
    (foldl (fun sc pos => backward pos rng inputCs vli sc) sc
       (Helpers.grid (x3 (_size (desc sc vli))) (y3 (_size (desc sc vli))))).
Proof.
  intros (Hx & Hy & Hz & Hlen & Hl) Hvli.
  destruct (lookup_lt_is_Some_2 (_visibleLayers sc) vli Hvli) as [vl0 Hvl0].
  destruct (Hl vli vl0 Hvl0) as (Hvx & Hvy & Hvz & Hrl).
  destruct (backward_fold_effect rng inputCs vli
              (Helpers.grid (x3 (_size (desc sc vli))) (y3 (_size (desc sc vli)))) sc Hvz)
    as (ws & -> & Hk & Hv).
  split; [done |]. split; [simpl; apply length_alter |].
  intros i vl Hvl. simpl. rewrite list_lookup_alter.
  destruct (decide (vli = i)) as [<- | Hne].
  - rewrite Hvl. simpl. eexists. split; [done |].
    split; [simpl; apply length_writes |].
    intros _. simpl. apply writes_cover; [done |].
    intros k Hk'. rewrite Hk.
    assert (vl = vl0) as -> by congruence.
    apply grid_covers_address2; lia.
  - exists vl. split; [done |]. split; [done |].
    intros [Hin | Hok]; [| done].
    apply elem_of_cons in Hin as [-> | Hin]; [done | by apply elem_of_nil in Hin].
Qed.

Lemma backward_layers rng inputCs (l : list nat) sc :
  sized sc -> Forall (fun vli => (vli < length (_visibleLayers sc))%nat) l ->
  reconstructs l sc
    (foldl (fun sc vli =>
              let vld := desc sc vli in
              foldl (fun sc pos => backward pos rng inputCs vli sc) sc
                    (Helpers.grid (x3 (_size vld)) (y3 (_size vld))))
           sc l).
Proof.
  revert sc. induction l as [| vli l IH]; intros sc Hs Hl.
  - apply reconstructs_refl.
  - apply Forall_cons in Hl as [Hvli Hl]. cbn [foldl]. cbn zeta.
    pose proof (backward_layer rng inputCs vli sc Hs Hvli) as H1.
    set (sc1 := foldl _ sc (Helpers.grid _ _)) in *.
    apply (reconstructs_trans [vli] l sc sc1); [done |].
    apply IH; [by eapply sized_reconstructs |].
    destruct H1 as (_ & -> & _). done.
Qed.

Lemma backwardPass_reconstructs rng inputCs sc :
  sized sc ->
  reconstructs (seq 0 (length (_visibleLayers sc))) sc (backwardPass rng inputCs sc).
Proof.
  intros Hs. apply backward_layers; [done |].
  apply Forall_forall. intros vli Hin. apply elem_of_seq in Hin. lia.
Qed.

(** The forward pass gives hidden codes in range. *)
Lemma forwardPass_codes_coder rng inputCs fi sc :
  sized sc ->
  sized (forwardPass rng inputCs fi sc) /\
  _visibleLayers (forwardPass rng inputCs fi sc) = _visibleLayers sc /\
  (forall vli, desc (forwardPass rng inputCs fi sc) vli = desc sc vli) /\
  _hiddenSize (forwardPass rng inputCs fi sc) = _hiddenSize sc /\
  Forall (fun c => 0 <= c < z3 (_hiddenSize sc)) (_hiddenCs (forwardPass rng inputCs fi sc)).
Proof.
  intros (Hx & Hy & Hz & Hlen & Hl).
  destruct (forwardPass_effect sc inputCs fi rng Hz) as (ws & -> & Hk & Hv).
  split; [| split; [done | split; [done | split; [done |]]]].
  - unfold sized, desc. simpl. rewrite length_writes. done.
  - simpl. apply writes_cover; [done |].
    intros k Hk'. rewrite Hk. apply grid_covers_address2; lia.
Qed.

(** One round of [activate] gives codes in range. *)
Lemma round_codes rng inputCs fi sc :
  sized sc ->
  sized (backwardPass rng inputCs (forwardPass rng inputCs fi sc)) /\
  codesInRange (backwardPass rng inputCs (forwardPass rng inputCs fi sc)).
Proof.
  intros Hs.
  destruct (forwardPass_codes_coder rng inputCs fi sc Hs) as (Hs1 & Hl1 & Hd1 & Hh1 & Hc1).
  set (sc1 := forwardPass rng inputCs fi sc) in *.
  pose proof (backwardPass_reconstructs rng inputCs sc1 Hs1) as Hr.
  set (sc2 := backwardPass rng inputCs sc1) in *.
  assert (Hs2 : sized sc2) by (by eapply sized_reconstructs).
  split; [done |].
  destruct Hs2 as (_ & _ & _ & Hlen2 & Hl2).
  destruct Hr as (E & Hll & Hr).
  split.
  - split; [done |]. rewrite E. simpl. by rewrite Hh1.
  - intros vli vl' Hvl'. simpl.
    destruct (Hl2 vli vl' Hvl') as (_ & _ & _ & Hlen').
    split; [done |].
    destruct (lookup_lt_is_Some_2 (_visibleLayers sc1) vli) as [vl Hvl].
    { rewrite <- Hll. by eapply lookup_lt_Some. }
    destruct (Hr vli vl Hvl) as (vl1 & Hvl1 & _ & Hok).
    assert (vl1 = vl') as -> by congruence.
    assert (Hd : desc sc2 vli = desc sc1 vli) by (by rewrite E).
    rewrite Hd. apply Hok. left. apply elem_of_seq.
    apply lookup_lt_Some in Hvl. lia.
Qed.

Lemma explain_codes rounds it rng visibleCs sc :
  sized sc -> (0 < rounds)%nat \/ codesInRange sc ->
  sized (explain rounds it rng visibleCs sc) /\
  codesInRange (explain rounds it rng visibleCs sc).
Proof.
  revert it sc. induction rounds as [| n IH]; intros it sc Hs Hc.
  - destruct Hc as [Hc | Hc]; [lia | done].
  - cbn [explain].
    destruct (round_codes rng visibleCs (it =? 0) sc Hs) as [Hs1 Hc1].
    apply IH; [done | by right].
Qed.
(** The rounds change neither the grids nor the number of layers. *)
Lemma explain_frame rounds it rng visibleCs sc :
  sized sc ->
  _hiddenSize (explain rounds it rng visibleCs sc) = _hiddenSize sc /\
  _visibleLayerDescs (explain rounds it rng visibleCs sc) = _visibleLayerDescs sc /\
  length (_visibleLayers (explain rounds it rng visibleCs sc)) = length (_visibleLayers sc).
Proof.
  revert it sc. induction rounds as [| n IH]; intros it sc Hs; [done |].
  cbn [explain].
  destruct (round_codes rng visibleCs (it =? 0) sc Hs) as [Hs1 _].
  destruct (forwardPass_codes_coder rng visibleCs (it =? 0) sc Hs)
    as (Hs0 & Hl0 & _ & Hh0 & _).
  destruct (backwardPass_reconstructs rng visibleCs
              (forwardPass rng visibleCs (it =? 0) sc) Hs0) as (E & Hll & _).
  destruct (IH (it + 1) _ Hs1) as (-> & -> & ->).
  rewrite E. simpl. rewrite Hh0, Hll, Hl0.
  split; [done |]. split; [| done].
  destruct (forwardPass_effect sc visibleCs (it =? 0) rng) as (ws & -> & _);
    [apply Hs | done].
Qed.
End CoderCodes.

(** C7.  After [activate] the hidden codes of the sparse coder and the
    reconstruction codes of each of its visible layers are CSDRs of their
    grids: one cell per column, holding a code of [[0, depth)]; this needs
    one round of the loop at least, or codes that were in range before.
    After the forward pass of the actor, and so in the state that [step]
    returns, the action codes are a CSDR of the hidden grid; [step] does
    return when the history is well formed and the recorded actions are
    codes of the grid.  The sizes of the grids are not changed. *)
Theorem codes_stay_in_range {G} `{UniformInt G} (cs : ComputeSystem G) :
  (forall visibleCs sc,
     SparseCoder.sized sc ->
     1 <= SparseCoder._explainIters sc \/ SparseCoder.codesInRange sc ->
     let sc' := SparseCoder.activate cs visibleCs sc in
     let hs := SparseCoder._hiddenSize sc in
     SparseCoder._hiddenSize sc' = hs /\
     SparseCoder._visibleLayerDescs sc' = SparseCoder._visibleLayerDescs sc /\
     length (SparseCoder._visibleLayers sc') = length (SparseCoder._visibleLayers sc) /\
     isCSDR (x3 hs * y3 hs) (z3 hs) (SparseCoder._hiddenCs sc') /\
     (forall vli vl, SparseCoder._visibleLayers sc' !! vli = Some vl ->
        let size := SparseCoder._size (SparseCoder.desc sc vli) in
        isCSDR (x3 size * y3 size) (z3 size) (SparseCoder._reconCs vl))) /\
  (forall (i : StepInput) a,
     Actor.sized a ->
     let hs := Actor._hiddenSize a in
     let result :=
       Actor.step cs (stepInputCs i) (stepHiddenCs i) (stepFeedBackCs i) (stepLearn i) a in
     isCSDR (x3 hs * y3 hs) (z3 hs)
       (Actor._hiddenCs (Actor.forwardPass (_rng cs) (stepInputCs i) a)) /\
     (forall cs' a',
        result = Some (cs', a') ->
        Actor._hiddenSize a' = hs /\
        isCSDR (x3 hs * y3 hs) (z3 hs) (Actor._hiddenCs a')) /\
     (Actor.wellFormed a -> Actor.shaped a (sampleOf i) ->
      Forall (Actor.actionsInRange a) (Actor.history a) ->
      Actor.actionsInRange a (sampleOf i) ->
      is_Some result)).
Proof.
  split.
  - intros visibleCs sc Hs Hc sc' hs.
    assert (Hc' : (0 < Z.to_nat (SparseCoder._explainIters sc))%nat \/
                  SparseCoder.codesInRange sc)
      by (destruct Hc; [left; lia | by right]).
    destruct (explain_codes (Z.to_nat (SparseCoder._explainIters sc)) 0 (_rng cs)
                visibleCs sc Hs Hc') as [_ Hr].
    fold (SparseCoder.activate cs visibleCs sc) in Hr. fold sc' in Hr.
    assert (Hframe : SparseCoder._hiddenSize sc' = hs /\
                     SparseCoder._visibleLayerDescs sc' = SparseCoder._visibleLayerDescs sc /\
                     length (SparseCoder._visibleLayers sc') =
                       length (SparseCoder._visibleLayers sc))
      by (by apply explain_frame).
    destruct Hframe as (Hh & Hd & Hl).
    split; [done |]. split; [done |]. split; [done |].
    destruct Hr as [Hhid Hrec]. rewrite Hh in Hhid. split; [done |].
    intros vli vl Hvl. specialize (Hrec vli vl Hvl).
    unfold SparseCoder.desc in Hrec |- *. by rewrite Hd in Hrec.
  - intros i a Hs hs result.
    pose proof (forwardPass_codes (_rng cs) (stepInputCs i) a Hs) as Hf.
    split; [done |]. split.
    + intros cs' a' Hstep. apply step_hiddenCs in Hstep as [-> ->]. done.
    + intros Hwf Hi Hv Hvi.
      destruct (step_is_Some cs a i Hwf Hi Hv Hvi) as (cs' & a' & E & _).
      unfold result. rewrite E. by eexists.
Qed.

Lemma codes_stay_in_range_witness :
  isCSDR 2 2
    (SparseCoder._hiddenCs
       (SparseCoder.activate (mkCS 0) CoderExample.input CoderExample.coder)) /\
  exists cs' a',
    Actor.step (mkCS 7) [[1]] [1] [0] true Example.seasoned = Some (cs', a') /\
    isCSDR 1 2 (Actor._hiddenCs a').
Proof.
  destruct (codes_stay_in_range (mkCS 0)) as [Hcoder _].
  destruct (codes_stay_in_range (mkCS 7)) as [_ Hactor].
  split.
  - assert (Hs : SparseCoder.sized CoderExample.coder).
    { unfold SparseCoder.sized. simpl.
      split; [lia |]. split; [lia |]. split; [lia |]. split; [reflexivity |].
      intros [| ?] vl; simpl; [| discriminate]. intros [= <-].
      split; [lia |]. split; [lia |]. split; [lia | reflexivity]. }
    destruct (Hcoder CoderExample.input CoderExample.coder Hs)
      as (_ & _ & _ & Hhid & _).
    + left. simpl. lia.
    + exact Hhid.
  - assert (Hs : Actor.sized Example.seasoned).
    { unfold Actor.sized. simpl. split; [lia |]. split; [lia |]. split; [lia | reflexivity]. }
    destruct (Hactor (mkStep [[1]] [1] [0] true) Example.seasoned Hs) as (_ & Hret & _).
    assert (E : is_Some (Actor.step (mkCS 7) [[1]] [1] [0] true Example.seasoned))
      by (vm_compute; eexists; reflexivity).
    destruct E as [[cs' a'] E]. exists cs', a'. split; [exact E |].
    destruct (Hret cs' a' E) as [_ Hcodes]. exact Hcodes.
Defined.

(** ** The order of the floats *)

Section FloatOrder.
Implicit Types (a b c x : F32.float).

Ltac order_cases :=
  repeat match goal with
         | |- context [(?x ?= ?y)%Z] => destruct (Z.compare_spec x y)
         | |- context [Pos.compare_cont Eq ?p ?q] =>
             change (Pos.compare_cont Eq p q) with (Pos.compare p q);
             destruct (Pos.compare_spec p q)
         | H : context [(?x ?= ?y)%Z] |- _ => destruct (Z.compare_spec x y)
         | H : context [Pos.compare_cont Eq ?p ?q] |- _ =>
             change (Pos.compare_cont Eq p q) with (Pos.compare p q) in H;
             destruct (Pos.compare_spec p q)
         end; simpl in *; try done; try lia.

Lemma ltb_leb a b : F32.ltb a b = true -> F32.leb a b = true.
Proof.
  unfold F32.ltb, F32.leb, SFltb, SFleb. by destruct (SFcompare a b) as [[] |].
Qed.

Lemma ltb_not_leb a b : F32.ltb a b = true -> F32.leb b a = false.
Proof.
  unfold F32.ltb, F32.leb, SFltb, SFleb, SFcompare.
  destruct a as [[] | [] | | [] m1 e1], b as [[] | [] | | [] m2 e2]; simpl; try done;
    order_cases.
Qed.

Lemma ltb_leb_trans a b x :
  F32.ltb a b = true -> F32.leb b x = true -> F32.ltb a x = true.
Proof.
  unfold F32.ltb, F32.leb, SFltb, SFleb, SFcompare.
  destruct a as [[] | [] | | [] m1 e1], b as [[] | [] | | [] m2 e2],
    x as [[] | [] | | [] m3 e3]; simpl; try done; order_cases.
Qed.
End FloatOrder.

(** ** Arg-max scans *)

Section FirstMax.
Variable val : Z -> F32.float.
Variable f : Z * F32.float -> Z -> Z * F32.float.
Hypothesis f_spec : forall st c, f st c = if F32.gtb (val c) st.2 then (c, val c) else st.

(** A scan either keeps its initial state, and then no candidate is above
    the initial value, or it ends on a candidate that no earlier candidate
    reaches and no later one exceeds. *)
Lemma scan_first_max (l : list Z) (st : Z * F32.float) :
  let r := foldl f st l in
  (r = st /\ Forall (fun c => F32.ltb st.2 (val c) = false) l) \/
  (exists l1 l2,
     l = l1 ++ r.1 :: l2 /\ r.2 = val r.1 /\ F32.ltb st.2 r.2 = true /\
     Forall (fun c => F32.leb r.2 (val c) = false) l1 /\
     Forall (fun c => F32.ltb r.2 (val c) = false) l2).
Proof.
  induction l as [| c l IH] using rev_ind; intros r.
  - left. done.
  - unfold r. rewrite foldl_app. cbn [foldl]. rewrite f_spec. unfold F32.gtb.
    set (r' := foldl f st l) in *.
    destruct (F32.ltb r'.2 (val c)) eqn:Hgt.
    + right. exists l, []. cbn [fst snd].
      split; [done |]. split; [done |].
      destruct IH as [[-> Hall] | (l1 & l2 & Hl & Hv & Hlt & H1 & H2)].
      * split; [done |]. split; [| done].
        eapply Forall_impl; [exact Hall |]. intros c' Hc'. simpl in Hc'.
        destruct (F32.leb (val c) (val c')) eqn:E; [| done].
        by rewrite (ltb_leb_trans _ _ _ Hgt E) in Hc'.
      * split; [by eapply ltb_leb_trans; [| apply ltb_leb] |]. split; [| done].
        rewrite Hl. apply Forall_app. split; [| apply Forall_cons; split].
        -- eapply Forall_impl; [exact H1 |]. intros c' Hc'. simpl in Hc'.
           destruct (F32.leb (val c) (val c')) eqn:E; [| done].
           by rewrite (ltb_leb _ _ (ltb_leb_trans _ _ _ Hgt E)) in Hc'.
        -- rewrite <- Hv. by apply ltb_not_leb.
        -- eapply Forall_impl; [exact H2 |]. intros c' Hc'. simpl in Hc'.
           destruct (F32.leb (val c) (val c')) eqn:E; [| done].
           by rewrite (ltb_leb_trans _ _ _ Hgt E) in Hc'.
    + destruct IH as [[-> Hall] | (l1 & l2 & Hl & Hv & Hlt & H1 & H2)].
      * left. split; [done |]. apply Forall_app. split; [done |].
        by apply Forall_cons.
      * right. exists l1, (l2 ++ [c]).
        split; [by rewrite Hl, <- app_assoc |]. split; [done |]. split; [done |].
        split; [done |]. apply Forall_app. split; [done |]. by apply Forall_cons.
Qed.

(** Over the codes [[0, depth)]: nothing is above the value the scan ends
    with, and when the scan moved at all it ends on the lowest code with
    that value. *)
Lemma scan_lowest_max (depth : Z) (m0 : F32.float) :
  let r := foldl f (0, m0) (seqZ 0 depth) in
  (forall c, 0 <= c < depth -> F32.ltb r.2 (val c) = false) /\
  (r = (0, m0) \/
   (0 <= r.1 < depth /\ r.2 = val r.1 /\ F32.ltb m0 r.2 = true /\
    forall c, 0 <= c < r.1 -> F32.leb r.2 (val c) = false)).
Proof.
  intros r.
  destruct (scan_first_max (seqZ 0 depth) (0, m0))
    as [[Hr Hall] | (l1 & l2 & Hl & Hv & Hlt & H1 & H2)]; fold r in Hr || fold r in Hl, Hv, Hlt, H1, H2.
  - split; [| by left]. intros c Hc. rewrite Hr.
    eapply Forall_forall in Hall; [exact Hall |]. apply elem_of_seqZ. lia.
  - assert (Hlen : r.1 = Z.of_nat (length l1)).
    { assert (Hk : seqZ 0 depth !! length l1 = Some r.1)
        by (rewrite Hl; apply list_lookup_middle; done).
      apply lookup_seqZ in Hk. lia. }
    assert (Hin : 0 <= r.1 < depth).
    { assert (Hk : r.1 ∈ seqZ 0 depth)
        by (rewrite Hl; apply elem_of_app; right; apply elem_of_cons; by left).
      apply elem_of_seqZ in Hk. lia. }
    assert (Hl1 : forall c, c ∈ l1 <-> 0 <= c < r.1).
    { intros c. split.
      - intros Hc. apply list_elem_of_lookup in Hc as [i Hi].
        assert (Hk : seqZ 0 depth !! i = Some c)
          by (rewrite Hl; by apply lookup_app_l_Some).
        apply lookup_seqZ in Hk. apply lookup_lt_Some in Hi. lia.
      - intros Hc.
        assert (Hk : seqZ 0 depth !! Z.to_nat c = Some c)
          by (apply lookup_seqZ; lia).
        rewrite Hl in Hk. rewrite lookup_app_l in Hk by lia.
        by eapply list_elem_of_lookup_2. }
    split.
    + intros c Hc.
      destruct (decide (c < r.1)) as [Hlt' | Hge].
      * assert (Hc1 : c ∈ l1) by (apply Hl1; lia).
        eapply Forall_forall in H1; [| exact Hc1]. simpl in H1.
        destruct (F32.ltb r.2 (val c)) eqn:E; [| done].
        by rewrite (ltb_leb _ _ E) in H1.
      * destruct (decide (c = r.1)) as [-> | Hne].
        { rewrite Hv. unfold F32.ltb, SFltb, SFcompare.
          destruct (val r.1) as [[] | [] | | [] m e]; simpl; try done.
          - rewrite Z.compare_refl. change (Pos.compare_cont Eq m m) with (Pos.compare m m).
            by rewrite Pos.compare_refl.
          - rewrite Z.compare_refl. change (Pos.compare_cont Eq m m) with (Pos.compare m m).
            by rewrite Pos.compare_refl. }
        assert (Hc2 : c ∈ l2).
        { assert (Hk : c ∈ seqZ 0 depth) by (apply elem_of_seqZ; lia).
          rewrite Hl in Hk. apply elem_of_app in Hk as [Hk | Hk].
          - apply Hl1 in Hk. lia.
          - apply elem_of_cons in Hk as [-> | Hk]; done. }
        eapply Forall_forall in H2; [| exact Hc2]. done.
    + right. split; [done |]. split; [done |]. split; [done |].
      intros c Hc. eapply Forall_forall in H1; [exact H1 |]. by apply Hl1.
Qed.
End FirstMax.

Lemma foldl_ext_in {A B} (f g : A -> B -> A) (l : list B) (a : A) :
  (forall a b, b ∈ l -> f a b = g a b) -> foldl f a l = foldl g a l.
Proof.
  revert a. induction l as [| b l IH]; intros a Hfg; [done |].
  simpl. rewrite Hfg by (apply elem_of_cons; by left).
  apply IH. intros a' b' Hb'. apply Hfg, elem_of_cons. by right.
Qed.

Section ForwardScan.
Import SparseCoder.

(** With every cell of the column in the buffer, the scan of [forward]
    is the scan of the updated activations. *)
Lemma forward_scan_pure sc inputCs pos fi (l : list Z) acts mi mv :
  pos ∈ Helpers.grid (x3 (_hiddenSize sc)) (y3 (_hiddenSize sc)) ->
  Z.of_nat (length acts) =
    x3 (_hiddenSize sc) * y3 (_hiddenSize sc) * z3 (_hiddenSize sc) ->
  NoDup l -> (forall hc, hc ∈ l -> 0 <= hc < z3 (_hiddenSize sc)) ->
  let val := fun hc =>
    cellUpdate sc inputCs pos fi hc (read F32.zero acts (hiddenIndexOf sc pos hc)) in
  let r := foldl (forwardStep sc inputCs pos fi) (acts, mi, mv) l in
  (r.1.2, r.2) =
    foldl (fun st hc => if F32.gtb (val hc) st.2 then (hc, val hc) else st) (mi, mv) l.
Proof.
  intros Hpos. revert acts mi mv.
  induction l as [| c l IH]; intros acts mi mv Hlen Hnd Hr val r; [done |].
  apply NoDup_cons in Hnd as [Hc Hnd].
  assert (Hcr : 0 <= c < z3 (_hiddenSize sc)) by (apply Hr, elem_of_cons; by left).
  pose proof (hiddenIndexOf_range sc pos c Hpos Hcr) as Hidx.
  unfold r. cbn [foldl].
  assert (Hstep : forwardStep sc inputCs pos fi (acts, mi, mv) c =
            (write acts (hiddenIndexOf sc pos c) (val c),
             (if F32.gtb (val c) mv then (c, val c) else (mi, mv)).1,
             (if F32.gtb (val c) mv then (c, val c) else (mi, mv)).2)).
  { unfold forwardStep, val, cellUpdate.
    destruct (cellSupport sc inputCs pos fi c) as [ia ra].
    destruct fi; rewrite read_write_eq by lia; by destruct (F32.gtb _ mv). }
  rewrite Hstep.
  set (st := if F32.gtb (val c) mv then (c, val c) else (mi, mv)).
  rewrite (IH (write acts (hiddenIndexOf sc pos c) (val c)) st.1 st.2);
    [| by rewrite length_write | done
     | intros hc Hhc; apply Hr, elem_of_cons; by right].
  replace (st.1, st.2) with st by (by destruct st).
  apply foldl_ext_in. intros st' hc Hhc.
  assert (Hne : hiddenIndexOf sc pos c <> hiddenIndexOf sc pos hc).
  { intros Heq. destruct (hiddenIndexOf_inj sc pos pos c hc Hpos Hpos Heq) as [_ ->]. done. }
  unfold val. by rewrite read_write_ne.
Qed.
End ForwardScan.

(** What a scan over the codes of a column chooses. *)
Lemma scan_choice (val : Z -> F32.float) (f : Z * F32.float -> Z -> Z * F32.float)
    (depth : Z) (m0 : F32.float) :
  (forall st c, f st c = if F32.gtb (val c) st.2 then (c, val c) else st) ->
  let r := foldl f (0, m0) (seqZ 0 depth) in
  ((exists c, 0 <= c < depth /\ F32.ltb m0 (val c) = true) ->
   0 <= r.1 < depth /\ r.2 = val r.1 /\
   (forall c, 0 <= c < depth -> F32.ltb (val r.1) (val c) = false) /\
   (forall c, 0 <= c < r.1 -> F32.leb (val r.1) (val c) = false)) /\
  ((forall c, 0 <= c < depth -> F32.ltb m0 (val c) = false) -> r = (0, m0)).
Proof.
  intros Hf r.
  destruct (scan_lowest_max val f Hf depth m0) as [Habove Hr]. fold r in Habove, Hr.
  split.
  - intros (c & Hc & Hgt).
    destruct Hr as [Hr | (Hin & Hv & Hlt & Hlow)].
    + rewrite Hr in Habove. simpl in Habove. rewrite (Habove c Hc) in Hgt. done.
    + rewrite <- Hv. done.
  - intros Hnone. destruct Hr as [Hr | (Hin & Hv & Hlt & Hlow)]; [done |].
    rewrite Hv, (Hnone _ Hin) in Hlt. done.
Qed.

(** X1.  The forward kernel of the actor stores the lowest action code of
    greatest activation: when some code has an activation above the
    initial [-999999.0f], no code has an activation above that of the
    stored code, and every lower code has an activation that does not
    reach it.  When no activation is above [-999999.0f] (NaN included) the
    kernel stores code 0. *)
Theorem actor_forward_takes_lowest_best {G} (pos : Int2) (rng : G)
    (inputCs : list IntBuffer) (a : Actor.State) :
  let act := fun hc =>
    Actor.activation a inputCs
      (Helpers.address3C (mkInt3 (x2 pos) (y2 pos) hc) (Actor._hiddenSize a)) in
  let depth := z3 (Actor._hiddenSize a) in
  exists k,
    Actor.forward pos rng inputCs a =
      Actor.set_hiddenCs a
        (write (Actor._hiddenCs a) (Helpers.address2C pos (Actor.hiddenDims a)) k) /\
    ((exists hc, 0 <= hc < depth /\ F32.ltb F32.neg_999999 (act hc) = true) ->
     0 <= k < depth /\
     (forall hc, 0 <= hc < depth -> F32.ltb (act k) (act hc) = false) /\
     (forall hc, 0 <= hc < k -> F32.leb (act k) (act hc) = false)) /\
    ((forall hc, 0 <= hc < depth -> F32.ltb F32.neg_999999 (act hc) = false) -> k = 0).
Proof.
  intros act depth. exists (Actor.argmax a pos inputCs).1.
  split; [done |]. unfold Actor.argmax.
  match goal with
  | |- context [foldl ?f _ _] =>
      destruct (scan_choice act f depth F32.neg_999999) as [Hsome Hnone]
  end.
  { intros [mi mv] c. done. }
  split.
  - intros Hex. destruct (Hsome Hex) as (Hin & _ & Hab & Hlow). done.
  - intros Hno. exact (f_equal fst (Hnone Hno)).
Qed.

Lemma actor_forward_takes_lowest_best_witness :
  exists k,
    Actor.forward Example.origin 7 [[1]] Example.seasoned =
      Actor.set_hiddenCs Example.seasoned (write [0] 0 k) /\
    0 <= k < 2.
Proof.
  destruct (actor_forward_takes_lowest_best Example.origin 7 [[1]] Example.seasoned)
    as (k & Hk & Hsome & _).
  exists k. split; [exact Hk |].
  destruct Hsome as (Hin & _).
  - exists 0. split; [simpl; lia | vm_compute; reflexivity].
  - exact Hin.
Defined.

(** X2.  The backward kernel of the sparse coder stores the lowest
    reconstruction code of greatest average support, and code 0 when no
    average is above [-999999.0f]. *)
Theorem coder_backward_takes_lowest_best {G} (pos : Int2) (rng : G)
    (inputCs : list IntBuffer) (vli : nat) (sc : SparseCoder.State) :
  let vl := SparseCoder.layer sc vli in
  let vld := SparseCoder.desc sc vli in
  let avg := fun vc => SparseCoder.average sc vl vld (SparseCoder._weights vl) pos vc in
  let depth := z3 (SparseCoder._size vld) in
  exists k,
    SparseCoder.backward pos rng inputCs vli sc =
      SparseCoder.set_visibleLayers sc
        (alter (fun vl => SparseCoder.set_reconCs vl
                  (write (SparseCoder._reconCs vl)
                     (Helpers.address2 pos (x3 (SparseCoder._size vld))) k))
               vli (SparseCoder._visibleLayers sc)) /\
    ((exists vc, 0 <= vc < depth /\ F32.ltb F32.neg_999999 (avg vc) = true) ->
     0 <= k < depth /\
     (forall vc, 0 <= vc < depth -> F32.ltb (avg k) (avg vc) = false) /\
     (forall vc, 0 <= vc < k -> F32.leb (avg k) (avg vc) = false)) /\
    ((forall vc, 0 <= vc < depth -> F32.ltb F32.neg_999999 (avg vc) = false) -> k = 0).
Proof.
  intros vl vld avg depth. exists (SparseCoder.reconstruct sc vli pos).1.
  split; [done |]. unfold SparseCoder.reconstruct. fold vl vld.
  match goal with
  | |- context [foldl ?f _ _] =>
      destruct (scan_choice avg f depth F32.neg_999999) as [Hsome Hnone]
  end.
  { intros [mi mv] c. done. }
  split.
  - intros Hex. destruct (Hsome Hex) as (Hin & _ & Hab & Hlow). done.
  - intros Hno. exact (f_equal fst (Hnone Hno)).
Qed.

Lemma coder_backward_takes_lowest_best_witness :
  exists k,
    SparseCoder._reconCs
      (SparseCoder.layer
         (SparseCoder.backward (mkInt2 0 0) 0 CoderExample.input 0 CoderExample.coder) 0)
      = write (SparseCoder._reconCs CoderExample.vl) 0 k /\
    0 <= k < 2.
Proof.
  destruct (coder_backward_takes_lowest_best (mkInt2 0 0) 0 CoderExample.input 0%nat
              CoderExample.coder) as (k & Hk & Hsome & _).
  exists k. split; [by rewrite Hk |].
  destruct Hsome as (Hin & _).
  - exists 0. split; [simpl; lia | vm_compute; reflexivity].
  - exact Hin.
Defined.

(** X3.  The forward kernel of the sparse coder stores the lowest hidden
    code of greatest updated activation (the activations as the kernel
    leaves them), and code 0 when none is above [-999999.0f]. *)
Theorem coder_forward_takes_lowest_best {G} (pos : Int2) (rng : G)
    (inputCs : list IntBuffer) (firstIter : bool) (sc : SparseCoder.State) :
  let hs := SparseCoder._hiddenSize sc in
  let sc' := SparseCoder.forward pos rng inputCs firstIter sc in
  let act := fun hc =>
    read F32.zero (SparseCoder._hiddenActivations sc') (SparseCoder.hiddenIndexOf sc pos hc) in
  pos ∈ Helpers.grid (x3 hs) (y3 hs) ->
  Z.of_nat (length (SparseCoder._hiddenActivations sc)) = x3 hs * y3 hs * z3 hs ->
  exists k,
    SparseCoder._hiddenCs sc' =
      write (SparseCoder._hiddenCs sc) (Helpers.address2 pos (x3 hs)) k /\
    ((exists hc, 0 <= hc < z3 hs /\ F32.ltb F32.neg_999999 (act hc) = true) ->
     0 <= k < z3 hs /\
     (forall hc, 0 <= hc < z3 hs -> F32.ltb (act k) (act hc) = false) /\
     (forall hc, 0 <= hc < k -> F32.leb (act k) (act hc) = false)) /\
    ((forall hc, 0 <= hc < z3 hs -> F32.ltb F32.neg_999999 (act hc) = false) -> k = 0).
Proof.
  intros hs sc' act Hpos Hlen.
  set (val := fun hc =>
         SparseCoder.cellUpdate sc inputCs pos firstIter hc
           (read F32.zero (SparseCoder._hiddenActivations sc)
              (SparseCoder.hiddenIndexOf sc pos hc))).
  set (r := foldl (SparseCoder.forwardStep sc inputCs pos firstIter)
              (SparseCoder._hiddenActivations sc, 0, F32.neg_999999) (seqZ 0 (z3 hs))).
  assert (Hsc' : sc' = SparseCoder.set_hidden sc
                   (write (SparseCoder._hiddenCs sc) (Helpers.address2 pos (x3 hs)) r.1.2)
                   r.1.1).
  { unfold sc', SparseCoder.forward. fold hs r. by destruct r as [[acts mi] mv]. }
  assert (Hact : forall hc, 0 <= hc < z3 hs -> act hc = val hc).
  { intros hc Hhc. unfold act. rewrite Hsc'. simpl. unfold r.
    rewrite forward_scan_acts. simpl.
    apply (rmw_read_in F32.zero (SparseCoder.cellUpdate sc inputCs pos firstIter)
             (SparseCoder.hiddenIndexOf sc pos)).
    - apply NoDup_fmap_2_strong; [| apply NoDup_seqZ].
      intros c c' _ _ Heq.
      by destruct (hiddenIndexOf_inj sc pos pos c c' Hpos Hpos Heq).
    - apply elem_of_seqZ. lia.
    - rewrite Hlen. by apply hiddenIndexOf_range. }
  assert (Hpure : (r.1.2, r.2) =
            foldl (fun st hc => if F32.gtb (val hc) st.2 then (hc, val hc) else st)
                  (0, F32.neg_999999) (seqZ 0 (z3 hs))).
  { apply (forward_scan_pure sc inputCs pos firstIter (seqZ 0 (z3 hs))
             (SparseCoder._hiddenActivations sc) 0 F32.neg_999999 Hpos Hlen
             (NoDup_seqZ _ _)).
    intros hc Hhc. apply elem_of_seqZ in Hhc. unfold hs in Hhc. lia. }
  clearbody r.
  match type of Hpure with
  | _ = foldl ?f _ _ =>
      destruct (scan_choice val f (z3 hs) F32.neg_999999) as [Hsome Hnone];
        [done |]
  end.
  rewrite <- Hpure in Hsome, Hnone. cbn [fst snd] in Hsome, Hnone.
  exists r.1.2. split; [by rewrite Hsc' |]. split.
  - intros (hc & Hhc & Hgt). rewrite (Hact hc Hhc) in Hgt.
    destruct Hsome as (Hin & _ & Hab & Hlow); [by exists hc |].
    split; [done |]. split.
    + intros c Hc. rewrite (Hact c Hc), (Hact r.1.2 Hin). by apply Hab.
    + intros c Hc. rewrite (Hact c), (Hact r.1.2 Hin) by lia. by apply Hlow.
  - intros Hno.
    assert (E : (r.1.2, r.2) = (0, F32.neg_999999)).
    { apply Hnone. intros c Hc. rewrite <- (Hact c Hc). by apply Hno. }
    by injection E.
Qed.

Lemma coder_forward_takes_lowest_best_witness :
  exists k,
    SparseCoder._hiddenCs
      (SparseCoder.forward (mkInt2 1 0) 0 CoderExample.input true CoderExample.coder) =
      write (SparseCoder._hiddenCs CoderExample.coder) 1 k /\
    0 <= k < 2.
Proof.
  destruct (coder_forward_takes_lowest_best (mkInt2 1 0) 0 CoderExample.input true
              CoderExample.coder) as (k & Hk & Hsome & _).
  - apply elem_of_grid. simpl. lia.
  - reflexivity.
  - exists k. split; [exact Hk |].
    destruct Hsome as (Hin & _).
    + exists 1. split; [simpl; lia | vm_compute; reflexivity].
    + exact Hin.
Defined.

(** ** What the passes of the sparse coder keep *)

Lemma Forall2_chain {A} (R : A -> A -> Prop) (l1 l2 l3 : list A) :
  (forall x y z, R x y -> R y z -> R x z) ->
  Forall2 R l1 l2 -> Forall2 R l2 l3 -> Forall2 R l1 l3.
Proof.
  intros HR H12. revert l3. induction H12 as [| x y l1 l2 Hxy _ IH]; intros l3 H23.
  - by inversion H23.
  - inversion H23 as [| y' z l2' l3' Hyz H23']; subst.
    constructor; [by eapply HR | by apply IH].
Qed.

Section CoderFrames.
Import SparseCoder.
Context {G : Type}.
Implicit Types (sc : State) (rng : G).

Lemma sameModel_refl sc : sameModel sc sc.
Proof.
  repeat split. apply Forall2_same_length_lookup. split; [done |].
  intros i vl vl' H1 H2. assert (vl' = vl) as -> by congruence.
  split; [by destruct vl | done].
Qed.

Lemma sameModel_trans sc1 sc2 sc3 :
  sameModel sc1 sc2 -> sameModel sc2 sc3 -> sameModel sc1 sc3.
Proof.
  intros (Hh & Hd & Ha & He & Hc & Hact & Hl) (Hh' & Hd' & Ha' & He' & Hc' & Hact' & Hl').
  split; [congruence |]. split; [congruence |]. split; [congruence |].
  split; [congruence |]. split; [congruence |]. split; [congruence |].
  eapply Forall2_chain; [| exact Hl | exact Hl'].
  intros vl1 vl2 vl3 [E1 L1] [E2 L2]. split; [| congruence].
  rewrite E2, E1. by destruct vl1.
Qed.

Lemma foldl_sameModel {X} (f : State -> X -> State) (l : list X) sc :
  (forall sc x, sameModel sc (f sc x)) -> sameModel sc (foldl f sc l).
Proof.
  intros Hf. revert sc. induction l as [| x l IH]; intros sc; [apply sameModel_refl |].
  simpl. eapply sameModel_trans; [apply Hf | apply IH].
Qed.

Lemma forward_sameModel pos rng inputCs fi sc :
  sameModel sc (forward pos rng inputCs fi sc).
Proof.
  rewrite <- (set_hidden_id sc) at 2. rewrite forward_on_set_hidden. cbn zeta.
  rewrite forward_scan_acts.
  destruct (sameModel_refl sc) as (_ & _ & _ & _ & _ & _ & Hl).
  repeat split; simpl; [apply length_write | apply length_rmw | done].
Qed.

Lemma backward_sameModel pos rng inputCs vli sc :
  sameModel sc (backward pos rng inputCs vli sc).
Proof.
  unfold backward.
  repeat split; simpl. apply Forall2_same_length_lookup.
  split; [by rewrite length_alter |].
  intros i vl vl' H1 H2. rewrite list_lookup_alter in H2.
  destruct (decide (vli = i)) as [<- | Hne].
  - rewrite H1 in H2. simpl in H2. injection H2 as <-. simpl.
    split; [done | apply length_write].
  - assert (vl' = vl) as -> by congruence. split; [by destruct vl | done].
Qed.

Lemma forwardPass_sameModel rng inputCs fi sc :
  sameModel sc (forwardPass rng inputCs fi sc).
Proof. apply foldl_sameModel. intros. apply forward_sameModel. Qed.

Lemma backwardPass_sameModel rng inputCs sc :
  sameModel sc (backwardPass rng inputCs sc).
Proof.
  apply foldl_sameModel. intros sc' vli. cbn zeta.
  apply foldl_sameModel. intros. apply backward_sameModel.
Qed.

Lemma explain_sameModel rounds it rng visibleCs sc :
  sameModel sc (explain rounds it rng visibleCs sc).
Proof.
  revert it sc. induction rounds as [| n IH]; intros it sc; [apply sameModel_refl |].
  cbn [explain]. eapply sameModel_trans; [| apply IH].
  eapply sameModel_trans; [apply forwardPass_sameModel | apply backwardPass_sameModel].
Qed.

Lemma sameCodes_refl sc : sameCodes sc sc.
Proof.
  split; [by destruct sc |]. apply Forall2_same_length_lookup. split; [done |].
  intros i vl vl' H1 H2. assert (vl' = vl) as -> by congruence.
  split; [by destruct vl | done].
Qed.

Lemma sameCodes_trans sc1 sc2 sc3 :
  sameCodes sc1 sc2 -> sameCodes sc2 sc3 -> sameCodes sc1 sc3.
Proof.
  intros [E Hl] [E' Hl']. split; [by rewrite E', E |].
  eapply Forall2_chain; [| exact Hl | exact Hl'].
  intros vl1 vl2 vl3 [E1 L1] [E2 L2]. split; [| congruence].
  rewrite E2, E1. by destruct vl1.
Qed.

Lemma foldl_sameCodes {X} (f : State -> X -> State) (l : list X) sc :
  (forall sc x, sameCodes sc (f sc x)) -> sameCodes sc (foldl f sc l).
Proof.
  intros Hf. revert sc. induction l as [| x l IH]; intros sc; [apply sameCodes_refl |].
  simpl. eapply sameCodes_trans; [apply Hf | apply IH].
Qed.

Lemma length_learnStep sc vl vld pos inputC w vc :
  length (learnStep sc vl vld pos inputC w vc) = length w.
Proof.
  unfold learnStep. generalize (deltaOf sc vl vld w pos inputC vc). intros delta.
  generalize (hiddenWindow sc vl pos). intros l. revert w.
  induction l as [| h l IH]; intros w; [done |].
  simpl. rewrite IH. destruct (covers vl vld h pos); [apply length_write | done].
Qed.

Lemma length_learnWeights sc vli pos inputCs w :
  length (learnWeights sc vli pos inputCs w) = length w.
Proof.
  unfold learnWeights. generalize (seqZ 0 (z3 (_size (desc sc vli)))). intros l.
  revert w. induction l as [| vc l IH]; intros w; [done |].
  simpl. rewrite IH. apply length_learnStep.
Qed.

Lemma learn_sameCodes pos rng inputCs vli sc :
  sameCodes sc (learn pos rng inputCs vli sc).
Proof.
  unfold learn. split; [done |]. simpl. apply Forall2_same_length_lookup.
  split; [by rewrite length_alter |].
  intros i vl vl' H1 H2. rewrite list_lookup_alter in H2.
  destruct (decide (vli = i)) as [<- | Hne].
  - rewrite H1 in H2. simpl in H2. injection H2 as <-. simpl.
    split; [done | apply length_learnWeights].
  - assert (vl' = vl) as -> by congruence. split; [by destruct vl | done].
Qed.

Lemma learnAll_sameCodes (cs : ComputeSystem G) visibleCs sc :
  sameCodes sc (learnAll cs visibleCs sc).
Proof.
  apply foldl_sameCodes. intros sc' vli. cbn zeta.
  apply foldl_sameCodes. intros. apply learn_sameCodes.
Qed.

Lemma sameCodes_lookup sc sc' vli vl' :
  sameCodes sc sc' -> _visibleLayers sc' !! vli = Some vl' ->
  exists vl, _visibleLayers sc !! vli = Some vl /\
    vl' = set_weights vl (_weights vl') /\ length (_weights vl') = length (_weights vl).
Proof.
  intros [_ Hl] Hvl'.
  destruct (Forall2_lookup_r _ _ _ _ _ Hl Hvl') as (vl & Hvl & H). by exists vl.
Qed.
End CoderFrames.

(** X4.  [activate] changes nothing of the model: the grids, the
    parameters, the weights and the projection constants of every layer
    are those it started with, and the code and activation buffers keep
    their sizes. *)
Theorem activate_keeps_the_model {G} (cs : ComputeSystem G) (visibleCs : list IntBuffer)
    (sc : SparseCoder.State) :
  let sc' := SparseCoder.activate cs visibleCs sc in
  SparseCoder.sameModel sc sc' /\
  (forall vli,
     SparseCoder._weights <$> SparseCoder._visibleLayers sc' !! vli =
     SparseCoder._weights <$> SparseCoder._visibleLayers sc !! vli).
Proof.
  intros sc'.
  assert (Hm : SparseCoder.sameModel sc sc') by apply explain_sameModel.
  split; [done |]. intros vli.
  destruct Hm as (_ & _ & _ & _ & _ & _ & Hl).
  destruct (SparseCoder._visibleLayers sc !! vli) as [vl |] eqn:E.
  - destruct (Forall2_lookup_l _ _ _ _ _ Hl E) as (vl' & -> & -> & _). done.
  - apply Forall2_length in Hl.
    rewrite (proj2 (lookup_ge_None _ _)); [done |].
    apply lookup_ge_None in E. lia.
Qed.

(** X5.  The learn pass of the sparse coder changes weights only: the
    hidden codes, the activations, the reconstruction codes and the
    projection constants stay, every weight buffer keeps its size, and so
    a coder whose buffers have the sizes of its grids and whose codes are
    in range is still such a coder after learning. *)
Theorem learn_changes_weights_only {G} (cs : ComputeSystem G) (visibleCs : list IntBuffer)
    (sc : SparseCoder.State) :
  let sc' := SparseCoder.learnAll cs visibleCs sc in
  SparseCoder.sameCodes sc sc' /\
  SparseCoder._hiddenCs sc' = SparseCoder._hiddenCs sc /\
  SparseCoder._hiddenActivations sc' = SparseCoder._hiddenActivations sc /\
  (forall vli,
     SparseCoder._reconCs <$> SparseCoder._visibleLayers sc' !! vli =
     SparseCoder._reconCs <$> SparseCoder._visibleLayers sc !! vli) /\
  (SparseCoder.sized sc -> SparseCoder.sized sc') /\
  (SparseCoder.codesInRange sc -> SparseCoder.codesInRange sc').
Proof.
  intros sc'.
  assert (Hc : SparseCoder.sameCodes sc sc') by apply learnAll_sameCodes.
  split; [done |].
  pose proof Hc as [E Hl].
  split; [by rewrite E |]. split; [by rewrite E |].
  assert (Hd : forall vli, SparseCoder.desc sc' vli = SparseCoder.desc sc vli)
    by (by rewrite E).
  split; [| split].
  - intros vli.
    destruct (SparseCoder._visibleLayers sc !! vli) as [vl |] eqn:Evl.
    + destruct (Forall2_lookup_l _ _ _ _ _ Hl Evl) as (vl' & -> & -> & _). done.
    + apply Forall2_length in Hl.
      rewrite (proj2 (lookup_ge_None _ _)); [done |].
      apply lookup_ge_None in Evl. lia.
  - intros (Hx & Hy & Hz & Hlen & Hlay). rewrite E.
    split; [done |]. split; [done |]. split; [done |]. split; [done |].
    intros vli vl' Hvl'.
    destruct (sameCodes_lookup sc sc' vli vl' Hc Hvl') as (vl & Hvl & -> & _).
    exact (Hlay vli vl Hvl).
  - intros [Hhid Hrec]. rewrite E. split; [done |].
    intros vli vl' Hvl'.
    destruct (sameCodes_lookup sc sc' vli vl' Hc Hvl') as (vl & Hvl & -> & _).
    exact (Hrec vli vl Hvl).
Qed.

(** ** The passes of the sparse coder, kernel by kernel *)

Section CoderEach.
Import SparseCoder.
Context {G : Type}.
Implicit Types (sc : State) (rng : G).

Lemma layer_sameModel sc sc' vli :
  sameModel sc sc' ->
  layer sc' vli = set_reconCs (layer sc vli) (_reconCs (layer sc' vli)).
Proof.
  intros (_ & _ & _ & _ & _ & _ & Hl). unfold layer.
  rewrite !list_lookup_total_alt.
  destruct (_visibleLayers sc !! vli) as [vl |] eqn:E.
  - destruct (Forall2_lookup_l _ _ _ _ _ Hl E) as (vl' & -> & Hvl' & _). done.
  - apply Forall2_length in Hl.
    rewrite (proj2 (lookup_ge_None (_visibleLayers sc') vli)); [done |].
    apply lookup_ge_None in E. lia.
Qed.

Lemma desc_sameModel sc sc' vli : sameModel sc sc' -> desc sc' vli = desc sc vli.
Proof. intros (_ & Hd & _). unfold desc. by rewrite Hd. Qed.

(** The backward kernel does not read the reconstruction codes. *)
Lemma reconstruct_congr sc sc' vli pos :
  sameModel sc sc' -> _hiddenCs sc' = _hiddenCs sc ->
  reconstruct sc' vli pos = reconstruct sc vli pos.
Proof.
  intros Hm Hcs. unfold reconstruct.
  rewrite (desc_sameModel sc sc' vli Hm), (layer_sameModel sc sc' vli Hm).
  destruct Hm as (Hh & _).
  apply foldl_ext_in. intros [mi mv] vc _.
  unfold average, support, hiddenWindow, weightIndex. simpl. by rewrite Hh, Hcs.
Qed.

Lemma backward_fold_each rng inputCs vli (l : list Int2) sc0 sc :
  sameModel sc0 sc -> _hiddenCs sc = _hiddenCs sc0 ->
  foldl (fun sc pos => backward pos rng inputCs vli sc) sc l =
    set_visibleLayers sc
      (alter (fun vl => set_reconCs vl
                (writes ((fun pos => (Helpers.address2 pos (x3 (_size (desc sc0 vli))),
                                      (reconstruct sc0 vli pos).1)) <$> l)
                        (_reconCs vl)))
             vli (_visibleLayers sc)).
Proof.
  revert sc. induction l as [| pos l IH]; intros sc Hm Hcs.
  - simpl. rewrite list_alter_id by (by intros []). by destruct sc.
  - cbn [foldl].
    rewrite IH;
      [| eapply sameModel_trans; [exact Hm | apply backward_sameModel] | done].
    unfold backward. simpl. unfold set_visibleLayers. simpl. f_equal.
    rewrite list_alter_alter_eq. apply list_alter_ext; [| done].
    intros vl _. simpl.
    rewrite (reconstruct_congr sc0 sc vli pos Hm Hcs), (desc_sameModel sc0 sc vli Hm).
    by destruct vl.
Qed.

Lemma backward_layers_each rng inputCs (l : list nat) sc0 sc :
  sameModel sc0 sc -> _hiddenCs sc = _hiddenCs sc0 ->
  foldl (fun sc vli =>
           let vld := desc sc vli in
           foldl (fun sc pos => backward pos rng inputCs vli sc) sc
                 (Helpers.grid (x3 (_size vld)) (y3 (_size vld))))
        sc l =
    set_visibleLayers sc
      (foldl (fun acc vli =>
                alter (fun vl => set_reconCs vl (writes (backwardWrites sc0 vli) (_reconCs vl)))
                      vli acc)
             (_visibleLayers sc) l).
Proof.
  intros Hm Hcs.
  match goal with |- foldl ?f _ _ = _ => set (outer := f) end.
  revert sc Hm Hcs. induction l as [| vli l IH]; intros sc Hm Hcs.
  - by destruct sc.
  - change (foldl outer (outer sc vli) l =
            set_visibleLayers sc
              (foldl (fun acc vli =>
                        alter (fun vl => set_reconCs vl
                                 (writes (backwardWrites sc0 vli) (_reconCs vl)))
                              vli acc)
                     (alter (fun vl => set_reconCs vl
                               (writes (backwardWrites sc0 vli) (_reconCs vl)))
                            vli (_visibleLayers sc)) l)).
    set (sc1 := outer sc vli).
    assert (Hm1 : sameModel sc0 sc1).
    { eapply sameModel_trans; [exact Hm |].
      apply foldl_sameModel. intros. apply backward_sameModel. }
    assert (E1 : sc1 = set_visibleLayers sc
              (alter (fun vl => set_reconCs vl (writes (backwardWrites sc0 vli) (_reconCs vl)))
                     vli (_visibleLayers sc))).
    { unfold sc1, outer. cbn zeta. rewrite (desc_sameModel sc0 sc vli Hm).
      apply (backward_fold_each rng inputCs vli _ sc0 sc Hm Hcs). }
    rewrite (IH sc1 Hm1); [| by rewrite E1].
    by rewrite E1.
Qed.

(** The backward pass is the backward kernels evaluated on the state
    before the pass. *)
Lemma backwardPass_each rng inputCs sc : backwardPass rng inputCs sc = backwardEach sc.
Proof.
  unfold backwardPass, backwardEach, Helpers.for_each.
  apply backward_layers_each; [apply sameModel_refl | done].
Qed.

(** The code a kernel chooses depends on the activations of its own
    column only. *)
Lemma winner_congr sc inputCs pos fi acts acts0 :
  pos ∈ Helpers.grid (x3 (_hiddenSize sc)) (y3 (_hiddenSize sc)) ->
  Z.of_nat (length acts0) =
    x3 (_hiddenSize sc) * y3 (_hiddenSize sc) * z3 (_hiddenSize sc) ->
  length acts = length acts0 ->
  (forall hc, 0 <= hc < z3 (_hiddenSize sc) ->
     read F32.zero acts (hiddenIndexOf sc pos hc) =
     read F32.zero acts0 (hiddenIndexOf sc pos hc)) ->
  winner sc inputCs pos fi acts = winner sc inputCs pos fi acts0.
Proof.
  intros Hpos Hlen0 Hlen Hread. unfold winner.
  assert (Hr : forall hc, hc ∈ seqZ 0 (z3 (_hiddenSize sc)) ->
                 0 <= hc < z3 (_hiddenSize sc))
    by (intros hc Hhc; apply elem_of_seqZ in Hhc; lia).
  transitivity
    (foldl (fun st hc =>
              if F32.gtb (cellUpdate sc inputCs pos fi hc
                            (read F32.zero acts (hiddenIndexOf sc pos hc))) st.2
              then (hc, cellUpdate sc inputCs pos fi hc
                          (read F32.zero acts (hiddenIndexOf sc pos hc)))
              else st)
           (0, F32.neg_999999) (seqZ 0 (z3 (_hiddenSize sc)))).1.
  { exact (f_equal fst
             (forward_scan_pure sc inputCs pos fi _ acts 0 F32.neg_999999 Hpos
                ltac:(by rewrite Hlen) (NoDup_seqZ 0 (z3 (_hiddenSize sc))) Hr)). }
  transitivity
    (foldl (fun st hc =>
              if F32.gtb (cellUpdate sc inputCs pos fi hc
                            (read F32.zero acts0 (hiddenIndexOf sc pos hc))) st.2
              then (hc, cellUpdate sc inputCs pos fi hc
                          (read F32.zero acts0 (hiddenIndexOf sc pos hc)))
              else st)
           (0, F32.neg_999999) (seqZ 0 (z3 (_hiddenSize sc)))).1.
  2: { symmetry.
       exact (f_equal fst
                (forward_scan_pure sc inputCs pos fi _ acts0 0 F32.neg_999999 Hpos
                   Hlen0 (NoDup_seqZ 0 (z3 (_hiddenSize sc))) Hr)). }
  f_equal.
  apply foldl_ext_in. intros st hc Hhc. by rewrite (Hread hc (Hr hc Hhc)).
Qed.

Lemma forward_fold_each sc inputCs fi rng (l : list Int2) cs acts acts0 :
  NoDup l ->
  (forall pos, pos ∈ l -> pos ∈ Helpers.grid (x3 (_hiddenSize sc)) (y3 (_hiddenSize sc))) ->
  Z.of_nat (length acts0) =
    x3 (_hiddenSize sc) * y3 (_hiddenSize sc) * z3 (_hiddenSize sc) ->
  length acts = length acts0 ->
  (forall pos hc, pos ∈ l -> 0 <= hc < z3 (_hiddenSize sc) ->
     read F32.zero acts (hiddenIndexOf sc pos hc) =
     read F32.zero acts0 (hiddenIndexOf sc pos hc)) ->
  foldl (fun sc pos => forward pos rng inputCs fi sc) (set_hidden sc cs acts) l =
    set_hidden sc
      (writes ((fun pos => (Helpers.address2 pos (x3 (_hiddenSize sc)),
                            winner sc inputCs pos fi acts0)) <$> l) cs)
      (foldl (fun acts pos =>
                rmw F32.zero (cellUpdate sc inputCs pos fi) (hiddenIndexOf sc pos)
                  (seqZ 0 (z3 (_hiddenSize sc))) acts)
             acts l).
Proof.
  intros Hnd Hin Hlen0. revert cs acts.
  induction l as [| pos l IH]; intros cs acts Hlen Hread; [done |].
  apply NoDup_cons in Hnd as [Hpos Hnd].
  assert (Hg : pos ∈ Helpers.grid (x3 (_hiddenSize sc)) (y3 (_hiddenSize sc)))
    by (apply Hin, elem_of_cons; by left).
  cbn [foldl]. rewrite forward_on_set_hidden. cbn zeta.
  rewrite forward_scan_acts. cbn [fst snd].
  fold (winner sc inputCs pos fi acts).
  rewrite (winner_congr sc inputCs pos fi acts acts0 Hg Hlen0 Hlen)
    by (intros hc Hhc; apply Hread; [apply elem_of_cons; by left | done]).
  rewrite IH; [done | done | | |].
  - intros p Hp. apply Hin, elem_of_cons. by right.
  - by rewrite length_rmw.
  - intros p hc Hp Hhc.
    rewrite rmw_read_out; [apply Hread; [apply elem_of_cons; by right | done] |].
    intros Hcontra. apply list_elem_of_fmap in Hcontra as (c & Heq & _).
    assert (Hpg : p ∈ Helpers.grid (x3 (_hiddenSize sc)) (y3 (_hiddenSize sc)))
      by (apply Hin, elem_of_cons; by right).
    destruct (hiddenIndexOf_inj sc p pos hc c Hpg Hg Heq) as [-> _]. done.
Qed.

(** The forward pass is the forward kernels evaluated on the state before
    the pass. *)
Lemma forwardPass_each rng inputCs fi sc :
  Z.of_nat (length (_hiddenActivations sc)) =
    x3 (_hiddenSize sc) * y3 (_hiddenSize sc) * z3 (_hiddenSize sc) ->
  forwardPass rng inputCs fi sc = forwardEach sc inputCs fi.
Proof.
  intros Hlen. unfold forwardPass, forwardEach.
  rewrite <- (set_hidden_id sc) at 1.
  rewrite (forward_fold_each sc inputCs fi rng _ (_hiddenCs sc) (_hiddenActivations sc)
             (_hiddenActivations sc)); [| apply NoDup_grid | done | done | done | done].
  f_equal.
  apply (rmw_nested F32.zero (fun pos => cellUpdate sc inputCs pos fi) (hiddenIndexOf sc)).
Qed.
End CoderEach.

(** ** Order of the kernels *)

Section Reorder.
Context {A K : Type} (d : A) (f : K -> A -> A) (idx : K -> Z).
Implicit Types (b : list A) (l : list K).

(** Buffers of one size with the same cells are the same buffer. *)
Lemma read_ext b b' :
  length b = length b' ->
  (forall i, 0 <= i < Z.of_nat (length b) -> read d b i = read d b' i) ->
  b = b'.
Proof.
  intros Hlen Hread. apply list_eq. intros k.
  destruct (decide (k < length b)%nat) as [Hk | Hk].
  - destruct (lookup_lt_is_Some_2 b k Hk) as [v Hv].
    destruct (lookup_lt_is_Some_2 b' k ltac:(lia)) as [v' Hv'].
    specialize (Hread (Z.of_nat k) ltac:(lia)).
    rewrite (read_lookup d b (Z.of_nat k) v) in Hread by (lia || by rewrite Nat2Z.id).
    rewrite (read_lookup d b' (Z.of_nat k) v') in Hread by (lia || by rewrite Nat2Z.id).
    congruence.
  - rewrite !(proj2 (lookup_ge_None _ _)) by lia. done.
Qed.

(** A loop of read-modify-writes on distinct cells does not depend on the
    order of its rounds. *)
Lemma rmw_perm l l' b :
  NoDup (idx <$> l) -> l ≡ₚ l' -> rmw d f idx l b = rmw d f idx l' b.
Proof.
  intros Hnd Hp.
  assert (Hnd' : NoDup (idx <$> l')) by (by rewrite <- Hp).
  apply read_ext; [by rewrite !length_rmw |].
  intros i Hi. rewrite length_rmw in Hi.
  destruct (decide (i ∈ idx <$> l)) as [Hin | Hout].
  - apply list_elem_of_fmap in Hin as (k & -> & Hk).
    rewrite !rmw_read_in; [done | done | by rewrite <- Hp | done | done | done | done].
  - rewrite !rmw_read_out; [done | by rewrite <- Hp | done].
Qed.

(** A loop whose rounds ignore the old value forgets a buffer that it
    covers. *)
Lemma rmw_forget l b b' :
  (forall k old old', f k old = f k old') ->
  NoDup (idx <$> l) ->
  length b = length b' ->
  (forall i, 0 <= i < Z.of_nat (length b) -> i ∈ idx <$> l) ->
  rmw d f idx l b = rmw d f idx l b'.
Proof.
  intros Hf Hnd Hlen Hcov.
  apply read_ext; [by rewrite !length_rmw |].
  intros i Hi. rewrite length_rmw in Hi.
  destruct (proj1 (list_elem_of_fmap _ _ _) (Hcov i Hi)) as (k & -> & Hk).
  rewrite !rmw_read_in; [apply Hf | done | done | lia | done | done | done].
Qed.
End Reorder.

Lemma writes_as_rmw {A} (d : A) (ws : list (Z * A)) (b : list A) :
  writes ws b = rmw d (fun w _ => w.2) fst ws b.
Proof. reflexivity. Qed.

(** Stores into distinct cells do not depend on their order. *)
Lemma writes_perm {A} (d : A) (ws ws' : list (Z * A)) (b : list A) :
  NoDup ws.*1 -> ws ≡ₚ ws' -> writes ws b = writes ws' b.
Proof.
  intros Hnd Hp. rewrite !(writes_as_rmw d). by apply rmw_perm.
Qed.

(** Stores that reach every cell forget the buffer. *)
Lemma writes_forget {A} (ws : list (Z * A)) (b b' : list A) :
  length b = length b' ->
  (forall k, (k < length b)%nat -> Z.of_nat k ∈ ws.*1) ->
  writes ws b = writes ws b'.
Proof.
  intros Hlen Hcov. apply list_eq. intros k.
  rewrite !lookup_writes, <- Hlen.
  destruct (lastWrite ws k) as [v |] eqn:E; [done |].
  destruct (decide (k < length b)%nat) as [Hk | Hk].
  - exfalso. apply Hcov in Hk. apply list_elem_of_fmap in Hk as ([i v] & Hi & Hin).
    simpl in Hi. subst i. apply (lastWrite_None ws k E (Z.of_nat k) v Hin); lia.
  - rewrite !(proj2 (lookup_ge_None _ _)) by lia. done.
Qed.

Section GridAddresses.
Import Helpers.

Lemma address2_inj sx pos pos' :
  0 <= x2 pos < sx -> 0 <= x2 pos' < sx ->
  address2 pos sx = address2 pos' sx -> pos = pos'.
Proof.
  unfold address2. intros Hp Hp' He.
  destruct (radix_inj sx (x2 pos) (x2 pos') (y2 pos) (y2 pos') Hp Hp' He).
  destruct pos, pos'. simpl in *. congruence.
Qed.

Lemma NoDup_address2 sx sy :
  NoDup ((fun pos => address2 pos sx) <$> grid sx sy).
Proof.
  apply NoDup_fmap_2_strong; [| apply NoDup_grid].
  intros p p' Hp Hp' He. apply elem_of_grid in Hp, Hp'.
  apply (address2_inj sx); [lia | lia | done].
Qed.

(** The cells of a grid of depth [sz] reach every cell of the buffer. *)
Lemma grid_covers_address3 sx sy sz k :
  0 <= sx -> 0 <= sy -> 0 <= k < sx * sy * sz ->
  exists pos c, pos ∈ grid sx sy /\ 0 <= c < sz /\
    k = address3 (mkInt3 (x2 pos) (y2 pos) c) (mkInt2 sx sy).
Proof.
  intros Hsx Hsy Hk.
  assert (0 < sx) by (destruct (decide (sx = 0)) as [-> | ?]; lia).
  assert (0 < sy) by (destruct (decide (sy = 0)) as [-> | ?]; lia).
  assert (Hxy : 0 < sx * sy) by lia.
  exists (mkInt2 ((k mod (sx * sy)) mod sx) ((k mod (sx * sy)) / sx)), (k / (sx * sy)).
  pose proof (Z.mod_pos_bound k (sx * sy) Hxy) as Hm.
  pose proof (Z.mod_pos_bound (k mod (sx * sy)) sx ltac:(lia)).
  split; [| split].
  - apply elem_of_grid. simpl. split; [lia |].
    split; [apply Z.div_pos; lia | apply Z.div_lt_upper_bound; lia].
  - split; [apply Z.div_pos; lia |]. apply Z.div_lt_upper_bound; lia.
  - unfold address3. simpl.
    pose proof (Z.div_mod k (sx * sy) ltac:(lia)) as E1.
    pose proof (Z.div_mod (k mod (sx * sy)) sx ltac:(lia)) as E2.
    replace (k / (sx * sy) * sx * sy) with (sx * sy * (k / (sx * sy))) by ring. lia.
Qed.
End GridAddresses.

Section CoderOrder.
Import SparseCoder.
Context {G : Type}.
Implicit Types (sc : State) (rng : G).

Lemma NoDup_cell_indices sc (l : list Int2) :
  NoDup l ->
  (forall pos, pos ∈ l -> pos ∈ Helpers.grid (x3 (_hiddenSize sc)) (y3 (_hiddenSize sc))) ->
  NoDup ((fun p : Int2 * Z => hiddenIndexOf sc p.1 p.2) <$>
         (pos ← l; (pair pos) <$> seqZ 0 (z3 (_hiddenSize sc)))).
Proof.
  intros Hnd Hin.
  assert (Hcell : forall p : Int2 * Z,
            p ∈ (pos ← l; (pair pos) <$> seqZ 0 (z3 (_hiddenSize sc))) -> p.1 ∈ l).
  { intros p Hp. apply list_elem_of_bind in Hp as (pos & Hp & Hpos).
    apply list_elem_of_fmap in Hp as (c & -> & _). done. }
  apply NoDup_fmap_2_strong.
  - intros [p c] [p' c'] Hp Hp' He. simpl in He.
    apply Hcell, Hin in Hp. apply Hcell, Hin in Hp'. simpl in *.
    destruct (hiddenIndexOf_inj sc p p' c c' Hp Hp' He). congruence.
  - apply NoDup_bind; [| | done].
    + intros p1 p2 c _ _ H1 H2.
      apply list_elem_of_fmap in H1 as (y1 & -> & _).
      apply list_elem_of_fmap in H2 as (y2 & [= ? ?] & _). done.
    + intros pos _. apply NoDup_fmap_2_strong; [| apply NoDup_seqZ].
      intros y1 y2 _ _ [= ?]. done.
Qed.

Lemma forward_any_order rng inputCs fi sc (l : list Int2) :
  Z.of_nat (length (_hiddenActivations sc)) =
    x3 (_hiddenSize sc) * y3 (_hiddenSize sc) * z3 (_hiddenSize sc) ->
  l ≡ₚ Helpers.grid (x3 (_hiddenSize sc)) (y3 (_hiddenSize sc)) ->
  foldl (fun sc pos => forward pos rng inputCs fi sc) sc l = forwardEach sc inputCs fi.
Proof.
  intros Hlen Hp.
  assert (Hnd : NoDup l) by (rewrite Hp; apply NoDup_grid).
  assert (Hin : forall pos, pos ∈ l ->
                  pos ∈ Helpers.grid (x3 (_hiddenSize sc)) (y3 (_hiddenSize sc)))
    by (intros pos Hpos; by rewrite <- Hp).
  rewrite <- (set_hidden_id sc) at 1.
  rewrite (forward_fold_each sc inputCs fi rng l (_hiddenCs sc) (_hiddenActivations sc)
             (_hiddenActivations sc) Hnd Hin Hlen eq_refl ltac:(done)).
  unfold forwardEach. f_equal.
  - apply (writes_perm 0).
    + rewrite <- list_fmap_compose. simpl.
      rewrite Hp. apply NoDup_address2.
    + by rewrite Hp.
  - rewrite (rmw_nested F32.zero (fun pos => cellUpdate sc inputCs pos fi) (hiddenIndexOf sc)).
    apply rmw_perm; [by apply NoDup_cell_indices |].
    by rewrite Hp.
Qed.

Lemma backward_any_order rng inputCs vli sc (l : list Int2) :
  l ≡ₚ Helpers.grid (x3 (_size (desc sc vli))) (y3 (_size (desc sc vli))) ->
  foldl (fun sc pos => backward pos rng inputCs vli sc) sc l =
    set_visibleLayers sc
      (alter (fun vl => set_reconCs vl (writes (backwardWrites sc vli) (_reconCs vl)))
             vli (_visibleLayers sc)).
Proof.
  intros Hp.
  rewrite (backward_fold_each rng inputCs vli l sc sc (sameModel_refl sc) eq_refl).
  f_equal. apply list_alter_ext; [| done]. intros vl _. f_equal.
  apply (writes_perm 0).
  - rewrite <- list_fmap_compose. simpl. rewrite Hp. apply NoDup_address2.
  - unfold backwardWrites. by rewrite Hp.
Qed.
End CoderOrder.

(** X6.  The forward kernels of a pass do not depend on one another: run
    over the hidden columns in any order they give the state in which
    every column has the code and the activations that its kernel computes
    from the state before the pass.  The pass of [activate] is one such
    order. *)
Theorem forward_kernels_commute {G} (rng : G) (inputCs : list IntBuffer) (firstIter : bool)
    (sc : SparseCoder.State) (l : list Int2) :
  let hs := SparseCoder._hiddenSize sc in
  Z.of_nat (length (SparseCoder._hiddenActivations sc)) = x3 hs * y3 hs * z3 hs ->
  l ≡ₚ Helpers.grid (x3 hs) (y3 hs) ->
  foldl (fun sc pos => SparseCoder.forward pos rng inputCs firstIter sc) sc l =
    SparseCoder.forwardEach sc inputCs firstIter /\
  SparseCoder.forwardPass rng inputCs firstIter sc =
    SparseCoder.forwardEach sc inputCs firstIter.
Proof.
  intros hs Hlen Hp. split; [by apply forward_any_order |].
  by apply forwardPass_each.
Qed.

Lemma forward_kernels_commute_witness :
  foldl (fun sc pos => SparseCoder.forward pos 0 CoderExample.input true sc)
        CoderExample.coder [mkInt2 1 0; mkInt2 0 0] =
    SparseCoder.forwardPass 0 CoderExample.input true CoderExample.coder.
Proof.
  destruct (forward_kernels_commute 0 CoderExample.input true CoderExample.coder
              [mkInt2 1 0; mkInt2 0 0]) as [H1 H2].
  - reflexivity.
  - apply perm_swap.
  - exact (eq_trans H1 (eq_sym H2)).
Defined.

(** X7.  The backward kernels of a layer do not depend on one another: run
    over the visible columns in any order they store, for every column,
    the code that its kernel computes from the state before the pass; and
    the backward pass of [activate] is every layer treated so. *)
Theorem backward_kernels_commute {G} (rng : G) (inputCs : list IntBuffer)
    (sc : SparseCoder.State) :
  (forall vli (l : list Int2),
     let size := SparseCoder._size (SparseCoder.desc sc vli) in
     l ≡ₚ Helpers.grid (x3 size) (y3 size) ->
     foldl (fun sc pos => SparseCoder.backward pos rng inputCs vli sc) sc l =
       SparseCoder.set_visibleLayers sc
         (alter (fun vl => SparseCoder.set_reconCs vl
                   (writes (SparseCoder.backwardWrites sc vli) (SparseCoder._reconCs vl)))
                vli (SparseCoder._visibleLayers sc))) /\
  SparseCoder.backwardPass rng inputCs sc = SparseCoder.backwardEach sc.
Proof.
  split; [intros vli l size Hp; by apply backward_any_order | apply backwardPass_each].
Qed.

Lemma backward_kernels_commute_witness :
  foldl (fun sc pos => SparseCoder.backward pos 0 CoderExample.input 0 sc)
        CoderExample.coder [mkInt2 1 0; mkInt2 0 0] =
  foldl (fun sc pos => SparseCoder.backward pos 0 CoderExample.input 0 sc)
        CoderExample.coder [mkInt2 0 0; mkInt2 1 0].
Proof.
  destruct (backward_kernels_commute 0 CoderExample.input CoderExample.coder) as [H _].
  rewrite (H 0%nat [mkInt2 1 0; mkInt2 0 0]) by apply perm_swap.
  rewrite (H 0%nat [mkInt2 0 0; mkInt2 1 0]) by reflexivity.
  reflexivity.
Defined.

Section CoderForgets.
Import SparseCoder.
Context {G : Type}.
Implicit Types (sc : State) (rng : G).

(** On the first iteration the forward kernel reads neither the old
    activations nor the reconstruction codes. *)
Lemma cellSupport_first_congr sc sc0 inputCs pos hc :
  sameModel sc sc0 ->
  cellSupport sc0 inputCs pos true hc = cellSupport sc inputCs pos true hc.
Proof.
  intros Hm. unfold cellSupport.
  pose proof Hm as (Hh & _ & _ & _ & _ & _ & Hl).
  rewrite Hh, <- (Forall2_length _ _ _ Hl).
  apply foldl_ext_in. intros acc vli _.
  rewrite (layer_sameModel sc sc0 vli Hm), (desc_sameModel sc sc0 vli Hm).
  apply foldl_ext_in. intros [ia ra] vp _. done.
Qed.

Lemma cellUpdate_first_congr sc sc0 inputCs pos hc old old0 :
  sameModel sc sc0 ->
  cellUpdate sc0 inputCs pos true hc old0 = cellUpdate sc inputCs pos true hc old.
Proof.
  intros Hm. unfold cellUpdate. rewrite (cellSupport_first_congr sc sc0 _ _ _ Hm).
  by destruct (cellSupport sc inputCs pos true hc).
Qed.

Lemma hiddenIndexOf_sameModel sc sc0 pos hc :
  sameModel sc sc0 -> hiddenIndexOf sc0 pos hc = hiddenIndexOf sc pos hc.
Proof. intros (Hh & _). unfold hiddenIndexOf. by rewrite Hh. Qed.

Lemma winner_first_congr sc sc0 inputCs pos acts acts0 :
  sameModel sc sc0 ->
  pos ∈ Helpers.grid (x3 (_hiddenSize sc)) (y3 (_hiddenSize sc)) ->
  Z.of_nat (length acts) =
    x3 (_hiddenSize sc) * y3 (_hiddenSize sc) * z3 (_hiddenSize sc) ->
  length acts0 = length acts ->
  winner sc0 inputCs pos true acts0 = winner sc inputCs pos true acts.
Proof.
  intros Hm Hpos Hlen Hlen0. pose proof Hm as (Hh & _). unfold winner.
  assert (Hr : forall hc, hc ∈ seqZ 0 (z3 (_hiddenSize sc)) ->
                 0 <= hc < z3 (_hiddenSize sc))
    by (intros hc Hhc; apply elem_of_seqZ in Hhc; lia).
  transitivity
    (foldl (fun st hc =>
              if F32.gtb (cellUpdate sc0 inputCs pos true hc
                            (read F32.zero acts0 (hiddenIndexOf sc0 pos hc))) st.2
              then (hc, cellUpdate sc0 inputCs pos true hc
                          (read F32.zero acts0 (hiddenIndexOf sc0 pos hc)))
              else st)
           (0, F32.neg_999999) (seqZ 0 (z3 (_hiddenSize sc0)))).1.
  { refine (f_equal fst
              (forward_scan_pure sc0 inputCs pos true _ acts0 0 F32.neg_999999 _ _
                 (NoDup_seqZ 0 (z3 (_hiddenSize sc0))) _)).
    - by rewrite Hh.
    - rewrite Hh. lia.
    - rewrite Hh. exact Hr. }
  transitivity
    (foldl (fun st hc =>
              if F32.gtb (cellUpdate sc inputCs pos true hc
                            (read F32.zero acts (hiddenIndexOf sc pos hc))) st.2
              then (hc, cellUpdate sc inputCs pos true hc
                          (read F32.zero acts (hiddenIndexOf sc pos hc)))
              else st)
           (0, F32.neg_999999) (seqZ 0 (z3 (_hiddenSize sc)))).1.
  2: { symmetry.
       exact (f_equal fst
                (forward_scan_pure sc inputCs pos true _ acts 0 F32.neg_999999 Hpos
                   Hlen (NoDup_seqZ 0 (z3 (_hiddenSize sc))) Hr)). }
  rewrite Hh. f_equal. apply foldl_ext_in. intros st hc _.
  by rewrite (cellUpdate_first_congr sc sc0 inputCs pos hc
                (read F32.zero acts (hiddenIndexOf sc pos hc))
                (read F32.zero acts0 (hiddenIndexOf sc0 pos hc)) Hm).
Qed.

(** The first forward pass forgets the hidden codes and the activations
    it finds. *)
Lemma forwardEach_first_forgets sc sc0 inputCs :
  sized sc ->
  Z.of_nat (length (_hiddenActivations sc)) =
    x3 (_hiddenSize sc) * y3 (_hiddenSize sc) * z3 (_hiddenSize sc) ->
  sameModel sc sc0 ->
  forwardEach sc0 inputCs true =
    set_visibleLayers (forwardEach sc inputCs true) (_visibleLayers sc0).
Proof.
  intros (Hx & Hy & Hz & Hcs & _) Hlen Hm.
  pose proof Hm as (Hh & Hd & Ha & He & Hlc & Hla & Hl).
  unfold forwardEach. rewrite Hh.
  set (hs := _hiddenSize sc) in *.
  assert (HW : (fun pos => (Helpers.address2 pos (x3 hs),
                            winner sc0 inputCs pos true (_hiddenActivations sc0)))
                 <$> Helpers.grid (x3 hs) (y3 hs) =
               (fun pos => (Helpers.address2 pos (x3 hs),
                            winner sc inputCs pos true (_hiddenActivations sc)))
                 <$> Helpers.grid (x3 hs) (y3 hs)).
  { apply list_fmap_ext. intros i pos Hpos. f_equal.
    apply winner_first_congr; [done | by eapply list_elem_of_lookup_2 | done | done]. }
  rewrite HW.
  set (W := (fun pos => _) <$> Helpers.grid (x3 hs) (y3 hs)).
  assert (Hcodes : writes W (_hiddenCs sc0) = writes W (_hiddenCs sc)).
  { apply writes_forget; [done |]. intros k Hk. unfold W.
    rewrite <- list_fmap_compose. simpl.
    apply grid_covers_address2; lia. }
  set (cells := pos ← Helpers.grid (x3 hs) (y3 hs); (pair pos) <$> seqZ 0 (z3 hs)).
  assert (Hnd : NoDup ((fun p : Int2 * Z => hiddenIndexOf sc p.1 p.2) <$> cells))
    by (by apply NoDup_cell_indices; [apply NoDup_grid |]).
  assert (Hacts :
    rmw F32.zero (fun p => cellUpdate sc0 inputCs p.1 true p.2)
        (fun p => hiddenIndexOf sc0 p.1 p.2) cells (_hiddenActivations sc0) =
    rmw F32.zero (fun p => cellUpdate sc inputCs p.1 true p.2)
        (fun p => hiddenIndexOf sc p.1 p.2) cells (_hiddenActivations sc)).
  { transitivity
      (rmw F32.zero (fun p => cellUpdate sc inputCs p.1 true p.2)
         (fun p => hiddenIndexOf sc p.1 p.2) cells (_hiddenActivations sc0)).
    - unfold rmw. apply foldl_ext_in. intros b [p c] _. simpl.
      rewrite (hiddenIndexOf_sameModel sc sc0 p c Hm).
      by rewrite (cellUpdate_first_congr sc sc0 inputCs p c
                    (read F32.zero b (hiddenIndexOf sc p c))
                    (read F32.zero b (hiddenIndexOf sc p c)) Hm).
    - apply rmw_forget; [| done | done |].
      + intros [p c] old old'. simpl.
        apply (cellUpdate_first_congr sc sc inputCs p c old' old (sameModel_refl sc)).
      + intros i Hi. rewrite Hla, Hlen in Hi.
        destruct (grid_covers_address3 (x3 hs) (y3 hs) (z3 hs) i Hx Hy Hi)
          as (pos & c & Hpos & Hc & ->).
        apply list_elem_of_fmap. exists (pos, c). split; [done |].
        unfold cells. by apply elem_of_cells. }
  rewrite Hcodes, Hacts.
  destruct sc, sc0. simpl in *. by subst.
Qed.

(** The backward pass forgets the reconstruction codes it finds. *)
Lemma backwardEach_forgets sc sc' :
  sized sc -> sameModel sc sc' ->
  _hiddenCs sc' = _hiddenCs sc -> _hiddenActivations sc' = _hiddenActivations sc ->
  backwardEach sc' = backwardEach sc.
Proof.
  intros (_ & _ & _ & _ & Hlay) Hm Hcs Hacts.
  pose proof Hm as (Hh & Hd & Ha & He & _ & _ & Hl).
  unfold backwardEach.
  assert (Hlist :
    Helpers.for_each (length (_visibleLayers sc'))
      (fun vli vl => set_reconCs vl (writes (backwardWrites sc' vli) (_reconCs vl)))
      (_visibleLayers sc') =
    Helpers.for_each (length (_visibleLayers sc))
      (fun vli vl => set_reconCs vl (writes (backwardWrites sc vli) (_reconCs vl)))
      (_visibleLayers sc)).
  { apply list_eq. intros i. rewrite !for_each_lookup.
    pose proof (Forall2_length _ _ _ Hl) as Hlen. rewrite <- Hlen.
    destruct (decide (i < length (_visibleLayers sc))%nat) as [Hi | Hi].
    - destruct (lookup_lt_is_Some_2 _ _ Hi) as [vl Hvl].
      destruct (Forall2_lookup_l _ _ _ _ _ Hl Hvl) as (vl' & Hvl' & Evl' & Hlr).
      rewrite Hvl, Hvl'. simpl. f_equal.
      assert (HW : backwardWrites sc' i = backwardWrites sc i).
      { unfold backwardWrites. rewrite (desc_sameModel sc sc' i Hm).
        apply list_fmap_ext. intros j pos _. f_equal.
        by rewrite (reconstruct_congr sc sc' i pos Hm Hcs). }
      rewrite HW, Evl'. simpl.
      destruct (Hlay i vl Hvl) as (Hvx & Hvy & Hvz & Hrl).
      rewrite (writes_forget (backwardWrites sc i) (_reconCs vl') (_reconCs vl)); [done | done |].
      intros k Hk. unfold backwardWrites. rewrite <- list_fmap_compose. simpl.
      apply grid_covers_address2; lia.
    - rewrite (proj2 (lookup_ge_None (_visibleLayers sc) i)) by lia.
      apply lookup_ge_None. lia. }
  rewrite Hlist. destruct sc, sc'. simpl in *. by subst.
Qed.

Lemma sameModel_sized sc sc' : sized sc -> sameModel sc sc' -> sized sc'.
Proof.
  intros (Hx & Hy & Hz & Hcs & Hlay) Hm.
  pose proof Hm as (Hh & Hd & _ & _ & Hlc & _ & Hl).
  unfold sized. rewrite Hh, Hlc.
  split; [done |]. split; [done |]. split; [done |]. split; [done |].
  intros vli vl' Hvl'.
  destruct (Forall2_lookup_r _ _ _ _ _ Hl Hvl') as (vl & Hvl & _ & Hlr).
  rewrite (desc_sameModel sc sc' vli Hm), Hlr. exact (Hlay vli vl Hvl).
Qed.

(** The first round of [activate] forgets the buffers it finds. *)
Lemma round_first_forgets rng inputCs sc sc0 :
  sized sc ->
  Z.of_nat (length (_hiddenActivations sc)) =
    x3 (_hiddenSize sc) * y3 (_hiddenSize sc) * z3 (_hiddenSize sc) ->
  sameModel sc sc0 ->
  backwardPass rng inputCs (forwardPass rng inputCs true sc0) =
  backwardPass rng inputCs (forwardPass rng inputCs true sc).
Proof.
  intros Hs Hlen Hm. pose proof Hm as (Hh & _ & _ & _ & _ & Hla & Hl).
  rewrite !backwardPass_each.
  rewrite (forwardPass_each rng inputCs true sc Hlen).
  rewrite (forwardPass_each rng inputCs true sc0) by (rewrite Hh, Hla; done).
  rewrite (forwardEach_first_forgets sc sc0 inputCs Hs Hlen Hm).
  set (s := forwardEach sc inputCs true).
  assert (Hms : sameModel sc s).
  { unfold s. rewrite <- (forwardPass_each rng inputCs true sc Hlen).
    apply forwardPass_sameModel. }
  apply backwardEach_forgets; [by eapply sameModel_sized | | done | done].
  destruct Hms as (Hh' & Hd' & Ha' & He' & Hlc' & Hla' & Hl').
  repeat split; simpl; done.
Qed.

Lemma activate_forgets (cs : ComputeSystem G) visibleCs sc sc0 :
  sized sc ->
  Z.of_nat (length (_hiddenActivations sc)) =
    x3 (_hiddenSize sc) * y3 (_hiddenSize sc) * z3 (_hiddenSize sc) ->
  1 <= _explainIters sc ->
  sameModel sc sc0 ->
  activate cs visibleCs sc0 = activate cs visibleCs sc.
Proof.
  intros Hs Hlen Hit Hm. unfold activate.
  destruct Hm as (Hh & Hd & Ha & He & Hrest) eqn:Em. rewrite He.
  destruct (Z.to_nat (_explainIters sc)) as [| n] eqn:En; [lia |].
  cbn [explain]. simpl (0 =? 0).
  by rewrite (round_first_forgets (_rng cs) visibleCs sc sc0 Hs Hlen
                (conj Hh (conj Hd (conj Ha (conj He Hrest))))).
Qed.
End CoderForgets.

(** X8.  With at least one round, [activate] forgets the code and
    activation buffers it finds: two coders with the same model (grids,
    parameters, weights) and buffers of the sizes of the grids give the
    same state, whatever the buffers held.  So [activate] run again on the
    same input changes nothing. *)
Theorem activate_forgets_its_buffers {G} (cs : ComputeSystem G) (visibleCs : list IntBuffer)
    (sc : SparseCoder.State) :
  let hs := SparseCoder._hiddenSize sc in
  SparseCoder.sized sc ->
  Z.of_nat (length (SparseCoder._hiddenActivations sc)) = x3 hs * y3 hs * z3 hs ->
  1 <= SparseCoder._explainIters sc ->
  (forall sc0, SparseCoder.sameModel sc sc0 ->
     SparseCoder.activate cs visibleCs sc0 = SparseCoder.activate cs visibleCs sc) /\
  SparseCoder.activate cs visibleCs (SparseCoder.activate cs visibleCs sc) =
    SparseCoder.activate cs visibleCs sc.
Proof.
  intros hs Hs Hlen Hit. split.
  - intros sc0 Hm. by apply activate_forgets.
  - apply activate_forgets; [done | done | done |]. apply explain_sameModel.
Qed.

Lemma activate_forgets_its_buffers_witness :
  SparseCoder.activate (mkCS 0) CoderExample.input
    (SparseCoder.activate (mkCS 0) CoderExample.input CoderExample.coder) =
  SparseCoder.activate (mkCS 0) CoderExample.input CoderExample.coder.
Proof.
  apply (activate_forgets_its_buffers (mkCS 0) CoderExample.input CoderExample.coder).
  - unfold SparseCoder.sized. simpl.
    split; [lia |]. split; [lia |]. split; [lia |]. split; [reflexivity |].
    intros [| ?] vl; simpl; [| discriminate]. intros [= <-].
    split; [lia |]. split; [lia |]. split; [lia | reflexivity].
  - reflexivity.
  - simpl. lia.
Defined.

(** *** Runs that stay inside the buffers *)

Section ActorBounds.
Import Actor.

Lemma deltaOHVs_shape m codes delta row oneHotSize :
  shapeOf (mkLayer (SparseMatrix.deltaOHVs m codes delta row oneHotSize)) =
    shapeOf (mkLayer m).
Proof.
  unfold shapeOf, SparseMatrix.deltaOHVs. simpl. f_equal.
  generalize (SparseMatrix.blocks m row oneHotSize). intros l.
  assert (Hlen : forall vals,
            length (foldl (fun vals jj =>
                             let j := SparseMatrix.slot m codes oneHotSize jj in
                             write vals j (F32.add (read F32.zero vals j) delta)) vals l) =
            length vals).
  { induction l as [| jj l IH]; intros vals; [done |].
    simpl. rewrite IH. apply length_write. }
  apply Hlen.
Qed.

Lemma fits_shape vl vl' rows columns oneHotSize :
  shapeOf vl' = shapeOf vl ->
  SparseMatrix.fits (_weights vl) rows columns oneHotSize ->
  SparseMatrix.fits (_weights vl') rows columns oneHotSize.
Proof.
  unfold shapeOf, SparseMatrix.fits, SparseMatrix.blocks.
  intros [= -> -> ->]. done.
Qed.

Lemma learn_shape {G} pos (rng : G) i h f ip a a' :
  learn pos rng i h f ip a = Some a' ->
  shapeOf <$> _visibleLayers a' = shapeOf <$> _visibleLayers a.
Proof.
  unfold learn. intros Hl.
  destruct (qActionPrev _); [| done]. destruct (nextQActionPrev _); [| done].
  simpl in Hl. injection Hl as <-. simpl. unfold applyDelta.
  apply list_eq. intros k. rewrite !list_lookup_fmap, for_each_lookup.
  case_decide; [| done].
  destruct (_visibleLayers a !! k) as [vl |]; [| done]. simpl. f_equal.
  rewrite deltaOHVs_shape. by destruct vl.
Qed.

Lemma learn_fold_shape {G} (rng : G) i h f ip (l : list Int2) a a' :
  foldl (fun oa pos => a ← oa; learn pos rng i h f ip a) (Some a) l = Some a' ->
  shapeOf <$> _visibleLayers a' = shapeOf <$> _visibleLayers a.
Proof.
  revert a. induction l as [| pos l IH]; intros a Hf.
  - simpl in Hf. by injection Hf as <-.
  - simpl in Hf. destruct (learn pos rng i h f ip a) as [a1 |] eqn:E.
    + rewrite (IH a1 Hf). by eapply learn_shape.
    + exfalso. clear -Hf. induction l as [| p l IHl]; [done | by apply IHl].
Qed.

Lemma replay_shape {G} `{UniformInt G} iters (cs cs' : ComputeSystem G) a a' :
  replay iters cs a = Some (cs', a') ->
  shapeOf <$> _visibleLayers a' = shapeOf <$> _visibleLayers a.
Proof.
  revert cs a. induction iters as [| iters IH]; intros cs a Hr.
  - simpl in Hr. by injection Hr as <- <-.
  - simpl in Hr. destruct (uniform_int _ _ _) as [t rng].
    destruct (replayLearn rng t a) as [a1 |] eqn:E; [| done]. simpl in Hr.
    rewrite (IH _ _ Hr). unfold replayLearn, learnPass in E.
    by eapply learn_fold_shape.
Qed.

(** [bounded] looks at the grids, at the lengths of [_hiddenCs] and
    [_hiddenCounts] and at the shape of the weights. *)
Lemma bounded_shape a a' :
  _hiddenSize a' = _hiddenSize a ->
  length (_hiddenCs a') = length (_hiddenCs a) ->
  _hiddenCounts a' = _hiddenCounts a ->
  _visibleLayerDescs a' = _visibleLayerDescs a ->
  shapeOf <$> _visibleLayers a' = shapeOf <$> _visibleLayers a ->
  bounded a -> bounded a'.
Proof.
  intros Hh Hc Hn Hd Hs (Hsz & Hcounts & Hlen & Hfit).
  unfold bounded, sized in *. rewrite Hh, Hc, Hn, Hd.
  split; [done |]. split; [done |].
  split. { rewrite <- (length_fmap shapeOf), Hs, length_fmap. done. }
  intros vli vl' Hvl'.
  assert (Hk : (shapeOf <$> _visibleLayers a) !! vli = Some (shapeOf vl'))
    by (by rewrite <- Hs, list_lookup_fmap, Hvl').
  rewrite list_lookup_fmap in Hk.
  destruct (_visibleLayers a !! vli) as [vl |] eqn:Hvl; [| done].
  simpl in Hk. assert (Hk' : shapeOf vl' = shapeOf vl) by congruence.
  eapply fits_shape; [exact Hk' |]. by apply Hfit.
Qed.

(** With codes in range, the indices of [multiplyOHVs] and [deltaOHVs] on
    a matrix that fits are inside the buffers they index. *)
Lemma fits_accesses m codes rows columns oneHotSize row jj :
  SparseMatrix.fits m rows columns oneHotSize ->
  isCSDR columns oneHotSize codes ->
  0 <= row < rows ->
  jj ∈ SparseMatrix.blocks m row oneHotSize ->
  row + 1 < Z.of_nat (length (SparseMatrix._rowRanges m)) /\
  0 <= jj < Z.of_nat (length (SparseMatrix._columnIndices m)) /\
  0 <= Z.quot (read 0 (SparseMatrix._columnIndices m) jj) oneHotSize
    < Z.of_nat (length codes) /\
  0 <= SparseMatrix.slot m codes oneHotSize jj
    < Z.of_nat (length (SparseMatrix._nonZeroValues m)).
Proof.
  intros [Hrows Hfit] [Hlen Hcodes] Hrow Hjj.
  specialize (Hfit row Hrow). rewrite Forall_forall in Hfit.
  destruct (Hfit jj Hjj) as (Hj & Hcol & Hblock).
  split; [lia |]. split; [done |]. split; [lia |].
  unfold SparseMatrix.slot.
  set (k := Z.quot (read 0 (SparseMatrix._columnIndices m) jj) oneHotSize) in *.
  destruct (lookup_lt_is_Some_2 codes (Z.to_nat k)) as [c Hc]; [lia |].
  rewrite (read_lookup 0 codes k c) by (lia || done).
  rewrite Forall_lookup in Hcodes. specialize (Hcodes _ _ Hc). lia.
Qed.

Lemma step_bounded {G} `{UniformInt G} (cs cs' : ComputeSystem G)
    inputCs hiddenCs feedBackCs learnEnabled a a' :
  step cs inputCs hiddenCs feedBackCs learnEnabled a = Some (cs', a') ->
  bounded a -> bounded a'.
Proof.
  intros Hstep. apply step_Some in Hstep as [_ Hrest]. cbv zeta in Hrest.
  rewrite forwardPass_writes in Hrest.
  set (a1 := added _ _ _ _) in Hrest.
  assert (Hend : onlyWeights a1 a' /\
                 shapeOf <$> _visibleLayers a' = shapeOf <$> _visibleLayers a1).
  { destruct (learnEnabled && (2 <? _historySize a1)).
    - split; [by eapply replay_frame | by eapply replay_shape].
    - injection Hrest as <- <-. split; [apply onlyWeights_refl | done]. }
  destruct Hend as [Ho Hs]. apply bounded_shape.
  - by rewrite Ho.
  - rewrite Ho. simpl. apply length_writes.
  - by rewrite Ho.
  - by rewrite Ho.
  - by rewrite Hs.
Qed.

Lemma inputsInRange_sameGrid a a' s :
  sameGrid a a' -> inputsInRange a s -> inputsInRange a' s.
Proof. intros (_ & _ & Hd) Hs vli b Hb. rewrite Hd. by apply Hs. Qed.

Lemma feed_bounded {G} `{UniformInt G} (steps : list StepInput) :
  forall (cs cs' : ComputeSystem G) a a',
  feed cs a steps = Some (cs', a') -> bounded a -> bounded a'.
Proof.
  induction steps as [| i steps IH]; intros cs cs' a a' Hfeed Hb.
  - simpl in Hfeed. by injection Hfeed as <- <-.
  - simpl in Hfeed.
    destruct (step cs _ _ _ _ a) as [[cs1 a1] |] eqn:E; [| done]. simpl in Hfeed.
    eapply IH; [exact Hfeed |]. by eapply step_bounded.
Qed.
End ActorBounds.

(** X9.  A run of [step]s of any length never faults when it starts from
    a well-formed actor whose buffers are as large as the kernels index
    them ([bounded]: one cell of [_hiddenCs] and of [_hiddenCounts] per
    hidden column, a descriptor per layer, weights whose rows fit the
    grids), whose recorded samples hold action codes of the hidden grid
    and input codes of the visible grids, and when every step brings
    buffers of the right shape with such codes.  Every [step] returns,
    and the actor it leaves is again well formed and bounded on the same
    grids, with recorded actions and inputs in range; its history is the
    last [capacity] samples of the old history followed by the inputs.
    So the hypotheses hold again before every step of the run, and with
    them every index of the kernels is inside its buffer
    ([fits_accesses]). *)
Theorem valid_runs_never_fault {G} `{UniformInt G} (cs : ComputeSystem G)
    (a : Actor.State) (steps : list StepInput) :
  Actor.wellFormed a ->
  Actor.bounded a ->
  Forall (fun s => Actor.actionsInRange a s /\ Actor.inputsInRange a s) (Actor.history a) ->
  Forall (fun i => Actor.shaped a (sampleOf i) /\ Actor.actionsInRange a (sampleOf i) /\
                   Actor.inputsInRange a (sampleOf i)) steps ->
  exists cs' a',
    feed cs a steps = Some (cs', a') /\
    Actor.wellFormed a' /\ Actor.bounded a' /\ Actor.sameGrid a a' /\
    Forall (fun s => Actor.actionsInRange a' s /\ Actor.inputsInRange a' s)
           (Actor.history a') /\
    Actor.history a' =
      keep (length (Actor._historySamples a)) (Actor.history a ++ (sampleOf <$> steps)).
Proof.
  intros Hwf Hb Hv Hsteps.
  assert (Hv1 : Forall (Actor.actionsInRange a) (Actor.history a)).
  { eapply Forall_impl; [exact Hv |]. by intros s [? _]. }
  assert (Hs1 : Forall (fun i => Actor.shaped a (sampleOf i) /\
                                 Actor.actionsInRange a (sampleOf i)) steps).
  { eapply Forall_impl; [exact Hsteps |]. by intros i (? & ? & _). }
  destruct (feed_is_Some steps cs a Hwf Hv1 Hs1) as [[cs' a'] E].
  exists cs', a'. split; [done |].
  assert (Hsh : Forall (fun i => Actor.shaped a (sampleOf i)) steps).
  { eapply Forall_impl; [exact Hsteps |]. by intros i [? _]. }
  destruct (feed_history steps cs cs' a a' Hwf Hsh E) as (Hwf' & Hg & _ & _ & Hh).
  split; [done |]. split; [by eapply feed_bounded |]. split; [done |]. split; [| done].
  rewrite Hh. apply Forall_keep. apply Forall_app. split.
  - eapply Forall_impl; [exact Hv |]. intros s [Hs Hi].
    split; [by eapply actionsInRange_sameGrid | by eapply inputsInRange_sameGrid].
  - apply Forall_fmap. eapply Forall_impl; [exact Hsteps |].
    intros i (_ & Hi & Hc).
    split; [by eapply actionsInRange_sameGrid | by eapply inputsInRange_sameGrid].
Qed.

Lemma valid_runs_never_fault_witness :
  exists cs' a',
    feed (mkCS 7) Example.fresh (Example.run ++ Example.run) = Some (cs', a') /\
    Actor.wellFormed a' /\ Actor.bounded a'.
Proof.
  assert (Hblank : Actor.shaped Example.fresh Example.blank).
  { repeat split. intros [| [| ?]] b; simpl; intros [= <-]. reflexivity. }
  assert (Hwf : Actor.wellFormed Example.fresh).
  { unfold Actor.wellFormed. simpl.
    split; [lia |]. split; [| split; [| lia]].
    - apply NoDup_ListNoDup. repeat constructor; simpl; lia.
    - intros p Hp. exists Example.blank. split; [| exact Hblank].
      apply list_elem_of_In in Hp. simpl in Hp.
      destruct Hp as [<- | [<- | [<- | []]]]; reflexivity. }
  assert (Hb : Actor.bounded Example.fresh).
  { unfold Actor.bounded, Actor.sized. simpl.
    split; [repeat split; lia |]. split; [reflexivity |]. split; [lia |].
    intros [| ?] vl; simpl; [| discriminate]. intros [= <-].
    split; [simpl; lia |].
    intros row Hrow. assert (row = 0 \/ row = 1) as [-> | ->] by lia.
    - change (SparseMatrix.blocks Example.weights 0 2) with [0].
      constructor; [| constructor]. vm_compute. repeat split; discriminate.
    - change (SparseMatrix.blocks Example.weights 1 2) with [2].
      constructor; [| constructor]. vm_compute. repeat split; discriminate. }
  assert (Hrun : Forall (fun i => Actor.shaped Example.fresh (sampleOf i) /\
                                  Actor.actionsInRange Example.fresh (sampleOf i) /\
                                  Actor.inputsInRange Example.fresh (sampleOf i))
                   Example.run).
  { unfold Example.run.
    repeat (apply Forall_cons; split); try (by apply Forall_nil);
      try (split; [repeat split; intros [| [| ?]] b; simpl; intros [= <-]; reflexivity |]).
    all: split;
      [ intros pos Hp; apply list_elem_of_In in Hp; simpl in Hp;
        destruct Hp as [<- | []]; vm_compute; (split; [discriminate | reflexivity])
      | intros [| ?] b; simpl; [| discriminate]; intros [= <-];
        constructor; [simpl; lia | constructor] ]. }
  destruct (valid_runs_never_fault (mkCS 7) Example.fresh (Example.run ++ Example.run)
              Hwf Hb) as (cs' & a' & E & Hwf' & Hb' & _).
  - apply Forall_nil. done.
  - apply Forall_app. split; exact Hrun.
  - exists cs', a'. split; [exact E |]. split; [exact Hwf' | exact Hb'].
Defined.

(** ** Creation of the sparse coder *)

Section CoderCreate.
Import SparseCoder.
Context {G : Type} `{UniformReal G}.
Implicit Types (sc : State) (rng : G).

Lemma init_loop vli (l : list Z) sc rng :
  exists ws rng',
    foldl (fun st x => init x st.2 vli st.1) (sc, rng) l =
      (set_visibleLayers sc
         (alter (fun vl => set_weights vl (writes ws (_weights vl))) vli (_visibleLayers sc)),
       rng') /\
    ws.*1 = l /\ Forall nearOne ws.*2.
Proof.
  revert sc rng. induction l as [| x l IH]; intros sc rng.
  - exists [], rng. split; [| done]. simpl.
    rewrite list_alter_id by (by intros []). by destruct sc.
  - cbn [foldl]. cbn [fst snd]. unfold init at 2.
    pose proof (uniform_real_range F32.lit_0_99 F32.one rng eq_refl) as Hband.
    destruct (uniform_real F32.lit_0_99 F32.one rng) as [v rng1]. simpl in Hband.
    destruct (IH (set_visibleLayers sc
                    (alter (fun vl => set_weights vl (write (_weights vl) x v)) vli
                           (_visibleLayers sc))) rng1) as (ws & rng' & -> & Hk & Hv).
    exists ((x, v) :: ws), rng'. split; [| split].
    + f_equal. unfold set_visibleLayers. simpl. f_equal.
      rewrite list_alter_alter_eq. apply list_alter_ext; [| done]. by intros [].
    + by rewrite fmap_cons, Hk.
    + rewrite fmap_cons. by apply Forall_cons.
Qed.

Lemma fill_zeros n : Helpers.fill n 0 (replicate (Z.to_nat n) 0) = replicate (Z.to_nat n) 0.
Proof.
  unfold Helpers.fill. generalize (seqZ 0 n). intros l.
  generalize (Z.to_nat n). intros k.
  induction l as [| x l IH]; [done |].
  simpl. unfold write at 2. destruct (x <? 0); [done |].
  by rewrite insert_replicate.
Qed.

Lemma wrap32_id n : - 2 ^ 31 <= n < 2 ^ 31 -> wrap32 n = n.
Proof. intros Hn. unfold wrap32. rewrite Z.mod_small; lia. Qed.

Lemma wrap32_zero_l n : wrap32 (0 * n) = 0.
Proof. by rewrite Z.mul_0_l. Qed.

(** Without overflow the weight count of a layer is the product. *)
Lemma weightsSize_exact numHidden (vld : VisibleLayerDesc) :
  0 <= numHidden -> 1 <= z3 (_size vld) ->
  numHidden * (diam vld * diam vld * z3 (_size vld)) < 2 ^ 31 ->
  wrap32 (numHidden *
          wrap32 (wrap32 (wrap32 (wrap32 (_radius vld * 2) + 1) *
                          wrap32 (wrap32 (_radius vld * 2) + 1)) * z3 (_size vld))) =
    numHidden * (diam vld * diam vld * z3 (_size vld)).
Proof.
  intros Hnum Hz Hlt.
  destruct (decide (numHidden = 0)) as [-> | Hne]; [by rewrite wrap32_zero_l |].
  unfold diam in *. set (d := _radius vld * 2 + 1) in *.
  assert (Hsq : 0 <= d * d) by apply Z.square_nonneg.
  assert (Hdz : d * d * z3 (_size vld) < 2 ^ 31) by nia.
  assert (Hdd : d * d < 2 ^ 31) by nia.
  assert (Hd : - 2 ^ 16 < d < 2 ^ 16) by nia.
  rewrite (wrap32_id (_radius vld * 2)) by lia. fold d.
  rewrite (wrap32_id d) by lia.
  rewrite (wrap32_id (d * d)) by lia.
  rewrite (wrap32_id (d * d * _)) by nia.
  apply wrap32_id. nia.
Qed.

Lemma createLayer_effect sc rng vli :
  let hs := _hiddenSize sc in
  let vld := desc sc vli in
  0 <= x3 hs * y3 hs * z3 hs ->
  1 <= z3 (_size vld) ->
  0 <= x3 (_size vld) * y3 (_size vld) < 2 ^ 31 ->
  x3 hs * y3 hs * z3 hs * (diam vld * diam vld * z3 (_size vld)) < 2 ^ 31 ->
  (vli < length (_visibleLayers sc))%nat ->
  exists vl' rng',
    createLayer (x3 hs * y3 hs * z3 hs) (Some (sc, rng)) vli =
      Some (set_visibleLayers sc (<[vli := vl']> (_visibleLayers sc)), rng') /\
    created hs vld vl'.
Proof.
  intros hs vld Hnum Hvz Hcols Hlt Hvli. unfold createLayer.
  cbn [mbind option_bind]. fold vld hs.
  rewrite (weightsSize_exact _ vld Hnum Hvz Hlt).
  set (weightsSize := x3 hs * y3 hs * z3 hs * (diam vld * diam vld * z3 (_size vld))).
  assert (Hsize : 0 <= weightsSize).
  { unfold weightsSize. apply Z.mul_nonneg_nonneg; [done |].
    apply Z.mul_nonneg_nonneg; [apply Z.square_nonneg | lia]. }
  rewrite (wrap32_id (x3 (_size vld) * y3 (_size vld))) by lia.
  unfold allocFloats, alloc.
  destruct (Z.ltb_spec weightsSize 0) as [? | _]; [lia |].
  destruct (Z.ltb_spec (x3 (_size vld) * y3 (_size vld)) 0) as [? | _]; [lia |].
  cbn [mbind option_bind].
  set (v2h := mkFloat2 _ _). set (h2v := mkFloat2 _ _). set (rr := mkInt2 _ _).
  set (sc1 := set_visibleLayers sc _).
  destruct (init_loop vli (seqZ 0 weightsSize) sc1 rng) as (ws & rng' & -> & Hk & Hv).
  destruct (lookup_lt_is_Some_2 _ _ Hvli) as [vl Hvl].
  exists (mkLayer (writes ws (replicate (Z.to_nat weightsSize) F32.zero))
            (replicate (Z.to_nat (x3 (_size vld) * y3 (_size vld))) 0) v2h h2v rr), rng'.
  split.
  - cbn [mbind option_bind]. f_equal. f_equal. unfold sc1, set_visibleLayers. simpl. f_equal.
    rewrite !list_alter_alter_eq.
    apply list_eq. intros i. rewrite list_lookup_alter.
    destruct (decide (vli = i)) as [<- | Hne].
    + rewrite list_lookup_insert_eq by done. rewrite Hvl. done.
    + by rewrite list_lookup_insert_ne.
  - split; [| split; [| done]]; simpl.
    + rewrite length_writes, length_replicate. lia.
    + apply writes_cover; [done |].
      intros k Hklt. rewrite length_replicate in Hklt. rewrite Hk.
      apply elem_of_seqZ. lia.
Qed.

Lemma createLayers_effect (l : list nat) sc rng :
  let hs := _hiddenSize sc in
  NoDup l ->
  0 <= x3 hs * y3 hs * z3 hs ->
  (forall vli, vli ∈ l ->
     let vld := desc sc vli in
     (vli < length (_visibleLayers sc))%nat /\ 1 <= z3 (_size vld) /\
     0 <= x3 (_size vld) * y3 (_size vld) < 2 ^ 31 /\
     x3 hs * y3 hs * z3 hs * (diam vld * diam vld * z3 (_size vld)) < 2 ^ 31) ->
  exists layers' rng',
    foldl (createLayer (x3 hs * y3 hs * z3 hs)) (Some (sc, rng)) l =
      Some (set_visibleLayers sc layers', rng') /\
    length layers' = length (_visibleLayers sc) /\
    (forall vli, vli ∈ l ->
       exists vl', layers' !! vli = Some vl' /\ created hs (desc sc vli) vl') /\
    (forall vli, vli ∉ l -> layers' !! vli = _visibleLayers sc !! vli).
Proof.
  intros hs Hnd Hnum. revert sc rng hs Hnum.
  induction l as [| vli l IH]; intros sc rng hs Hnum Hl.
  - exists (_visibleLayers sc), rng. split; [by destruct sc |]. split; [done |].
    split; [| done]. intros vli Hin. by apply elem_of_nil in Hin.
  - apply NoDup_cons in Hnd as [Hvli Hnd]. cbn [foldl].
    destruct (Hl vli ltac:(apply elem_of_cons; by left)) as (Hlt & Hvz & Hcols & Hw).
    destruct (createLayer_effect sc rng vli Hnum Hvz Hcols Hw Hlt)
      as (vl' & rng1 & E & Hcr).
    fold hs in E. rewrite E.
    set (sc1 := set_visibleLayers sc _).
    destruct (IH Hnd sc1 rng1 Hnum) as (layers' & rng' & E' & Hlen & Hin & Hout).
    { intros i Hi. unfold sc1. simpl. rewrite length_insert.
      apply (Hl i). apply elem_of_cons. by right. }
    change (_hiddenSize sc1) with hs in E'.
    exists layers', rng'. split; [exact E' |].
    split; [by rewrite Hlen; unfold sc1; simpl; rewrite length_insert |].
    split.
    + intros i Hi. apply elem_of_cons in Hi as [-> | Hi].
      * exists vl'. split; [| done]. rewrite (Hout vli Hvli). unfold sc1. simpl.
        by apply list_lookup_insert_eq.
      * by apply Hin.
    + intros i Hi. apply not_elem_of_cons in Hi as [Hne Hi].
      rewrite (Hout i Hi). unfold sc1. simpl. by apply list_lookup_insert_ne.
Qed.
End CoderCreate.

(** X10.  [createRandom] returns on grids without negative extents, with
    at least one code per column and with sizes that fit a 32-bit [int]
    (the hidden cell count, the column count of every visible grid and the
    weight count [hiddenCells * diameter^2 * visibleDepth] of every layer
    are below [2^31]).  The coder it gives has buffers of the sizes of its
    grids: hidden codes and reconstruction codes are zeros, one per column
    (so they are codes in range), the activations are zeros, one per
    hidden cell, and every layer has
    [hiddenCells * diameter^2 * visibleDepth] weights, each drawn between
    [0.99f] and [1.0f].  [_alpha] and [_explainIters] are not touched. *)
Theorem createRandom_gives_a_sized_coder {G} `{UniformReal G} (cs : ComputeSystem G)
    (hiddenSize : Int3) (visibleLayerDescs : list SparseCoder.VisibleLayerDesc)
    (sc0 : SparseCoder.State) :
  let numHidden := x3 hiddenSize * y3 hiddenSize * z3 hiddenSize in
  0 <= x3 hiddenSize -> 0 <= y3 hiddenSize -> 1 <= z3 hiddenSize ->
  numHidden < 2 ^ 31 ->
  Forall (fun vld => 0 <= x3 (SparseCoder._size vld) /\ 0 <= y3 (SparseCoder._size vld) /\
                     1 <= z3 (SparseCoder._size vld) /\
                     x3 (SparseCoder._size vld) * y3 (SparseCoder._size vld) < 2 ^ 31 /\
                     numHidden * (SparseCoder.diam vld * SparseCoder.diam vld *
                                  z3 (SparseCoder._size vld)) < 2 ^ 31)
         visibleLayerDescs ->
  exists cs' sc,
    SparseCoder.createRandom cs hiddenSize visibleLayerDescs sc0 = Some (cs', sc) /\
    SparseCoder._hiddenSize sc = hiddenSize /\
    SparseCoder._visibleLayerDescs sc = visibleLayerDescs /\
    SparseCoder._alpha sc = SparseCoder._alpha sc0 /\
    SparseCoder._explainIters sc = SparseCoder._explainIters sc0 /\
    SparseCoder._hiddenCs sc = replicate (Z.to_nat (x3 hiddenSize * y3 hiddenSize)) 0 /\
    SparseCoder._hiddenActivations sc =
      replicate (Z.to_nat (x3 hiddenSize * y3 hiddenSize * z3 hiddenSize)) F32.zero /\
    length (SparseCoder._visibleLayers sc) = length visibleLayerDescs /\
    (forall vli vl, SparseCoder._visibleLayers sc !! vli = Some vl ->
       SparseCoder.created hiddenSize (SparseCoder.desc sc vli) vl) /\
    SparseCoder.sized sc /\ SparseCoder.codesInRange sc.
Proof.
  intros numHidden Hx Hy Hz Hnum Hdescs. unfold SparseCoder.createRandom.
  set (sc1 := SparseCoder.mk hiddenSize _ _ _ visibleLayerDescs _ _).
  assert (Hcols : 0 <= x3 hiddenSize * y3 hiddenSize < 2 ^ 31) by (unfold numHidden in Hnum; nia).
  rewrite (wrap32_id (x3 hiddenSize * y3 hiddenSize)) by lia.
  rewrite (wrap32_id (x3 hiddenSize * y3 hiddenSize * z3 hiddenSize))
    by (unfold numHidden in Hnum; nia).
  assert (Hlen1 : length (SparseCoder._visibleLayers sc1) = length visibleLayerDescs)
    by (unfold sc1; simpl; apply length_resize).
  assert (Hdesc : forall vli, (vli < length visibleLayerDescs)%nat ->
            let vld := SparseCoder.desc sc1 vli in
            0 <= x3 (SparseCoder._size vld) /\ 0 <= y3 (SparseCoder._size vld) /\
            1 <= z3 (SparseCoder._size vld) /\
            x3 (SparseCoder._size vld) * y3 (SparseCoder._size vld) < 2 ^ 31 /\
            numHidden * (SparseCoder.diam vld * SparseCoder.diam vld *
                         z3 (SparseCoder._size vld)) < 2 ^ 31).
  { intros vli Hvli. unfold SparseCoder.desc, sc1. simpl.
    destruct (lookup_lt_is_Some_2 _ _ Hvli) as [vld Hvld].
    rewrite (list_lookup_total_correct _ _ _ Hvld).
    eapply Forall_lookup_1 in Hdescs; [| exact Hvld]. done. }
  destruct (createLayers_effect (seq 0 (length (SparseCoder._visibleLayers sc1))) sc1 (_rng cs))
    as (layers' & rng' & E & Hlen & Hin & _).
  { apply NoDup_seq. }
  { unfold sc1. simpl. nia. }
  { intros vli Hvli. apply elem_of_seq in Hvli. split; [lia |].
    destruct (Hdesc vli ltac:(lia)) as (? & ? & ? & ? & ?).
    split; [done |]. split; [nia | done]. }
  change (SparseCoder._hiddenSize sc1) with hiddenSize in E.
  rewrite E. cbn [mbind option_bind].
  unfold alloc, allocFloats.
  destruct (Z.ltb_spec (x3 hiddenSize * y3 hiddenSize) 0) as [? | _]; [lia |].
  destruct (Z.ltb_spec (x3 hiddenSize * y3 hiddenSize * z3 hiddenSize) 0) as [? | _];
    [nia |].
  cbn [mbind option_bind].
  eexists _, _. split; [reflexivity |].
  simpl.
  assert (Hlay : forall vli vl, layers' !! vli = Some vl ->
            SparseCoder.created hiddenSize (SparseCoder.desc sc1 vli) vl).
  { intros vli vl Hvl.
    destruct (Hin vli) as (vl' & Hvl' & Hcr).
    - apply elem_of_seq. apply lookup_lt_Some in Hvl. lia.
    - assert (vl' = vl) as -> by congruence. done. }
  rewrite fill_zeros.
  split; [done |]. split; [done |]. split; [done |]. split; [done |].
  split; [done |]. split; [done |]. split; [congruence |].
  split; [done |].
  assert (Hrec : forall vli vl, layers' !! vli = Some vl ->
            0 <= x3 (SparseCoder._size (SparseCoder.desc sc1 vli)) /\
            0 <= y3 (SparseCoder._size (SparseCoder.desc sc1 vli)) /\
            1 <= z3 (SparseCoder._size (SparseCoder.desc sc1 vli)) /\
            SparseCoder._reconCs vl =
              replicate (Z.to_nat (x3 (SparseCoder._size (SparseCoder.desc sc1 vli)) *
                                   y3 (SparseCoder._size (SparseCoder.desc sc1 vli)))) 0).
  { intros vli vl Hvl. destruct (Hlay vli vl Hvl) as (_ & _ & Hr & _).
    destruct (Hdesc vli) as (? & ? & ? & _); [apply lookup_lt_Some in Hvl; lia |]. done. }
  split.
  - unfold SparseCoder.sized. simpl. rewrite length_replicate.
    split; [done |]. split; [done |]. split; [done |]. split; [nia |].
    intros vli vl Hvl. destruct (Hrec vli vl Hvl) as (? & ? & ? & ->).
    change (SparseCoder.desc (SparseCoder.set_hidden _ _ _) vli)
      with (SparseCoder.desc sc1 vli).
    rewrite length_replicate. repeat split; try done. nia.
  - split.
    + split; simpl; [rewrite length_replicate; nia |].
      apply Forall_forall. intros c Hc. apply elem_of_replicate in Hc as [-> _]. lia.
    + intros vli vl Hvl. simpl in Hvl. destruct (Hrec vli vl Hvl) as (? & ? & ? & ->).
      change (SparseCoder.desc (SparseCoder.set_hidden _ _ _) vli)
        with (SparseCoder.desc sc1 vli).
      split; [rewrite length_replicate; nia |].
      apply Forall_forall. intros c Hc. apply elem_of_replicate in Hc as [-> _]. lia.
Qed.

Lemma createRandom_gives_a_sized_coder_witness :
  exists cs' sc,
    SparseCoder.createRandom (mkCS 0) (mkInt3 2 1 2)
      [SparseCoder.mkDesc (mkInt3 2 1 2) 1] CoderExample.coder = Some (cs', sc) /\
    SparseCoder.sized sc.
Proof.
  assert (Hx : 0 <= x3 (mkInt3 2 1 2)) by (simpl; lia).
  assert (Hy : 0 <= y3 (mkInt3 2 1 2)) by (simpl; lia).
  assert (Hz : 1 <= z3 (mkInt3 2 1 2)) by (simpl; lia).
  assert (Hn : x3 (mkInt3 2 1 2) * y3 (mkInt3 2 1 2) * z3 (mkInt3 2 1 2) < 2 ^ 31)
    by (simpl; lia).
  assert (Hd : Forall (fun vld => 0 <= x3 (SparseCoder._size vld) /\
                                  0 <= y3 (SparseCoder._size vld) /\
                                  1 <= z3 (SparseCoder._size vld) /\
                                  x3 (SparseCoder._size vld) * y3 (SparseCoder._size vld)
                                    < 2 ^ 31 /\
                                  x3 (mkInt3 2 1 2) * y3 (mkInt3 2 1 2) * z3 (mkInt3 2 1 2) *
                                    (SparseCoder.diam vld * SparseCoder.diam vld *
                                     z3 (SparseCoder._size vld)) < 2 ^ 31)
                 [SparseCoder.mkDesc (mkInt3 2 1 2) 1]).
  { constructor; [unfold SparseCoder.diam; simpl; lia | constructor]. }
  destruct (createRandom_gives_a_sized_coder (mkCS 0) (mkInt3 2 1 2)
              [SparseCoder.mkDesc (mkInt3 2 1 2) 1] CoderExample.coder Hx Hy Hz Hn Hd)
    as (cs' & sc & E & _ & _ & _ & _ & _ & _ & _ & _ & Hs & _).
  exists cs', sc. split; [exact E | exact Hs].
Defined.

(** ** Persistence *)

Lemma readInt2_write v rest : Raw.readInt2 (Raw.writeInt2 v ++ rest) = Some (v, rest).
Proof. by destruct v. Qed.

Lemma readInt3_write v rest : Raw.readInt3 (Raw.writeInt3 v ++ rest) = Some (v, rest).
Proof. by destruct v. Qed.

Lemma readFloat2_write v rest : Raw.readFloat2 (Raw.writeFloat2 v ++ rest) = Some (v, rest).
Proof. by destruct v. Qed.

Lemma fmap_lookup_total_seq {A} `{Inhabited A} (l : list A) :
  (fun i => l !!! i) <$> seq 0 (length l) = l.
Proof.
  apply list_eq. intros i. rewrite list_lookup_fmap.
  destruct (decide (i < length l)%nat) as [Hi | Hi].
  - rewrite lookup_seq_lt by done. simpl.
    destruct (lookup_lt_is_Some_2 _ _ Hi) as [x Hx].
    by rewrite (list_lookup_total_correct _ _ _ Hx).
  - rewrite lookup_seq_ge by lia. simpl. symmetry. apply lookup_ge_None. lia.
Qed.

Section CoderPersist.
Import SparseCoder.
Context `{Codec IntBuffer} `{Codec FloatBuffer}.
Implicit Types (sc : State).

Lemma readLayers_write sc (l : list nat) rest :
  (forall vli, vli ∈ l -> 0 <= x3 (_size (desc sc vli)) * y3 (_size (desc sc vli))) ->
  readLayers (length l) ((vli ← l; writeLayer sc vli) ++ rest) =
    Some ((fun vli =>
             (desc sc vli,
              set_reconCs (layer sc vli)
                (replicate (Z.to_nat (x3 (_size (desc sc vli)) * y3 (_size (desc sc vli)))) 0)))
            <$> l, rest).
Proof.
  induction l as [| vli l IH]; intros Hl; [done |].
  rewrite bind_cons, <- app_assoc. cbn [length readLayers].
  specialize (IH (fun i Hi => Hl i (proj2 (elem_of_cons l i vli) (or_intror Hi)))).
  revert IH. generalize ((l ≫= fun vli => writeLayer sc vli) ++ rest). intros tl IH.
  unfold readLayer, writeLayer. rewrite <- !app_assoc.
  rewrite readInt3_write. cbn [mbind option_bind].
  cbn [app Raw.readInt mbind option_bind].
  rewrite readFloat2_write. cbn [mbind option_bind].
  rewrite readFloat2_write. cbn [mbind option_bind].
  rewrite readInt2_write. cbn [mbind option_bind].
  rewrite get_put. cbn [mbind option_bind].
  destruct (Z.ltb_spec (x3 (_size (desc sc vli)) * y3 (_size (desc sc vli))) 0) as [Hneg | _].
  { specialize (Hl vli ltac:(apply elem_of_cons; by left)). lia. }
  cbn [mbind option_bind]. rewrite IH.
  cbn [mbind option_bind]. rewrite fmap_cons. do 3 f_equal.
  unfold set_reconCs. by destruct (desc sc vli).
Qed.

Lemma coder_round_trip sc rest :
  length (_visibleLayerDescs sc) = length (_visibleLayers sc) ->
  0 <= x3 (_hiddenSize sc) * y3 (_hiddenSize sc) * z3 (_hiddenSize sc) ->
  Forall (fun vld => 0 <= x3 (_size vld) * y3 (_size vld)) (_visibleLayerDescs sc) ->
  readFromStream (writeToStream sc ++ rest) = Some (persisted sc, rest).
Proof.
  intros Hlen Hnum Hdescs.
  pose proof (readLayers_write sc (seq 0 (length (_visibleLayers sc))) rest) as Hls.
  rewrite length_seq in Hls.
  unfold readFromStream, writeToStream.
  rewrite <- !app_assoc. revert Hls.
  generalize ((seq 0 (length (_visibleLayers sc)) ≫= fun vli => writeLayer sc vli) ++ rest).
  intros tl Hls. rewrite readInt3_write. cbn [mbind option_bind].
  cbn [app Raw.readFloat Raw.readInt mbind option_bind].
  rewrite get_put. cbn [mbind option_bind].
  destruct (Z.ltb_spec (x3 (_hiddenSize sc) * y3 (_hiddenSize sc) * z3 (_hiddenSize sc)) 0);
    [lia |].
  cbn [app Raw.readFloat Raw.readInt mbind option_bind].
  destruct (Z.ltb_spec (Z.of_nat (length (_visibleLayers sc))) 0); [lia |].
  rewrite Nat2Z.id.
  rewrite Hls.
  2:{ intros vli Hvli. apply elem_of_seq in Hvli.
      destruct (lookup_lt_is_Some_2 (_visibleLayerDescs sc) vli ltac:(lia)) as [vld Hvld].
      unfold desc. rewrite (list_lookup_total_correct _ _ _ Hvld).
      by eapply Forall_lookup_1 in Hdescs. }
  cbn [mbind option_bind]. unfold persisted. do 2 f_equal.
  rewrite <- !list_fmap_compose.
  assert (Hd : (fun vli => desc sc vli) <$> seq 0 (length (_visibleLayers sc)) =
               _visibleLayerDescs sc).
  { rewrite <- Hlen. apply fmap_lookup_total_seq. }
  f_equal.
  - apply list_eq. intros i. rewrite list_lookup_fmap, lookup_zip_with.
    destruct (decide (i < length (_visibleLayers sc))%nat) as [Hi | Hi].
    + rewrite lookup_seq_lt by done.
      destruct (lookup_lt_is_Some_2 (_visibleLayers sc) i Hi) as [vl Hvl].
      destruct (lookup_lt_is_Some_2 (_visibleLayerDescs sc) i ltac:(lia)) as [vld Hvld].
      rewrite Hvl, Hvld. simpl. unfold layer, desc.
      by rewrite (list_lookup_total_correct _ _ _ Hvl), (list_lookup_total_correct _ _ _ Hvld).
    + rewrite lookup_seq_ge by lia. simpl.
      by rewrite (proj2 (lookup_ge_None (_visibleLayers sc) i)) by lia.
  - exact Hd.
Qed.

Lemma persisted_sameModel sc :
  sized sc ->
  Z.of_nat (length (_hiddenActivations sc)) =
    x3 (_hiddenSize sc) * y3 (_hiddenSize sc) * z3 (_hiddenSize sc) ->
  length (_visibleLayerDescs sc) = length (_visibleLayers sc) ->
  sameModel sc (persisted sc).
Proof.
  intros (Hx & Hy & Hz & Hcs & Hlay) Hacts Hlen. unfold sameModel, persisted. simpl.
  split; [done |]. split; [done |]. split; [done |]. split; [done |].
  split; [done |]. split; [rewrite length_replicate; lia |].
  apply Forall2_same_length_lookup. split; [rewrite length_zip_with; lia |].
  intros i vl vl' Hvl Hvl'. rewrite lookup_zip_with, Hvl in Hvl'. simpl in Hvl'.
  destruct (_visibleLayerDescs sc !! i) as [vld |] eqn:Hvld; [| done].
  simpl in Hvl'. injection Hvl' as <-. simpl. split; [done |].
  rewrite length_replicate.
  destruct (Hlay i vl Hvl) as (? & ? & ? & Hr). unfold desc in *.
  rewrite (list_lookup_total_correct _ _ _ Hvld) in *. lia.
Qed.
End CoderPersist.

Section ActorPersist.
Import Actor.
Context `{Codec IntBuffer} `{Codec SparseMatrix.t}.
Implicit Types (a : State).

Lemma actor_readLayers_write a (l : list nat) rest :
  readLayers (length l) ((vli ← l; writeLayer a vli) ++ rest) =
    Some ((fun vli => (_visibleLayerDescs a !!! vli, _visibleLayers a !!! vli)) <$> l, rest).
Proof.
  induction l as [| vli l IH]; [done |].
  rewrite bind_cons, <- app_assoc. cbn [length readLayers].
  revert IH. generalize ((l ≫= fun vli => writeLayer a vli) ++ rest). intros tl IH.
  unfold readLayer, writeLayer. rewrite <- !app_assoc.
  rewrite readInt3_write. cbn [mbind option_bind].
  cbn [app Raw.readInt mbind option_bind].
  rewrite get_put. cbn [mbind option_bind]. rewrite IH.
  cbn [mbind option_bind]. rewrite fmap_cons. do 3 f_equal.
  by destruct (_visibleLayerDescs a !!! vli), (_visibleLayers a !!! vli).
Qed.

Lemma readBuffers_write (bs : list IntBuffer) (l : list nat) rest :
  readBuffers (length l) ((vli ← l; put (bs !!! vli)) ++ rest) =
    Some ((fun vli => bs !!! vli) <$> l, rest).
Proof.
  induction l as [| vli l IH]; [done |].
  rewrite bind_cons, <- app_assoc. cbn [length readBuffers].
  rewrite get_put. cbn [mbind option_bind]. rewrite IH. done.
Qed.

Lemma readSample_write a (t : nat) rest :
  let s := deref a (_historySamples a !!! t) in
  length (HistorySample._inputCs s) = length (_visibleLayers a) ->
  readSample (length (_visibleLayers a)) (writeSample a t ++ rest) = Some (s, rest).
Proof.
  intros s Hlen. unfold readSample, writeSample. fold s. rewrite <- !app_assoc.
  pose proof (readBuffers_write (HistorySample._inputCs s)
                (seq 0 (length (_visibleLayers a)))
                (put (HistorySample._hiddenCs s) ++ put (HistorySample._feedBackCs s) ++ rest))
    as Hbs.
  rewrite length_seq in Hbs. rewrite Hbs. cbn [mbind option_bind].
  rewrite get_put. cbn [mbind option_bind].
  rewrite get_put. cbn [mbind option_bind].
  rewrite <- Hlen, fmap_lookup_total_seq. by destruct s.
Qed.

Lemma readSamples_write a (l : list nat) rest :
  (forall t, t ∈ l ->
     length (HistorySample._inputCs (deref a (_historySamples a !!! t))) =
     length (_visibleLayers a)) ->
  readSamples (length l) (length (_visibleLayers a)) ((t ← l; writeSample a t) ++ rest) =
    Some ((fun t => deref a (_historySamples a !!! t)) <$> l, rest).
Proof.
  induction l as [| t l IH]; intros Hl; [done |].
  rewrite bind_cons, <- app_assoc. cbn [length readSamples].
  rewrite readSample_write by (apply Hl, elem_of_cons; by left).
  cbn [mbind option_bind].
  rewrite IH by (intros i Hi; apply Hl, elem_of_cons; by right). done.
Qed.

Lemma actor_round_trip a rest :
  length (_visibleLayerDescs a) = length (_visibleLayers a) ->
  Forall (fun p => length (HistorySample._inputCs (deref a p)) = length (_visibleLayers a))
         (_historySamples a) ->
  readFromStream (writeToStream a ++ rest) = Some (assign a, rest).
Proof.
  intros Hlen Hss.
  pose proof (readSamples_write a (seq 0 (length (_historySamples a))) rest) as Hrs.
  rewrite length_seq in Hrs.
  unfold readFromStream, writeToStream. rewrite <- !app_assoc.
  revert Hrs.
  generalize ((seq 0 (length (_historySamples a)) ≫= fun t => writeSample a t) ++ rest).
  intros tl2 Hrs.
  pose proof (actor_readLayers_write a (seq 0 (length (_visibleLayers a)))
                ([DInt (Z.of_nat (length (_historySamples a)))] ++ tl2)) as Hls.
  rewrite length_seq in Hls. revert Hls.
  generalize ((seq 0 (length (_visibleLayers a)) ≫= fun vli => writeLayer a vli) ++
              [DInt (Z.of_nat (length (_historySamples a)))] ++ tl2).
  intros tl1 Hls.
  rewrite readInt3_write. cbn [mbind option_bind].
  cbn [app Raw.readFloat Raw.readInt mbind option_bind].
  rewrite get_put. cbn [mbind option_bind].
  rewrite get_put. cbn [mbind option_bind].
  cbn [app Raw.readFloat Raw.readInt mbind option_bind].
  destruct (Z.ltb_spec (Z.of_nat (length (_visibleLayers a))) 0); [lia |].
  rewrite Nat2Z.id, Hls. cbn [mbind option_bind].
  cbn [app Raw.readFloat Raw.readInt mbind option_bind].
  destruct (Z.ltb_spec (Z.of_nat (length (_historySamples a))) 0); [lia |].
  rewrite Nat2Z.id, Hrs.
  2:{ intros t Ht. apply elem_of_seq in Ht.
      destruct (lookup_lt_is_Some_2 (_historySamples a) t ltac:(lia)) as [p Hp].
      rewrite (list_lookup_total_correct _ _ _ Hp).
      by eapply Forall_lookup_1 in Hss. }
  cbn [mbind option_bind]. unfold assign. do 2 f_equal.
  rewrite <- !list_fmap_compose.
  assert (Hsam : (fun t => deref a (_historySamples a !!! t)) <$>
                   seq 0 (length (_historySamples a)) = deref a <$> _historySamples a).
  { transitivity (deref a <$> ((fun t => _historySamples a !!! t) <$>
                                 seq 0 (length (_historySamples a)))).
    - by rewrite <- list_fmap_compose.
    - by rewrite fmap_lookup_total_seq. }
  rewrite Hsam, length_fmap.
  f_equal.
  - apply (fmap_lookup_total_seq (_visibleLayers a)).
  - rewrite <- Hlen. apply (fmap_lookup_total_seq (_visibleLayerDescs a)).
Qed.
End ActorPersist.

(** ** Copies of the actor *)

Section ActorCopy.
Import Actor.
Context {G : Type} `{UniformInt G}.
Implicit Types (a b : State) (rng : G).

Lemma forwardPass_set_history rng i a n p st :
  forwardPass rng i (set_history a n p st) = set_history (forwardPass rng i a) n p st.
Proof. rewrite !forwardPass_writes. reflexivity. Qed.

Lemma learn_set_history pos rng i h f ip a n p st :
  learn pos rng i h f ip (set_history a n p st) =
    (fun r => set_history r n p st) <$> learn pos rng i h f ip a.
Proof.
  unfold learn.
  change (qActionPrev (scan (set_history a n p st) pos i ip (targetOf (set_history a n p st) pos h)))
    with (qActionPrev (scan a pos i ip (targetOf a pos h))).
  destruct (qActionPrev _); [| done]. cbn [mbind option_bind].
  change (nextQActionPrev (scan (set_history a n p st) pos i ip (targetOf (set_history a n p st) pos h)))
    with (nextQActionPrev (scan a pos i ip (targetOf a pos h))).
  destruct (nextQActionPrev _); [| done]. reflexivity.
Qed.

Lemma learn_fold_set_history rng i h f ip (l : list Int2) (oa : option State) n p st :
  foldl (fun oa pos => a ← oa; learn pos rng i h f ip a)
        ((fun r => set_history r n p st) <$> oa) l =
  (fun r => set_history r n p st) <$>
    foldl (fun oa pos => a ← oa; learn pos rng i h f ip a) oa l.
Proof.
  revert oa. induction l as [| pos l IH]; intros oa; [done |].
  cbn [foldl]. rewrite <- IH. f_equal.
  destruct oa as [a |]; [| done]. simpl. apply learn_set_history.
Qed.

Lemma learnPass_set_history rng i h f ip a n p st :
  learnPass rng i h f ip (set_history a n p st) =
    (fun r => set_history r n p st) <$> learnPass rng i h f ip a.
Proof. unfold learnPass. apply (learn_fold_set_history rng i h f ip _ (Some a)). Qed.

Lemma replaySpec_set_history iters rng hist a n p st :
  replaySpec iters rng hist (set_history a n p st) =
    (fun r => (r.1, set_history r.2 n p st)) <$> replaySpec iters rng hist a.
Proof.
  revert rng a. induction iters as [| iters IH]; intros rng a; [done |].
  cbn [replaySpec].
  destruct (uniform_int 0 (Z.of_nat (length hist) - 2) rng) as [t rng1].
  rewrite learnPass_set_history.
  destruct (learnPass rng1 _ _ _ _ a) as [a1 |]; [| done].
  simpl. apply IH.
Qed.

Lemma alike_refl a : alike a a.
Proof. split; [by destruct a | done]. Qed.

(** One call of [step] on two actors that hold the same. *)
Lemma step_alike (cs cs' : ComputeSystem G) a b a' (i : StepInput) :
  wellFormed a -> wellFormed b -> alike a b -> shaped a (sampleOf i) ->
  step cs (stepInputCs i) (stepHiddenCs i) (stepFeedBackCs i) (stepLearn i) a
    = Some (cs', a') ->
  exists b',
    step cs (stepInputCs i) (stepHiddenCs i) (stepFeedBackCs i) (stepLearn i) b
      = Some (cs', b') /\
    alike a' b'.
Proof.
  intros Hwa Hwb (Hb & Hlen & Hhist) Hi Hstep.
  assert (Hib : shaped b (sampleOf i)) by (by rewrite Hb).
  rewrite (step_appended cs a i Hwa Hi) in Hstep.
  rewrite (step_appended cs b i Hwb Hib). cbv zeta in *.
  set (af := forwardPass (_rng cs) (stepInputCs i) a) in *.
  set (bf := forwardPass (_rng cs) (stepInputCs i) b).
  assert (Hbf : bf = set_history af (_historySize a) (_historySamples b) (_store b)).
  { unfold bf, af. rewrite Hb at 1. apply forwardPass_set_history. }
  assert (Hwaf : wellFormed af).
  { unfold af. rewrite forward_pass_frame. exact Hwa. }
  assert (Hwbf : wellFormed bf).
  { unfold bf. rewrite forward_pass_frame. exact Hwb. }
  assert (Hiaf : shaped af (sampleOf i)).
  { unfold af. rewrite forward_pass_frame. exact Hi. }
  assert (Hibf : shaped bf (sampleOf i)).
  { unfold bf. rewrite forward_pass_frame. exact Hib. }
  destruct (added_history af i Hwaf Hiaf) as (Hwa1 & _ & Hca1 & Hsa1 & Hha1).
  destruct (added_history bf i Hwbf Hibf) as (Hwb1 & _ & Hcb1 & Hsb1 & Hhb1).
  set (a1 := added _ _ _ af) in *.
  set (b1 := added _ _ _ bf) in *.
  assert (Hsaf : _historySize af = _historySize a /\
                 _historySamples af = _historySamples a /\ history af = history a).
  { unfold af. rewrite forward_pass_frame. done. }
  assert (Hsbf : _historySize bf = _historySize a /\
                 _historySamples bf = _historySamples b /\ history bf = history b).
  { rewrite Hbf. unfold history, deref. simpl. split; [done |]. split; [done |].
    rewrite Hb. done. }
  destruct Hsaf as (Hsaf & Hpaf & Hhaf). destruct Hsbf as (Hsbf & Hpbf & Hhbf).
  assert (Hs1 : _historySize b1 = _historySize a1).
  { rewrite Hsa1, Hsb1, Hsaf, Hsbf, Hpaf, Hpbf, Hlen. done. }
  assert (Hh1 : history b1 = history a1).
  { rewrite Hha1, Hhb1, Hhaf, Hhbf, Hpaf, Hpbf, Hlen, Hhist. done. }
  assert (Hb1 : b1 = set_history a1 (_historySize a1) (_historySamples b1) (_store b1)).
  { rewrite <- Hs1. unfold b1, a1. rewrite Hbf. unfold added. reflexivity. }
  assert (Hl1 : length (_historySamples b1) = length (_historySamples a1)).
  { rewrite Hca1, Hcb1, Hpaf, Hpbf. done. }
  rewrite Hs1.
  destruct Hwb1 as (_ & _ & _ & Hrb1).
  clear Hsb1 Hhb1 Hcb1.
  remember (_historySamples b1) as pb1 eqn:Epb. remember (_store b1) as sb1 eqn:Esb.
  clear Epb Esb. clearbody b1. subst b1.
  destruct (stepLearn i && (2 <? _historySize a1)) eqn:Hready.
  - apply andb_true_iff in Hready as [_ Hn]. apply Z.ltb_lt in Hn.
    destruct Hwa1 as (_ & _ & _ & Hra1).
    rewrite (replay_replaySpec _ cs a1 (history a1) eq_refl) in Hstep by lia.
    rewrite (replay_replaySpec _ cs _ (history a1)) by (done || (simpl in *; lia)).
    change (_historyIters (set_history a1 (_historySize a1) pb1 sb1))
      with (_historyIters a1).
    rewrite replaySpec_set_history.
    destruct (replaySpec _ (_rng cs) (history a1) a1) as [[rng' a2] |] eqn:E; [| done].
    simpl in Hstep. injection Hstep as <- <-. simpl.
    eexists. split; [done |].
    assert (Ho : onlyWeights a1 a2).
    { assert (Hrep : replay (Z.to_nat (_historyIters a1)) cs a1 = Some (mkCS rng', a2)).
      { rewrite (replay_replaySpec _ cs a1 (history a1) eq_refl) by lia. by rewrite E. }
      by apply replay_frame in Hrep as [? _]. }
    split; [| split].
    + simpl. rewrite Ho. reflexivity.
    + simpl. rewrite Ho. simpl. done.
    + rewrite (onlyWeights_history a1 a2 Ho), <- Hh1. rewrite Ho. reflexivity.
  - injection Hstep as <- <-. eexists. split; [done |]. done.
Qed.

(** A run of calls on two actors that hold the same. *)
Lemma feed_alike (steps : list StepInput) :
  forall (cs cs' : ComputeSystem G) a b a',
  wellFormed a -> wellFormed b -> alike a b ->
  Forall (fun i => shaped a (sampleOf i)) steps ->
  feed cs a steps = Some (cs', a') ->
  exists b', feed cs b steps = Some (cs', b') /\ alike a' b'.
Proof.
  induction steps as [| i steps IH]; intros cs cs' a b a' Hwa Hwb Hab Hsh Hfeed.
  - simpl in Hfeed. injection Hfeed as <- <-. by exists b.
  - apply Forall_cons in Hsh as [Hi Hsh]. simpl in Hfeed.
    destruct (step cs _ _ _ _ a) as [[cs1 a1] |] eqn:E; [| done]. simpl in Hfeed.
    destruct (step_alike cs cs1 a b a1 i Hwa Hwb Hab Hi E) as (b1 & Eb & Hab1).
    assert (Hib : shaped b (sampleOf i)) by (destruct Hab as (-> & _); exact Hi).
    destruct (step_history cs cs1 a a1 i Hwa Hi E) as (Hwa1 & Hg1 & _).
    destruct (step_history cs cs1 b b1 i Hwb Hib Eb) as (Hwb1 & _).
    assert (Hsh1 : Forall (fun i => shaped a1 (sampleOf i)) steps).
    { eapply Forall_impl; [exact Hsh |]. intros j Hj. by eapply shaped_sameGrid. }
    destruct (IH cs1 cs' a1 b1 a' Hwa1 Hwb1 Hab1 Hsh1 Hfeed) as (b' & Eb' & Hab').
    exists b'. split; [| done]. simpl. rewrite Eb. done.
Qed.

Lemma assign_slots a :
  deref (assign a) <$> _historySamples (assign a) = deref a <$> _historySamples a.
Proof.
  unfold assign, deref. simpl.
  rewrite <- (length_fmap (fun p => _store a !!! p) (_historySamples a)).
  apply (fmap_lookup_total_seq ((fun p => _store a !!! p) <$> _historySamples a)).
Qed.

Lemma assign_alike a : alike a (assign a).
Proof.
  split; [done |]. split; [unfold assign; simpl; apply length_seq |].
  unfold history. rewrite !fmap_take.
  change (_historySize (assign a)) with (_historySize a).
  by rewrite assign_slots.
Qed.

Lemma assign_wellFormed a : wellFormed a -> wellFormed (assign a).
Proof.
  intros (Hpos & Hnd & Hst & Hsz). unfold wellFormed, assign. simpl.
  rewrite length_seq. split; [done |]. split; [apply NoDup_seq |]. split; [| done].
  intros p Hp. apply elem_of_seq in Hp.
  destruct (lookup_lt_is_Some_2 (_historySamples a) p ltac:(lia)) as [q Hq].
  destruct (Hst q (list_elem_of_lookup_2 _ _ _ Hq)) as (s & Hs & Hsh).
  exists s. split; [| exact Hsh].
  rewrite list_lookup_fmap, Hq. simpl. unfold deref.
  by rewrite (list_lookup_total_correct _ _ _ Hs).
Qed.
End ActorCopy.

Section ActorCopyRuns.
Import Actor.
Context {G : Type} `{UniformInt G}.
Implicit Types (a b : State).

Lemma alike_sym a b : alike a b -> alike b a.
Proof.
  intros (Hb & Hlen & Hh). split; [| by split].
  rewrite Hb. simpl. by destruct a.
Qed.

Lemma alike_shaped a b s : alike a b -> shaped a s -> shaped b s.
Proof. by intros (-> & _). Qed.

(** Runs of two actors that hold the same go the same way. *)
Lemma feed_alike_both (steps : list StepInput) (cs : ComputeSystem G) a b :
  wellFormed a -> wellFormed b -> alike a b ->
  Forall (fun i => shaped a (sampleOf i)) steps ->
  option_Forall2 (fun r r' => r'.1 = r.1 /\ alike r.2 r'.2)
                 (feed cs a steps) (feed cs b steps).
Proof.
  intros Hwa Hwb Hab Hsh.
  destruct (feed cs a steps) as [[cs' a'] |] eqn:Ea.
  - destruct (feed_alike steps cs cs' a b a' Hwa Hwb Hab Hsh Ea) as (b' & -> & Hab').
    by constructor.
  - destruct (feed cs b steps) as [[cs' b'] |] eqn:Eb; [| constructor].
    destruct (feed_alike steps cs cs' b a b' Hwb Hwa (alike_sym a b Hab)) as (a' & Ea' & _);
      [| done | congruence].
    eapply Forall_impl; [exact Hsh |]. intros i Hi. by eapply alike_shaped.
Qed.
End ActorCopyRuns.

(** X11.  What [SparseCoder::writeToStream] writes, [readFromStream]
    reads back as the same coder with the activations and the
    reconstruction codes set to zeros of the sizes of the grids, and it
    leaves what follows in the stream; grids, parameters, hidden codes,
    projection constants and weights are those written.  This needs one
    descriptor per layer and no negative size. *)
Theorem coder_stream_round_trip `{Codec IntBuffer} `{Codec FloatBuffer}
    (sc : SparseCoder.State) (rest : Stream) :
  let hs := SparseCoder._hiddenSize sc in
  length (SparseCoder._visibleLayerDescs sc) = length (SparseCoder._visibleLayers sc) ->
  0 <= x3 hs * y3 hs * z3 hs ->
  Forall (fun vld => 0 <= x3 (SparseCoder._size vld) * y3 (SparseCoder._size vld))
         (SparseCoder._visibleLayerDescs sc) ->
  SparseCoder.readFromStream (SparseCoder.writeToStream sc ++ rest) =
    Some (SparseCoder.persisted sc, rest).
Proof. intros hs. apply coder_round_trip. Qed.

Lemma coder_stream_round_trip_witness :
  SparseCoder.readFromStream (SparseCoder.writeToStream CoderExample.coder ++ [DInt 5]) =
    Some (SparseCoder.persisted CoderExample.coder, [DInt 5]).
Proof.
  apply (coder_stream_round_trip CoderExample.coder [DInt 5]).
  - reflexivity.
  - simpl. lia.
  - constructor; [simpl; lia | constructor].
Defined.

(** X12.  A coder that is written to a stream and read back activates as
    the one that was written: with [explainIters >= 1] and buffers of the
    sizes of the grids, [activate] on the coder read back gives the state
    it gives on the original, so the activations and reconstruction codes
    that the stream leaves out are not missed. *)
Theorem reloaded_coder_activates_alike `{Codec IntBuffer} `{Codec FloatBuffer} {G}
    (cs : ComputeSystem G) (visibleCs : list IntBuffer)
    (sc : SparseCoder.State) (rest : Stream) :
  let hs := SparseCoder._hiddenSize sc in
  SparseCoder.sized sc ->
  Z.of_nat (length (SparseCoder._hiddenActivations sc)) = x3 hs * y3 hs * z3 hs ->
  length (SparseCoder._visibleLayerDescs sc) = length (SparseCoder._visibleLayers sc) ->
  1 <= SparseCoder._explainIters sc ->
  exists sc',
    SparseCoder.readFromStream (SparseCoder.writeToStream sc ++ rest) = Some (sc', rest) /\
    SparseCoder.activate cs visibleCs sc' = SparseCoder.activate cs visibleCs sc.
Proof.
  intros hs Hs Hacts Hlen Hit. exists (SparseCoder.persisted sc). split.
  - apply coder_round_trip; [done | |].
    + destruct Hs as (? & ? & ? & _). unfold hs in *. nia.
    + apply Forall_lookup. intros i vld Hvld.
      destruct (lookup_lt_is_Some_2 (SparseCoder._visibleLayers sc) i) as [vl Hvl].
      { rewrite <- Hlen. by eapply lookup_lt_Some. }
      destruct Hs as (_ & _ & _ & _ & Hlay).
      destruct (Hlay i vl Hvl) as (? & ? & _). unfold SparseCoder.desc in *.
      rewrite (list_lookup_total_correct _ _ _ Hvld) in *. nia.
  - apply activate_forgets; [done | done | done |]. by apply persisted_sameModel.
Qed.

Lemma reloaded_coder_activates_alike_witness :
  exists sc',
    SparseCoder.readFromStream (SparseCoder.writeToStream CoderExample.coder ++ [])
      = Some (sc', []) /\
    SparseCoder.activate (mkCS 0) CoderExample.input sc' =
    SparseCoder.activate (mkCS 0) CoderExample.input CoderExample.coder.
Proof.
  apply (reloaded_coder_activates_alike (mkCS 0) CoderExample.input CoderExample.coder []).
  - unfold SparseCoder.sized. simpl.
    split; [lia |]. split; [lia |]. split; [lia |]. split; [reflexivity |].
    intros [| ?] vl; simpl; [| discriminate]. intros [= <-].
    split; [lia |]. split; [lia |]. split; [lia | reflexivity].
  - reflexivity.
  - reflexivity.
  - simpl. lia.
Defined.

(** X13.  What [Actor::writeToStream] writes, [readFromStream] reads back
    as the copy that [operator=] makes of the actor: every member is the
    one written and the history has a sample of its own per slot, each
    equal to the one the slot of the written actor pointed to; what
    follows in the stream is left.  This needs one descriptor per layer
    and one input buffer per layer in every sample. *)
Theorem actor_stream_round_trip `{Codec IntBuffer} `{Codec SparseMatrix.t}
    (a : Actor.State) (rest : Stream) :
  length (Actor._visibleLayerDescs a) = length (Actor._visibleLayers a) ->
  Forall (fun p => length (Actor.HistorySample._inputCs (Actor.deref a p)) =
                   length (Actor._visibleLayers a))
         (Actor._historySamples a) ->
  Actor.readFromStream (Actor.writeToStream a ++ rest) = Some (Actor.assign a, rest).
Proof. apply actor_round_trip. Qed.

Lemma actor_stream_round_trip_witness :
  Actor.readFromStream (Actor.writeToStream Example.seasoned ++ [DInt 5]) =
    Some (Actor.assign Example.seasoned, [DInt 5]).
Proof.
  apply (actor_stream_round_trip Example.seasoned [DInt 5]).
  - reflexivity.
  - repeat constructor.
Defined.

(** X14.  The copy that [operator=] makes of a well-formed actor is well
    formed, holds the same history, and from then on behaves as the
    original: a run of [step]s on inputs of the right shape faults on both
    or returns on both, with the same generator, and the two actors again
    hold the same (hidden codes, weights, parameters, history). *)
Theorem a_copy_behaves_alike {G} `{UniformInt G} (cs : ComputeSystem G)
    (a : Actor.State) (steps : list StepInput) :
  Actor.wellFormed a ->
  Forall (fun i => Actor.shaped a (sampleOf i)) steps ->
  Actor.wellFormed (Actor.assign a) /\
  Actor.history (Actor.assign a) = Actor.history a /\
  option_Forall2 (fun r r' => r'.1 = r.1 /\ Actor.alike r.2 r'.2)
                 (feed cs a steps) (feed cs (Actor.assign a) steps).
Proof.
  intros Hwf Hsh. split; [by apply assign_wellFormed |].
  split; [apply assign_alike |].
  apply feed_alike_both; [done | by apply assign_wellFormed | apply assign_alike | done].
Qed.

Lemma fresh_wellFormed : Actor.wellFormed Example.fresh.
Proof.
  assert (Hblank : Actor.shaped Example.fresh Example.blank).
  { repeat split. intros [| [| ?]] b; simpl; intros [= <-]. reflexivity. }
  unfold Actor.wellFormed. simpl.
  split; [lia |]. split; [| split; [| lia]].
  - apply NoDup_ListNoDup. repeat constructor; simpl; lia.
  - intros p Hp. exists Example.blank. split; [| exact Hblank].
    apply list_elem_of_In in Hp. simpl in Hp.
    destruct Hp as [<- | [<- | [<- | []]]]; reflexivity.
Defined.

Lemma run_shaped : Forall (fun i => Actor.shaped Example.fresh (sampleOf i)) Example.run.
Proof. repeat constructor; intros [| [| ?]] b; simpl; intros [= <-]; reflexivity. Defined.

Lemma a_copy_behaves_alike_witness :
  option_Forall2 (fun r r' => r'.1 = r.1 /\ Actor.alike r.2 r'.2)
    (feed (mkCS 7) Example.fresh Example.run)
    (feed (mkCS 7) (Actor.assign Example.fresh) Example.run).
Proof.
  apply (a_copy_behaves_alike (mkCS 7) Example.fresh Example.run fresh_wellFormed run_shaped).
Defined.

(** ** Creation of the actor *)

Section ActorCreate.
Import Actor.
Context {G : Type} `{UniformReal G}.
Variable initSMLocalRF : Int3 -> Int3 -> Z -> SparseMatrix.t.
Implicit Types (a : State) (rng : G).

Lemma draw_loop lo hi (l : list Z) (vals : FloatBuffer) rng :
  F32.ltb lo hi = true ->
  exists ws rng',
    foldl (fun st i => let '(v, rng) := uniform_real lo hi st.2 in (write st.1 i v, rng))
          (vals, rng) l = (writes ws vals, rng') /\
    ws.*1 = l /\
    Forall (fun w => F32.leb lo w = true /\ F32.leb w hi = true) ws.*2.
Proof.
  intros Hlt. revert vals rng. induction l as [| x l IH]; intros vals rng.
  - by exists [], rng.
  - cbn [foldl]. cbn [fst snd].
    pose proof (uniform_real_range lo hi rng Hlt) as Hband.
    destruct (uniform_real lo hi rng) as [v rng1]. simpl in Hband.
    cbv beta iota.
    destruct (IH (write vals x v) rng1) as (ws & rng' & E & Hk & Hv).
    exists ((x, v) :: ws), rng'. split; [exact E |]. split.
    + by rewrite fmap_cons, Hk.
    + rewrite fmap_cons. by apply Forall_cons.
Qed.

Lemma drawWeights_range lo hi m rng :
  F32.ltb lo hi = true ->
  Forall (fun w => F32.leb lo w = true /\ F32.leb w hi = true)
         (SparseMatrix._nonZeroValues (drawWeights lo hi m rng).1).
Proof.
  intros Hlt. unfold drawWeights.
  destruct (draw_loop lo hi (seqZ 0 (Z.of_nat (length (SparseMatrix._nonZeroValues m))))
              (SparseMatrix._nonZeroValues m) rng Hlt) as (ws & rng' & -> & Hk & Hv).
  simpl. apply writes_cover; [done |].
  intros k Hk'. rewrite Hk. apply elem_of_seqZ. lia.
Qed.

Lemma length_addCounts hs vld m c c' :
  addCounts hs vld m c = Some c' -> length c' = length c.
Proof.
  unfold addCounts. destruct (_ && _); [done |]. intros [= <-].
  generalize (seqZ 0 (x3 hs * y3 hs)). intros l. revert c.
  induction l as [| i l IH]; intros c; [done |].
  cbn [foldl]. rewrite IH. apply length_write.
Qed.

(** The "Create layers" loop: it returns when no layer has depth 0, and
    every layer it has passed holds weights of the band of the draw. *)
Lemma createLayers_loop hs descs (l : list nat) layers counts rng :
  (forall vli, vli ∈ l -> (vli < length layers)%nat /\
                          z3 (_size (descs !!! vli)) <> 0) ->
  exists layers' counts' rng',
    foldl (createLayer initSMLocalRF hs descs) (Some (layers, counts, rng)) l =
      Some (layers', counts', rng') /\
    length layers' = length layers /\ length counts' = length counts /\
    (forall vli vl, vli ∈ l -> layers' !! vli = Some vl ->
       Forall (fun w => F32.leb F32.lit_neg_0_0001 w = true /\ F32.leb w F32.zero = true)
              (SparseMatrix._nonZeroValues (_weights vl))) /\
    (forall vli, vli ∉ l -> layers' !! vli = layers !! vli).
Proof.
  revert layers counts rng. induction l as [| vli l IH] using rev_ind;
    intros layers counts rng Hl.
  - exists layers, counts, rng. split; [done |]. split; [done |]. split; [done |].
    split; [| done]. intros vli vl Hin. by apply elem_of_nil in Hin.
  - rewrite foldl_app.
    destruct (IH layers counts rng) as (layers1 & counts1 & rng1 & -> & Hlen & Hlc & Hin & Hout).
    { intros i Hi. apply Hl, elem_of_app. by left. }
    destruct (Hl vli) as [Hvli Hz]; [apply elem_of_app; right; by apply list_elem_of_singleton |].
    cbn [foldl]. unfold createLayer at 1. cbn [mbind option_bind].
    pose proof (drawWeights_range F32.lit_neg_0_0001 F32.zero
                  (initSMLocalRF (_size (descs !!! vli)) hs (_radius (descs !!! vli)))
                  rng1 eq_refl) as Hband.
    destruct (drawWeights _ _ _ rng1) as [w rng2]. simpl in Hband.
    destruct (addCounts hs (descs !!! vli) w counts1) as [counts2 |] eqn:Ec.
    2:{ unfold addCounts in Ec. destruct (Z.eqb_spec (z3 (_size (descs !!! vli))) 0); [done |].
        by rewrite andb_false_r in Ec. }
    cbn [mbind option_bind].
    exists (<[vli := mkLayer w]> layers1), counts2, rng2.
    split; [done |]. split; [by rewrite length_insert |].
    split; [by rewrite (length_addCounts _ _ _ _ _ Ec) |].
    split.
    + intros i vl Hi Hvl.
      destruct (decide (i = vli)) as [-> | Hne].
      * rewrite list_lookup_insert_eq in Hvl by lia. by injection Hvl as <-.
      * rewrite list_lookup_insert_ne in Hvl by done.
        apply (Hin i vl); [| done].
        apply elem_of_app in Hi as [Hi | Hi]; [done |].
        by apply list_elem_of_singleton in Hi.
    + intros i Hi. apply not_elem_of_app in Hi as [Hi Hne].
      rewrite list_lookup_insert_ne by (intros ->; apply Hne; by apply list_elem_of_singleton).
      by apply Hout.
Qed.

Lemma alloc_Some n : 0 <= n -> alloc n = Some (replicate (Z.to_nat n) 0).
Proof. intros Hn. unfold alloc. by destruct (Z.ltb_spec n 0); [lia |]. Qed.

Lemma allocAll_Some (ns : list Z) :
  Forall (fun n => 0 <= n) ns ->
  allocAll ns = Some ((fun n => replicate (Z.to_nat n) 0) <$> ns).
Proof.
  induction 1 as [| n ns Hn _ IH]; [done |].
  cbn [allocAll]. rewrite (alloc_Some n Hn). cbn [mbind option_bind]. by rewrite IH.
Qed.

Lemma newSamples_Some n hs descs :
  0 <= x3 hs * y3 hs ->
  Forall (fun vld => 0 <= x3 (_size vld) * y3 (_size vld)) descs ->
  newSamples n hs descs = Some (replicate n (emptySample hs descs)).
Proof.
  intros Hn Hd.
  assert (Hs : newSample hs descs = Some (emptySample hs descs)).
  { unfold newSample. rewrite allocAll_Some by (by apply Forall_fmap).
    cbn [mbind option_bind]. rewrite (alloc_Some _ Hn). cbn [mbind option_bind].
    unfold emptySample. by rewrite <- list_fmap_compose. }
  induction n as [| n IH]; [done |].
  cbn [newSamples]. rewrite Hs. cbn [mbind option_bind]. rewrite IH. done.
Qed.
End ActorCreate.

(** What [initRandom] makes. *)
Lemma initRandom_made {G} `{UniformReal G}
    (initSMLocalRF : Int3 -> Int3 -> Z -> SparseMatrix.t) (cs : ComputeSystem G)
    (hiddenSize : Int3) (historyCapacity : Z)
    (visibleLayerDescs : list Actor.VisibleLayerDesc) (a : Actor.State) :
  let n := x3 hiddenSize * y3 hiddenSize in
  0 <= n -> 0 <= historyCapacity ->
  Forall (fun vld => 0 <= x3 (Actor._size vld) * y3 (Actor._size vld) /\
                     z3 (Actor._size vld) <> 0) visibleLayerDescs ->
  exists cs' a',
    Actor.initRandom initSMLocalRF cs hiddenSize historyCapacity visibleLayerDescs a
      = Some (cs', a') /\
    Actor._hiddenSize a' = hiddenSize /\
    Actor._visibleLayerDescs a' = visibleLayerDescs /\
    length (Actor._visibleLayers a') = length visibleLayerDescs /\
    Forall (fun vl =>
              Forall (fun w => F32.leb F32.lit_neg_0_0001 w = true /\
                               F32.leb w F32.zero = true)
                     (SparseMatrix._nonZeroValues (Actor._weights vl)))
           (Actor._visibleLayers a') /\
    Actor._hiddenCs a' = replicate (Z.to_nat n) 0 /\
    Actor._historySize a' = 0 /\
    Actor._historySamples a' = seq 0 (Z.to_nat historyCapacity) /\
    Actor._store a' =
      replicate (Z.to_nat historyCapacity) (Actor.emptySample hiddenSize visibleLayerDescs).
Proof.
  intros n Hn Hcap Hdescs. unfold Actor.initRandom. fold n.
  rewrite (alloc_Some n Hn). cbn [mbind option_bind].
  set (layers := resize _ _ _).
  assert (Hll : length layers = length visibleLayerDescs) by apply length_resize.
  destruct (createLayers_loop initSMLocalRF hiddenSize visibleLayerDescs
              (seq 0 (length layers)) layers (replicate (Z.to_nat n) 0) (_rng cs))
    as (layers' & counts' & rng' & -> & Hlen & _ & Hin & _).
  { intros vli Hvli. apply elem_of_seq in Hvli. split; [lia |].
    destruct (lookup_lt_is_Some_2 visibleLayerDescs vli ltac:(lia)) as [vld Hvld].
    rewrite (list_lookup_total_correct _ _ _ Hvld).
    eapply Forall_lookup_1 in Hdescs; [| exact Hvld]. by destruct Hdescs. }
  cbn [mbind option_bind].
  destruct (Z.ltb_spec historyCapacity 0); [lia |].
  rewrite (newSamples_Some (Z.to_nat historyCapacity) hiddenSize visibleLayerDescs Hn).
  2:{ eapply Forall_impl; [exact Hdescs |]. by intros vld [? _]. }
  cbn [mbind option_bind]. rewrite length_replicate.
  eexists _, _. split; [reflexivity |]. simpl.
  split; [done |]. split; [done |]. split; [congruence |].
  split.
  { apply Forall_lookup. intros vli vl Hvl. apply (Hin vli vl); [| done].
    apply elem_of_seq. apply lookup_lt_Some in Hvl. lia. }
  done.
Qed.

(** X15.  [Actor::initRandom] on a hidden grid and visible grids without
    negative column counts, layers of depth other than 0 and a capacity
    that is not negative returns an actor with the given grids, one layer
    per descriptor, every weight drawn between [-0.0001f] and [0.0f], zero
    hidden codes, no valid sample and [historyCapacity] slots with samples
    of their own.  Each sample has zeroed input and hidden code buffers of
    the sizes of the grids and a feedback buffer of length 0, which
    [initRandom] never allocates: the actor is well formed only on a
    hidden grid without columns. *)
Theorem initRandom_leaves_feedback_unallocated {G} `{UniformReal G}
    (initSMLocalRF : Int3 -> Int3 -> Z -> SparseMatrix.t) (cs : ComputeSystem G)
    (hiddenSize : Int3) (historyCapacity : Z)
    (visibleLayerDescs : list Actor.VisibleLayerDesc) (a : Actor.State) :
  let n := x3 hiddenSize * y3 hiddenSize in
  0 <= n -> 0 <= historyCapacity ->
  Forall (fun vld => 0 <= x3 (Actor._size vld) * y3 (Actor._size vld) /\
                     z3 (Actor._size vld) <> 0) visibleLayerDescs ->
  exists cs' a',
    Actor.initRandom initSMLocalRF cs hiddenSize historyCapacity visibleLayerDescs a
      = Some (cs', a') /\
    Actor._hiddenSize a' = hiddenSize /\
    Actor._visibleLayerDescs a' = visibleLayerDescs /\
    length (Actor._visibleLayers a') = length visibleLayerDescs /\
    Forall (fun vl =>
              Forall (fun w => F32.leb F32.lit_neg_0_0001 w = true /\
                               F32.leb w F32.zero = true)
                     (SparseMatrix._nonZeroValues (Actor._weights vl)))
           (Actor._visibleLayers a') /\
    Actor._hiddenCs a' = replicate (Z.to_nat n) 0 /\
    Actor._historySize a' = 0 /\
    Actor._historySamples a' = seq 0 (Z.to_nat historyCapacity) /\
    Actor._store a' =
      replicate (Z.to_nat historyCapacity) (Actor.emptySample hiddenSize visibleLayerDescs) /\
    (Actor.wellFormed a' <-> 0 < historyCapacity /\ n = 0).
Proof.
  intros n Hn Hcap Hdescs.
  destruct (initRandom_made initSMLocalRF cs hiddenSize historyCapacity visibleLayerDescs a
              Hn Hcap Hdescs)
    as (cs' & a' & E & Hhs & Hds & Hll & Hw & Hcs & Hsz & Hsam & Hst).
  exists cs', a'.
  split; [done |]. split; [done |]. split; [done |]. split; [done |].
  split; [done |]. split; [done |]. split; [done |]. split; [done |]. split; [done |].
  unfold Actor.wellFormed. rewrite Hsam, Hst, Hsz, length_seq. split.
  - intros (Hpos & _ & Hsl & _). split; [lia |].
    destruct (Hsl 0%nat) as (s & Hs & _ & _ & _ & Hf).
    { apply elem_of_seq. lia. }
    apply lookup_replicate in Hs as [-> _]. simpl in Hf. rewrite Hhs in Hf.
    fold n in Hf. lia.
  - intros [Hpos Hn0]. split; [lia |]. split; [apply NoDup_seq |]. split; [| lia].
    intros p Hp. apply elem_of_seq in Hp.
    exists (Actor.emptySample hiddenSize visibleLayerDescs).
    split; [apply lookup_replicate; split; [done | lia] |].
    unfold Actor.shaped. rewrite Hhs, Hds, Hll. simpl.
    rewrite length_fmap, length_replicate. fold n.
    split; [done |]. split; [| lia].
    intros vli b Hb. rewrite list_lookup_fmap in Hb.
    destruct (visibleLayerDescs !! vli) as [vld |] eqn:Hvld; [| done].
    simpl in Hb. injection Hb as <-.
    rewrite (list_lookup_total_correct _ _ _ Hvld), length_replicate.
    eapply Forall_lookup_1 in Hdescs; [| exact Hvld]. unfold Actor.numColumns. lia.
Qed.

Lemma initRandom_leaves_feedback_unallocated_witness :
  exists cs' a',
    Actor.initRandom (fun _ _ _ => Example.weights) (mkCS 0) (mkInt3 1 1 2) 3
      [Actor.mkDesc (mkInt3 1 1 2) 0] Example.fresh = Some (cs', a') /\
    Actor._store a' =
      replicate 3 (Actor.emptySample (mkInt3 1 1 2) [Actor.mkDesc (mkInt3 1 1 2) 0]) /\
    ~ Actor.wellFormed a'.
Proof.
  assert (Hn : 0 <= x3 (mkInt3 1 1 2) * y3 (mkInt3 1 1 2)) by (simpl; lia).
  assert (Hcap : 0 <= 3) by lia.
  assert (Hd : Forall (fun vld => 0 <= x3 (Actor._size vld) * y3 (Actor._size vld) /\
                                  z3 (Actor._size vld) <> 0)
                 [Actor.mkDesc (mkInt3 1 1 2) 0]).
  { constructor; [simpl; lia | constructor]. }
  destruct (initRandom_leaves_feedback_unallocated (fun _ _ _ => Example.weights) (mkCS 0)
              (mkInt3 1 1 2) 3 [Actor.mkDesc (mkInt3 1 1 2) 0] Example.fresh Hn Hcap Hd)
    as (cs' & a' & E & _ & _ & _ & _ & _ & _ & _ & Hst & Hwf).
  exists cs', a'. split; [exact E |]. split; [exact Hst |].
  intros Hw. apply Hwf in Hw as [_ Hw]. simpl in Hw. lia.
Defined.

(** [step] on an actor whose next slot has no feedback cells. *)
Lemma step_without_feedback {G} `{UniformInt G} (cs : ComputeSystem G)
    inputCs hiddenCs feedBackCs learnEnabled (a : Actor.State) (cap : nat) s :
  0 < x3 (Actor._hiddenSize a) * y3 (Actor._hiddenSize a) ->
  (0 < cap)%nat ->
  Actor._historySize a = 0 ->
  Actor._historySamples a = seq 0 cap ->
  Actor._store a = replicate cap s ->
  Actor.HistorySample._feedBackCs s = [] ->
  Actor.step cs inputCs hiddenCs feedBackCs learnEnabled a = None.
Proof.
  intros Hn Hcap Hsz Hsam Hst Hf. unfold Actor.step.
  rewrite (forward_pass_frame (_rng cs)).
  set (codes := Actor._hiddenCs _). unfold Actor.addSample.
  cbn [Actor._historySize Actor._historySamples Actor._store Actor.set_hiddenCs].
  rewrite Hsz, Hsam, Hst, length_seq.
  destruct (Z.eqb_spec 0 (Z.of_nat cap)) as [E | _]; [lia |].
  cbn [mbind option_bind]. unfold at_index.
  change (0 + 1 - 1 <? 0) with false. change (Z.to_nat (0 + 1 - 1)) with 0%nat.
  cbv iota. rewrite lookup_seq_lt by lia. cbn [mbind option_bind Nat.add].
  rewrite (proj2 (lookup_replicate cap s s 0) (conj eq_refl Hcap)).
  cbn [mbind option_bind].
  rewrite (fillSample_no_feedback (Actor.set_hiddenCs a codes)) by done.
  done.
Qed.

(** C5.  An actor that [initRandom] has made on a hidden grid with columns
    retains no sample.  [initRandom] sizes the input and hidden code
    buffers of every slot but leaves the feedback buffer at length 0, and
    [step] copies one feedback code per column into it: every call of
    [step] on that actor, whatever it is fed, ends in that copy without a
    result, and so does every run of [historyCapacity + k] steps.  The
    FIFO ring of the design document is never filled on such an actor;
    [readFromStream] and [operator=] give a slot all three buffers. *)
Theorem initRandom_actor_retains_no_sample {G} `{UniformReal G} `{UniformInt G}
    (initSMLocalRF : Int3 -> Int3 -> Z -> SparseMatrix.t) (cs : ComputeSystem G)
    (hiddenSize : Int3) (historyCapacity : Z)
    (visibleLayerDescs : list Actor.VisibleLayerDesc) (a : Actor.State) :
  0 < x3 hiddenSize * y3 hiddenSize -> 0 < historyCapacity ->
  Forall (fun vld => 0 <= x3 (Actor._size vld) * y3 (Actor._size vld) /\
                     z3 (Actor._size vld) <> 0) visibleLayerDescs ->
  exists cs' a',
    Actor.initRandom initSMLocalRF cs hiddenSize historyCapacity visibleLayerDescs a
      = Some (cs', a') /\
    (forall (cs0 : ComputeSystem G) inputCs hiddenCs feedBackCs learnEnabled,
       Actor.step cs0 inputCs hiddenCs feedBackCs learnEnabled a' = None) /\
    (forall (cs0 : ComputeSystem G) (steps : list StepInput),
       steps <> [] -> feed cs0 a' steps = None).
Proof.
  intros Hn Hcap Hdescs.
  destruct (initRandom_made initSMLocalRF cs hiddenSize historyCapacity visibleLayerDescs a
              ltac:(lia) ltac:(lia) Hdescs)
    as (cs' & a' & E & Hhs & _ & _ & _ & _ & Hsz & Hsam & Hst).
  assert (Hstep : forall (cs0 : ComputeSystem G) inputCs hiddenCs feedBackCs learnEnabled,
            Actor.step cs0 inputCs hiddenCs feedBackCs learnEnabled a' = None).
  { intros. apply (step_without_feedback _ _ _ _ _ a' (Z.to_nat historyCapacity)
                     (Actor.emptySample hiddenSize visibleLayerDescs));
      [by rewrite Hhs | lia | done | done | done | done]. }
  exists cs', a'. split; [done |]. split; [done |].
  intros cs0 [| i steps] Hne; [done |]. simpl. by rewrite Hstep.
Qed.

Lemma initRandom_actor_retains_no_sample_witness :
  exists cs' a',
    Actor.initRandom (fun _ _ _ => Example.weights) (mkCS 0) (mkInt3 1 1 2) 3
      [Actor.mkDesc (mkInt3 1 1 2) 0] Example.fresh = Some (cs', a') /\
    Actor.step (mkCS 7) [[1]] [0] [0] true a' = None /\
    feed (mkCS 7) a' Example.run = None.
Proof.
  assert (Hn : 0 < x3 (mkInt3 1 1 2) * y3 (mkInt3 1 1 2)) by (simpl; lia).
  assert (Hcap : 0 < 3) by lia.
  assert (Hd : Forall (fun vld => 0 <= x3 (Actor._size vld) * y3 (Actor._size vld) /\
                                  z3 (Actor._size vld) <> 0)
                 [Actor.mkDesc (mkInt3 1 1 2) 0]).
  { constructor; [simpl; lia | constructor]. }
  destruct (initRandom_actor_retains_no_sample (fun _ _ _ => Example.weights) (mkCS 0)
              (mkInt3 1 1 2) 3 [Actor.mkDesc (mkInt3 1 1 2) 0] Example.fresh Hn Hcap Hd)
    as (cs' & a' & E & Hstep & Hfeed).
  exists cs', a'. split; [exact E |]. split; [apply Hstep |].
  apply Hfeed. discriminate.
Defined.

(** ** The predictor *)

Section PredictorFacts.
Import Predictor Helpers.
Context {G : Type} `{UniformReal G}.
Variables (exp sigmoid : F32.float -> F32.float).
Implicit Types (p : State) (rng : G).

(** The third loop of [forward]: either no running sum reaches the cusp
    and the result is 0, or the result is the first code whose running
    sum does. *)
Lemma select_cases cusp (acts : list F32.float) s0 h0 :
  (select cusp s0 h0 acts = 0 /\
   forall k, (k < length acts)%nat ->
     F32.geb (foldl F32.add s0 (take (S k) acts)) cusp = false) \/
  (exists k, (k < length acts)%nat /\ select cusp s0 h0 acts = h0 + Z.of_nat k /\
     F32.geb (foldl F32.add s0 (take (S k) acts)) cusp = true /\
     forall j, (j < k)%nat -> F32.geb (foldl F32.add s0 (take (S j) acts)) cusp = false).
Proof.
  revert s0 h0. induction acts as [| a acts IH]; intros s0 h0.
  - left. split; [done |]. simpl. lia.
  - cbn [select]. destruct (F32.geb (F32.add s0 a) cusp) eqn:E.
    + right. exists 0%nat. simpl.
      split; [lia |]. split; [lia |]. split; [done |]. lia.
    + destruct (IH (F32.add s0 a) (h0 + 1)) as [[Hz Hn] | (k & Hk & Hs & Hr & Hf)].
      * left. split; [done |]. intros [| k] Hk; simpl.
        -- done.
        -- apply Hn. simpl in Hk. lia.
      * right. exists (S k). simpl. split; [lia |]. split; [lia |]. split; [done |].
        intros [| j] Hj; simpl; [done |]. apply Hf. lia.
Qed.

Lemma select_range cusp (acts : list F32.float) :
  0 <= select cusp F32.zero 0 acts < Z.max 1 (Z.of_nat (length acts)).
Proof.
  destruct (select_cases cusp acts F32.zero 0) as [[-> _] | (k & Hk & -> & _)]; lia.
Qed.

Lemma length_boltzmann p pos acts m :
  0 <= z3 (_hiddenSize p) ->
  Z.of_nat (length (boltzmann exp p pos acts m)) = z3 (_hiddenSize p).
Proof. intros Hz. unfold boltzmann. rewrite length_fmap, length_seqZ. lia. Qed.

Lemma drawn_range p pos inputCs u :
  1 <= z3 (_hiddenSize p) -> 0 <= drawn exp p pos inputCs u < z3 (_hiddenSize p).
Proof.
  intros Hz. unfold drawn.
  pose proof (select_range
                (F32.mul u (totalOf (boltzmann exp p pos (columnScan p pos inputCs).1
                                       (columnScan p pos inputCs).2)))
                (boltzmann exp p pos (columnScan p pos inputCs).1
                   (columnScan p pos inputCs).2)) as Hr.
  rewrite length_boltzmann in Hr by lia. lia.
Qed.

(** The forward kernel over the columns [l]: it returns, and it stores a
    code of the grid into the cell of every column of [l]. *)
Lemma predictor_forward_fold_effect inputCs (l : list Int2) p rng :
  0 <= z3 (_hiddenSize p) ->
  exists ws acts' rng',
    (forall temp,
       foldl (fun st pos => st ← st; forward exp pos st.2 inputCs st.1)
             (Some (set_scratch p temp (_hiddenActivations p), rng)) l =
         Some (set_scratch p (writes ws temp) acts', rng')) /\
    ws.*1 = (fun pos => address2C pos (hiddenDims p)) <$> l /\
    Forall (fun c => 0 <= c < Z.max 1 (z3 (_hiddenSize p))) ws.*2.
Proof.
  intros Hz. revert p rng Hz. induction l as [| pos l IH]; intros p rng Hz.
  - by exists [], (_hiddenActivations p), rng.
  - destruct (uniform_real F32.zero F32.one rng) as [u rng1] eqn:Eu.
    set (acts1 := (columnScan p pos inputCs).1).
    destruct (IH (set_scratch p (_hiddenCsTemp p) acts1) rng1 Hz)
      as (ws & acts' & rng' & E & Hk & Hv).
    exists ((address2C pos (hiddenDims p), drawn exp p pos inputCs u) :: ws), acts', rng'.
    split; [| split].
    + intros temp. cbn [foldl]. cbn [mbind option_bind fst snd]. unfold forward at 2.
      change (z3 (_hiddenSize (set_scratch p temp (_hiddenActivations p))))
        with (z3 (_hiddenSize p)).
      destruct (Z.ltb_spec (z3 (_hiddenSize p)) 0); [lia |].
      rewrite Eu. exact (E (write temp (address2C pos (hiddenDims p))
                                   (drawn exp p pos inputCs u))).
    + rewrite !fmap_cons. by rewrite Hk.
    + rewrite fmap_cons. apply Forall_cons. split; [| done].
      cbn [snd]. unfold drawn.
      pose proof (select_range
                (F32.mul u (totalOf (boltzmann exp p pos (columnScan p pos inputCs).1
                                       (columnScan p pos inputCs).2)))
                (boltzmann exp p pos (columnScan p pos inputCs).1
                   (columnScan p pos inputCs).2)) as Hr.
      rewrite length_boltzmann in Hr by lia. lia.
Qed.

Lemma set_scratch_id p : set_scratch p (_hiddenCsTemp p) (_hiddenActivations p) = p.
Proof. by destruct p. Qed.

Lemma predictor_forwardPass_effect inputCs p rng :
  sized p ->
  exists temp' acts' rng',
    forwardPass exp rng inputCs p = Some (set_scratch p temp' acts', rng') /\
    isCSDR (x3 (_hiddenSize p) * y3 (_hiddenSize p)) (z3 (_hiddenSize p)) temp'.
Proof.
  intros (Hx & Hy & Hz & Hlen & Hlt). unfold forwardPass.
  destruct (predictor_forward_fold_effect inputCs
              (Helpers.grid (x3 (_hiddenSize p)) (y3 (_hiddenSize p))) p rng ltac:(lia))
    as (ws & acts' & rng' & E & Hk & Hv).
  specialize (E (_hiddenCsTemp p)). rewrite set_scratch_id in E.
  exists (writes ws (_hiddenCsTemp p)), acts', rng'. split; [done |]. split.
  - by rewrite length_writes.
  - apply writes_cover.
    + eapply Forall_impl; [exact Hv |]. intros c Hc. cbv beta in Hc. lia.
    + intros k Hk'. rewrite Hk.
      apply (grid_covers_address2C (x3 (_hiddenSize p)) (y3 (_hiddenSize p))); lia.
Qed.

Lemma sameShape_refl layers : sameShape layers layers.
Proof. apply Forall2_same_length_lookup. split; [done |]. intros i x y ? ?. by simplify_eq. Qed.

Lemma sameShape_trans l1 l2 l3 : sameShape l1 l2 -> sameShape l2 l3 -> sameShape l1 l3.
Proof.
  unfold sameShape. intros H12 H23. revert l3 H23.
  induction H12 as [| x y l l' (? & ? & ?) _ IH]; intros l3 H23.
  - by inversion H23.
  - inversion H23 as [| ? z ? l3' (? & ? & ?) Hrest]; subst.
    constructor; [| by apply IH]. repeat split; congruence.
Qed.

Lemma length_deltaOHVs m codes delta row oneHotSize :
  length (SparseMatrix._nonZeroValues (SparseMatrix.deltaOHVs m codes delta row oneHotSize)) =
  length (SparseMatrix._nonZeroValues m).
Proof.
  unfold SparseMatrix.deltaOHVs. simpl.
  generalize (SparseMatrix.blocks m row oneHotSize). intros l.
  generalize (SparseMatrix._nonZeroValues m). induction l as [| jj l IH]; intros v; [done |].
  cbn [foldl]. rewrite IH. apply length_write.
Qed.

Lemma learnCell_sameShape p pos targetC inputCs layers hc :
  sameShape layers (learnCell sigmoid p pos targetC inputCs layers hc).
Proof.
  unfold learnCell. apply Forall2_same_length_lookup.
  split; [by rewrite length_for_each |].
  intros i vl vl' Hvl Hvl'. rewrite for_each_lookup, Hvl in Hvl'.
  case_decide; simpl in Hvl'; injection Hvl' as <-; [| done].
  simpl. split; [done |]. split; [done |]. apply length_deltaOHVs.
Qed.

Lemma learn_sameShape pos rng targetCs inputCs p :
  exists layers',
    learn sigmoid pos rng targetCs inputCs p = set_visibleLayers p layers' /\
    sameShape (_visibleLayers p) layers'.
Proof.
  unfold learn. eexists. split; [reflexivity |].
  generalize (seqZ 0 (z3 (_hiddenSize p))). intros l.
  generalize (read 0 targetCs (address2C pos (hiddenDims p))). intros targetC.
  assert (Hgen : forall layers, sameShape (_visibleLayers p) layers ->
            sameShape (_visibleLayers p) (foldl (learnCell sigmoid p pos targetC inputCs) layers l)).
  { induction l as [| hc l IH]; intros layers Hl; [done |].
    cbn [foldl]. apply IH. eapply sameShape_trans; [exact Hl |]. apply learnCell_sameShape. }
  apply Hgen, sameShape_refl.
Qed.

Lemma learn_fold_sameShape rng targetCs inputCs (l : list Int2) p :
  exists layers',
    foldl (fun p pos => learn sigmoid pos rng targetCs inputCs p) p l =
      set_visibleLayers p layers' /\
    sameShape (_visibleLayers p) layers'.
Proof.
  revert p. induction l as [| pos l IH]; intros p.
  - exists (_visibleLayers p). split; [by destruct p | apply sameShape_refl].
  - cbn [foldl].
    destruct (learn_sameShape pos rng targetCs inputCs p) as (l1 & -> & H1).
    destruct (IH (set_visibleLayers p l1)) as (l2 & -> & H2).
    exists l2. split; [done |]. eapply sameShape_trans; [exact H1 | exact H2].
Qed.
End PredictorFacts.

(** X16.  The forward kernel of the predictor draws one number [u] and
    stores, for its column, the first code at which the running sum of
    the exponentials reaches [u * total]; when no running sum reaches it
    (a NaN among them, say) it stores code 0.  The code is one of the grid
    (0 for a grid of depth 0), and the kernel changes no other cell of
    [_hiddenCsTemp], nor [_hiddenCs], the counts or the weights.  This
    holds whatever [exp] computes. *)
Theorem predictor_draws_first_code_reaching_cusp {G} `{UniformReal G}
    (exp : F32.float -> F32.float) (pos : Int2) (rng : G) (inputCs : list IntBuffer)
    (p : Predictor.State) :
  let scan := Predictor.columnScan p pos inputCs in
  let activations := Predictor.boltzmann exp p pos scan.1 scan.2 in
  let draw := uniform_real F32.zero F32.one rng in
  let cusp := F32.mul draw.1 (Predictor.totalOf activations) in
  let col := Helpers.address2C pos (Predictor.hiddenDims p) in
  let depth := z3 (Predictor._hiddenSize p) in
  0 <= depth ->
  0 <= col < Z.of_nat (length (Predictor._hiddenCsTemp p)) ->
  exists p',
    Predictor.forward exp pos rng inputCs p = Some (p', draw.2) /\
    (let c := read 0 (Predictor._hiddenCsTemp p') col in
     0 <= c < Z.max 1 depth /\
     (forall k, 0 <= k < depth ->
        F32.geb (Predictor.sumUpTo activations k) cusp = true ->
        c <= k /\ F32.geb (Predictor.sumUpTo activations c) cusp = true) /\
     ((forall k, 0 <= k < depth ->
         F32.geb (Predictor.sumUpTo activations k) cusp = false) -> c = 0)) /\
    (forall j, j <> col ->
       read 0 (Predictor._hiddenCsTemp p') j = read 0 (Predictor._hiddenCsTemp p) j) /\
    Predictor._hiddenCs p' = Predictor._hiddenCs p /\
    Predictor._hiddenCounts p' = Predictor._hiddenCounts p /\
    Predictor._visibleLayers p' = Predictor._visibleLayers p.
Proof.
  intros scan activations draw cusp col depth Hd Hcol.
  unfold Predictor.forward. fold depth.
  destruct (Z.ltb_spec depth 0); [lia |].
  fold draw. destruct draw as [u rng1] eqn:Ed. eexists. split; [reflexivity |].
  cbn [Predictor._hiddenCsTemp Predictor.set_scratch Predictor._hiddenCs
       Predictor._hiddenCounts Predictor._visibleLayers].
  fold col. rewrite read_write_eq by lia.
  split; [| split; [| done]].
  2:{ intros j Hj. by apply read_write_ne. }
  unfold Predictor.drawn. fold scan. fold activations. cbn [fst] in cusp. fold cusp.
  assert (Hlen : Z.of_nat (length activations) = depth)
    by (apply length_boltzmann; exact Hd).
  assert (Hsum : forall k : nat,
            Predictor.sumUpTo activations (Z.of_nat k) =
            foldl F32.add F32.zero (take (S k) activations)).
  { intros k. unfold Predictor.sumUpTo. do 2 f_equal. lia. }
  destruct (select_cases cusp activations F32.zero 0)
    as [[-> Hn] | (k0 & Hk0 & -> & Hr & Hf)].
  - split; [lia |]. split; [| done].
    intros k Hk Hg. exfalso.
    specialize (Hn (Z.to_nat k) ltac:(lia)). rewrite <- Hsum, Z2Nat.id in Hn by lia.
    congruence.
  - rewrite Z.add_0_l. split; [lia |]. split.
    + intros k Hk Hg. rewrite Hsum. split; [| done].
      destruct (decide (k < Z.of_nat k0)) as [Hlt |]; [| lia]. exfalso.
      specialize (Hf (Z.to_nat k) ltac:(lia)). rewrite <- Hsum, Z2Nat.id in Hf by lia.
      congruence.
    + intros Hnone. specialize (Hnone (Z.of_nat k0) ltac:(lia)).
      rewrite Hsum in Hnone. congruence.
Qed.

Lemma predictor_draws_first_code_reaching_cusp_witness :
  exists p',
    Predictor.forward MoreExamples.flat Example.origin 0 [[1]] MoreExamples.predictor
      = Some (p', 1) /\
    0 <= read 0 (Predictor._hiddenCsTemp p') 0 < 2.
Proof.
  assert (Hd : 0 <= z3 (Predictor._hiddenSize MoreExamples.predictor)) by (simpl; lia).
  assert (Hc : 0 <= Helpers.address2C Example.origin
                      (Predictor.hiddenDims MoreExamples.predictor)
               < Z.of_nat (length (Predictor._hiddenCsTemp MoreExamples.predictor)))
    by (unfold Helpers.address2C, Example.origin; simpl; lia).
  destruct (predictor_draws_first_code_reaching_cusp MoreExamples.flat Example.origin 0
              [[1]] MoreExamples.predictor Hd Hc) as (p' & E & (Hr & _) & _).
  exists p'. split; [exact E | exact Hr].
Defined.

(** X17.  [Predictor::activate] on a predictor whose grid has at least
    one code per column and whose code buffers have one cell per column
    returns, and publishes a prediction that is a CSDR of the hidden
    grid: [_hiddenCs] is the [_hiddenCsTemp] the forward kernels filled.
    Grid, counts, weights, descriptors and [_alpha] are untouched.  This
    holds whatever [exp] computes and whatever the generator draws. *)
Theorem predictor_activate_publishes_codes {G} `{UniformReal G}
    (exp : F32.float -> F32.float) (cs : ComputeSystem G) (inputCs : list IntBuffer)
    (p : Predictor.State) :
  let hs := Predictor._hiddenSize p in
  Predictor.sized p ->
  exists cs' p',
    Predictor.activate exp cs inputCs p = Some (cs', p') /\
    isCSDR (x3 hs * y3 hs) (z3 hs) (Predictor._hiddenCs p') /\
    Predictor._hiddenCs p' = Predictor._hiddenCsTemp p' /\
    Predictor.sized p' /\
    Predictor._hiddenSize p' = hs /\
    Predictor._hiddenCounts p' = Predictor._hiddenCounts p /\
    Predictor._visibleLayers p' = Predictor._visibleLayers p /\
    Predictor._visibleLayerDescs p' = Predictor._visibleLayerDescs p /\
    Predictor._alpha p' = Predictor._alpha p.
Proof.
  intros hs Hs. pose proof Hs as (Hx & Hy & Hz & Hlen & Hlt).
  destruct (predictor_forwardPass_effect exp inputCs p (_rng cs) Hs)
    as (temp' & acts' & rng' & E & Hlen' & Hr).
  unfold Predictor.activate. rewrite E. cbn [mbind option_bind fst snd].
  eexists _, _. split; [reflexivity |].
  cbn [Predictor._hiddenCsTemp Predictor.set_scratch Predictor.set_hiddenCs
       Predictor._hiddenCs Predictor._hiddenSize Predictor._hiddenCounts
       Predictor._visibleLayers Predictor._visibleLayerDescs Predictor._alpha].
  fold hs. rewrite (copy_all (x3 hs * y3 hs) temp' (Predictor._hiddenCs p)) by done.
  split; [by split |]. split; [done |].
  split; [| done].
  unfold Predictor.sized. simpl. fold hs. done.
Qed.

Lemma predictor_activate_publishes_codes_witness :
  exists cs' p',
    Predictor.activate MoreExamples.flat (mkCS 0) [[1]] MoreExamples.predictor
      = Some (cs', p') /\
    isCSDR 1 2 (Predictor._hiddenCs p').
Proof.
  assert (Hs : Predictor.sized MoreExamples.predictor).
  { unfold Predictor.sized. simpl. lia. }
  destruct (predictor_activate_publishes_codes MoreExamples.flat (mkCS 0) [[1]]
              MoreExamples.predictor Hs) as (cs' & p' & E & Hc & _).
  exists cs', p'. split; [exact E | exact Hc].
Defined.

(** X18.  The learn pass of the predictor returns on every grid whose
    depth is not negative, and it never changes the published prediction
    [_hiddenCs], the grid, the counts, the descriptors or [_alpha]; the
    weight matrices keep their sparsity pattern.  With [_alpha == 0.0f]
    it returns at once: nothing is changed and nothing is drawn.  This
    holds whatever [exp] and [sigmoid] compute. *)
Theorem predictor_learn_keeps_the_prediction {G} `{UniformReal G}
    (exp sigmoid : F32.float -> F32.float) (cs : ComputeSystem G)
    (hiddenTargetCs : IntBuffer) (inputCs : list IntBuffer) (p : Predictor.State) :
  0 <= z3 (Predictor._hiddenSize p) ->
  exists cs' p',
    Predictor.learnPass exp sigmoid cs hiddenTargetCs inputCs p = Some (cs', p') /\
    Predictor._hiddenCs p' = Predictor._hiddenCs p /\
    Predictor._hiddenSize p' = Predictor._hiddenSize p /\
    Predictor._hiddenCounts p' = Predictor._hiddenCounts p /\
    Predictor._visibleLayerDescs p' = Predictor._visibleLayerDescs p /\
    Predictor._alpha p' = Predictor._alpha p /\
    Predictor.sameShape (Predictor._visibleLayers p) (Predictor._visibleLayers p') /\
    (F32.eqb (Predictor._alpha p) F32.zero = true -> cs' = cs /\ p' = p).
Proof.
  intros Hz. unfold Predictor.learnPass.
  destruct (F32.eqb (Predictor._alpha p) F32.zero) eqn:Ea.
  - exists cs, p. repeat split; try done. apply sameShape_refl.
  - destruct (predictor_forward_fold_effect exp inputCs
                (Helpers.grid (x3 (Predictor._hiddenSize p)) (y3 (Predictor._hiddenSize p)))
                p (_rng cs) Hz) as (ws & acts' & rng' & E & _ & _).
    specialize (E (Predictor._hiddenCsTemp p)). rewrite set_scratch_id in E.
    unfold Predictor.forwardPass. rewrite E. cbn [mbind option_bind fst snd].
    set (p1 := Predictor.set_scratch p _ _).
    destruct (learn_fold_sameShape sigmoid rng' hiddenTargetCs inputCs
                (Helpers.grid (x3 (Predictor._hiddenSize p1)) (y3 (Predictor._hiddenSize p1)))
                p1) as (layers' & -> & Hsh).
    eexists _, _. split; [reflexivity |]. simpl. repeat split; try done.
Qed.

Lemma predictor_learn_keeps_the_prediction_witness :
  exists cs' p',
    Predictor.learnPass MoreExamples.flat MoreExamples.flat (mkCS 0) [1] [[1]]
      MoreExamples.predictor = Some (cs', p') /\
    Predictor._hiddenCs p' = Predictor._hiddenCs MoreExamples.predictor.
Proof.
  assert (Hd : 0 <= z3 (Predictor._hiddenSize MoreExamples.predictor)) by (simpl; lia).
  destruct (predictor_learn_keeps_the_prediction MoreExamples.flat MoreExamples.flat
              (mkCS 0) [1] [[1]] MoreExamples.predictor Hd) as (cs' & p' & E & Hc & _).
  exists cs', p'. split; [exact E | exact Hc].
Defined.

Section PredictorPersist.
Import Predictor.
Context `{Codec IntBuffer} `{Codec FloatBuffer} `{Codec SparseMatrix.t}.
Implicit Types (p : State).

Lemma predictor_readLayers_write p (l : list nat) rest :
  readLayers (length l) ((vli ← l; writeLayer p vli) ++ rest) =
    Some ((fun vli => (_visibleLayerDescs p !!! vli, _visibleLayers p !!! vli)) <$> l, rest).
Proof.
  induction l as [| vli l IH]; [done |].
  rewrite bind_cons, <- app_assoc. cbn [length readLayers].
  revert IH. generalize ((l ≫= fun vli => writeLayer p vli) ++ rest). intros tl IH.
  unfold readLayer, writeLayer. rewrite <- !app_assoc.
  rewrite readInt3_write. cbn [mbind option_bind].
  cbn [app Raw.readInt mbind option_bind].
  rewrite get_put. cbn [mbind option_bind]. rewrite IH.
  cbn [mbind option_bind]. rewrite fmap_cons. do 3 f_equal.
  by destruct (_visibleLayerDescs p !!! vli), (_visibleLayers p !!! vli).
Qed.

Lemma predictor_round_trip p rest :
  length (_visibleLayerDescs p) = length (_visibleLayers p) ->
  0 <= x3 (_hiddenSize p) * y3 (_hiddenSize p) ->
  readFromStream (writeToStream p ++ rest) = Some (persisted p, rest).
Proof.
  intros Hlen Hn.
  pose proof (predictor_readLayers_write p (seq 0 (length (_visibleLayers p))) rest) as Hls.
  rewrite length_seq in Hls.
  unfold readFromStream, writeToStream. rewrite <- !app_assoc. revert Hls.
  generalize ((seq 0 (length (_visibleLayers p)) ≫= fun vli => writeLayer p vli) ++ rest).
  intros tl Hls.
  rewrite readInt3_write. cbn [mbind option_bind].
  cbn [app Raw.readFloat Raw.readInt mbind option_bind].
  rewrite get_put. cbn [mbind option_bind].
  rewrite (alloc_Some _ Hn). cbn [mbind option_bind].
  rewrite get_put. cbn [mbind option_bind].
  rewrite get_put. cbn [mbind option_bind].
  cbn [app Raw.readFloat Raw.readInt mbind option_bind].
  destruct (Z.ltb_spec (Z.of_nat (length (_visibleLayers p))) 0); [lia |].
  rewrite Nat2Z.id, Hls. cbn [mbind option_bind].
  unfold persisted, set_scratch. do 2 f_equal.
  rewrite <- !list_fmap_compose. f_equal.
  - apply (fmap_lookup_total_seq (_visibleLayers p)).
  - rewrite <- Hlen. apply (fmap_lookup_total_seq (_visibleLayerDescs p)).
Qed.
End PredictorPersist.

Section PredictorReload.
Import Predictor.
Context {G : Type} `{UniformReal G}.
Variable exp : F32.float -> F32.float.

(** [activate] forgets the [_hiddenCsTemp] that it finds. *)
Lemma predictor_activate_forgets (cs : ComputeSystem G) inputCs p temp :
  sized p -> length temp = length (_hiddenCsTemp p) ->
  activate exp cs inputCs (set_scratch p temp (_hiddenActivations p)) =
  activate exp cs inputCs p.
Proof.
  intros (Hx & Hy & Hz & Hlen & Hlt) Htemp. unfold activate, forwardPass.
  destruct (predictor_forward_fold_effect exp inputCs
              (Helpers.grid (x3 (_hiddenSize p)) (y3 (_hiddenSize p))) p (_rng cs)
              ltac:(lia)) as (ws & acts' & rng' & E & Hk & _).
  pose proof (E (_hiddenCsTemp p)) as E1. rewrite set_scratch_id in E1.
  change (_hiddenSize (set_scratch p temp (_hiddenActivations p))) with (_hiddenSize p).
  rewrite (E temp), E1. cbn [mbind option_bind fst snd].
  rewrite (writes_forget ws temp (_hiddenCsTemp p)); [done | done |].
  intros k Hk'. rewrite Hk.
  apply (grid_covers_address2C (x3 (_hiddenSize p)) (y3 (_hiddenSize p))); lia.
Qed.
End PredictorReload.

(** X19.  What [Predictor::writeToStream] writes, [readFromStream] reads
    back as the same predictor with [_hiddenCsTemp] set to zeros, one per
    hidden column, leaving what follows in the stream; grid, [_alpha],
    prediction, activations, counts, descriptors and weights are those
    written.  On a predictor with at least one code per column and code
    buffers of one cell per column, [activate] on the predictor read back
    gives what it gives on the one written, whatever [exp] computes. *)
Theorem predictor_stream_round_trip `{Codec IntBuffer} `{Codec FloatBuffer}
    `{Codec SparseMatrix.t} {G} `{UniformReal G} (exp : F32.float -> F32.float)
    (cs : ComputeSystem G) (inputCs : list IntBuffer) (p : Predictor.State)
    (rest : Stream) :
  let hs := Predictor._hiddenSize p in
  length (Predictor._visibleLayerDescs p) = length (Predictor._visibleLayers p) ->
  0 <= x3 hs * y3 hs ->
  Predictor.readFromStream (Predictor.writeToStream p ++ rest) =
    Some (Predictor.persisted p, rest) /\
  (Predictor.sized p ->
   Predictor.activate exp cs inputCs (Predictor.persisted p) =
   Predictor.activate exp cs inputCs p).
Proof.
  intros hs Hlen Hn. split; [by apply predictor_round_trip |].
  intros Hs. apply predictor_activate_forgets; [done |].
  destruct Hs as (_ & _ & _ & _ & Hlt). rewrite length_replicate. subst hs. lia.
Qed.

Lemma predictor_stream_round_trip_witness :
  Predictor.readFromStream (Predictor.writeToStream MoreExamples.predictor ++ [DInt 5]) =
    Some (Predictor.persisted MoreExamples.predictor, [DInt 5]).
Proof.
  assert (Hl : length (Predictor._visibleLayerDescs MoreExamples.predictor) =
               length (Predictor._visibleLayers MoreExamples.predictor)) by reflexivity.
  assert (Hn : 0 <= x3 (Predictor._hiddenSize MoreExamples.predictor) *
                    y3 (Predictor._hiddenSize MoreExamples.predictor)) by (simpl; lia).
  exact (proj1 (predictor_stream_round_trip MoreExamples.flat (mkCS 0) [[1]]
                  MoreExamples.predictor [DInt 5] Hl Hn)).
Defined.

(** ** Creation of the predictor *)

Section PredictorCreate.
Import Predictor.
Context {G : Type} `{UniformReal G}.
Variable initSMLocalRF : Int3 -> Int3 -> Z -> SparseMatrix.t.
Implicit Types (p : State) (rng : G).

Lemma predictor_length_addCounts hs vld m c c' :
  addCounts hs vld m c = Some c' -> length c' = length c.
Proof.
  unfold addCounts. destruct (_ && _); [done |]. intros [= <-].
  generalize (seqZ 0 (x3 hs * y3 hs)). intros l. revert c.
  induction l as [| i l IH]; intros c; [done |].
  cbn [foldl]. rewrite IH. apply length_write.
Qed.

Lemma predictor_createLayers_loop hs descs (l : list nat) layers counts rng :
  (forall vli, vli ∈ l -> (vli < length layers)%nat /\
                          z3 (_size (descs !!! vli)) <> 0) ->
  exists layers' counts' rng',
    foldl (createLayer initSMLocalRF hs descs) (Some (layers, counts, rng)) l =
      Some (layers', counts', rng') /\
    length layers' = length layers /\ length counts' = length counts /\
    (forall vli vl, vli ∈ l -> layers' !! vli = Some vl ->
       Forall (fun w => F32.leb F32.lit_neg_0_0001 w = true /\
                        F32.leb w F32.lit_0_0001 = true)
              (SparseMatrix._nonZeroValues (_weights vl))) /\
    (forall vli, vli ∉ l -> layers' !! vli = layers !! vli).
Proof.
  revert layers counts rng. induction l as [| vli l IH] using rev_ind;
    intros layers counts rng Hl.
  - exists layers, counts, rng. split; [done |]. split; [done |]. split; [done |].
    split; [| done]. intros vli vl Hin. by apply elem_of_nil in Hin.
  - rewrite foldl_app.
    destruct (IH layers counts rng) as (layers1 & counts1 & rng1 & -> & Hlen & Hlc & Hin & Hout).
    { intros i Hi. apply Hl, elem_of_app. by left. }
    destruct (Hl vli) as [Hvli Hz]; [apply elem_of_app; right; by apply list_elem_of_singleton |].
    cbn [foldl]. unfold createLayer at 1. cbn [mbind option_bind].
    pose proof (drawWeights_range F32.lit_neg_0_0001 F32.lit_0_0001
                  (initSMLocalRF (_size (descs !!! vli)) hs (_radius (descs !!! vli)))
                  rng1 eq_refl) as Hband.
    destruct (Actor.drawWeights _ _ _ rng1) as [w rng2]. simpl in Hband.
    destruct (addCounts hs (descs !!! vli) w counts1) as [counts2 |] eqn:Ec.
    2:{ unfold addCounts in Ec. destruct (Z.eqb_spec (z3 (_size (descs !!! vli))) 0); [done |].
        by rewrite andb_false_r in Ec. }
    cbn [mbind option_bind].
    exists (<[vli := mkLayer w]> layers1), counts2, rng2.
    split; [done |]. split; [by rewrite length_insert |].
    split; [by rewrite (predictor_length_addCounts _ _ _ _ _ Ec) |].
    split.
    + intros i vl Hi Hvl.
      destruct (decide (i = vli)) as [-> | Hne].
      * rewrite list_lookup_insert_eq in Hvl by lia. by injection Hvl as <-.
      * rewrite list_lookup_insert_ne in Hvl by done.
        apply (Hin i vl); [| done].
        apply elem_of_app in Hi as [Hi | Hi]; [done |].
        by apply list_elem_of_singleton in Hi.
    + intros i Hi. apply not_elem_of_app in Hi as [Hi Hne].
      rewrite list_lookup_insert_ne by (intros ->; apply Hne; by apply list_elem_of_singleton).
      by apply Hout.
Qed.

Lemma allocFloats_Some n : 0 <= n -> allocFloats n = Some (replicate (Z.to_nat n) F32.zero).
Proof. intros Hn. unfold allocFloats. by destruct (Z.ltb_spec n 0); [lia |]. Qed.
End PredictorCreate.

(** X20.  [Predictor::initRandom] on a hidden grid without negative extents
    and with at least one code per column, over layers of depth other
    than 0, returns a predictor with the given grid and descriptors, one
    layer per descriptor, every weight drawn between [-0.0001f] and
    [0.0001f], one count per column, and zeroed prediction, scratch codes
    and activations of the sizes of the grid: its buffers are sized as
    [activate] needs them.  [_alpha] is not touched. *)
Theorem predictor_initRandom_gives_a_sized_predictor {G} `{UniformReal G}
    (initSMLocalRF : Int3 -> Int3 -> Z -> SparseMatrix.t) (cs : ComputeSystem G)
    (hiddenSize : Int3) (visibleLayerDescs : list Predictor.VisibleLayerDesc)
    (p : Predictor.State) :
  let n := x3 hiddenSize * y3 hiddenSize in
  0 <= x3 hiddenSize -> 0 <= y3 hiddenSize -> 1 <= z3 hiddenSize ->
  Forall (fun vld => z3 (Predictor._size vld) <> 0) visibleLayerDescs ->
  exists cs' p',
    Predictor.initRandom initSMLocalRF cs hiddenSize visibleLayerDescs p = Some (cs', p') /\
    Predictor._hiddenSize p' = hiddenSize /\
    Predictor._visibleLayerDescs p' = visibleLayerDescs /\
    Predictor._alpha p' = Predictor._alpha p /\
    length (Predictor._visibleLayers p') = length visibleLayerDescs /\
    Forall (fun vl =>
              Forall (fun w => F32.leb F32.lit_neg_0_0001 w = true /\
                               F32.leb w F32.lit_0_0001 = true)
                     (SparseMatrix._nonZeroValues (Predictor._weights vl)))
           (Predictor._visibleLayers p') /\
    length (Predictor._hiddenCounts p') = Z.to_nat n /\
    Predictor._hiddenCs p' = replicate (Z.to_nat n) 0 /\
    Predictor._hiddenCsTemp p' = replicate (Z.to_nat n) 0 /\
    Predictor._hiddenActivations p' = replicate (Z.to_nat (n * z3 hiddenSize)) F32.zero /\
    Predictor.sized p'.
Proof.
  intros n Hx Hy Hz Hdescs. unfold Predictor.initRandom. fold n.
  assert (Hn : 0 <= n) by (unfold n; nia).
  rewrite (alloc_Some n Hn). cbn [mbind option_bind].
  set (layers := resize _ _ _).
  assert (Hll : length layers = length visibleLayerDescs) by apply length_resize.
  destruct (predictor_createLayers_loop initSMLocalRF hiddenSize visibleLayerDescs
              (seq 0 (length layers)) layers (replicate (Z.to_nat n) 0) (_rng cs))
    as (layers' & counts' & rng' & -> & Hlen & Hlc & Hin & _).
  { intros vli Hvli. apply elem_of_seq in Hvli. split; [lia |].
    destruct (lookup_lt_is_Some_2 visibleLayerDescs vli ltac:(lia)) as [vld Hvld].
    rewrite (list_lookup_total_correct _ _ _ Hvld).
    by eapply Forall_lookup_1 in Hdescs. }
  cbn [mbind option_bind].
  rewrite (allocFloats_Some (n * z3 hiddenSize)) by nia. cbn [mbind option_bind].
  eexists _, _. split; [reflexivity |]. simpl.
  split; [done |]. split; [done |]. split; [done |]. split; [congruence |].
  split.
  { apply Forall_lookup. intros vli vl Hvl. apply (Hin vli vl); [| done].
    apply elem_of_seq. apply lookup_lt_Some in Hvl. lia. }
  split; [by rewrite Hlc, length_replicate |].
  split; [done |]. split; [done |]. split; [done |].
  unfold Predictor.sized. simpl. rewrite length_replicate. fold n. lia.
Qed.

Lemma predictor_initRandom_gives_a_sized_predictor_witness :
  exists cs' p',
    Predictor.initRandom (fun _ _ _ => Example.weights) (mkCS 0) (mkInt3 1 1 2)
      [Predictor.mkDesc (mkInt3 1 1 2) 0] MoreExamples.predictor = Some (cs', p') /\
    Predictor.sized p'.
Proof.
  assert (Hx : 0 <= x3 (mkInt3 1 1 2)) by (simpl; lia).
  assert (Hy : 0 <= y3 (mkInt3 1 1 2)) by (simpl; lia).
  assert (Hz : 1 <= z3 (mkInt3 1 1 2)) by (simpl; lia).
  assert (Hd : Forall (fun vld => z3 (Predictor._size vld) <> 0)
                 [Predictor.mkDesc (mkInt3 1 1 2) 0]).
  { constructor; [simpl; lia | constructor]. }
  destruct (predictor_initRandom_gives_a_sized_predictor (fun _ _ _ => Example.weights)
              (mkCS 0) (mkInt3 1 1 2) [Predictor.mkDesc (mkInt3 1 1 2) 0]
              MoreExamples.predictor Hx Hy Hz Hd)
    as (cs' & p' & E & _ & _ & _ & _ & _ & _ & _ & _ & _ & Hs).
  exists cs', p'. split; [exact E | exact Hs].
Defined.

(** ** What the learn pass of the sparse coder reads *)

Section CoderLearnReads.
Import SparseCoder.
Context {G : Type}.
Implicit Types (sc : State) (rng : G).

(** The learn kernel reads the hidden codes and the weights, not the
    activations or the reconstruction codes. *)
Lemma learnWeights_congr sc sc' vli pos inputCs w :
  sameModel sc sc' -> _hiddenCs sc' = _hiddenCs sc ->
  learnWeights sc' vli pos inputCs w = learnWeights sc vli pos inputCs w.
Proof.
  intros Hm Hcs. unfold learnWeights.
  rewrite (desc_sameModel sc sc' vli Hm), (layer_sameModel sc sc' vli Hm).
  destruct Hm as (Hh & _ & Ha & _).
  apply foldl_ext_in. intros w' vc _.
  unfold learnStep, deltaOf, average, support, hiddenWindow, weightIndex. simpl.
  by rewrite Hh, Hcs, Ha.
Qed.

Lemma learn_congr pos rng inputCs vli sc sc' :
  sameModel sc sc' -> _hiddenCs sc' = _hiddenCs sc ->
  sameModel (learn pos rng inputCs vli sc) (learn pos rng inputCs vli sc') /\
  _hiddenCs (learn pos rng inputCs vli sc') = _hiddenCs (learn pos rng inputCs vli sc).
Proof.
  intros Hm Hcs. split; [| done].
  pose proof Hm as (Hh & Hd & Ha & He & Hlc & Hla & Hl).
  unfold learn, sameModel. simpl.
  split; [done |]. split; [done |]. split; [done |]. split; [done |].
  split; [done |]. split; [done |].
  apply Forall2_same_length_lookup. split.
  { rewrite !length_alter. by eapply Forall2_length. }
  intros i vl vl' Hvl Hvl'. rewrite list_lookup_alter in Hvl, Hvl'.
  destruct (decide (vli = i)) as [<- | Hne].
  - destruct (_visibleLayers sc !! vli) as [v |] eqn:Ev; [| done].
    destruct (_visibleLayers sc' !! vli) as [v' |] eqn:Ev'; [| done].
    simpl in Hvl, Hvl'. injection Hvl as <-. injection Hvl' as <-.
    destruct (Forall2_lookup_lr _ _ _ _ _ _ Hl Ev Ev') as [Hv Hr].
    rewrite Hv. simpl. rewrite (learnWeights_congr sc sc' vli pos inputCs _ Hm Hcs).
    done.
  - exact (Forall2_lookup_lr _ _ _ _ _ _ Hl Hvl Hvl').
Qed.

Lemma learn_fold_congr rng inputCs vli (l : list Int2) sc sc' :
  sameModel sc sc' -> _hiddenCs sc' = _hiddenCs sc ->
  sameModel (foldl (fun sc pos => learn pos rng inputCs vli sc) sc l)
            (foldl (fun sc pos => learn pos rng inputCs vli sc) sc' l) /\
  _hiddenCs (foldl (fun sc pos => learn pos rng inputCs vli sc) sc' l) =
  _hiddenCs (foldl (fun sc pos => learn pos rng inputCs vli sc) sc l).
Proof.
  revert sc sc'. induction l as [| pos l IH]; intros sc sc' Hm Hcs; [done |].
  cbn [foldl]. destruct (learn_congr pos rng inputCs vli sc sc' Hm Hcs). by apply IH.
Qed.

Lemma learnAll_congr (cs : ComputeSystem G) visibleCs sc sc' :
  sameModel sc sc' -> _hiddenCs sc' = _hiddenCs sc ->
  sameModel (learnAll cs visibleCs sc) (learnAll cs visibleCs sc') /\
  _hiddenCs (learnAll cs visibleCs sc') = _hiddenCs (learnAll cs visibleCs sc).
Proof.
  intros Hm Hcs. unfold learnAll.
  assert (Hlen : length (_visibleLayers sc') = length (_visibleLayers sc)).
  { destruct Hm as (_ & _ & _ & _ & _ & _ & Hl). symmetry. by eapply Forall2_length. }
  rewrite Hlen. generalize (seq 0 (length (_visibleLayers sc))). intros l.
  revert sc sc' Hm Hcs Hlen. induction l as [| vli l IH]; intros sc sc' Hm Hcs Hlen; [done |].
  cbn [foldl]. rewrite (desc_sameModel sc sc' vli Hm).
  destruct (learn_fold_congr (_rng cs) visibleCs vli
              (Helpers.grid (x3 (_size (desc sc vli))) (y3 (_size (desc sc vli))))
              sc sc' Hm Hcs) as [Hm1 Hcs1].
  apply IH; [done | done |].
  destruct Hm1 as (_ & _ & _ & _ & _ & _ & Hl). symmetry. by eapply Forall2_length.
Qed.
End CoderLearnReads.

(** X21.  The learn pass of the sparse coder reads the hidden codes and
    the weights, not the activations or the reconstruction codes: two
    coders with the same grids, parameters, weights and hidden codes
    learn the same weights, whatever those buffers hold.  (A coder read
    back from a stream is such a coder for the one written.) *)
Theorem coder_learn_ignores_transient_buffers {G} (cs : ComputeSystem G)
    (visibleCs : list IntBuffer) (sc sc0 : SparseCoder.State) :
  SparseCoder.sameModel sc sc0 ->
  SparseCoder._hiddenCs sc0 = SparseCoder._hiddenCs sc ->
  SparseCoder.sameModel (SparseCoder.learnAll cs visibleCs sc)
                        (SparseCoder.learnAll cs visibleCs sc0) /\
  SparseCoder._hiddenCs (SparseCoder.learnAll cs visibleCs sc0) =
    SparseCoder._hiddenCs (SparseCoder.learnAll cs visibleCs sc) /\
  (forall vli,
     SparseCoder._weights <$> SparseCoder._visibleLayers
                                (SparseCoder.learnAll cs visibleCs sc0) !! vli =
     SparseCoder._weights <$> SparseCoder._visibleLayers
                                (SparseCoder.learnAll cs visibleCs sc) !! vli).
Proof.
  intros Hm Hcs. destruct (learnAll_congr cs visibleCs sc sc0 Hm Hcs) as [Hm' Hcs'].
  split; [done |]. split; [done |].
  intros vli. destruct Hm' as (_ & _ & _ & _ & _ & _ & Hl).
  destruct (SparseCoder._visibleLayers (SparseCoder.learnAll cs visibleCs sc) !! vli)
    as [vl |] eqn:E.
  - destruct (Forall2_lookup_l _ _ _ _ _ Hl E) as (vl' & -> & -> & _). done.
  - apply Forall2_length in Hl.
    rewrite (proj2 (lookup_ge_None _ vli)); [done |].
    apply lookup_ge_None in E. lia.
Qed.

Lemma coder_learn_ignores_transient_buffers_witness :
  SparseCoder.sameModel
    (SparseCoder.learnAll (mkCS 0) CoderExample.input CoderExample.coder)
    (SparseCoder.learnAll (mkCS 0) CoderExample.input
       (SparseCoder.persisted CoderExample.coder)).
Proof.
  assert (Hs : SparseCoder.sized CoderExample.coder).
  { unfold SparseCoder.sized. simpl.
    split; [lia |]. split; [lia |]. split; [lia |]. split; [reflexivity |].
    intros [| ?] vl; simpl; [| discriminate]. intros [= <-].
    split; [lia |]. split; [lia |]. split; [lia | reflexivity]. }
  apply (coder_learn_ignores_transient_buffers (mkCS 0) CoderExample.input
           CoderExample.coder (SparseCoder.persisted CoderExample.coder)).
  - apply persisted_sameModel; [exact Hs | reflexivity | reflexivity].
  - reflexivity.
Defined.

(** ** The forward kernels of the actor *)

Section ActorOrder.
Import Actor Helpers.
Context {G : Type}.
Implicit Types (a : State) (rng : G).

Lemma address2C_inj sx sy pos pos' :
  0 <= y2 pos < sy -> 0 <= y2 pos' < sy ->
  address2C pos (mkInt2 sx sy) = address2C pos' (mkInt2 sx sy) -> pos = pos'.
Proof.
  unfold address2C. simpl. intros Hp Hp' He.
  destruct (radix_inj sy (y2 pos) (y2 pos') (x2 pos) (x2 pos') Hp Hp' He).
  destruct pos, pos'. simpl in *. congruence.
Qed.

Lemma NoDup_forwardWrites a inputCs (l : list Int2) :
  l ≡ₚ grid (x3 (_hiddenSize a)) (y3 (_hiddenSize a)) ->
  NoDup (forwardWrites a inputCs l).*1.
Proof.
  intros Hp. unfold forwardWrites. rewrite <- list_fmap_compose.
  apply NoDup_fmap_2_strong; [| rewrite Hp; apply NoDup_grid].
  intros p p' Hin Hin' He. rewrite Hp in Hin, Hin'.
  apply elem_of_grid in Hin, Hin'. simpl in He.
  apply (address2C_inj (x3 (_hiddenSize a)) (y3 (_hiddenSize a))); [lia | lia | done].
Qed.

Lemma actor_forward_any_order rng inputCs a (l : list Int2) :
  l ≡ₚ grid (x3 (_hiddenSize a)) (y3 (_hiddenSize a)) ->
  foldl (fun a pos => forward pos rng inputCs a) a l = forwardPass rng inputCs a.
Proof.
  intros Hp. rewrite <- (set_hiddenCs_id a) at 1.
  rewrite forward_fold_writes, forwardPass_writes. f_equal.
  apply (writes_perm 0); [by apply NoDup_forwardWrites |].
  unfold forwardWrites. by apply fmap_Permutation.
Qed.

Lemma forwardPass_column rng inputCs a pos :
  pos ∈ grid (x3 (_hiddenSize a)) (y3 (_hiddenSize a)) ->
  0 <= address2C pos (hiddenDims a) < Z.of_nat (length (_hiddenCs a)) ->
  read 0 (_hiddenCs (forwardPass rng inputCs a)) (address2C pos (hiddenDims a)) =
    (argmax a pos inputCs).1.
Proof.
  intros Hpos Hr. rewrite forwardPass_writes. simpl.
  rewrite (writes_as_rmw 0).
  set (ws := forwardWrites a inputCs _).
  assert (Hin : (address2C pos (hiddenDims a), (argmax a pos inputCs).1) ∈ ws).
  { unfold ws, forwardWrites. apply list_elem_of_fmap. by exists pos. }
  exact (rmw_read_in 0 (fun w _ => w.2) fst ws (_hiddenCs a) _
           (NoDup_forwardWrites a inputCs _ (reflexivity _)) Hin Hr).
Qed.
End ActorOrder.

(** X22.  The forward kernels of the actor do not depend on one another:
    run over the hidden columns in any order, they give the state that
    the x-outer, y-inner pass of [step] gives, in which every column of
    the grid that has a cell in [_hiddenCs] holds the action code its
    kernel computes from the weights and the inputs. *)
Theorem actor_forward_kernels_commute {G} (rng : G) (inputCs : list IntBuffer)
    (a : Actor.State) (l : list Int2) :
  let hs := Actor._hiddenSize a in
  l ≡ₚ Helpers.grid (x3 hs) (y3 hs) ->
  foldl (fun a pos => Actor.forward pos rng inputCs a) a l =
    Actor.forwardPass rng inputCs a /\
  (forall pos, pos ∈ l ->
     0 <= Helpers.address2C pos (Actor.hiddenDims a)
       < Z.of_nat (length (Actor._hiddenCs a)) ->
     read 0 (Actor._hiddenCs (Actor.forwardPass rng inputCs a))
       (Helpers.address2C pos (Actor.hiddenDims a)) =
     (Actor.argmax a pos inputCs).1).
Proof.
  intros hs Hp. subst hs. split; [by apply actor_forward_any_order |].
  intros pos Hpos Hr. apply forwardPass_column; [| done]. by rewrite <- Hp.
Qed.

Lemma actor_forward_kernels_commute_witness :
  foldl (fun a pos => Actor.forward pos 0 [[1; 0]] a) MoreExamples.wide
        [mkInt2 1 0; mkInt2 0 0] =
  Actor.forwardPass 0 [[1; 0]] MoreExamples.wide.
Proof.
  apply (actor_forward_kernels_commute 0 [[1; 0]] MoreExamples.wide
           [mkInt2 1 0; mkInt2 0 0]).
  apply Permutation_swap.
Defined.
